(** * fast-cma-es: the LDE and MODE engines (ldeoptimizer.cpp, modeoptimizer.cpp)

    A shallow embedding of the two C++ engines and of the C entry points of
    the MODE ask/tell interface, together with the properties stated about
    them.

    Conventions of the embedding.
    - [double] values are an abstract type [D] with the operations the code
      uses (class [Double]).  Two instances are given: IEEE binary64
      (Rocq's primitive floats), on which the code is run on concrete inputs,
      and the integers.  The laws [IEEELaws] are those of the order and of
      the subtraction of binary64, NaN included, and are proved of it; the
      laws [DoubleLaws] are those of an order without NaN, which the
      integers satisfy.
    - An Eigen [vec] is a list of coordinates, a [mat] is the list of its
      columns (Eigen's default column-major storage).
    - The random engine is a parameter (class [Rng]): a state with one
      operation per distribution object of the source.
    - Member functions are computations in a state monad over the object
      they belong to; unbounded loops take a step budget, and an access
      that fails an assertion of Eigen ends the computation in [Fault]. *)

From Stdlib Require Import ZArith List Bool Lia Floats Permutation Sorted.
Import ListNotations.
Open Scope Z_scope.

(** ** Doubles *)

Class Double (D : Type) : Type := {
  d_add : D -> D -> D;
  d_sub : D -> D -> D;
  d_mul : D -> D -> D;
  d_div : D -> D -> D;
  d_opp : D -> D;
  d_abs : D -> D;
  d_ltb : D -> D -> bool;
  d_leb : D -> D -> bool;
  d_eqb : D -> D -> bool;
  d_isnan : D -> bool;       (* std::isnan *)
  d_isfinite : D -> bool;    (* std::isfinite *)
  d_of_int : Z -> D;         (* conversion of an integer (or integer literal) *)
  d_to_int : D -> Z;         (* the cast (int)x: truncation toward zero *)
  d_round : D -> D           (* round(): nearest integer, halves away from zero *)
}.

Declare Scope dbl_scope.
Delimit Scope dbl_scope with dbl.
Infix "+" := d_add : dbl_scope.
Infix "-" := d_sub : dbl_scope.
Infix "*" := d_mul : dbl_scope.
Infix "/" := d_div : dbl_scope.
Infix "<?" := d_ltb : dbl_scope.
Infix "<=?" := d_leb : dbl_scope.
Infix "=?" := d_eqb : dbl_scope.

Section Literals.
Context {D : Type} `{Double D}.

(** The decimal literal [m]e[e10]: [d_lit 5 (-1)] is [0.5]. *)
Definition d_lit (m e10 : Z) : D :=
  if 0 <=? e10 then d_of_int (m * 10 ^ e10)
  else (d_of_int m / d_of_int (10 ^ (- e10)))%dbl.

Definition d_0 : D := d_of_int 0.
Definition d_1 : D := d_of_int 1.
Definition d_0_5 : D := d_lit 5 (-1).
Definition d_0_25 : D := d_lit 25 (-2).
Definition d_1E99 : D := d_lit 1 99.
(** float.h: DBL_MAX = (2 - 2^-52) * 2^1023. *)
Definition DBL_MAX : D := d_of_int (2 ^ 1024 - 2 ^ 971).

(** std::min(a, b), std::max(a, b): Eigen's cwiseMin, cwiseMax and maxCoeff
    reduce with them. *)
Definition d_min (a b : D) : D := if (b <? a)%dbl then b else a.
Definition d_max (a b : D) : D := if (a <? b)%dbl then b else a.
End Literals.

(** The order and subtraction laws of doubles that are not NaN (and whose
    differences do not overflow). *)
Class DoubleLaws (D : Type) `{Double D} : Prop := {
  d_leb_total : forall x y : D, (x <=? y)%dbl = true \/ (y <=? x)%dbl = true;
  d_leb_trans : forall x y z : D,
      (x <=? y)%dbl = true -> (y <=? z)%dbl = true -> (x <=? z)%dbl = true;
  d_ltb_leb : forall x y : D, (x <? y)%dbl = negb (y <=? x)%dbl;
  d_eqb_leb : forall x y : D, (x =? y)%dbl = (x <=? y)%dbl && (y <=? x)%dbl;
  d_sub_eqb : forall x y : D, (x =? y)%dbl = true -> (y - x =? d_0)%dbl = true;
  d_sub_pos : forall x y : D, (x <? y)%dbl = true -> (d_0 <? y - x)%dbl = true
}.

(** The laws of IEEE doubles: the order laws hold of values that are not
    NaN, a comparison with a NaN is false, and the difference of two finite
    values is not NaN, is 0 when they are equal and is positive when the
    subtrahend is the smaller one (gradual underflow). *)
Class IEEELaws (D : Type) `{Double D} : Prop := {
  ieee_leb_total : forall x y : D,
      d_isnan x = false -> d_isnan y = false ->
      (x <=? y)%dbl = true \/ (y <=? x)%dbl = true;
  ieee_leb_trans : forall x y z : D,
      (x <=? y)%dbl = true -> (y <=? z)%dbl = true -> (x <=? z)%dbl = true;
  ieee_ltb_leb : forall x y : D,
      d_isnan x = false -> d_isnan y = false ->
      (x <? y)%dbl = negb (y <=? x)%dbl;
  ieee_ltb_nan : forall x y : D,
      (x <? y)%dbl = true -> d_isnan x = false /\ d_isnan y = false;
  ieee_leb_nan : forall x y : D,
      (x <=? y)%dbl = true -> d_isnan x = false /\ d_isnan y = false;
  ieee_eqb_leb : forall x y : D,
      (x =? y)%dbl = (x <=? y)%dbl && (y <=? x)%dbl;
  ieee_finite_nan : forall x : D, d_isfinite x = true -> d_isnan x = false;
  ieee_sub_nan : forall x y : D,
      d_isfinite x = true -> d_isfinite y = true -> d_isnan (y - x)%dbl = false;
  ieee_sub_eqb : forall x y : D,
      d_isfinite x = true -> d_isfinite y = true ->
      (x =? y)%dbl = true -> (y - x =? d_0)%dbl = true;
  ieee_sub_pos : forall x y : D,
      d_isfinite x = true -> d_isfinite y = true ->
      (x <? y)%dbl = true -> (d_0 <? y - x)%dbl = true
}.

(** *** IEEE binary64 *)

Module F64.
(** Correctly rounded conversion of an integer. *)
Definition of_Z (z : Z) : float :=
  SF2Prim (binary_normalize prec emax z 0 false).

(** Truncation toward zero; the cast is undefined on NaN and infinities,
    where 0 is returned. *)
Definition to_Z (f : float) : Z :=
  match Prim2SF f with
  | S754_finite s m e =>
      let v := if 0 <=? e then Z.pos m * 2 ^ e else Z.pos m / 2 ^ (- e) in
      if s then - v else v
  | _ => 0
  end.

Definition round (f : float) : float :=
  match Prim2SF f with
  | S754_finite s m e =>
      if 0 <=? e then f
      else
        let q := Z.pos m / 2 ^ (- e) in
        let r := Z.pos m mod 2 ^ (- e) in
        let v := if 2 ^ (- e) <=? 2 * r then q + 1 else q in
        of_Z (if s then - v else v)
  | _ => f
  end.
End F64.

#[export] Instance Double_float : Double float := {
  d_add := PrimFloat.add;
  d_sub := PrimFloat.sub;
  d_mul := PrimFloat.mul;
  d_div := PrimFloat.div;
  d_opp := PrimFloat.opp;
  d_abs := PrimFloat.abs;
  d_ltb := PrimFloat.ltb;
  d_leb := PrimFloat.leb;
  d_eqb := PrimFloat.eqb;
  d_isnan := PrimFloat.is_nan;
  d_isfinite := PrimFloat.is_finite;
  d_of_int := F64.of_Z;
  d_to_int := F64.to_Z;
  d_round := F64.round
}.

(** *** Integers as NaN-free numbers *)

#[export] Instance Double_Z : Double Z := {
  d_add := Z.add;
  d_sub := Z.sub;
  d_mul := Z.mul;
  d_div := Z.quot;
  d_opp := Z.opp;
  d_abs := Z.abs;
  d_ltb := Z.ltb;
  d_leb := Z.leb;
  d_eqb := Z.eqb;
  d_isnan := fun _ => false;
  d_isfinite := fun _ => true;
  d_of_int := fun z => z;
  d_to_int := fun z => z;
  d_round := fun z => z
}.

(** ** Vectors and matrices *)

Section Vectors.
Context {D : Type} `{Double D}.

Definition vec := list D.
Definition mat := list vec.

Definition zeros (n : nat) : vec := repeat d_0 n.
Definition constant (n : nat) (val : D) : vec := repeat val n.

(** [v[i]], and 0 past the end of [v]. *)
Definition vget (v : vec) (i : nat) : D := nth i v d_0.
(** [m.col(p)], and the empty vector past the last column.  Where the code
    itself runs an index out of range or assigns columns of two sizes, the
    access is guarded and ends in [Fault] (nextX and tellAll of MODE). *)
Definition col (m : mat) (p : nat) : vec := nth p m [].
(** [m.row(j)] *)
Definition row (m : mat) (j : nat) : vec := map (fun c => vget c j) m.

(** [l[i] = v] *)
Fixpoint upd {A : Type} (l : list A) (i : nat) (v : A) : list A :=
  match l, i with
  | [], _ => []
  | _ :: t, O => v :: t
  | h :: t, S k => h :: upd t k v
  end.

(** Coefficient-wise binary operation on two vectors of one size. *)
Definition cwise (f : D -> D -> D) (a b : vec) : vec :=
  map (fun xy => f (fst xy) (snd xy)) (combine a b).

(** [v.maxCoeff()], for a non-empty vector. *)
Definition maxCoeff (v : vec) : D :=
  match v with
  | [] => d_0
  | h :: t => fold_left d_max t h
  end.
End Vectors.

Arguments vec D : clear implicits.
Arguments mat D : clear implicits.

(** ** Random engine

    [Eigen::Rand::P8_mt19937_64] and the distribution objects drawing from it
    belong to an external library; the engine state is a parameter, with one
    operation per distribution. *)

Class Rng (D R : Type) : Type := {
  distr_01 : R -> D * R;   (* uniform_real_distribution<>(0, 1) *)
  gauss_01 : R -> D * R    (* normal_distribution<>(0, 1) *)
}.

(** A random engine that replays a tape of uniform and of normal draws; an
    exhausted tape yields zeros. *)
Record tape (D : Type) : Type := mkTape { uniforms : list D; normals : list D }.
Arguments mkTape {D} _ _.
Arguments uniforms {D} _.
Arguments normals {D} _.

#[export] Instance Rng_tape {D : Type} `{Double D} : Rng D (tape D) := {
  distr_01 := fun t =>
    match uniforms t with
    | [] => (d_0, t)
    | u :: us => (u, mkTape us (normals t))
    end;
  gauss_01 := fun t =>
    match normals t with
    | [] => (d_0, t)
    | g :: gs => (g, mkTape (uniforms t) gs)
    end
}.

(** A random engine for runs on doubles: a linear congruential generator
    modulo 65537, whose state n yields the uniform draw n / 65537 of [0, 1)
    and the draw (n - 32768) / 16384 for the normal distribution. *)
Record lcg : Type := mkLcg { lcg_state : Z }.

Definition lcg_next (r : lcg) : lcg :=
  mkLcg ((75 * lcg_state r + 74) mod 65537).

#[export] Instance Rng_lcg : Rng float lcg := {
  distr_01 := fun r =>
    ((F64.of_Z (lcg_state r) / F64.of_Z 65537)%float, lcg_next r);
  gauss_01 := fun r =>
    (((F64.of_Z (lcg_state r) - 32768) / 16384)%float, lcg_next r)
}.

(** ** Computations on an object's state *)

Section Monad.
Variable S : Type.

Inductive outcome (A : Type) : Type :=
| Ret (a : A) (s : S)    (* normal completion with a value *)
| Exit (s : S)           (* a [return] that leaves the member function *)
| Timeout (s : S)        (* the step budget of a loop ran out at state s *)
| Fault (s : S).         (* an Eigen assertion fails at state s: a column
                            index out of range, or columns of two sizes *)

Arguments Ret {A} _ _.
Arguments Exit {A} _.
Arguments Timeout {A} _.
Arguments Fault {A} _.

Definition M (A : Type) : Type := S -> outcome A.

Definition ret {A} (a : A) : M A := fun s => Ret a s.

Definition bind {A B} (m : M A) (f : A -> M B) : M B :=
  fun s =>
    match m s with
    | Ret a s' => f a s'
    | Exit s' => Exit s'
    | Timeout s' => Timeout s'
    | Fault s' => Fault s'
    end.

Definition get : M S := fun s => Ret s s.
Definition gets {A} (f : S -> A) : M A := fun s => Ret (f s) s.
Definition modify_state (f : S -> S) : M unit := fun s => Ret tt (f s).
Definition exit {A} : M A := fun s => Exit s.
Definition timeout {A} : M A := fun s => Timeout s.
Definition fault {A} : M A := fun s => Fault s.

(** The state at which a computation ends, however it ends. *)
Definition final {A} (o : outcome A) : S :=
  match o with
  | Ret _ s => s
  | Exit s => s
  | Timeout s => s
  | Fault s => s
  end.

(** The body of a member function: a [return] inside it ends the call. *)
Definition call (m : M unit) : M unit :=
  fun s =>
    match m s with
    | Exit s' => Ret tt s'
    | o => o
    end.

(** [for (x : l) body] *)
Fixpoint for_each {X} (l : list X) (body : X -> M unit) : M unit :=
  match l with
  | [] => ret tt
  | x :: t => bind (body x) (fun _ => for_each t body)
  end.

(** A loop that threads a local variable: [for (x : l) a = body(x, a)]. *)
Fixpoint fold_each {X A} (l : list X) (body : X -> A -> M A) (a : A) : M A :=
  match l with
  | [] => ret a
  | x :: t => bind (body x a) (fun a' => fold_each t body a')
  end.

(** [do { a = body; } while (again a)], at most [fuel] rounds. *)
Fixpoint do_while {A} (fuel : nat) (body : M A) (again : A -> bool) : M A :=
  match fuel with
  | O => timeout
  | Datatypes.S k =>
      bind body (fun a => if again a then do_while k body again else ret a)
  end.
End Monad.

Arguments Ret {S A} _ _.
Arguments Exit {S A} _.
Arguments Timeout {S A} _.
Arguments Fault {S A} _.
Arguments ret {S A} _ _.
Arguments bind {S A B} _ _ _.
Arguments get {S} _.
Arguments gets {S A} _ _.
Arguments modify_state {S} _ _.
Arguments exit {S A} _.
Arguments timeout {S A} _.
Arguments fault {S A} _.
Arguments final {S A} _.
Arguments call {S} _ _.
Arguments for_each {S X} _ _ _.
Arguments fold_each {S X A} _ _ _ _.
Arguments do_while {S A} _ _ _ _.

Declare Scope monad_scope.
Delimit Scope monad_scope with monad.
Notation "x <- m ;; k" := (bind m (fun x => k))
  (at level 61, m at next level, right associativity) : monad_scope.
Notation "m ;; k" := (bind m (fun _ => k))
  (at level 61, right associativity) : monad_scope.
Notation "' pat <- m ;; k" := (bind m (fun x => match x with pat => k end))
  (at level 61, pat pattern, m at next level, right associativity) : monad_scope.


(** Conversion of a [long] to [int] (two's complement, 32 bits). *)
Definition INT_MAX : Z := 2 ^ 31 - 1.
Definition to_int32 (z : Z) : Z := (z + 2 ^ 31) mod 2 ^ 32 - 2 ^ 31.

(** * LDE: ldeoptimizer.cpp *)

Module LDE.
Section Engine.
Context {D : Type} `{Double D} {R : Type} `{Rng D R}.

(** Step budget of the rejection loops and of the generation loop. *)
Variable fuel : nat.

(** ** class Fitness

    [rs] points to the engine that the optimizer owns too; it is kept once, in
    the optimizer's state.  [calls] is a ghost field: the arguments with which
    [func] has been called, latest first. *)
Record Fitness : Type := mkFitness {
  func : vec D -> D;
  fit_dim : Z;
  lower : vec D;
  upper : vec D;
  guess : vec D;
  sigma0 : vec D;
  maxSigma : vec D;
  scale : vec D;
  invScale : vec D;
  xmean : vec D;
  sigma : vec D;
  evaluationCounter : Z;
  calls : list (vec D)
}.

Definition set_xmean (v : vec D) (f : Fitness) : Fitness :=
  mkFitness (func f) (fit_dim f) (lower f) (upper f) (guess f) (sigma0 f)
    (maxSigma f) (scale f) (invScale f) v (sigma f) (evaluationCounter f)
    (calls f).

Definition set_sigma (v : vec D) (f : Fitness) : Fitness :=
  mkFitness (func f) (fit_dim f) (lower f) (upper f) (guess f) (sigma0 f)
    (maxSigma f) (scale f) (invScale f) (xmean f) v (evaluationCounter f)
    (calls f).

Definition count_call (X : vec D) (f : Fitness) : Fitness :=
  mkFitness (func f) (fit_dim f) (lower f) (upper f) (guess f) (sigma0 f)
    (maxSigma f) (scale f) (invScale f) (xmean f) (sigma f)
    (evaluationCounter f + 1) (X :: calls f).

(** Fitness::Fitness *)
Definition Fitness_new (func_ : vec D -> D) (dim_ : Z)
    (lower_limit upper_limit guess_ sigma_ : vec D) : Fitness :=
  let n := Z.to_nat dim_ in
  let scale_ :=
    if (0 <? length lower_limit)%nat then cwise d_sub upper_limit lower_limit
    else constant n d_1 in
  let sigma0_ :=
    if (length sigma_ =? 1)%nat
    then map (d_mul d_0_5)
           (cwise d_mul scale_ (constant n (vget sigma_ 0)))
    else map (d_mul d_0_5) (cwise d_mul scale_ sigma_) in
  mkFitness func_ dim_ lower_limit upper_limit guess_ sigma0_
    (map (d_mul d_0_25) scale_) scale_ (map (d_div d_1) scale_)
    guess_ sigma0_ 0 [].

(** ** class LDeOptimizer

    The members fixed by the constructor are gathered in [params]. *)
Record params : Type := mkParams {
  runid : Z;
  popsize : Z;
  dim : Z;
  maxEvaluations : Z;
  keep : D;
  stopfitness : D;
  F0 : D;
  CR0 : D;
  min_mutate : D;
  max_mutate : D;
  isInt : option (list bool)
}.

Record LDeOptimizer : Type := mkOpt {
  par : params;
  fitfun : Fitness;
  rs : R;
  iterations : Z;
  bestY : D;
  bestX : vec D;
  bestI : Z;
  stop : Z;
  popX : mat D;
  popY : vec D;
  popIter : vec D
}.

Definition set_fitfun (f : Fitness) (o : LDeOptimizer) : LDeOptimizer :=
  mkOpt (par o) f (rs o) (iterations o) (bestY o) (bestX o) (bestI o)
    (stop o) (popX o) (popY o) (popIter o).
Definition set_rs (r : R) (o : LDeOptimizer) : LDeOptimizer :=
  mkOpt (par o) (fitfun o) r (iterations o) (bestY o) (bestX o) (bestI o)
    (stop o) (popX o) (popY o) (popIter o).
Definition set_iterations (i : Z) (o : LDeOptimizer) : LDeOptimizer :=
  mkOpt (par o) (fitfun o) (rs o) i (bestY o) (bestX o) (bestI o)
    (stop o) (popX o) (popY o) (popIter o).
Definition set_best (y : D) (x : vec D) (o : LDeOptimizer) : LDeOptimizer :=
  mkOpt (par o) (fitfun o) (rs o) (iterations o) y x (bestI o)
    (stop o) (popX o) (popY o) (popIter o).
Definition set_bestI (i : Z) (o : LDeOptimizer) : LDeOptimizer :=
  mkOpt (par o) (fitfun o) (rs o) (iterations o) (bestY o) (bestX o) i
    (stop o) (popX o) (popY o) (popIter o).
Definition set_stop (v : Z) (o : LDeOptimizer) : LDeOptimizer :=
  mkOpt (par o) (fitfun o) (rs o) (iterations o) (bestY o) (bestX o) (bestI o)
    v (popX o) (popY o) (popIter o).
Definition set_pop (x : mat D) (y it : vec D) (o : LDeOptimizer)
  : LDeOptimizer :=
  mkOpt (par o) (fitfun o) (rs o) (iterations o) (bestY o) (bestX o) (bestI o)
    (stop o) x y it.

Local Abbreviation M := (M LDeOptimizer).
Local Open Scope monad_scope.

(** ** Random draws *)

Definition rnd01 : M D :=
  s <- get ;;
  let (u, r) := distr_01 (rs s) in
  modify_state (set_rs r) ;; ret u.

Definition gauss : M D :=
  s <- get ;;
  let (g, r) := gauss_01 (rs s) in
  modify_state (set_rs r) ;; ret g.

Definition rnd02 : M D :=
  rnd <- rnd01 ;; ret (rnd * rnd)%dbl.

Definition rndInt (max : Z) : M Z :=
  u <- rnd01 ;; ret (d_to_int (d_of_int max * u)%dbl).

Definition normreal (mean sdev : D) : M D :=
  g <- gauss ;; ret (g * sdev + mean)%dbl.

(** Eigen::Rand::normal<vec>(dim, 1, rs): [n] standard normal draws. *)
Definition normal_vec (n : nat) : M (vec D) :=
  fold_each (seq 0 n) (fun _ acc => g <- gauss ;; ret (acc ++ [g])) [].

(** Eigen::Rand::uniformReal<vec>(dim, 1, rs) *)
Definition uniformVec (n : nat) : M (vec D) :=
  fold_each (seq 0 n) (fun _ acc => u <- rnd01 ;; ret (acc ++ [u])) [].

Definition normalVec (mean sdev : vec D) (n : nat) : M (vec D) :=
  nv <- normal_vec n ;;
  ret (cwise d_add (cwise d_mul nv sdev) mean).

(** ** Fitness member functions *)

Definition updateSigma (X : vec D) : M unit :=
  modify_state (fun s =>
    let f := fitfun s in
    let delta := map (fun d => d_abs d * d_0_5)%dbl (cwise d_sub (xmean f) X) in
    set_fitfun (set_xmean X (set_sigma (cwise d_min delta (maxSigma f)) f)) s).

Definition feasible_at (f : Fitness) (i : nat) (x : D) : bool :=
  (length (lower f) =? 0)%nat
  || ((vget (lower f) i <=? x)%dbl && (x <=? vget (upper f) i)%dbl).

Definition feasible (i : nat) (x : D) : M bool :=
  gets (fun s => feasible_at (fitfun s) i x).

Definition closest_feasible (f : Fitness) (X : vec D) : vec D :=
  if (0 <? length (lower f))%nat
  then cwise d_max (cwise d_min X (upper f)) (lower f)
  else X.

Definition getClosestFeasible (X : vec D) : M (vec D) :=
  gets (fun s => closest_feasible (fitfun s) X).

Definition normX : M (vec D) :=
  u <- rnd01 ;;
  s <- get ;;
  let f := fitfun s in
  let n := Z.to_nat (fit_dim f) in
  if (u <? d_0_5)%dbl
  then (nv <- normalVec (xmean f) (sigma0 f) n ;; getClosestFeasible nv)
  else (nv <- normalVec (xmean f) (sigma f) n ;; getClosestFeasible nv).

Definition normXi (i : nat) : M D :=
  u <- rnd01 ;;
  s <- get ;;
  let f := fitfun s in
  if (u <? d_0_5)%dbl
  then do_while fuel (normreal (vget (xmean f) i) (vget (sigma0 f) i))
         (fun nx => negb (feasible_at f i nx))
  else do_while fuel (normreal (vget (xmean f) i) (vget (sigma f) i))
         (fun nx => negb (feasible_at f i nx)).

Definition sample : M (vec D) :=
  s <- get ;;
  let f := fitfun s in
  if (0 <? length (lower f))%nat
  then (rv <- uniformVec (Z.to_nat (fit_dim f)) ;;
        ret (cwise d_add (cwise d_mul rv (scale f)) (lower f)))
  else normX.

Definition sample_i (i : nat) : M D :=
  s <- get ;;
  let f := fitfun s in
  if (0 <? length (lower f))%nat
  then (u <- rnd01 ;; ret (vget (lower f) i + vget (scale f) i * u)%dbl)
  else normXi i.

(** Fitness::eval.  [nobj] is 1: the loop over [res] has one round. *)
Definition eval (X : vec D) : M D :=
  s <- get ;;
  let res0 := func (fitfun s) X in
  let res0 := if d_isnan res0 || negb (d_isfinite res0) then d_1E99 else res0 in
  modify_state (fun s => set_fitfun (count_call X (fitfun s)) s) ;;
  ret res0.

(** Fitness::getEvaluations returns the [long] counter as an [int]. *)
Definition getEvaluations : M Z :=
  gets (fun s => to_int32 (evaluationCounter (fitfun s))).

(** ** LDeOptimizer member functions *)

Definition nat_popsize (s : LDeOptimizer) : nat := Z.to_nat (popsize (par s)).
Definition nat_dim (s : LDeOptimizer) : nat := Z.to_nat (dim (par s)).

(** LDeOptimizer::init *)
Definition init (p : params) (f : Fitness) (r : R) : LDeOptimizer :=
  let n := Z.to_nat (popsize p) in
  let popX_ := repeat (guess f) n in
  mkOpt p f r 0 DBL_MAX (col popX_ 0) 0 0 popX_ (constant n DBL_MAX) (zeros n).

(** LDeOptimizer::LDeOptimizer *)
Definition LDeOptimizer_new (runid_ : Z) (fitfun_ : Fitness) (dim_ : Z)
    (rs_ : R) (popsize_ maxEvaluations_ : Z) (keep_ stopfitness_ F_ CR_ : D)
    (min_mutate_ max_mutate_ : D) (isInt_ : option (list bool))
  : LDeOptimizer :=
  let pos (x dflt : D) := if (d_0 <? x)%dbl then x else dflt in
  init
    (mkParams runid_
       (if 0 <? popsize_ then popsize_ else 15 * dim_)
       dim_
       (if 0 <? maxEvaluations_ then maxEvaluations_ else 50000)
       (pos keep_ (d_of_int 30))
       stopfitness_
       (pos F_ d_0_5)
       (pos CR_ (d_lit 9 (-1)))
       (pos min_mutate_ (d_lit 1 (-1)))
       (pos max_mutate_ d_0_5)
       isInt_)
    fitfun_ rs_.

Definition is_int (s : LDeOptimizer) (i : nat) : bool :=
  match isInt (par s) with
  | None => false
  | Some l => nth i l false
  end.

(** LDeOptimizer::modify; the vector is passed by reference and the updated
    vector is returned. *)
Definition modify (x : vec D) : M (vec D) :=
  s <- get ;;
  match isInt (par s) with
  | None => ret x
  | Some ints =>
      let n_ints :=
        d_of_int (Z.of_nat (length (filter (fun b => b)
                                      (firstn (nat_dim s) ints)))) in
      u <- rnd01 ;;
      let to_mutate :=
        (min_mutate (par s) + u * (max_mutate (par s) - min_mutate (par s)))%dbl in
      fold_each (seq 0 (nat_dim s))
        (fun i x =>
           if nth i ints false then
             u <- rnd01 ;;
             if (u <? to_mutate / n_ints)%dbl
             then (nx <- normXi i ;; ret (upd x i (d_of_int (d_to_int nx))))
             else ret x
           else ret x)
        x
  end.

Definition next_improve (xb x xi : vec D) : M (vec D) :=
  nextx <- getClosestFeasible
             (cwise d_add xb (map (fun d => d * d_0_5)%dbl (cwise d_sub x xi))) ;;
  modify nextx.

(** The trial vector of slot [p] (doOptimize, the loop over [j]). *)
Definition crossover (CR F : D) (r : Z) (xp xb x1 x2 : vec D) : M (vec D) :=
  s <- get ;;
  fold_each (seq 0 (nat_dim s))
    (fun j x =>
       c <- (if Z.of_nat j =? r then ret true
             else (u <- rnd01 ;; ret (u <? CR)%dbl)) ;;
       if (c : bool) then
         let v := (vget xb j + F * (vget x1 j - vget x2 j))%dbl in
         ok <- feasible j v ;;
         if (ok : bool) then ret (upd x j v)
         else (nx <- normXi j ;; ret (upd x j nx))
       else ret x)
    xp.

(** One round of the loop over [p] in doOptimize. *)
Definition slot (CR F : D) (p : nat) : M unit :=
  s <- get ;;
  let xp := col (popX s) p in
  let xb := col (popX s) (Z.to_nat (bestI s)) in
  r1 <- do_while fuel (rndInt (popsize (par s)))
          (fun r1 => (r1 =? Z.of_nat p) || (r1 =? bestI s)) ;;
  r2 <- do_while fuel (rndInt (popsize (par s)))
          (fun r2 => (r2 =? Z.of_nat p) || (r2 =? bestI s) || (r2 =? r1)) ;;
  let x1 := col (popX s) (Z.to_nat r1) in
  let x2 := col (popX s) (Z.to_nat r2) in
  r <- rndInt (dim (par s)) ;;
  x <- crossover CR F r xp xb x1 x2 ;;
  x <- modify x ;;
  y <- eval x ;;
  s <- get ;;
  if d_isfinite y && (y <? vget (popY s) p)%dbl then
    (* temporal locality *)
    x2 <- next_improve xb x xp ;;
    y2 <- eval x2 ;;
    let better := d_isfinite y2 && (y2 <? y)%dbl in
    let y := if better then y2 else y in
    let x := if better then x2 else x in
    modify_state (fun s =>
      set_pop (upd (popX s) p x) (upd (popY s) p y)
        (upd (popIter s) p (d_of_int (iterations s))) s) ;;
    s <- get ;;
    if (y <? vget (popY s) (Z.to_nat (bestI s)))%dbl then
      modify_state (set_bestI (Z.of_nat p)) ;;
      s <- get ;;
      if (y <? bestY s)%dbl then
        updateSigma x ;;
        modify_state (set_best y x) ;;
        if d_isfinite (stopfitness (par s)) && (y <? stopfitness (par s))%dbl
        then (modify_state (set_stop 1) ;; exit)
        else ret tt
      else ret tt
    else ret tt
  else
    (* reinitialize individual *)
    u <- rnd01 ;;
    s <- get ;;
    if (keep (par s) * u <? d_of_int (iterations s) - vget (popIter s) p)%dbl
    then
      nx <- normX ;;
      modify_state (fun s =>
        set_pop (upd (popX s) p nx) (upd (popY s) p DBL_MAX) (popIter s) s)
    else ret tt.

(** One round of the generation loop: the loop over all slots. *)
Definition generation : M unit :=
  s <- get ;;
  let even := (iterations s) mod 2 =? 0 in
  let CR := if even then (d_0_5 * CR0 (par s))%dbl else CR0 (par s) in
  let F := if even then (d_0_5 * F0 (par s))%dbl else F0 (par s) in
  for_each (seq 0 (nat_popsize s)) (slot CR F).

(** The generation loop:
    [for (...; fitfun->getEvaluations() < maxEvaluations; iterations++)]. *)
Fixpoint generations (n : nat) : M unit :=
  match n with
  | O => timeout
  | S k =>
      evals <- getEvaluations ;;
      s <- get ;;
      if evals <? maxEvaluations (par s) then
        generation ;;
        modify_state (fun s => set_iterations (iterations s + 1) s) ;;
        generations k
      else ret tt
  end.

(** LDeOptimizer::doOptimize *)
Definition doOptimize : M unit :=
  call (modify_state (set_iterations 1) ;; generations fuel).

Definition getEvaluationCount (s : LDeOptimizer) : Z :=
  evaluationCounter (fitfun s).

Definition getBestX (s : LDeOptimizer) : vec D := bestX s.
Definition getBestValue (s : LDeOptimizer) : D := bestY s.
(** getIterations and getStop return the [int] members as doubles. *)
Definition getIterations (s : LDeOptimizer) : D := d_of_int (iterations s).
Definition getStop (s : LDeOptimizer) : D := d_of_int (stop s).

(** ** The C entry point

    optimizeLDE_C.  A [double*] or [bool*] argument is the list of the values
    it points to; [rs_] is the engine seeded with [seed].  The result is the
    array [res] as the call leaves it, when the run ends within the step
    budget. *)
Definition optimizeLDE_C (runid_ : Z) (func_ : vec D -> D) (dim_ : Z)
    (init_ sigma_ : list D) (rs_ : R) (lower_ upper_ : list D) (maxEvals : Z)
    (keep_ stopfitness_ : D) (popsize_ : Z)
    (F_ CR_ min_mutate_ max_mutate_ : D) (ints : list bool) (res : list D)
  : option (list D) :=
  let n := Z.to_nat dim_ in
  let guess_ := map (fun i => nth i init_ d_0) (seq 0 n) in
  let inputSigma := map (fun i => nth i sigma_ d_0) (seq 0 n) in
  let lower_limit := map (fun i => nth i lower_ d_0) (seq 0 n) in
  let upper_limit := map (fun i => nth i upper_ d_0) (seq 0 n) in
  let isInt_ := map (fun i => nth i ints false) (seq 0 n) in
  let useLimit :=
    existsb (fun i => negb (nth i lower_ d_0 =? d_0)%dbl
                      || negb (nth i upper_ d_0 =? d_0)%dbl) (seq 0 n) in
  let useIsInt := existsb (fun b => b) isInt_ in
  let lower_limit := if useLimit then lower_limit else [] in
  let upper_limit := if useLimit then upper_limit else [] in
  let fitfun_ :=
    Fitness_new func_ dim_ lower_limit upper_limit guess_ inputSigma in
  let opt :=
    LDeOptimizer_new runid_ fitfun_ dim_ rs_ popsize_ maxEvals keep_
      stopfitness_ F_ CR_ min_mutate_ max_mutate_
      (if useIsInt then Some isInt_ else None) in
  match doOptimize opt with
  | Ret _ s =>
      let res :=
        fold_left (fun res i => upd res i (vget (getBestX s) i)) (seq 0 n) res in
      let res := upd res n (getBestValue s) in
      let res :=
        upd res (n + 1) (d_of_int (to_int32 (evaluationCounter (fitfun s)))) in
      let res := upd res (n + 2) (getIterations s) in
      Some (upd res (n + 3) (getStop s))
  | _ => None
  end.

End Engine.
End LDE.


(** * MODE: modeoptimizer.cpp *)

(** ** Helpers of evaluator.h *)

Section SortIndex.
Context {D : Type} `{Double D}.

(** Modelled from the spec: sort_index of evaluator.h is not part of the
    sources at hand; the spec has it sort the columns by ascending value and
    return their indices.  Ties keep the order of the indices. *)
Fixpoint insert_index (x : vec D) (i : nat) (l : list nat) : list nat :=
  match l with
  | [] => [i]
  | h :: t =>
      if (vget x h <? vget x i)%dbl then h :: insert_index x i t
      else i :: h :: t
  end.

Definition sort_index (x : vec D) : list nat :=
  fold_right (insert_index x) [] (seq 0 (length x)).

(** [v(idx)]: the coefficients (or columns) at the listed indices. *)
Definition gather {A : Type} (dflt : A) (v : list A) (idx : list nat) : list A :=
  map (fun i => nth i v dflt) idx.

(** [v(idx) = vals], entry by entry. *)
Fixpoint scatter {A : Type} (v : list A) (idx : list nat) (vals : list A)
  : list A :=
  match idx, vals with
  | i :: idx', a :: vals' => scatter (upd v i a) idx' vals'
  | _, _ => v
  end.

(** [v(idx) += vals] on integer scores. *)
Fixpoint scatter_add (v : list Z) (idx : list nat) (vals : list Z) : list Z :=
  match idx, vals with
  | i :: idx', a :: vals' => scatter_add (upd v i (nth i v 0 + a)) idx' vals'
  | _, _ => v
  end.

(** [v.sum()], Eigen's left-to-right reduction. *)
Definition vsum (v : vec D) : D :=
  match v with
  | [] => d_0
  | h :: t => fold_left d_add t h
  end.
End SortIndex.

(** ** The ranking kernel

    Domination scores are counts: the source keeps them in a [vec] of doubles,
    on which they are exact; here they are integers. *)

Module Ranking.
Section Kernel.
Context {D : Type} `{Double D}.

(** MoDeOptimizer::crowd_dist: crowd distance for the first objective. *)
Definition crowd_dist (y : mat D) : vec D :=
  let n := length y in
  let y0 := row y 0 in
  let si := sort_index y0 in
  let y0s := gather d_0 y0 si in
  let d := map (fun i => (vget y0s (i + 1) - vget y0s i)%dbl) (seq 0 (n - 1)) in
  if (maxCoeff d =? d_0)%dbl then zeros n
  else
    let dsum :=
      map (fun i =>
             let a := if (0 <? i)%nat then (d_0 + vget d (i - 1))%dbl else d_0 in
             if (i <? n - 1)%nat then (a + vget d i)%dbl else a)
          (seq 0 n) in
    let dsum := upd dsum 0 DBL_MAX in
    let dsum := upd dsum (n - 1) DBL_MAX in
    scatter (zeros n) si dsum.

(** MoDeOptimizer::is_dominated(const mat &y, int i, int index) *)
Definition is_dominated (y : mat D) (i index : nat) : bool :=
  forallb (fun j => negb (vget (col y i) j <? vget (col y index) j)%dbl)
    (seq 0 (length (col y 0))).

(** [index++; while (!mask[index] && index < n) index++;] on the part of the
    mask from [index] on. *)
Fixpoint skip_dead (mask : list bool) (index : nat) : nat :=
  match mask with
  | [] => index
  | b :: t => if b then index else skip_dead t (S index)
  end.

Definition next_index (mask : list bool) (index : nat) : nat :=
  skip_dead (skipn (S index) mask) (S index).

(** The loop over [index] of pareto_levels.  Each round moves [index] forward,
    so [n] rounds are enough. *)
Fixpoint levels_loop (rounds : nat) (y : mat D) (index : nat)
    (mask : list bool) (domination : list Z) : list Z :=
  match rounds with
  | O => domination
  | S k =>
      let n := length y in
      if (index <? n)%nat then
        let mask' :=
          map (fun i =>
                 if negb (i =? index)%nat && nth i mask false
                    && is_dominated y i index
                 then false else nth i mask false)
              (seq 0 n) in
        let domination' :=
          map (fun i =>
                 if nth i mask' false then nth i domination 0 + 1
                 else nth i domination 0)
              (seq 0 n) in
        levels_loop k y (next_index mask' index) mask' domination'
      else domination
  end.

(** MoDeOptimizer::pareto_levels *)
Definition pareto_levels (y : mat D) : list Z :=
  let n := length y in
  levels_loop n y 0 (repeat true n) (repeat 0 n).

(** Position of column [c] in an index vector. *)
Fixpoint position (c : nat) (ci : list nat) : nat :=
  match ci with
  | [] => O
  | h :: t => if (h =? c)%nat then O else S (position c t)
  end.

(** [rank.colwise().sum()] of a rank matrix given by its rows. *)
Definition colwise_sum (rank_rows : list (vec D)) (cols : nat) : vec D :=
  map (fun c => vsum (map (fun r => vget r c) rank_rows)) (seq 0 cols).

(** MoDeOptimizer::objranks; [rows] and [cols] are the sizes of [objs]. *)
Definition objranks (rows : nat) (objs : mat D) : vec D :=
  let cols := length objs in
  let rank :=
    map (fun j =>
           let ci := sort_index (row objs j) in
           scatter (zeros cols) ci
             (map (fun i => d_of_int (Z.of_nat i)) (seq 0 cols)))
        (seq 0 rows) in
  colwise_sum rank cols.

(** MoDeOptimizer::ranks *)
Definition ranks (rows : nat) (cons : mat D) : vec D :=
  let cols := length cons in
  let ci (j : nat) := sort_index (row cons j) in
  let violated (j c : nat) := negb (vget (col cons c) j <=? d_0)%dbl in
  let rank :=
    map (fun j =>
           scatter (zeros cols) (ci j)
             (map (fun i =>
                     if violated j (nth i (ci j) O) then d_of_int (Z.of_nat i)
                     else d_0)
                  (seq 0 cols)))
        (seq 0 rows) in
  let alpha :=
    map (fun c =>
           d_of_int (Z.of_nat (length (filter (fun j => violated j c)
                                         (seq 0 rows)))))
        (seq 0 cols) in
  let rank :=
    map (fun r =>
           map (fun i => (vget r i * (vget alpha i / d_of_int (Z.of_nat rows)))%dbl)
             (seq 0 cols))
        rank in
  colwise_sum rank cols.

(** [feasible[i]] of MoDeOptimizer::pareto. *)
Definition feasible_col (ncon : nat) (ys : mat D) (i : nat) : bool :=
  let c := col ys i in
  (maxCoeff (skipn (length c - ncon) c) <=? d_0)%dbl.

(** MoDeOptimizer::pareto, for the sizes [nobj] and [ncon] of the optimizer. *)
Definition pareto (nobj ncon : nat) (ys : mat D) : list Z :=
  if (ncon =? 0)%nat then pareto_levels ys
  else
    let popn := length ys in
    let yobj := map (firstn nobj) ys in
    let ycon := map (fun c => skipn (length c - ncon) c) ys in
    let csum := ranks ncon ycon in
    let feasible := feasible_col ncon ys in
    let hasFeasible := existsb feasible (seq 0 popn) in
    let csum := if hasFeasible then cwise d_add csum (objranks nobj yobj)
                else csum in
    (* first pareto front of feasible solutions *)
    let domination := repeat 0 popn in
    let cy := filter feasible (seq 0 popn) in
    let domination :=
      if hasFeasible
      then scatter_add domination cy (pareto_levels (gather [] yobj cy))
      else domination in
    (* then constraint violations *)
    let ci := sort_index csum in
    let civ := filter (fun i => negb (feasible i)) ci in
    if (0 <? length civ)%nat then
      let maxcdom := Z.of_nat (length civ) in
      let domination :=
        scatter_add domination civ
          (map (fun i => maxcdom - Z.of_nat i) (seq 0 (length civ))) in
      if (0 <? length cy)%nat
      then scatter_add domination cy (repeat (maxcdom + 1) (length cy))
      else domination
    else domination.

End Kernel.
End Ranking.

(** ** class MoDeOptimizer *)

Module MODE.
Section Engine.
Context {D : Type} `{Double D} {R : Type} `{Rng D R}.

(** Step budget of the rejection loop of nextX and of the loop of
    doOptimize. *)
Variable fuel : nat.

(** pow of the C library. *)
Variable pow : D -> D -> D.

(** Modelled from the spec: class Fitness of evaluator.h is not part of the
    sources at hand.  The spec (Fitness Wrapper) gives it the bounds, an
    evaluation counter that eval increments after coercing every non-finite
    result to 1e99, the clamp getClosestFeasible, uniform sampling in the box
    and a terminate flag set by the log callback.  Both entry points build it
    with bounds of length dim.  [calls] is a ghost field: the arguments with
    which [func] has been called, latest first. *)
Record Fitness : Type := mkFitness {
  func : vec D -> vec D;
  lower : vec D;
  upper : vec D;
  evaluationCounter : Z;
  terminate_flag : bool;
  calls : list (vec D)
}.

(** Fitness::norm_i of evaluator.h, on which the spec is silent. *)
Variable norm_i : Fitness -> nat -> D -> D.

(** The members fixed by the constructor. *)
Record params : Type := mkParams {
  runid : Z;
  log : mat D -> mat D -> bool;
  popsize : Z;
  dim : Z;
  nobj : Z;
  ncon : Z;
  maxEvaluations : Z;
  F0 : D;
  CR0 : D;
  pro_c : D;
  dis_c : D;
  pro_m : D;
  dis_m : D;
  min_mutate : D;
  max_mutate : D;
  log_period : Z;
  isInt : option (list bool)
}.

Record MoDeOptimizer : Type := mkOpt {
  par : params;
  fitfun : Fitness;
  rs : R;
  iterations : Z;
  n_evals : Z;
  stop : Z;
  F : D;
  CR : D;
  popX : mat D;
  popY : mat D;
  nX : mat D;
  nY : mat D;
  vX : mat D;
  vp : Z;
  vdone : list bool;
  pos : Z;
  nsga_update : bool;
  pareto_update : D
}.

Definition set_fitfun (f : Fitness) (o : MoDeOptimizer) : MoDeOptimizer :=
  mkOpt (par o) f (rs o) (iterations o) (n_evals o) (stop o) (F o) (CR o)
    (popX o) (popY o) (nX o) (nY o) (vX o) (vp o) (vdone o) (pos o)
    (nsga_update o) (pareto_update o).
Definition set_rs (r : R) (o : MoDeOptimizer) : MoDeOptimizer :=
  mkOpt (par o) (fitfun o) r (iterations o) (n_evals o) (stop o) (F o) (CR o)
    (popX o) (popY o) (nX o) (nY o) (vX o) (vp o) (vdone o) (pos o)
    (nsga_update o) (pareto_update o).
Definition set_iterations (i : Z) (o : MoDeOptimizer) : MoDeOptimizer :=
  mkOpt (par o) (fitfun o) (rs o) i (n_evals o) (stop o) (F o) (CR o)
    (popX o) (popY o) (nX o) (nY o) (vX o) (vp o) (vdone o) (pos o)
    (nsga_update o) (pareto_update o).
Definition set_n_evals (n : Z) (o : MoDeOptimizer) : MoDeOptimizer :=
  mkOpt (par o) (fitfun o) (rs o) (iterations o) n (stop o) (F o) (CR o)
    (popX o) (popY o) (nX o) (nY o) (vX o) (vp o) (vdone o) (pos o)
    (nsga_update o) (pareto_update o).
Definition set_F_CR (f cr : D) (o : MoDeOptimizer) : MoDeOptimizer :=
  mkOpt (par o) (fitfun o) (rs o) (iterations o) (n_evals o) (stop o) f cr
    (popX o) (popY o) (nX o) (nY o) (vX o) (vp o) (vdone o) (pos o)
    (nsga_update o) (pareto_update o).
Definition set_popX (x : mat D) (o : MoDeOptimizer) : MoDeOptimizer :=
  mkOpt (par o) (fitfun o) (rs o) (iterations o) (n_evals o) (stop o) (F o)
    (CR o) x (popY o) (nX o) (nY o) (vX o) (vp o) (vdone o) (pos o)
    (nsga_update o) (pareto_update o).
Definition set_popY (y : mat D) (o : MoDeOptimizer) : MoDeOptimizer :=
  mkOpt (par o) (fitfun o) (rs o) (iterations o) (n_evals o) (stop o) (F o)
    (CR o) (popX o) y (nX o) (nY o) (vX o) (vp o) (vdone o) (pos o)
    (nsga_update o) (pareto_update o).
Definition set_next (x y : mat D) (done : list bool) (o : MoDeOptimizer)
  : MoDeOptimizer :=
  mkOpt (par o) (fitfun o) (rs o) (iterations o) (n_evals o) (stop o) (F o)
    (CR o) (popX o) (popY o) x y (vX o) (vp o) done (pos o)
    (nsga_update o) (pareto_update o).
Definition set_vX (x : mat D) (o : MoDeOptimizer) : MoDeOptimizer :=
  mkOpt (par o) (fitfun o) (rs o) (iterations o) (n_evals o) (stop o) (F o)
    (CR o) (popX o) (popY o) (nX o) (nY o) x (vp o) (vdone o) (pos o)
    (nsga_update o) (pareto_update o).
Definition set_vp (v : Z) (o : MoDeOptimizer) : MoDeOptimizer :=
  mkOpt (par o) (fitfun o) (rs o) (iterations o) (n_evals o) (stop o) (F o)
    (CR o) (popX o) (popY o) (nX o) (nY o) (vX o) v (vdone o) (pos o)
    (nsga_update o) (pareto_update o).
Definition set_pos (v : Z) (o : MoDeOptimizer) : MoDeOptimizer :=
  mkOpt (par o) (fitfun o) (rs o) (iterations o) (n_evals o) (stop o) (F o)
    (CR o) (popX o) (popY o) (nX o) (nY o) (vX o) (vp o) (vdone o) v
    (nsga_update o) (pareto_update o).
Definition set_update (nsga : bool) (pu : D) (o : MoDeOptimizer)
  : MoDeOptimizer :=
  mkOpt (par o) (fitfun o) (rs o) (iterations o) (n_evals o) (stop o) (F o)
    (CR o) (popX o) (popY o) (nX o) (nY o) (vX o) (vp o) (vdone o) (pos o)
    nsga pu.

Local Abbreviation M := (M MoDeOptimizer).
Local Open Scope monad_scope.

Definition nat_popsize (s : MoDeOptimizer) : nat := Z.to_nat (popsize (par s)).
Definition nat_dim (s : MoDeOptimizer) : nat := Z.to_nat (dim (par s)).
Definition nat_nobj (s : MoDeOptimizer) : nat := Z.to_nat (nobj (par s)).
Definition nat_ncon (s : MoDeOptimizer) : nat := Z.to_nat (ncon (par s)).

Definition is_int (s : MoDeOptimizer) (i : nat) : bool :=
  match isInt (par s) with
  | None => false
  | Some l => nth i l false
  end.

(** ** Random draws (rand01, randInt, uniformVec of evaluator.h) *)

Definition rand01 : M D :=
  s <- get ;;
  let (u, r) := distr_01 (rs s) in
  modify_state (set_rs r) ;; ret u.

Definition randInt (max : Z) : M Z :=
  u <- rand01 ;; ret (d_to_int (d_of_int max * u)%dbl).

Definition uniformVec (n : nat) : M (vec D) :=
  fold_each (seq 0 n) (fun _ acc => u <- rand01 ;; ret (acc ++ [u])) [].

(** ** Fitness member functions (modelled from the spec, see [Fitness]) *)

Definition scale (f : Fitness) : vec D := cwise d_sub (upper f) (lower f).

Definition closest_feasible (f : Fitness) (X : vec D) : vec D :=
  if (0 <? length (lower f))%nat
  then cwise d_max (cwise d_min X (upper f)) (lower f)
  else X.

Definition getClosestFeasible (X : vec D) : M (vec D) :=
  gets (fun s => closest_feasible (fitfun s) X).

Definition setClosestFeasible (X : mat D) : M (mat D) :=
  gets (fun s => map (closest_feasible (fitfun s)) X).

Definition sample : M (vec D) :=
  s <- get ;;
  let f := fitfun s in
  rv <- uniformVec (length (lower f)) ;;
  ret (cwise d_add (cwise d_mul rv (scale f)) (lower f)).

Definition sample_i (i : nat) : M D :=
  s <- get ;;
  let f := fitfun s in
  u <- rand01 ;; ret (vget (lower f) i + vget (scale f) i * u)%dbl.

Definition coerce (y : D) : D :=
  if d_isnan y || negb (d_isfinite y) then d_1E99 else y.

Definition count_call (X : vec D) (f : Fitness) : Fitness :=
  mkFitness (func f) (lower f) (upper f) (evaluationCounter f + 1)
    (terminate_flag f) (X :: calls f).

Definition eval (X : vec D) : M (vec D) :=
  s <- get ;;
  let res := map coerce (func (fitfun s) X) in
  modify_state (fun s => set_fitfun (count_call X (fitfun s)) s) ;;
  ret res.

Definition evaluations : M Z :=
  gets (fun s => evaluationCounter (fitfun s)).

Definition resetEvaluations : M unit :=
  modify_state (fun s =>
    let f := fitfun s in
    set_fitfun (mkFitness (func f) (lower f) (upper f) 0 (terminate_flag f)
                  (calls f)) s).

Definition terminate : M bool :=
  gets (fun s => terminate_flag (fitfun s)).

Definition setTerminate : M unit :=
  modify_state (fun s =>
    let f := fitfun s in
    set_fitfun (mkFitness (func f) (lower f) (upper f) (evaluationCounter f)
                  true (calls f)) s).

(** ** MoDeOptimizer member functions *)

Definition mat_cwise (f : D -> D -> D) (a b : mat D) : mat D :=
  map (fun xy => cwise f (fst xy) (snd xy)) (combine a b).

(** One coefficient of [beta] in variation. *)
Definition sbx_beta (dis_c_ : D) (to1 : vec D) (i : nat) : M D :=
  s <- get ;;
  u <- rand01 ;;
  if (d_0_5 <? u)%dbl
     || ((pro_c (par s) <? d_1)%dbl && (vget to1 i <? pro_c (par s))%dbl)
  then ret d_1
  else
    r <- rand01 ;;
    let b :=
      if (r <=? d_0_5)%dbl
      then pow (d_of_int 2 * r)%dbl (d_1 / (dis_c_ + d_1))%dbl
      else pow (d_of_int 2 * r)%dbl (d_of_int (-1) / (dis_c_ + d_1))%dbl in
    u <- rand01 ;;
    ret (if (d_0_5 <? u)%dbl then d_opp b else b).

(** Polynomial mutation of one coefficient in variation. *)
Definition poly_mutate (dis_m_ limit : D) (i : nat) (v : D) : M D :=
  s <- get ;;
  u <- rand01 ;;
  if (u <? limit)%dbl then
    mu <- rand01 ;;
    let norm := norm_i (fitfun s) i v in
    let two := d_of_int 2 in
    let e := (d_1 / (dis_m_ + d_1))%dbl in
    let pn := pow (d_1 - norm)%dbl (dis_m_ + d_1)%dbl in
    if (mu <=? d_0_5)%dbl
    then ret (v + vget (scale (fitfun s)) i
                  * (pow (two * mu + (d_1 - two * mu) * pn) e - d_1))%dbl
    else ret (v + vget (scale (fitfun s)) i
                  * (d_1 - pow (two * (d_1 - mu) + two * (mu - d_0_5) * pn) e))%dbl
  else ret v.

(** MoDeOptimizer::variation *)
Definition variation (x : mat D) : M (mat D) :=
  s <- get ;;
  u <- rand01 ;;
  let dis_c_ := ((d_0_5 * u + d_0_5) * dis_c (par s))%dbl in
  u <- rand01 ;;
  let dis_m_ := ((d_0_5 * u + d_0_5) * dis_m (par s))%dbl in
  let n2 := (length x / 2)%nat in
  let n := (2 * n2)%nat in
  let parent1 := firstn n2 x in
  let parent2 := firstn n2 (skipn n2 x) in
  to1 <- (if (pro_c (par s) <? d_1)%dbl then uniformVec (nat_dim s) else ret []) ;;
  beta <- fold_each (seq 0 n2)
            (fun _ cols =>
               c <- fold_each (seq 0 (nat_dim s))
                      (fun i c => b <- sbx_beta dis_c_ to1 i ;; ret (c ++ [b])) [] ;;
               ret (cols ++ [c]))
            [] ;;
  let offspring1 := map (map (fun v => v * d_0_5)%dbl) (mat_cwise d_add parent1 parent2) in
  let delta :=
    map (map (fun v => v * d_0_5)%dbl)
      (mat_cwise d_mul beta (mat_cwise d_sub parent1 parent2)) in
  let offspring :=
    mat_cwise d_add offspring1 delta ++ mat_cwise d_sub offspring1 delta in
  let limit := (pro_m (par s) / d_of_int (dim (par s)))%dbl in
  offspring <- fold_each (seq 0 n)
                 (fun p cols =>
                    c <- fold_each (seq 0 (nat_dim s))
                           (fun i c =>
                              v <- poly_mutate dis_m_ limit i (vget (col offspring p) i) ;;
                              ret (c ++ [v]))
                           [] ;;
                    ret (cols ++ [c]))
                 [] ;;
  setClosestFeasible offspring.

(** MoDeOptimizer::modify *)
Definition modify (x : vec D) : M (vec D) :=
  s <- get ;;
  match isInt (par s) with
  | None => ret x
  | Some ints =>
      let n_ints :=
        d_of_int (Z.of_nat (length (filter (fun b => b)
                                      (firstn (nat_dim s) ints)))) in
      u <- rand01 ;;
      let to_mutate :=
        (min_mutate (par s) + u * (max_mutate (par s) - min_mutate (par s)))%dbl in
      fold_each (seq 0 (nat_dim s))
        (fun i x =>
           if nth i ints false then
             u <- rand01 ;;
             if (u <? to_mutate / n_ints)%dbl
             then (nx <- sample_i i ;; ret (upd x i (d_of_int (d_to_int nx))))
             else ret x
           else ret x)
        x
  end.

(** The three indices drawn by one round of the rejection loop of nextX. *)
Definition draw_r123 : M (Z * Z * Z) :=
  s <- get ;;
  r1 <- randInt (popsize (par s)) ;;
  r2 <- randInt (popsize (par s)) ;;
  r3 <- (if (d_0 <? pareto_update s)%dbl
         then (u <- rand01 ;;
               ret (d_to_int (pow u (d_1 + pareto_update s)
                              * d_of_int (popsize (par s)))%dbl))
         else randInt (popsize (par s))) ;;
  ret (r1, r2, r3).

(** MoDeOptimizer::nextX *)
Definition nextX (p : Z) : M (vec D) :=
  (if p =? 0 then
     modify_state (fun s => set_iterations (iterations s + 1) s) ;;
     s <- get ;;
     if Z.rem (iterations s) (log_period (par s)) =? 0 then
       if log (par s) (popX s) (popY s) then setTerminate else ret tt
     else ret tt
   else ret tt) ;;
  s <- get ;;
  if nsga_update s then
    (* vX.col(vp): Eigen asserts 0 <= vp < vX.cols() *)
    if (0 <=? vp s) && (vp s <? Z.of_nat (length (vX s))) then
      let x := col (vX s) (Z.to_nat (vp s)) in
      modify_state (set_vp (Z.rem (vp s + 1) (popsize (par s)))) ;;
      ret x
    else fault
  else
    (* use DE update strategy. *)
    (if p =? 0 then
       let even := Z.rem (iterations s) 2 =? 0 in
       modify_state
         (set_F_CR (if even then (d_0_5 * F0 (par s))%dbl else F0 (par s))
                   (if even then (d_0_5 * CR0 (par s))%dbl else CR0 (par s)))
     else ret tt) ;;
    s <- get ;;
    let xp := col (popX s) (Z.to_nat p) in
    '(r1, r2, r3) <- do_while fuel draw_r123
        (fun r => let '(r1, r2, r3) := r in
           (r3 =? p) || (r3 =? r1) || (r3 =? r2) || (r2 =? p) || (r2 =? r1)
           || (r1 =? p)) ;;
    let x1 := col (popX s) (Z.to_nat r1) in
    let x2 := col (popX s) (Z.to_nat r2) in
    let x3 := col (popX s) (Z.to_nat r3) in
    let x := cwise d_add x3 (map (fun v => v * F s)%dbl (cwise d_sub x1 x2)) in
    r <- randInt (dim (par s)) ;;
    x <- fold_each (seq 0 (nat_dim s))
           (fun j x =>
              if negb (Z.of_nat j =? r) then
                u <- rand01 ;;
                if (CR s <? u)%dbl then ret (upd x j (vget xp j)) else ret x
              else ret x)
           x ;;
    x <- getClosestFeasible x ;;
    modify x.

(** MoDeOptimizer::is_dominated(const vec &y, int p) *)
Definition is_dominated (popY_ : mat D) (y : vec D) (p : nat) : bool :=
  forallb (fun j => negb (vget y j <? vget (col popY_ p) j)%dbl)
    (seq 0 (length y)).

(** *** Survival *)

(** The inner loop of the partial level in pop_update: members are admitted
    in the order [si] until [popsize] columns are admitted.  Admitted columns
    are recorded by their index in [x0], [y0]. *)
Fixpoint admit_crowded (popsize_ : nat) (level si : list nat) (x : list nat)
  : list nat :=
  match si with
  | [] => x
  | i :: t =>
      if (popsize_ <=? length x)%nat then x
      else admit_crowded popsize_ level t (x ++ [nth i level O])
  end.

Definition domlevel (domination : list Z) (dom : nat) : list nat :=
  filter (fun i => nth i domination 0 =? Z.of_nat dom)
    (seq 0 (length domination)).

(** The loop [for (int dom = maxdom; dom >= 0; dom--)] of pop_update. *)
Fixpoint admit_levels (popsize_ : nat) (domination : list Z) (y0 : mat D)
    (dom : nat) (x : list nat) : list nat :=
  let level := domlevel domination dom in
  if (length x + length level <=? popsize_)%nat then
    (* whole level fits *)
    match dom with
    | O => x ++ level
    | S dom' => admit_levels popsize_ domination y0 dom' (x ++ level)
    end
  else if (1 <? length level)%nat then
    let cd := Ranking.crowd_dist (gather [] y0 level) in
    let si := rev (sort_index cd) in
    admit_crowded popsize_ level si x
  else x.

Definition max_score (domination : list Z) : Z :=
  match domination with
  | [] => 0
  | h :: t => fold_left Z.max t h
  end.

(** The columns of [y0] that survive, in the order of their admission. *)
Definition survivors (popsize_ nobj_ ncon_ : nat) (y0 : mat D) : list nat :=
  let domination := Ranking.pareto nobj_ ncon_ y0 in
  let maxdom := max_score domination in
  if maxdom <? 0 then []
  else admit_levels popsize_ domination y0 (Z.to_nat maxdom) [].

(** [l[i] = new[i]] for every [i] below the length of [new]. *)
Definition overwrite {A : Type} (new l : list A) : list A :=
  new ++ skipn (length new) l.

(** MoDeOptimizer::pop_update.  The source copies [x[i]] for every
    [i < popsize]; the admitted columns are as many when the population has
    at least [popsize] columns. *)
Definition pop_update : M unit :=
  s <- get ;;
  let yi := rev (sort_index (row (popY s) 0)) in
  let x0 := if nobj (par s) =? 1 then gather [] (popX s) yi else popX s in
  let y0 := if nobj (par s) =? 1 then gather [] (popY s) yi else popY s in
  let adm := survivors (nat_popsize s) (nat_nobj s) (nat_ncon s) y0 in
  modify_state (fun s =>
    set_popY (overwrite (gather [] y0 adm) (popY s))
      (set_popX (overwrite (gather [] x0 adm) (popX s)) s)) ;;
  s <- get ;;
  if nsga_update s then
    v <- variation (firstn (nat_popsize s) (popX s)) ;;
    modify_state (set_vX v)
  else ret tt.

(** *** Ask and tell *)

(** MoDeOptimizer::ask returns the trial vector and sets [p]. *)
Definition ask : M (vec D * Z) :=
  s <- get ;;
  let p := pos s in
  x <- nextX p ;;
  modify_state (set_pos (Z.rem (pos s + 1) (popsize (par s)))) ;;
  ret (x, p).

(** Index of the first slot that is not ready, or the size of [vdone]. *)
Fixpoint first_free (done : list bool) : nat :=
  match done with
  | [] => O
  | b :: t => if b then S (first_free t) else O
  end.

Definition count_done (done : list bool) : nat :=
  length (filter (fun b => b) done).

(** The loop of tell that moves the pending results into the population,
    over the slots [dps] that remain to be visited. *)
Fixpoint flush (dps : list nat) (p : nat) (s : MoDeOptimizer) : MoDeOptimizer :=
  match dps with
  | [] => s
  | dp :: t =>
      if nth dp (vdone s) false then
        let s' :=
          set_next (nX s) (nY s) (upd (vdone s) dp false)
            (set_popY (upd (popY s) p (col (nY s) dp))
               (set_popX (upd (popX s) p (col (nX s) dp)) s)) in
        if (length (popY s') <=? p)%nat then s' else flush t (S p) s'
      else flush t p s
  end.

(** MoDeOptimizer::tell *)
Definition tell (y x : vec D) (p : Z) : M Z :=
  s <- get ;;
  if is_dominated (popY s) y (Z.to_nat p) then ret (stop s)
  else
    let dp := first_free (vdone s) in
    modify_state
      (set_next (upd (nX s) dp x) (upd (nY s) dp y) (upd (vdone s) dp true)) ;;
    s <- get ;;
    (if (nat_popsize s <=? count_done (vdone s))%nat then
       modify_state (flush (seq 0 (length (vdone s))) (nat_popsize s)) ;;
       pop_update
     else ret tt) ;;
    modify_state (fun s => set_n_evals (n_evals s + 1) s) ;;
    gets stop.

(** One round of the loop of doOptimize. *)
Definition generation : M unit :=
  s <- get ;;
  for_each (seq 0 (nat_popsize s))
    (fun p =>
       x <- nextX (Z.of_nat p) ;;
       modify_state (fun s => set_popX (upd (popX s) (nat_popsize s + p) x) s) ;;
       y <- eval x ;;
       modify_state (fun s => set_popY (upd (popY s) (nat_popsize s + p) y) s)) ;;
  pop_update.

Fixpoint generations (n : nat) : M unit :=
  match n with
  | O => timeout
  | S k =>
      evals <- evaluations ;;
      stopped <- terminate ;;
      s <- get ;;
      if (evals <? maxEvaluations (par s)) && negb stopped
      then (generation ;; generations k)
      else ret tt
  end.

(** MoDeOptimizer::doOptimize *)
Definition doOptimize : M unit :=
  modify_state (set_iterations 0) ;;
  resetEvaluations ;;
  generations fuel.

(** MoDeOptimizer::askAll *)
Definition askAll : M (mat D) :=
  s <- get ;;
  for_each (seq 0 (nat_popsize s))
    (fun p =>
       x <- nextX (Z.of_nat p) ;;
       modify_state (fun s => set_popX (upd (popX s) (nat_popsize s + p) x) s)) ;;
  s <- get ;;
  ret (skipn (length (popX s) - nat_popsize s) (popX s)).

(** MoDeOptimizer::tellAll(mat ys).  The source assigns column [p] of [ys]
    to column [popsize + p] of [popY]; Eigen asserts that both columns exist
    and have the same number of rows. *)
Definition tellAll (ys : mat D) : M Z :=
  s <- get ;;
  for_each (seq 0 (nat_popsize s))
    (fun p =>
       s <- get ;;
       if (p <? length ys)%nat && (nat_popsize s + p <? length (popY s))%nat
          && (length (col ys p) =? length (col (popY s) (nat_popsize s + p)))%nat
       then
         modify_state (fun s =>
           set_popY (upd (popY s) (nat_popsize s + p) (col ys p)) s)
       else fault) ;;
  pop_update ;;
  gets stop.

(** MoDeOptimizer::tellAll(mat ys, bool nsga_update_, double pareto_update_) *)
Definition tellAll_switch (ys : mat D) (nsga_update_ : bool)
    (pareto_update_ : D) : M Z :=
  modify_state (set_update nsga_update_ pareto_update_) ;;
  tellAll ys.

Definition getPopulation (s : MoDeOptimizer) : mat D :=
  firstn (nat_popsize s) (popX s).

Definition getStop (s : MoDeOptimizer) : D := d_of_int (stop s).

(** MoDeOptimizer::init; the columns that the source leaves uninitialized
    hold zeros. *)
Definition init : M unit :=
  s <- get ;;
  let n := nat_popsize s in
  let rows := (nat_nobj s + nat_ncon s)%nat in
  modify_state (fun s =>
    set_popY (repeat (zeros rows) (2 * n))
      (set_popX (repeat (zeros (nat_dim s)) (2 * n)) s)) ;;
  for_each (seq 0 n)
    (fun p =>
       x <- sample ;;
       modify_state (fun s =>
         set_popY (upd (popY s) p (constant rows DBL_MAX))
           (set_popX (upd (popX s) p x) s))) ;;
  modify_state (fun s =>
    set_vp 0
      (set_vX (popX s)
         (set_next (repeat (zeros (nat_dim s)) (2 * n))
            (repeat (zeros rows) (2 * n)) (repeat false (2 * n)) s))).

(** MoDeOptimizer::MoDeOptimizer *)
Definition MoDeOptimizer_new (runid_ : Z) (fitfun_ : Fitness)
    (log_ : mat D -> mat D -> bool) (dim_ nobj_ ncon_ : Z) (rs_ : R)
    (popsize_ maxEvaluations_ : Z) (F_ CR_ pro_c_ dis_c_ pro_m_ dis_m_ : D)
    (nsga_update_ : bool) (pareto_update_ min_mutate_ max_mutate_ : D)
    (log_period_ : Z) (isInt_ : option (list bool)) : MoDeOptimizer :=
  let pos_or (x dflt : D) := if (d_0 <? x)%dbl then x else dflt in
  let F_ := pos_or F_ d_0_5 in
  let CR_ := pos_or CR_ (d_lit 9 (-1)) in
  let p :=
    mkParams runid_ log_
      (if 0 <? popsize_ then popsize_ else 128)
      dim_ nobj_ ncon_
      (if 0 <? maxEvaluations_ then maxEvaluations_ else 500000)
      F_ CR_ pro_c_ dis_c_ pro_m_ dis_m_
      (pos_or min_mutate_ (d_lit 1 (-1)))
      (pos_or max_mutate_ d_0_5)
      (if log_period_ <=? 0 then 1000 else log_period_)
      isInt_ in
  final (init (mkOpt p fitfun_ rs_ 0 0 0 F_ CR_ [] [] [] [] [] 0 [] 0
                 nsga_update_ pareto_update_)).

(** ** The C entry points of the ask/tell interface

    A [double*] argument is the list of the doubles it points to. *)

(** tellMODE_C *)
Definition tellMODE_C (ys : list D) : M Z :=
  s <- get ;;
  let popsize := nat_popsize s in
  let nobj := nat_nobj s in
  let vals :=
    map (fun p => map (fun i => nth (p * nobj + i) ys d_0) (seq 0 nobj))
      (seq 0 popsize) in
  tellAll vals.

(** tellMODE_switchC *)
Definition tellMODE_switchC (ys : list D) (nsga_update_ : bool)
    (pareto_update_ : D) : M Z :=
  s <- get ;;
  let popsize := nat_popsize s in
  let nobj := nat_nobj s in
  let vals :=
    map (fun p => map (fun i => nth (p * nobj + i) ys d_0) (seq 0 nobj))
      (seq 0 popsize) in
  tellAll_switch vals nsga_update_ pareto_update_.

(** askMODE_C.  The result is the array [xs] as the call leaves it. *)
Definition askMODE_C (xs : list D) : M (list D) :=
  s <- get ;;
  let n := nat_dim s in
  let popsize := nat_popsize s in
  pop <- askAll ;;
  ret (fold_left
         (fun xs p =>
            let x := col pop p in
            fold_left (fun xs i => upd xs (p * n + i) (vget x i)) (seq 0 n) xs)
         (seq 0 popsize) xs).

(** populationMODE_C.  The result is the array [xs] as the call leaves it and
    the value returned. *)
Definition populationMODE_C (xs : list D) : M (list D * Z) :=
  s <- get ;;
  let dim := nat_dim s in
  let lamb := nat_popsize s in
  let popX := getPopulation s in
  let xs' :=
    fold_left
      (fun xs p =>
         let x := col popX p in
         let x := fold_left (fun x i => upd x i (nth (p * dim + i) xs d_0))
                    (seq 0 dim) x in
         (* x goes out of scope *)
         let _ := x in xs)
      (seq 0 lamb) xs in
  ret (xs', d_to_int (getStop s)).

(** ** do_optimize_delayed_update

    Modelled from the spec: class evaluator of evaluator.h is not part of the
    sources at hand.  The spec (Parallel Evaluator) has evaluate enqueue a task
    tagged with its slot, a pool of workers each of which takes a task,
    evaluates the objective (which increments the evaluation counter
    atomically) and queues the result, and result return the next completed
    result, blocking while there is none.  The driver and the workers are the
    transitions of one system; the driver's program points are those between
    which a worker may run. *)

Record evaluator : Type := mkEvaluator {
  requests : list (vec D * Z);   (* tasks waiting for a worker *)
  running : list (vec D * Z);    (* tasks a worker is evaluating *)
  evaled : list (vec D * Z)      (* completed results, not yet returned *)
}.

Inductive point : Type :=
| Priming (i : nat)   (* the loop that fills the queue, before round i *)
| LoopHead            (* the test of the while loop *)
| Waiting             (* in eval.result() *)
| Told                (* after tell, at the test that breaks the loop *)
| Done.

Record driver : Type := mkDriver {
  opt : MoDeOptimizer;
  pool : evaluator;
  evals_x : list (vec D);
  at_point : point;
  workers : nat                  (* std::min(workers, popsize) *)
}.

(** The state in which do_optimize_delayed_update enters its first loop. *)
Definition start (workers_ : Z) (s : MoDeOptimizer) : driver :=
  let s := final (resetEvaluations (set_iterations 0 s)) in
  mkDriver s (mkEvaluator [] [] [])
    (repeat [] (nat_popsize s))
    (Priming 0)
    (Z.to_nat (Z.min workers_ (popsize (par s)))).

(** [x = ask(p); eval.evaluate(x, p); evals_x[p] = x;] *)
Definition dispatch (d d' : driver) (next : point) : Prop :=
  exists x p s',
    ask (opt d) = Ret (x, p) s' /\
    d' = mkDriver s'
           (mkEvaluator (requests (pool d) ++ [(x, p)]) (running (pool d))
              (evaled (pool d)))
           (upd (evals_x d) (Z.to_nat p) x) next (workers d).

Inductive step : driver -> driver -> Prop :=
| worker_take : forall d t rest,
    requests (pool d) = t :: rest ->
    (length (running (pool d)) < workers d)%nat ->
    step d (mkDriver (opt d)
              (mkEvaluator rest (running (pool d) ++ [t]) (evaled (pool d)))
              (evals_x d) (at_point d) (workers d))
| worker_finish : forall d before x id after y s',
    running (pool d) = before ++ (x, id) :: after ->
    eval x (opt d) = Ret y s' ->
    step d (mkDriver s'
              (mkEvaluator (requests (pool d)) (before ++ after)
                 (evaled (pool d) ++ [(y, id)]))
              (evals_x d) (at_point d) (workers d))
| driver_prime : forall d d' i,
    at_point d = Priming i -> (i < workers d)%nat ->
    dispatch d d' (Priming (S i)) ->
    step d d'
| driver_primed : forall d i,
    at_point d = Priming i -> (workers d <= i)%nat ->
    step d (mkDriver (opt d) (pool d) (evals_x d) LoopHead (workers d))
| driver_test : forall d,
    at_point d = LoopHead ->
    step d (mkDriver (opt d) (pool d) (evals_x d)
              (if (evaluationCounter (fitfun (opt d))
                   <? maxEvaluations (par (opt d)))
                  && negb (terminate_flag (fitfun (opt d)))
               then Waiting else Done)
              (workers d))
| driver_result : forall d y p rest r s',
    at_point d = Waiting ->
    evaled (pool d) = (y, p) :: rest ->
    tell y (nth (Z.to_nat p) (evals_x d) []) p (opt d) = Ret r s' ->
    step d (mkDriver s'
              (mkEvaluator (requests (pool d)) (running (pool d)) rest)
              (evals_x d) Told (workers d))
| driver_break : forall d,
    at_point d = Told ->
    maxEvaluations (par (opt d)) <= evaluationCounter (fitfun (opt d)) ->
    step d (mkDriver (opt d) (pool d) (evals_x d) Done (workers d))
| driver_next : forall d d',
    at_point d = Told ->
    evaluationCounter (fitfun (opt d)) < maxEvaluations (par (opt d)) ->
    dispatch d d' LoopHead ->
    step d d'.

Inductive reachable (d0 : driver) : driver -> Prop :=
| reach_start : reachable d0 d0
| reach_step : forall d d', reachable d0 d -> step d d' -> reachable d0 d'.

(** Evaluations performed so far, and evaluations still to be performed by
    the workers. *)
Definition performed (d : driver) : Z := evaluationCounter (fitfun (opt d)).
Definition pending (d : driver) : Z :=
  Z.of_nat (length (requests (pool d)) + length (running (pool d))).

End Engine.
End MODE.

(** * Reference definitions

    Definitions that follow the wording of the specification, to be compared
    with the ones taken from the sources. *)

Section Reference.
Context {D : Type} `{Double D} {R : Type} `{Rng D R}.

(** The engine after [k] normal draws, and the draw it makes then. *)
Fixpoint after_normals (k : nat) (r : R) : R :=
  match k with
  | O => r
  | S k' => after_normals k' (snd (gauss_01 r))
  end.

Definition nth_normal (k : nat) (r : R) : D := fst (gauss_01 (after_normals k r)).

Local Open Scope monad_scope.

(** normX as the specification words it: with probability 0.5 the draw is
    from N(xmean, sigma0), else from N(xmean, sigma), and every coordinate is
    resampled until it is feasible. *)
Definition normX_by_rejection (fuel : nat) : M LDE.LDeOptimizer (vec D) :=
  u <- LDE.rnd01 ;;
  s <- get ;;
  let f := LDE.fitfun s in
  let sd := if (u <? d_0_5)%dbl then LDE.sigma0 f else LDE.sigma f in
  fold_each (seq 0 (Z.to_nat (LDE.fit_dim f)))
    (fun i acc =>
       v <- do_while fuel (LDE.normreal (vget (LDE.xmean f) i) (vget sd i))
              (fun nx => negb (LDE.feasible_at f i nx)) ;;
       ret (acc ++ [v]))
    [].

(** Survival as the specification words it: the domination levels are walked
    from the highest score down to 0; a level that fits is admitted whole, the
    first one that does not fit is admitted by descending crowding distance
    until [N] columns are admitted. *)
Definition by_crowding (y0 : mat D) (level : list nat) : list nat :=
  map (fun i => nth i level O)
    (rev (sort_index (Ranking.crowd_dist (gather [] y0 level)))).

Fixpoint walk_levels (N : nat) (y0 : mat D) (levels : list (list nat))
    (x : list nat) : list nat :=
  match levels with
  | [] => x
  | level :: rest =>
      if (length x + length level <=? N)%nat
      then walk_levels N y0 rest (x ++ level)
      else x ++ firstn (N - length x) (by_crowding y0 level)
  end.

(** The levels of the scores [maxdom], ..., 0. *)
Definition levels_desc (domination : list Z) (maxdom : nat) : list (list nat) :=
  map (MODE.domlevel domination) (rev (seq 0 (S maxdom))).

(** The columns of a flat array read as a column-major matrix of [rows] rows
    and [cols] columns. *)
Definition columns (rows cols : nat) (ys : list D) : mat D :=
  map (fun p => map (fun i => nth (p * rows + i) ys d_0) (seq 0 rows))
    (seq 0 cols).

End Reference.

(** * Concrete inputs *)

(** The value with which a computation completes, if it does. *)
Definition value_of {St A : Type} (o : outcome St A) : option A :=
  match o with
  | Ret a _ => Some a
  | _ => None
  end.

Module Inputs.

(** A wrapper over the box [0, 1] with incumbent 0.5 and sigma0 = 0.5, whose
    engine yields the uniform draw 0.25 and the normal draws 10 and 0. *)
Definition box_fitness : @LDE.Fitness float :=
  LDE.Fitness_new (fun _ => 0%float) 1 [0%float] [1%float] [0.5%float]
    [1%float].

Definition box_state : @LDE.LDeOptimizer float (tape float) :=
  LDE.LDeOptimizer_new 0 box_fitness 1
    (mkTape [0.25%float] [10%float; 0%float])
    3 10 0%float 0%float 0%float 0%float 0%float 0%float None.

(** An LDE run in the box [0, 10] x [0, 1] from the guess (5, 0.5), with
    the objective x0 + x1, a population of 4, a budget of 20 evaluations and
    the linear congruential engine seeded with 7. *)
Definition run_fitness : @LDE.Fitness float :=
  LDE.Fitness_new (fun x => (vget x 0 + vget x 1)%float) 2
    [0; 0]%float [10; 1]%float [5; 0.5]%float [1; 1]%float.

Definition run_state : @LDE.LDeOptimizer float lcg :=
  LDE.LDeOptimizer_new 0 run_fitness 2 (mkLcg 7) 4 20
    0%float PrimFloat.infinity 0%float 0%float 0%float 0%float None.

(** An unbounded LDE run in one dimension: population of 4, budget of one
    evaluation, constant objective, and an engine whose uniform draws select
    admissible [r1], [r2] and [r] for each of the four slots. *)
Definition budget_state : @LDE.LDeOptimizer float (tape float) :=
  LDE.LDeOptimizer_new 0
    (LDE.Fitness_new (fun _ => 1%float) 1 [] [] [2%float] [1%float])
    1
    (mkTape [0.25; 0.5; 0; 0.5; 0.75; 0; 0.25; 0.75; 0; 0.25; 0.5; 0]%float [])
    4 1 0%float PrimFloat.infinity 0%float 0%float 0%float 0%float None.

(** The same run with an integer coordinate and the guess 0.5; each call of
    modify draws the rate (0, hence 0.1) and one number (0.5) that is not
    below it. *)
Definition int_state : @LDE.LDeOptimizer float (tape float) :=
  LDE.LDeOptimizer_new 0
    (LDE.Fitness_new (fun _ => 1%float) 1 [] [] [0.5%float] [1%float])
    1
    (mkTape [0.25; 0.5; 0; 0; 0.5; 0; 0.5;
             0.5; 0.75; 0; 0; 0.5; 0; 0.5;
             0.25; 0.75; 0; 0; 0.5; 0; 0.5;
             0.25; 0.5; 0; 0; 0.5; 0; 0.5]%float [])
    4 1 0%float PrimFloat.infinity 0%float 0%float 0%float 0%float
    (Some [true]).

(** A front of five columns of doubles, the first objective being 3, 1, 2,
    1 and 7. *)
Definition front : mat float := [[3; 0]; [1; 0]; [2; 0]; [1; 0]; [7; 0]]%float.

(** Three columns of which two tie for the minimal first objective. *)
Definition tied : mat float := [[1; 0]; [1; 0]; [2; 0]]%float.

(** Five columns of one objective and one constraint; the second and the
    fourth are feasible. *)
Definition constrained : mat float :=
  [[1; 1]; [2; -2]; [0; 3]; [3; 0]; [2; 1]]%float.

Definition Zconstrained : mat Z := [[1; 1]; [2; -2]; [0; 3]; [3; 0]; [2; 1]].

(** Three columns of one objective and one constraint, none feasible. *)
Definition infeasible : mat float := [[1; 2]; [0; 3]; [5; 1]]%float.

(** Two columns of two objectives, the first dominating the second. *)
Definition two_columns : mat float := [[1; 1]; [2; 2]]%float.

(** A MODE optimizer for one variable in [0, 1], one objective and one
    constraint, with a population of two; its engine yields the two uniform
    draws that init samples. *)
Definition mode_fitness : @MODE.Fitness float :=
  MODE.mkFitness (fun x => [vget x 0; vget x 0]) [0%float] [1%float] 0 false [].

Definition mode_state : @MODE.MoDeOptimizer float (tape float) :=
  MODE.MoDeOptimizer_new 0 mode_fitness (fun _ _ => false) 1 1 1
    (mkTape [0.25; 0.75]%float []) 2 100
    0%float 0%float 1%float 20%float 1%float 20%float false 0%float
    0%float 0%float 0 None.

(** A MODE optimizer for one variable in [0, 1] that is flagged as integer,
    with one objective, a population of four, DE update and a budget of one
    evaluation.  Its engine yields the four draws of init (0.5, 0.5, 0.5 and
    0.25) and then, for each of the four slots, the draws that select
    admissible [r1], [r2] and [r3], the crossover index, the mutation rate
    (0, hence 0.1) and one number (0.5) that is not below it. *)
Definition mode_int_state : @MODE.MoDeOptimizer float (tape float) :=
  MODE.MoDeOptimizer_new 0
    (MODE.mkFitness (fun x => [vget x 0]) [0%float] [1%float] 0 false [])
    (fun _ _ => false) 1 1 0
    (mkTape [0.5; 0.5; 0.5; 0.25;
             0.25; 0.5; 0.75; 0; 0; 0.5;
             0; 0.5; 0.75; 0; 0; 0.5;
             0; 0.25; 0.75; 0; 0; 0.5;
             0; 0.25; 0.5; 0; 0; 0.5]%float [])
    4 1
    0%float 0%float 1%float 20%float 1%float 20%float false 0%float
    0%float 0%float 0 (Some [true]).

(** The array passed to tellMODE for that optimizer: the columns (1, 10) and
    (2, 20) of objective and constraint. *)
Definition told : list float := [1; 10; 2; 20]%float.

(** A MODE optimizer in NSGA mode for one variable in [0, 1] and one
    objective, with a population of two sampled as 0.25 and 0.75. *)
Definition mode_nsga_state : @MODE.MoDeOptimizer float (tape float) :=
  MODE.MoDeOptimizer_new 0
    (MODE.mkFitness (fun x => [vget x 0]) [0%float] [1%float] 0 false [])
    (fun _ _ => false) 1 1 0 (mkTape [0.25; 0.75]%float []) 2 100
    0%float 0%float 1%float 20%float 1%float 20%float true 0%float
    0%float 0%float 0 None.

(** A MODE optimizer in NSGA mode as [mode_nsga_state], with a population
    of three. *)
Definition mode_nsga3_state : @MODE.MoDeOptimizer float (tape float) :=
  MODE.MoDeOptimizer_new 0
    (MODE.mkFitness (fun x => [vget x 0]) [0%float] [1%float] 0 false [])
    (fun _ _ => false) 1 1 0 (mkTape [0.25; 0.75; 0.5]%float []) 3 100
    0%float 0%float 1%float 20%float 1%float 20%float true 0%float
    0%float 0%float 0 None.

(** A MODE optimizer as [mode_nsga3_state], built for DE mode. *)
Definition mode_de3_state : @MODE.MoDeOptimizer float (tape float) :=
  MODE.MoDeOptimizer_new 0
    (MODE.mkFitness (fun x => [vget x 0]) [0%float] [1%float] 0 false [])
    (fun _ _ => false) 1 1 0 (mkTape [0.25; 0.75; 0.5]%float []) 3 100
    0%float 0%float 1%float 20%float 1%float 20%float false 0%float
    0%float 0%float 0 None.

End Inputs.

(** * Predicates of the statements *)

(** A computation that always completes with a value. *)
Definition returns {St A : Type} (m : M St A) : Prop :=
  forall s, exists a s', m s = Ret a s'.

(** [graded G k m]: whatever way [m] ends, the state it ends in is related to
    the state it started in by [G k], for a relation [G] graded by a cost. *)
Definition graded {St A : Type} (G : Z -> St -> St -> Prop) (k : Z)
    (m : M St A) : Prop :=
  forall s, G k s (final (m s)).

(** A computation that never leaves the member function by a [return]. *)
Definition noexit {St A : Type} (m : M St A) : Prop :=
  forall s s', m s <> Exit s'.

(** [triple P m Q X T]: started in a state that satisfies [P], the
    computation [m] completes with a value and a state that satisfy [Q],
    leaves the member function by a [return] in a state that satisfies [X], or
    runs out of steps or fails an assertion in a state that satisfies [T]. *)
Definition triple {St A : Type} (P : St -> Prop) (m : M St A)
    (Q : A -> St -> Prop) (X T : St -> Prop) : Prop :=
  forall s, P s ->
    match m s with
    | Ret a s' => Q a s'
    | Exit s' => X s'
    | Timeout s' => T s'
    | Fault s' => T s'
    end.

Section Predicates.
Context {D : Type} `{Double D} {R : Type}.

(** What modify may do to a vector: coordinates that are not flagged are
    kept, flagged ones are kept or hold a truncated value. *)
Definition mutated (flagged : nat -> bool) (x x' : vec D) : Prop :=
  length x' = length x
  /\ forall i,
      (flagged i = false -> vget x' i = vget x i)
      /\ (vget x' i = vget x i \/ exists v, vget x' i = d_of_int (d_to_int v)).

(** Computations that complete and leave the wrapper and the parameters as
    they were, from states whose wrapper satisfies [P]. *)
Definition steady_if (P : @LDE.Fitness D -> Prop) {A}
    (m : M (@LDE.LDeOptimizer D R) A) : Prop :=
  forall s, P (LDE.fitfun s) ->
    exists a s', m s = Ret a s' /\ LDE.fitfun s' = LDE.fitfun s
                 /\ LDE.par s' = LDE.par s.

Definition unbounded (f : @LDE.Fitness D) : Prop := LDE.lower f = [].

(** The evaluations of an LDE run cost [k]: the parameters are kept and the
    counter grows by at most [k]. *)
Definition LDE_cost (k : Z) (s s' : @LDE.LDeOptimizer D R) : Prop :=
  LDE.par s' = LDE.par s
  /\ LDE.getEvaluationCount s <= LDE.getEvaluationCount s'
     <= LDE.getEvaluationCount s + k.

(** The same for a MODE run. *)
Definition MODE_cost (k : Z) (s s' : @MODE.MoDeOptimizer D R) : Prop :=
  MODE.par s' = MODE.par s
  /\ MODE.evaluationCounter (MODE.fitfun s)
     <= MODE.evaluationCounter (MODE.fitfun s')
     <= MODE.evaluationCounter (MODE.fitfun s) + k.

(** The invariant of do_optimize_delayed_update: at each program point of
    the driver, how many tasks are outstanding (waiting, running or completed
    and not yet returned), and the bound on the evaluations performed and
    still to be performed. *)
Definition delayed_inv (d0 d : @MODE.driver D R) : Prop :=
  let W := Z.of_nat (MODE.workers d) in
  let B := MODE.maxEvaluations (MODE.par (MODE.opt d)) + W - 1 in
  let P := MODE.pending d in
  let E := Z.of_nat (length (MODE.evaled (MODE.pool d))) in
  let C := MODE.performed d in
  MODE.par (MODE.opt d) = MODE.par (MODE.opt d0)
  /\ MODE.workers d = MODE.workers d0
  /\ 0 <= C
  /\ match MODE.at_point d with
     | MODE.Priming i => Z.of_nat i <= W /\ P + E = Z.of_nat i /\ C + P <= Z.of_nat i
     | MODE.LoopHead | MODE.Waiting => P + E = W /\ C + P <= B
     | MODE.Told => P + E = W - 1 /\ C + P <= B
     | MODE.Done => C + P <= B
     end.

(** Index [i] does not come after index [j] in the order of the values of
    [x]. *)
Definition le_at (x : vec D) (i j : nat) : Prop :=
  (vget x i <=? vget x j)%dbl = true.

(** A column is feasible when all of its constraint values, the last [ncon]
    ones, are at most 0. *)
Definition all_constraints_met (ncon : nat) (ys : mat D) (i : nat) : bool :=
  let c := col ys i in
  forallb (fun v => (v <=? d_0)%dbl) (skipn (length c - ncon) c).

(** A selection [r] of [N] of the columns scored by [domination] that
    prefers higher scores: distinct columns, as many as [N] allows, and no
    column left out has a higher score than a selected one. *)
Definition elitist (domination : list Z) (N : nat) (r : list nat) : Prop :=
  NoDup r
  /\ (forall i, In i r -> (i < length domination)%nat)
  /\ length r = Nat.min N (length domination)
  /\ (forall i j, In i r -> (j < length domination)%nat -> ~ In j r ->
        nth j domination 0 <= nth i domination 0).

(** What a computation that only draws numbers, builds trial vectors or
    counts leaves as it was: the parameters, the sizes of the population and
    the flags of the pending slots. *)
Definition shape_kept (_ : Z) (s s' : @MODE.MoDeOptimizer D R) : Prop :=
  MODE.par s' = MODE.par s
  /\ length (MODE.popX s') = length (MODE.popX s)
  /\ length (MODE.popY s') = length (MODE.popY s)
  /\ MODE.vdone s' = MODE.vdone s.

(** The pending results of tell fill the slots in order: the first [k]
    slots are ready, [k] is below popsize, and the population has its 2
    popsize columns. *)
Definition ready_prefix (s : @MODE.MoDeOptimizer D R) (k : nat) : Prop :=
  let N := MODE.nat_popsize s in
  MODE.vdone s = repeat true k ++ repeat false (2 * N - k)
  /\ (k < N)%nat
  /\ length (MODE.popX s) = (2 * N)%nat
  /\ length (MODE.popY s) = (2 * N)%nat.

(** The value that Fitness::eval of LDE returns for [X]. *)
Definition LDE_value (f : @LDE.Fitness D) (X : vec D) : D :=
  let r := LDE.func f X in
  if d_isnan r || negb (d_isfinite r) then d_1E99 else r.

(** [improves a b]: [b] is [a], or is reached from [a] by successive strict
    improvements. *)
Inductive improves (a : D) : D -> Prop :=
| improves_refl : improves a a
| improves_step : forall b c,
    improves a b -> (c <? b)%dbl = true -> improves a c.

(** A state that differs from [s] in the random engine only. *)
Definition LDE_drawn (_ : Z) (s s' : @LDE.LDeOptimizer D R) : Prop :=
  exists r, s' = LDE.set_rs r s.

(** What an LDE run has done between the states [s0] and [s]: the parameters,
    the objective, the bounds and the sizes of the population are as they
    were; [bestI] is as it was or a slot of the population; the best value
    has only improved; the objective has been called with the vectors [new],
    once for each step of the counter; and the best vector is the one of [s0]
    or one of these, with the value that eval returned for it. *)
Definition LDE_progress (s0 s : @LDE.LDeOptimizer D R) : Prop :=
  LDE.par s = LDE.par s0
  /\ LDE.func (LDE.fitfun s) = LDE.func (LDE.fitfun s0)
  /\ LDE.lower (LDE.fitfun s) = LDE.lower (LDE.fitfun s0)
  /\ LDE.upper (LDE.fitfun s) = LDE.upper (LDE.fitfun s0)
  /\ length (LDE.popX s) = length (LDE.popX s0)
  /\ length (LDE.popY s) = length (LDE.popY s0)
  /\ length (LDE.popIter s) = length (LDE.popIter s0)
  /\ (LDE.bestI s = LDE.bestI s0
      \/ 0 <= LDE.bestI s < LDE.popsize (LDE.par s0))
  /\ improves (LDE.bestY s0) (LDE.bestY s)
  /\ exists new,
      LDE.calls (LDE.fitfun s) = new ++ LDE.calls (LDE.fitfun s0)
      /\ LDE.evaluationCounter (LDE.fitfun s)
         = LDE.evaluationCounter (LDE.fitfun s0) + Z.of_nat (length new)
      /\ ((LDE.bestX s = LDE.bestX s0 /\ LDE.bestY s = LDE.bestY s0)
          \/ (In (LDE.bestX s) new
              /\ LDE.bestY s = LDE_value (LDE.fitfun s0) (LDE.bestX s))).

(** [x] is among the vectors with which the objective has been called
    since [s0]. *)
Definition LDE_evaluated (s0 s : @LDE.LDeOptimizer D R) (x : vec D) : Prop :=
  exists new, LDE.calls (LDE.fitfun s) = new ++ LDE.calls (LDE.fitfun s0)
              /\ In x new.

(** The run goes on: the stop flag is as it was. *)
Definition LDE_running (s0 s : @LDE.LDeOptimizer D R) : Prop :=
  LDE_progress s0 s /\ LDE.stop s = LDE.stop s0.

(** The run has met the stop criterion. *)
Definition LDE_stopped (s0 s : @LDE.LDeOptimizer D R) : Prop :=
  LDE_progress s0 s
  /\ LDE.stop s = 1
  /\ d_isfinite (LDE.stopfitness (LDE.par s)) = true
  /\ (LDE.bestY s <? LDE.stopfitness (LDE.par s))%dbl = true.

(** What no member function of MODE but eval and tell changes: the
    parameters, the objective, the bounds, the evaluation counter and the
    record of the calls, the slot of ask, the count of tell, the stop flag
    and the update mode. *)
Definition MODE_quiet (_ : Z) (s s' : @MODE.MoDeOptimizer D R) : Prop :=
  MODE.par s' = MODE.par s
  /\ MODE.func (MODE.fitfun s') = MODE.func (MODE.fitfun s)
  /\ MODE.lower (MODE.fitfun s') = MODE.lower (MODE.fitfun s)
  /\ MODE.upper (MODE.fitfun s') = MODE.upper (MODE.fitfun s)
  /\ MODE.evaluationCounter (MODE.fitfun s')
     = MODE.evaluationCounter (MODE.fitfun s)
  /\ MODE.calls (MODE.fitfun s') = MODE.calls (MODE.fitfun s)
  /\ MODE.pos s' = MODE.pos s
  /\ MODE.n_evals s' = MODE.n_evals s
  /\ MODE.stop s' = MODE.stop s
  /\ MODE.nsga_update s' = MODE.nsga_update s
  /\ MODE.pareto_update s' = MODE.pareto_update s.

(** What nextX keeps in addition: the population, the offspring of
    variation and the pending results. *)
Definition MODE_asked (k : Z) (s s' : @MODE.MoDeOptimizer D R) : Prop :=
  MODE_quiet k s s'
  /\ MODE.popX s' = MODE.popX s /\ MODE.popY s' = MODE.popY s
  /\ MODE.nX s' = MODE.nX s /\ MODE.nY s' = MODE.nY s
  /\ MODE.vX s' = MODE.vX s /\ MODE.vdone s' = MODE.vdone s.

(** What askAll keeps: all but the random engine, the iteration count, the
    weights F and CR, the terminate flag, the cursor into the offspring and
    the columns of popX from popsize on. *)
Definition MODE_trialled (k : Z) (s s' : @MODE.MoDeOptimizer D R) : Prop :=
  MODE_quiet k s s'
  /\ MODE.popY s' = MODE.popY s
  /\ MODE.nX s' = MODE.nX s /\ MODE.nY s' = MODE.nY s
  /\ MODE.vX s' = MODE.vX s /\ MODE.vdone s' = MODE.vdone s
  /\ length (MODE.popX s') = length (MODE.popX s)
  /\ firstn (MODE.nat_popsize s) (MODE.popX s')
     = firstn (MODE.nat_popsize s) (MODE.popX s).

(** A state that differs from [s] in the random engine only. *)
Definition MODE_drawn (_ : Z) (s s' : @MODE.MoDeOptimizer D R) : Prop :=
  exists r, s' = MODE.set_rs r s.

(** The iteration count is kept. *)
Definition MODE_iterations_kept (_ : Z) (s s' : @MODE.MoDeOptimizer D R)
  : Prop :=
  MODE.iterations s' = MODE.iterations s.

(** Within a generation that started in [s0]: [p] slots have been evaluated
    and the iteration count is [it]. *)
Definition MODE_round (s0 : @MODE.MoDeOptimizer D R) (p : nat) (it : Z)
    (s : @MODE.MoDeOptimizer D R) : Prop :=
  MODE.par s = MODE.par s0
  /\ MODE.evaluationCounter (MODE.fitfun s)
     = MODE.evaluationCounter (MODE.fitfun s0) + Z.of_nat p
  /\ MODE.iterations s = it
  /\ exists new,
       MODE.calls (MODE.fitfun s) = new ++ MODE.calls (MODE.fitfun s0)
       /\ length new = p.

(** Between the generations of a run that started in [s0]: the objective
    has been called popsize times per iteration, and the counter counts the
    calls of the run. *)
Definition MODE_run (s0 s : @MODE.MoDeOptimizer D R) : Prop :=
  MODE.par s = MODE.par s0
  /\ MODE.evaluationCounter (MODE.fitfun s)
     = Z.of_nat (MODE.nat_popsize s0) * MODE.iterations s
  /\ exists new,
       MODE.calls (MODE.fitfun s) = new ++ MODE.calls (MODE.fitfun s0)
       /\ Z.of_nat (length new) = MODE.evaluationCounter (MODE.fitfun s).

(** The coordinates of [x] that [s0] does not flag as integer are within
    the bounds of [s0], or NaN (which the clamp of getClosestFeasible lets
    through). *)
Definition LDE_within (s0 : @LDE.LDeOptimizer D R) (x : vec D) : Prop :=
  forall i, (i < length x)%nat -> LDE.is_int s0 i = false ->
    LDE.feasible_at (LDE.fitfun s0) i (vget x i) = true
    \/ d_isnan (vget x i) = true.

(** The parameters and the bounds are those of [s0], and the population, the
    best vector and the vectors with which the objective has been called are
    within the bounds, NaN coordinates apart. *)
Definition LDE_feasible_run (s0 s : @LDE.LDeOptimizer D R) : Prop :=
  LDE.par s = LDE.par s0
  /\ LDE.lower (LDE.fitfun s) = LDE.lower (LDE.fitfun s0)
  /\ LDE.upper (LDE.fitfun s) = LDE.upper (LDE.fitfun s0)
  /\ (forall c, In c (LDE.popX s) -> LDE_within s0 c)
  /\ (forall x, In x (LDE.calls (LDE.fitfun s)) -> LDE_within s0 x)
  /\ LDE_within s0 (LDE.bestX s).

End Predicates.

Section Trials.
Context {D : Type} `{Double D} {R : Type} `{Rng D R}.

(** [MODE_trials fuel pow ps s xs s']: nextX, called for the slots [ps] one
    after the other from the state [s], returns the vectors [xs], each of
    which is stored in the column of popX that follows the population at the
    distance of its slot; [s'] is the state after the last of them. *)
Inductive MODE_trials (fuel : nat) (pow : D -> D -> D)
  : list nat -> @MODE.MoDeOptimizer D R -> mat D -> @MODE.MoDeOptimizer D R
    -> Prop :=
| MODE_trials_nil : forall s, MODE_trials fuel pow [] s [] s
| MODE_trials_cons : forall p ps s x s1 xs s2,
    MODE.nextX fuel pow (Z.of_nat p) s = Ret x s1 ->
    MODE_trials fuel pow ps
      (MODE.set_popX (upd (MODE.popX s1) (MODE.nat_popsize s1 + p) x) s1)
      xs s2 ->
    MODE_trials fuel pow (p :: ps) s (x :: xs) s2.

End Trials.

(** * Properties *)

(** ** Instances of the laws *)

#[export] Instance DoubleLaws_Z : DoubleLaws Z.
Proof.
  constructor; unfold d_0; cbn; intros.
  - destruct (Z.leb_spec x y); [now left | right; apply Z.leb_le; lia].
  - apply Z.leb_le. apply Z.leb_le in H, H0. lia.
  - destruct (Z.ltb_spec x y), (Z.leb_spec y x); (reflexivity || lia).
  - destruct (Z.eqb_spec x y), (Z.leb_spec x y), (Z.leb_spec y x);
      (reflexivity || lia).
  - apply Z.eqb_eq. apply Z.eqb_eq in H. lia.
  - apply Z.ltb_lt. apply Z.ltb_lt in H. lia.
Qed.

#[export] Instance IEEELaws_Z : IEEELaws Z.
Proof.
  constructor; unfold d_0; cbn; intros; auto.
  - destruct (Z.leb_spec x y); [now left | right; apply Z.leb_le; lia].
  - apply Z.leb_le. apply Z.leb_le in H, H0. lia.
  - destruct (Z.ltb_spec x y), (Z.leb_spec y x); (reflexivity || lia).
  - destruct (Z.eqb_spec x y), (Z.leb_spec x y), (Z.leb_spec y x);
      (reflexivity || lia).
  - apply Z.eqb_eq. apply Z.eqb_eq in H1. lia.
  - apply Z.ltb_lt. apply Z.ltb_lt in H1. lia.
Qed.

(** ** IEEE binary64: order and difference *)

Section F64_order.

Lemma SFcompare_refl (x : spec_float) :
  x <> S754_nan -> SFcompare x x = Some Eq.
Proof.
  destruct x as [s | s | | s m e]; intro Hn; cbn; try congruence;
    try (now destruct s).
  rewrite Z.compare_refl.
  change (Pos.compare_cont Eq m m) with (Pos.compare m m).
  rewrite Pos.compare_refl. now destruct s.
Qed.

Lemma is_nan_false (x : float) :
  PrimFloat.is_nan x = false <-> Prim2SF x <> S754_nan.
Proof.
  unfold PrimFloat.is_nan. rewrite eqb_spec. unfold SFeqb. split.
  - intros E Hn. rewrite Hn in E. discriminate.
  - intro Hn. now rewrite SFcompare_refl.
Qed.

Lemma SFcompare_nan (x y : spec_float) (c : comparison) :
  SFcompare x y = Some c -> x <> S754_nan /\ y <> S754_nan.
Proof.
  destruct x, y; cbn; intro E; split; congruence.
Qed.

Lemma SFcompare_total (x y : spec_float) :
  x <> S754_nan -> y <> S754_nan -> exists c, SFcompare x y = Some c.
Proof.
  destruct x, y; cbn; intros; try congruence; eexists; reflexivity.
Qed.

Lemma SFcompare_sym (x y : spec_float) (c : comparison) :
  SFcompare x y = Some c -> SFcompare y x = Some (CompOpp c).
Proof.
  destruct x as [s | s | | s m e], y as [s' | s' | | s' m' e']; cbn;
    intro E; try discriminate; injection E as <-;
    try (destruct s; reflexivity); try (destruct s'; reflexivity);
    try (destruct s, s'; reflexivity).
  change (Pos.compare_cont Eq m m') with (Pos.compare m m').
  change (Pos.compare_cont Eq m' m) with (Pos.compare m' m).
  rewrite (Z.compare_antisym e e'), (Pos.compare_antisym m m').
  destruct s, s'; try reflexivity;
    destruct (e ?= e'); cbn; try reflexivity;
    destruct (m ?= m')%positive; reflexivity.
Qed.

Ltac sf_cases :=
  repeat match goal with
    | s : bool |- _ => destruct s
    end;
  cbn in *; try discriminate; try reflexivity; try congruence.

Ltac cmp_cases :=
  repeat match goal with
    | H : context [Pos.compare_cont Eq ?a ?b] |- _ =>
        change (Pos.compare_cont Eq a b) with (Pos.compare a b) in H
    | |- context [Pos.compare_cont Eq ?a ?b] =>
        change (Pos.compare_cont Eq a b) with (Pos.compare a b)
    end;
  repeat match goal with
    | H : context [Z.compare ?a ?b] |- _ =>
        destruct (Z.compare_spec a b); cbn in H
    | |- context [Z.compare ?a ?b] => destruct (Z.compare_spec a b); cbn
    | H : context [Pos.compare ?a ?b] |- _ =>
        destruct (Pos.compare_spec a b); cbn in H
    | |- context [Pos.compare ?a ?b] => destruct (Pos.compare_spec a b); cbn
    end;
  try discriminate; try reflexivity; try lia.

Lemma SFleb_trans (x y z : spec_float) :
  SFleb x y = true -> SFleb y z = true -> SFleb x z = true.
Proof.
  unfold SFleb.
  destruct x as [s | s | | s m e], y as [s' | s' | | s' m' e'],
           z as [s'' | s'' | | s'' m'' e'']; cbn; intros H1 H2;
    try discriminate; try reflexivity; sf_cases; cmp_cases.
Qed.

Lemma SFltb_leb (x y : spec_float) :
  x <> S754_nan -> y <> S754_nan -> SFltb x y = negb (SFleb y x).
Proof.
  intros Hx Hy. unfold SFltb, SFleb.
  destruct (SFcompare_total x y Hx Hy) as [c E].
  rewrite E, (SFcompare_sym x y c E). now destruct c.
Qed.

Lemma SFleb_total (x y : spec_float) :
  x <> S754_nan -> y <> S754_nan -> SFleb x y = true \/ SFleb y x = true.
Proof.
  intros Hx Hy. unfold SFleb.
  destruct (SFcompare_total x y Hx Hy) as [c E].
  rewrite E, (SFcompare_sym x y c E). destruct c; cbn; auto.
Qed.

Lemma SFeqb_leb (x y : spec_float) :
  SFeqb x y = SFleb x y && SFleb y x.
Proof.
  unfold SFeqb, SFleb. destruct (SFcompare x y) as [c |] eqn:E.
  - rewrite (SFcompare_sym x y c E). now destruct c.
  - reflexivity.
Qed.

End F64_order.

Section F64_rounding.

Lemma digits2_pos_bounds (m : positive) :
  2 ^ (Zpos (digits2_pos m) - 1) <= Zpos m < 2 ^ Zpos (digits2_pos m).
Proof.
  induction m as [m IH | m IH |]; cbn [digits2_pos].
  - rewrite (Pos2Z.inj_xI m), Pos2Z.inj_succ.
    replace (Z.succ (Zpos (digits2_pos m)) - 1)
      with (Z.succ (Zpos (digits2_pos m) - 1)) by lia.
    rewrite !Z.pow_succ_r by lia. lia.
  - rewrite (Pos2Z.inj_xO m), Pos2Z.inj_succ.
    replace (Z.succ (Zpos (digits2_pos m)) - 1)
      with (Z.succ (Zpos (digits2_pos m) - 1)) by lia.
    rewrite !Z.pow_succ_r by lia. lia.
  - cbn. lia.
Qed.

Lemma shr_1_halves (mrs : shr_record) :
  0 <= shr_m mrs ->
  0 <= shr_m (shr_1 mrs)
  /\ 2 * shr_m (shr_1 mrs) <= shr_m mrs < 2 * (shr_m (shr_1 mrs) + 1).
Proof.
  destruct mrs as [m r s]. cbn [shr_m]. intro Hm.
  destruct m as [| p | p]; [cbn; lia | | lia].
  destruct p; cbn [shr_1 shr_m]; lia.
Qed.

Lemma iter_pos_shr_1 (p : positive) (mrs : shr_record) :
  0 <= shr_m mrs ->
  0 <= shr_m (iter_pos shr_1 p mrs)
  /\ 2 ^ Zpos p * shr_m (iter_pos shr_1 p mrs) <= shr_m mrs
     < 2 ^ Zpos p * (shr_m (iter_pos shr_1 p mrs) + 1).
Proof.
  revert mrs. induction p as [p IH | p IH |]; intros mrs Hm; cbn [iter_pos].
  - destruct (shr_1_halves mrs Hm) as (H0 & H1).
    destruct (IH (shr_1 mrs) H0) as (H2 & H3).
    destruct (IH _ H2) as (H4 & H5).
    split; [exact H4 |].
    rewrite (Pos2Z.inj_xI p).
    replace (2 * Zpos p + 1) with (Zpos p + Zpos p + 1) by lia.
    rewrite !Z.pow_add_r by lia. change (2 ^ 1) with 2.
    assert (0 < 2 ^ Zpos p) by (apply Z.pow_pos_nonneg; lia).
    nia.
  - destruct (IH mrs Hm) as (H2 & H3).
    destruct (IH _ H2) as (H4 & H5).
    split; [exact H4 |].
    rewrite (Pos2Z.inj_xO p).
    replace (2 * Zpos p) with (Zpos p + Zpos p) by lia.
    rewrite !Z.pow_add_r by lia.
    assert (0 < 2 ^ Zpos p) by (apply Z.pow_pos_nonneg; lia).
    nia.
  - change (2 ^ 1) with 2. apply shr_1_halves. exact Hm.
Qed.

Lemma shr_m_of_loc (m : Z) (l : location) :
  shr_m (shr_record_of_loc m l) = m.
Proof. destruct l as [| []]; reflexivity. Qed.

(** Rounding a positive mantissa whose exponent is not below emin to the
    format leaves a positive mantissa. *)
Lemma shr_fexp_pos (m e : Z) (l : location) :
  0 < m -> emin <= e ->
  0 < shr_m (fst (shr_fexp prec emax m e l))
  /\ emin <= snd (shr_fexp prec emax m e l).
Proof.
  intros Hm He. unfold shr_fexp, shr.
  destruct m as [| p | p]; try lia. cbn [Zdigits2].
  pose proof (digits2_pos_bounds p) as Hd.
  set (d := Zpos (digits2_pos p)) in *.
  unfold fexp.
  destruct (Z.max (d + e - prec) emin - e) as [| k | k] eqn:En;
    cbn [fst snd]; rewrite ?shr_m_of_loc; try (split; lia).
  assert (Ek : Zpos k = d - prec) by lia.
  destruct (iter_pos_shr_1 k (shr_record_of_loc (Zpos p) l)) as (H0 & H1);
    [rewrite shr_m_of_loc; lia |].
  rewrite shr_m_of_loc in H1. split; [| lia].
  set (r := shr_m (iter_pos shr_1 k (shr_record_of_loc (Zpos p) l))) in *.
  assert (Hp : 2 ^ (d - 1) = 2 ^ Zpos k * 2 ^ (prec - 1)).
  { rewrite <- Z.pow_add_r by (unfold prec; lia). f_equal. lia. }
  assert (0 < 2 ^ Zpos k) by (apply Z.pow_pos_nonneg; lia).
  assert (0 < 2 ^ (prec - 1)) by (apply Z.pow_pos_nonneg; unfold prec; lia).
  nia.
Qed.

Lemma round_nearest_even_ge (m : Z) (l : location) :
  m <= round_nearest_even m l.
Proof.
  destruct l as [| []]; cbn; try lia. destruct (Z.even m); lia.
Qed.

Lemma binary_round_aux_sign (sx : bool) (mx ex : Z) (lx : location) :
  0 < mx -> emin <= ex ->
  (exists m e, binary_round_aux prec emax sx mx ex lx = S754_finite sx m e)
  \/ binary_round_aux prec emax sx mx ex lx = S754_infinity sx.
Proof.
  intros Hm He. unfold binary_round_aux.
  destruct (shr_fexp_pos mx ex lx Hm He) as (H1 & H2).
  destruct (shr_fexp prec emax mx ex lx) as [mrs' e']. cbn [fst snd] in *.
  pose proof (round_nearest_even_ge (shr_m mrs') (loc_of_shr_record mrs')) as Hr.
  destruct (shr_fexp_pos (round_nearest_even (shr_m mrs') (loc_of_shr_record mrs'))
              e' loc_Exact ltac:(lia) H2) as (H3 & H4).
  destruct (shr_fexp prec emax _ e' loc_Exact) as [mrs'' e''].
  cbn [fst snd] in *.
  destruct (shr_m mrs'') as [| m | m]; try lia.
  destruct (e'' <=? emax - prec); [left; eauto | now right].
Qed.

Lemma iter_xO (m d : positive) :
  Zpos (Pos.iter xO m d) = Zpos m * 2 ^ Zpos d.
Proof.
  induction d as [| d IH] using Pos.peano_ind.
  - cbn. lia.
  - rewrite Pos.iter_succ, Pos2Z.inj_xO, IH, Pos2Z.inj_succ.
    rewrite Z.pow_succ_r by lia. lia.
Qed.

Lemma shl_align_spec (m : positive) (e e' : Z) :
  e' <= e ->
  Zpos (fst (shl_align m e e')) = Zpos m * 2 ^ (e - e').
Proof.
  intro Hle. unfold shl_align.
  destruct (e' - e) as [| k | k] eqn:Ek; cbn [fst]; try lia.
  - replace (e - e') with 0 by lia. cbn. lia.
  - rewrite iter_xO. f_equal. f_equal. lia.
Qed.

Lemma shl_align_exp (m : positive) (e e' : Z) :
  emin <= e -> emin <= e' -> emin <= snd (shl_align m e e').
Proof.
  intros H1 H2. unfold shl_align. destruct (e' - e); cbn [snd]; lia.
Qed.

Lemma binary_round_sign (sx : bool) (m : positive) (e : Z) :
  emin <= e ->
  (exists m' e', binary_round prec emax sx m e = S754_finite sx m' e')
  \/ binary_round prec emax sx m e = S754_infinity sx.
Proof.
  intro He. unfold binary_round.
  pose proof (shl_align_exp m e (fexp prec emax (Zpos (digits2_pos m) + e)) He)
    as Hs.
  destruct (shl_align m e _) as [mz ez]. cbn [snd] in Hs.
  apply binary_round_aux_sign; [lia |]. apply Hs.
  unfold fexp. lia.
Qed.

End F64_rounding.

Section F64_difference.

Lemma valid_finite (s : bool) (m : positive) (e : Z) :
  valid_binary (S754_finite s m e) = true ->
  emin <= e /\ Zpos m < 2 ^ prec /\ (emin < e -> 2 ^ (prec - 1) <= Zpos m).
Proof.
  cbn [SpecFloat.valid_binary]. unfold bounded, canonical_mantissa, fexp.
  intro Hv. apply andb_prop in Hv. destruct Hv as [Hv _].
  apply Z.eqb_eq in Hv.
  pose proof (digits2_pos_bounds m) as Hd.
  set (d := Zpos (digits2_pos m)) in *.
  split; [lia |]. split.
  - apply Z.lt_le_trans with (2 ^ d); [lia |].
    apply Z.pow_le_mono_r; lia.
  - intro He. replace (prec - 1) with (d - 1) by lia. lia.
Qed.

(** Of two valid numbers, the one with the larger exponent has the larger
    magnitude. *)
Lemma aligned_lt (s s' : bool) (m m' : positive) (e e' : Z) :
  valid_binary (S754_finite s m e) = true ->
  valid_binary (S754_finite s' m' e') = true ->
  e < e' -> Zpos m < Zpos m' * 2 ^ (e' - e).
Proof.
  intros Hv Hv' He.
  destruct (valid_finite s m e Hv) as (H1 & H2 & _).
  destruct (valid_finite s' m' e' Hv') as (_ & _ & H3).
  specialize (H3 ltac:(lia)).
  assert (Hp : 2 ^ prec = 2 ^ (prec - 1) * 2) by reflexivity.
  assert (Hq : 2 <= 2 ^ (e' - e)).
  { change 2 with (2 ^ 1) at 1. apply Z.pow_le_mono_r; lia. }
  nia.
Qed.

Lemma binary_normalize_sign (z e : Z) (szero : bool) :
  emin <= e ->
  match z with
  | Z0 => binary_normalize prec emax z e szero = S754_zero szero
  | Zpos _ =>
      (exists m' e', binary_normalize prec emax z e szero
                     = S754_finite false m' e')
      \/ binary_normalize prec emax z e szero = S754_infinity false
  | Zneg _ =>
      (exists m' e', binary_normalize prec emax z e szero
                     = S754_finite true m' e')
      \/ binary_normalize prec emax z e szero = S754_infinity true
  end.
Proof.
  intro He. destruct z; cbn [binary_normalize];
    [reflexivity | |]; now apply binary_round_sign.
Qed.

(** The difference of two finite numbers as an integer multiple of 2^ez. *)
Lemma SFsub_finite (sy sx : bool) (my mx : positive) (ey ex : Z) :
  SFsub prec emax (S754_finite sy my ey) (S754_finite sx mx ex)
  = binary_normalize prec emax
      (cond_Zopp sy (Zpos my * 2 ^ (ey - Z.min ey ex))
       - cond_Zopp sx (Zpos mx * 2 ^ (ex - Z.min ey ex)))
      (Z.min ey ex) false.
Proof.
  cbn [SFsub]. cbv zeta.
  rewrite !shl_align_spec by lia. reflexivity.
Qed.

Lemma SFsub_pos (x y : spec_float) :
  valid_binary x = true -> valid_binary y = true ->
  (forall s, x <> S754_infinity s) -> (forall s, y <> S754_infinity s) ->
  SFltb x y = true ->
  SFltb (S754_zero false) (SFsub prec emax y x) = true.
Proof.
  intros Hvx Hvy Hix Hiy. unfold SFltb at 1.
  destruct x as [sx | sx | | sx mx ex], y as [sy | sy | | sy my ey];
    try (now destruct (Hix sx)); try (now destruct (Hiy sy));
    try (cbn; discriminate).
  - (* 0 < y *) cbn. destruct sy; [discriminate | reflexivity].
  - (* x < 0 *) cbn. destruct sx; [reflexivity | discriminate].
  - intro Hlt. rewrite SFsub_finite.
    destruct (valid_finite sx mx ex Hvx) as (Hex & _).
    destruct (valid_finite sy my ey Hvy) as (Hey & _).
    pose proof (binary_normalize_sign
                  (cond_Zopp sy (Zpos my * 2 ^ (ey - Z.min ey ex))
                   - cond_Zopp sx (Zpos mx * 2 ^ (ex - Z.min ey ex)))
                  (Z.min ey ex) false ltac:(lia)) as Hn.
    assert (Hpos : 0 < cond_Zopp sy (Zpos my * 2 ^ (ey - Z.min ey ex))
                       - cond_Zopp sx (Zpos mx * 2 ^ (ex - Z.min ey ex))).
    { assert (0 < 2 ^ (ey - Z.min ey ex)) by (apply Z.pow_pos_nonneg; lia).
      assert (0 < 2 ^ (ex - Z.min ey ex)) by (apply Z.pow_pos_nonneg; lia).
      cbn [SFcompare] in Hlt.
      change (Pos.compare_cont Eq mx my) with (Pos.compare mx my) in Hlt.
      destruct sx, sy; cbn [cond_Zopp]; try discriminate; try nia.
      - (* both negative: x < y when |x| > |y| *)
        destruct (Z.compare_spec ex ey) as [E | L | G]; try discriminate.
        + subst ey. rewrite Z.min_id, Z.sub_diag. change (2 ^ 0) with 1.
          destruct (Pos.compare_spec mx my); cbn in Hlt; try discriminate.
          lia.
        + pose proof (aligned_lt true true my mx ey ex Hvy Hvx ltac:(lia)).
          rewrite Z.min_l by lia. rewrite Z.sub_diag. change (2 ^ 0) with 1.
          lia.
      - (* both positive *)
        destruct (Z.compare_spec ex ey) as [E | L | G]; try discriminate.
        + subst ey. rewrite Z.min_id, Z.sub_diag. change (2 ^ 0) with 1.
          destruct (Pos.compare_spec mx my); cbn in Hlt; try discriminate.
          lia.
        + pose proof (aligned_lt false false mx my ex ey Hvx Hvy ltac:(lia)).
          rewrite Z.min_r by lia. rewrite Z.sub_diag. change (2 ^ 0) with 1.
          lia. }
    destruct (cond_Zopp sy _ - cond_Zopp sx _) as [| p | p]; try lia.
    destruct Hn as [(m' & e' & ->) | ->]; reflexivity.
Qed.

Lemma SFsub_eq (x y : spec_float) :
  (forall s, x <> S754_infinity s) -> (forall s, y <> S754_infinity s) ->
  SFeqb x y = true ->
  SFeqb (SFsub prec emax y x) (S754_zero false) = true.
Proof.
  intros Hix Hiy. unfold SFeqb at 1.
  destruct x as [sx | sx | | sx mx ex], y as [sy | sy | | sy my ey];
    try (now destruct (Hix sx)); try (now destruct (Hiy sy));
    try (cbn; discriminate).
  - intros _. cbn. now destruct sx, sy.
  - cbn. now destruct sy.
  - cbn. now destruct sx.
  - intro Heq. rewrite SFsub_finite.
    cbn [SFcompare] in Heq.
    change (Pos.compare_cont Eq mx my) with (Pos.compare mx my) in Heq.
    assert (E : sx = sy /\ ex = ey /\ mx = my).
    { destruct sx, sy; try discriminate;
        destruct (Z.compare_spec ex ey); try discriminate;
        destruct (Pos.compare_spec mx my); try discriminate; auto. }
    destruct E as (-> & -> & ->).
    rewrite Z.sub_diag. reflexivity.
Qed.

Lemma SFsub_not_nan (x y : spec_float) :
  valid_binary x = true -> valid_binary y = true ->
  x <> S754_nan -> y <> S754_nan ->
  (forall s, x <> S754_infinity s) -> (forall s, y <> S754_infinity s) ->
  SFsub prec emax y x <> S754_nan.
Proof.
  intros Hvx Hvy Hnx Hny Hix Hiy.
  destruct x as [sx | sx | | sx mx ex], y as [sy | sy | | sy my ey];
    try (now destruct (Hix sx)); try (now destruct (Hiy sy));
    try congruence; try (cbn; discriminate).
  - cbn. destruct sy, sx; discriminate.
  - rewrite SFsub_finite.
    destruct (valid_finite sx mx ex Hvx) as (Hex & _).
    destruct (valid_finite sy my ey Hvy) as (Hey & _).
    pose proof (binary_normalize_sign
                  (cond_Zopp sy (Zpos my * 2 ^ (ey - Z.min ey ex))
                   - cond_Zopp sx (Zpos mx * 2 ^ (ex - Z.min ey ex)))
                  (Z.min ey ex) false ltac:(lia)) as Hn.
    destruct (cond_Zopp sy _ - cond_Zopp sx _) as [| p | p];
      [rewrite Hn; discriminate | |];
      destruct Hn as [(m' & e' & ->) | ->]; discriminate.
Qed.

Lemma is_finite_spec (x : float) :
  PrimFloat.is_finite x = true ->
  Prim2SF x <> S754_nan /\ forall s, Prim2SF x <> S754_infinity s.
Proof.
  unfold PrimFloat.is_finite. intro Hf.
  apply negb_true_iff, orb_false_iff in Hf. destruct Hf as [Hn Hi].
  apply is_nan_false in Hn. split; [exact Hn |].
  intros s E. unfold PrimFloat.is_infinity in Hi.
  rewrite eqb_spec, abs_spec, E in Hi.
  change (Prim2SF infinity) with (S754_infinity false) in Hi.
  cbn in Hi. discriminate.
Qed.

Lemma F64_sub_pos (x y : float) :
  PrimFloat.is_finite x = true -> PrimFloat.is_finite y = true ->
  (x <? y)%float = true -> (0 <? y - x)%float = true.
Proof.
  intros Hx Hy. rewrite !ltb_spec, sub_spec.
  destruct (is_finite_spec x Hx) as [_ Hix].
  destruct (is_finite_spec y Hy) as [_ Hiy].
  apply SFsub_pos; auto using Prim2SF_valid.
Qed.

Lemma F64_sub_eq (x y : float) :
  PrimFloat.is_finite x = true -> PrimFloat.is_finite y = true ->
  (x =? y)%float = true -> (y - x =? 0)%float = true.
Proof.
  intros Hx Hy. rewrite !eqb_spec, sub_spec.
  destruct (is_finite_spec x Hx) as [_ Hix].
  destruct (is_finite_spec y Hy) as [_ Hiy].
  now apply SFsub_eq.
Qed.

Lemma F64_sub_not_nan (x y : float) :
  PrimFloat.is_finite x = true -> PrimFloat.is_finite y = true ->
  PrimFloat.is_nan (y - x) = false.
Proof.
  intros Hx Hy. apply is_nan_false. rewrite sub_spec.
  destruct (is_finite_spec x Hx) as [Hnx Hix].
  destruct (is_finite_spec y Hy) as [Hny Hiy].
  apply SFsub_not_nan; auto using Prim2SF_valid.
Qed.

End F64_difference.

(** IEEE binary64 satisfies the laws. *)
#[export] Instance IEEELaws_float : IEEELaws float.
Proof.
  constructor; cbn [d_leb d_ltb d_eqb d_isnan d_isfinite d_sub Double_float].
  - intros x y Hx Hy. rewrite !leb_spec.
    apply SFleb_total; now apply is_nan_false.
  - intros x y z. rewrite !leb_spec. apply SFleb_trans.
  - intros x y Hx Hy. rewrite ltb_spec, leb_spec.
    apply SFltb_leb; now apply is_nan_false.
  - intros x y. rewrite ltb_spec. unfold SFltb.
    destruct (SFcompare (Prim2SF x) (Prim2SF y)) as [c |] eqn:E;
      [| discriminate].
    intros _. destruct (SFcompare_nan _ _ _ E).
    split; now apply is_nan_false.
  - intros x y. rewrite leb_spec. unfold SFleb.
    destruct (SFcompare (Prim2SF x) (Prim2SF y)) as [c |] eqn:E;
      [| discriminate].
    intros _. destruct (SFcompare_nan _ _ _ E).
    split; now apply is_nan_false.
  - intros x y. rewrite eqb_spec, !leb_spec. apply SFeqb_leb.
  - intros x Hx. apply is_nan_false. now apply is_finite_spec.
  - intros x y. apply F64_sub_not_nan.
  - intros x y. apply F64_sub_eq.
  - intros x y. apply F64_sub_pos.
Qed.

(** *** Consequences of the laws *)

Section IEEE_order.
Context {D : Type} `{IEEELaws D}.

Lemma ieee_leb_refl (x : D) : d_isnan x = false -> (x <=? x)%dbl = true.
Proof. intro Hx. destruct (ieee_leb_total x x Hx Hx); assumption. Qed.

Lemma ieee_ltb_false (x y : D) :
  d_isnan x = false -> d_isnan y = false ->
  (x <? y)%dbl = false -> (y <=? x)%dbl = true.
Proof.
  intros Hx Hy. rewrite (ieee_ltb_leb x y Hx Hy). now destruct (y <=? x)%dbl.
Qed.

Lemma ieee_ltb_true (x y : D) :
  (x <? y)%dbl = true -> (x <=? y)%dbl = true.
Proof.
  intro E. destruct (ieee_ltb_nan x y E) as [Hx Hy].
  rewrite (ieee_ltb_leb x y Hx Hy) in E.
  destruct (ieee_leb_total x y Hx Hy) as [L | L]; [exact L |].
  rewrite L in E. discriminate.
Qed.

Lemma ieee_ltb_of_nan (x y : D) :
  d_isnan x = true \/ d_isnan y = true -> (x <? y)%dbl = false.
Proof.
  intros Hn. destruct (x <? y)%dbl eqn:E; [| reflexivity].
  destruct (ieee_ltb_nan x y E) as [Hx Hy].
  destruct Hn as [Hn | Hn]; congruence.
Qed.

Lemma ieee_leb_ltb (x y : D) :
  (x <=? y)%dbl = true -> (y <? x)%dbl = false.
Proof.
  intro L. destruct (ieee_leb_nan x y L) as [Hx Hy].
  rewrite (ieee_ltb_leb y x Hy Hx), L. reflexivity.
Qed.

Lemma ieee_ltb_irrefl (x : D) : (x <? x)%dbl = false.
Proof.
  destruct (d_isnan x) eqn:Hx; [apply ieee_ltb_of_nan; now left |].
  apply ieee_leb_ltb. now apply ieee_leb_refl.
Qed.

(** std::max(std::min(x, u), l) lies in [l, u] when l <= u and x is not
    NaN; it is x when x lies in [l, u] already, and also when x is NaN. *)
Lemma ieee_clamp_in_bounds (x l u : D) :
  d_isnan x = false -> (l <=? u)%dbl = true ->
  (l <=? d_max (d_min x u) l)%dbl = true
  /\ (d_max (d_min x u) l <=? u)%dbl = true.
Proof.
  intros Hx Hlu. destruct (ieee_leb_nan l u Hlu) as [Hl Hu].
  assert (Hm : (d_min x u <=? u)%dbl = true /\ d_isnan (d_min x u) = false).
  { unfold d_min. destruct (u <? x)%dbl eqn:E.
    - split; [now apply ieee_leb_refl | exact Hu].
    - split; [now apply ieee_ltb_false | exact Hx]. }
  destruct Hm as [Hm Hmn].
  unfold d_max. destruct (d_min x u <? l)%dbl eqn:E.
  - split; [now apply ieee_leb_refl | exact Hlu].
  - split; [now apply ieee_ltb_false | exact Hm].
Qed.

Lemma ieee_clamp_keeps (x l u : D) :
  (l <=? x)%dbl = true -> (x <=? u)%dbl = true -> d_max (d_min x u) l = x.
Proof.
  intros Hl Hu. unfold d_min. rewrite (ieee_leb_ltb x u Hu).
  unfold d_max. now rewrite (ieee_leb_ltb l x Hl).
Qed.

Lemma ieee_clamp_nan (x l u : D) :
  d_isnan x = true -> d_max (d_min x u) l = x.
Proof.
  intro Hx. unfold d_min. rewrite (ieee_ltb_of_nan u x) by now right.
  unfold d_max. now rewrite (ieee_ltb_of_nan x l) by now left.
Qed.

End IEEE_order.

(** ** Reasoning about computations *)

Section Graded.
Context {St : Type}.
Variable G : Z -> St -> St -> Prop.
Hypothesis G_refl : forall s, G 0 s s.
Hypothesis G_trans : forall a b s1 s2 s3,
    G a s1 s2 -> G b s2 s3 -> G (a + b) s1 s3.
Hypothesis G_weaken : forall a b s1 s2, a <= b -> G a s1 s2 -> G b s1 s2.

Lemma graded_ret {A} (a : A) : graded G 0 (ret a).
Proof. intro s. apply G_refl. Qed.

Lemma graded_get : graded G 0 get.
Proof. intro s. apply G_refl. Qed.

Lemma graded_gets {A} (f : St -> A) : graded G 0 (gets f).
Proof. intro s. apply G_refl. Qed.

Lemma graded_exit {A} : graded G 0 (@exit St A).
Proof. intro s. apply G_refl. Qed.

Lemma graded_timeout {A} : graded G 0 (@timeout St A).
Proof. intro s. apply G_refl. Qed.

Lemma graded_fault {A} : graded G 0 (@fault St A).
Proof. intro s. apply G_refl. Qed.

Lemma graded_modify (f : St -> St) :
  (forall s, G 0 s (f s)) -> graded G 0 (modify_state f).
Proof. intros Hf s. apply Hf. Qed.

Lemma graded_weaken {A} (a b : Z) (m : M St A) :
  a <= b -> graded G a m -> graded G b m.
Proof. intros Hab Hm s. eapply G_weaken; eauto. Qed.

Lemma graded_bind {A B} (a b : Z) (m : M St A) (f : A -> M St B) :
  graded G a m -> (forall x, graded G b (f x)) -> 0 <= b ->
  graded G (a + b) (bind m f).
Proof.
  intros Hm Hf Hb s. specialize (Hm s). unfold bind.
  destruct (m s) as [x s' | s' | s' | s']; cbn in *.
  - eapply G_trans; [exact Hm | apply Hf].
  - apply G_weaken with a; [lia | exact Hm].
  - apply G_weaken with a; [lia | exact Hm].
  - apply G_weaken with a; [lia | exact Hm].
Qed.

Lemma graded_bind0 {A B} (m : M St A) (f : A -> M St B) :
  graded G 0 m -> (forall x, graded G 0 (f x)) -> graded G 0 (bind m f).
Proof. intros. change 0 with (0 + 0). apply graded_bind; auto. lia. Qed.

Lemma graded_call (k : Z) (m : M St unit) : graded G k m -> graded G k (call m).
Proof.
  intros Hm s. specialize (Hm s). unfold call.
  destruct (m s); cbn in *; exact Hm.
Qed.

Lemma graded_for_each {X} (k : Z) (l : list X) (body : X -> M St unit) :
  0 <= k -> (forall x, graded G k (body x)) ->
  graded G (k * Z.of_nat (length l)) (for_each l body).
Proof.
  intros Hk Hb. induction l as [| x t IH]; cbn [for_each length].
  - rewrite Z.mul_0_r. apply graded_ret.
  - replace (k * Z.of_nat (S (length t))) with (k + k * Z.of_nat (length t))
      by lia.
    apply graded_bind; [apply Hb | intros _; exact IH | nia].
Qed.

Lemma graded_fold_each {X A} (l : list X) (body : X -> A -> M St A) (a : A) :
  (forall x a, graded G 0 (body x a)) -> graded G 0 (fold_each l body a).
Proof.
  intros Hb. revert a. induction l as [| x t IH]; intro a; cbn [fold_each].
  - apply graded_ret.
  - apply graded_bind0; [apply Hb | intro; apply IH].
Qed.

Lemma graded_do_while {A} (fuel : nat) (body : M St A) (again : A -> bool) :
  graded G 0 body -> graded G 0 (do_while fuel body again).
Proof.
  intros Hb. induction fuel as [| k IH]; cbn [do_while].
  - apply graded_timeout.
  - apply graded_bind0; [exact Hb |].
    intro a. destruct (again a); [exact IH | apply graded_ret].
Qed.

End Graded.

(** Proves that a computation has cost 0 by following its structure; the
    hint database [frame] holds the lemmas for the member functions. *)
Create HintDb frame.

#[export] Hint Resolve graded_ret graded_get graded_gets graded_exit
  graded_fault
  graded_timeout : frame.

Ltac frame :=
  repeat first
    [ solve [eauto with frame]
    | match goal with
      | |- forall _, _ => intro
      | |- graded _ 0 (bind _ _) => apply graded_bind0
      | |- graded _ 0 (fold_each _ _ _) => apply graded_fold_each
      | |- graded _ 0 (do_while _ _ _) => apply graded_do_while
      | |- graded _ 0 (if ?b then _ else _) => destruct b
      | |- graded _ 0 (match ?x with _ => _ end) => destruct x
      end ].

Lemma returns_bind {St A B} (m : M St A) (f : A -> M St B) :
  returns m -> (forall a, returns (f a)) -> returns (bind m f).
Proof.
  intros Hm Hf s. destruct (Hm s) as (a & s' & E). unfold bind. rewrite E.
  apply Hf.
Qed.

Lemma returns_ret {St A} (a : A) : returns (@ret St A a).
Proof. intro s. now exists a, s. Qed.

Lemma returns_fold_each {St X A} (l : list X) (body : X -> A -> M St A) (a : A) :
  (forall x a, returns (body x a)) -> returns (fold_each l body a).
Proof.
  intro Hb. revert a. induction l as [| x t IH]; intro a; cbn [fold_each].
  - apply returns_ret.
  - apply returns_bind; [apply Hb | intro; apply IH].
Qed.

(** ** LDE: the fitness wrapper *)

Section LDE_fitness.
Context {D : Type} `{Double D} {R : Type} `{Rng D R}.

Local Abbreviation state := (@LDE.LDeOptimizer D R).

Lemma LDE_eval_unfold (X : vec D) (s : state) :
  LDE.eval X s =
  Ret (let r := LDE.func (LDE.fitfun s) X in
       if d_isnan r || negb (d_isfinite r) then d_1E99 else r)
      (LDE.set_fitfun (LDE.count_call X (LDE.fitfun s)) s).
Proof. reflexivity. Qed.

End LDE_fitness.

Lemma F64_1E99_finite : PrimFloat.is_finite (d_1E99 (D := float)) = true.
Proof. vm_compute. reflexivity. Qed.

(** C4.  Fitness::eval calls the objective once (the call is recorded, and
    it is the only new record), adds exactly one to the evaluation counter,
    leaves every other member as it was, and always completes with the
    objective's value, replaced by 1e99 when it is NaN or not finite; on IEEE
    doubles the value returned is therefore always finite. *)
Theorem LDE_eval_spec :
  (forall (D : Type) (HD : Double D) (R : Type) (X : vec D)
          (s : @LDE.LDeOptimizer D R),
      let r := LDE.func (LDE.fitfun s) X in
      exists y s',
        LDE.eval X s = Ret y s'
        /\ y = (if d_isnan r || negb (d_isfinite r) then d_1E99 else r)
        /\ LDE.calls (LDE.fitfun s') = X :: LDE.calls (LDE.fitfun s)
        /\ LDE.evaluationCounter (LDE.fitfun s')
           = LDE.evaluationCounter (LDE.fitfun s) + 1
        /\ s' = LDE.set_fitfun (LDE.count_call X (LDE.fitfun s)) s)
  /\ (forall (R : Type) (X : vec float) (s : @LDE.LDeOptimizer float R),
         exists y s',
           LDE.eval X s = Ret y s' /\ PrimFloat.is_finite y = true).
Proof.
  split.
  - intros. eexists. eexists. rewrite LDE_eval_unfold.
    split; [reflexivity |]. repeat split.
  - intros. eexists. eexists. rewrite LDE_eval_unfold.
    split; [reflexivity |]. cbv zeta.
    change (@d_isnan float Double_float) with PrimFloat.is_nan.
    change (@d_isfinite float Double_float) with PrimFloat.is_finite.
    generalize (LDE.func (LDE.fitfun s) X). intro r.
    destruct (PrimFloat.is_nan r) eqn:En; cbn [orb].
    + apply F64_1E99_finite.
    + destruct (PrimFloat.is_finite r) eqn:Ef; cbn [negb].
      * exact Ef.
      * apply F64_1E99_finite.
Qed.

(** *** Clamping and rejection *)

Section LDE_sampling.
Context {D : Type} `{Double D} {R : Type} `{Rng D R}.

Local Abbreviation state := (@LDE.LDeOptimizer D R).

Lemma vget_cwise (f : D -> D -> D) (a b : vec D) (i : nat) :
  (i < length (cwise f a b))%nat ->
  vget (cwise f a b) i = f (vget a i) (vget b i).
Proof.
  unfold cwise, vget. revert b i.
  induction a as [| x a IH]; intros [| y b] [| i] Hi; cbn in *;
    try lia; try reflexivity.
  apply IH. lia.
Qed.

Lemma length_cwise (f : D -> D -> D) (a b : vec D) :
  length (cwise f a b) = Nat.min (length a) (length b).
Proof. unfold cwise. now rewrite length_map, length_combine. Qed.

Lemma d_leb_refl `{!DoubleLaws D} (x : D) : (x <=? x)%dbl = true.
Proof. destruct (d_leb_total x x); assumption. Qed.

Lemma d_ltb_false `{!DoubleLaws D} (x y : D) :
  (x <? y)%dbl = false -> (y <=? x)%dbl = true.
Proof. rewrite d_ltb_leb. now destruct (y <=? x)%dbl. Qed.

Lemma d_ltb_true `{!DoubleLaws D} (x y : D) :
  (x <? y)%dbl = true -> (x <=? y)%dbl = true.
Proof.
  rewrite d_ltb_leb. intro E.
  destruct (d_leb_total x y) as [L | L]; [exact L |].
  rewrite L in E. discriminate.
Qed.

(** The clamp on IEEE doubles, for bounds lower <= upper: a coordinate that
    is not NaN is brought into its bounds, a NaN stays as it is, and so does
    a coordinate that is feasible already. *)
Lemma closest_feasible_ieee `{!IEEELaws D} (f : LDE.Fitness) (X : vec D) :
  (forall i, (vget (LDE.lower f) i <=? vget (LDE.upper f) i)%dbl = true) ->
  forall i, (i < length (LDE.closest_feasible f X))%nat ->
    (d_isnan (vget X i) = false ->
     LDE.feasible_at f i (vget (LDE.closest_feasible f X) i) = true)
    /\ (d_isnan (vget X i) = true ->
        vget (LDE.closest_feasible f X) i = vget X i)
    /\ (LDE.feasible_at f i (vget X i) = true ->
        vget (LDE.closest_feasible f X) i = vget X i).
Proof.
  intros Hb i Hi. unfold LDE.feasible_at, LDE.closest_feasible in *.
  destruct (LDE.lower f) as [| l0 lo] eqn:El;
    [cbn; repeat split; reflexivity |].
  cbn [length Nat.ltb Nat.leb Nat.eqb orb] in *. rewrite <- El in *.
  rewrite vget_cwise by exact Hi.
  rewrite length_cwise in Hi.
  rewrite vget_cwise by lia.
  split; [| split].
  - intro Hx.
    destruct (ieee_clamp_in_bounds (vget X i) _ _ Hx (Hb i)) as [H1 H2].
    now rewrite H1, H2.
  - apply ieee_clamp_nan.
  - intro Hf. apply andb_prop in Hf. destruct Hf as [H1 H2].
    now apply ieee_clamp_keeps.
Qed.

Lemma do_while_sound {St A} (fuel : nat) (body : M St A) (again : A -> bool)
    (s s' : St) (a : A) :
  do_while fuel body again s = Ret a s' -> again a = false.
Proof.
  revert s. induction fuel as [| k IH]; intros s; cbn [do_while].
  - discriminate.
  - unfold bind. destruct (body s) as [x s1 | | |]; try discriminate.
    destruct (again x) eqn:E.
    + apply IH.
    + unfold ret. intro E'. now inversion E'; subst.
Qed.

Lemma normreal_unfold (mean sdev : D) (s : state) :
  LDE.normreal mean sdev s =
  Ret (fst (gauss_01 (LDE.rs s)) * sdev + mean)%dbl
      (LDE.set_rs (snd (gauss_01 (LDE.rs s))) s).
Proof.
  unfold LDE.normreal, LDE.gauss, bind, get, modify_state, ret.
  now destruct (gauss_01 (LDE.rs s)).
Qed.

(** The rejection loop returns the first acceptable draw. *)
Lemma rejection_first (mean sdev : D) (again : D -> bool) (k fuel : nat)
    (s : state) :
  (k < fuel)%nat ->
  (forall j, (j < k)%nat ->
     again (nth_normal j (LDE.rs s) * sdev + mean)%dbl = true) ->
  again (nth_normal k (LDE.rs s) * sdev + mean)%dbl = false ->
  do_while fuel (LDE.normreal mean sdev) again s =
  Ret (nth_normal k (LDE.rs s) * sdev + mean)%dbl
      (LDE.set_rs (after_normals (S k) (LDE.rs s)) s).
Proof.
  revert fuel s. induction k as [| k IH]; intros [| fuel] s Hk Hrej Hacc;
    try lia; cbn [do_while]; unfold bind; rewrite normreal_unfold.
  - unfold nth_normal in Hacc. cbn [after_normals] in *. now rewrite Hacc.
  - assert (Hfirst := Hrej O ltac:(lia)).
    unfold nth_normal in Hfirst. cbn [after_normals] in Hfirst. rewrite Hfirst.
    rewrite IH; [reflexivity | lia | |].
    + intros j Hj. apply (Hrej (S j)). lia.
    + exact Hacc.
Qed.

Lemma rnd01_unfold (s : state) :
  LDE.rnd01 s =
  Ret (fst (distr_01 (LDE.rs s))) (LDE.set_rs (snd (distr_01 (LDE.rs s))) s).
Proof.
  unfold LDE.rnd01, bind, get, modify_state, ret.
  now destruct (distr_01 (LDE.rs s)).
Qed.

Lemma gauss_returns : returns (@LDE.gauss D R _).
Proof.
  intro s. unfold LDE.gauss, bind, get, modify_state, ret.
  destruct (gauss_01 (LDE.rs s)). eauto.
Qed.

Lemma gauss_fitfun (s : state) :
  LDE.fitfun (final (LDE.gauss s)) = LDE.fitfun s.
Proof.
  unfold LDE.gauss, bind, get, modify_state, ret.
  now destruct (gauss_01 (LDE.rs s)).
Qed.

Lemma normal_draws_return (l : list nat) (acc : vec D) (s : state) :
  exists nv s',
    fold_each l (fun _ acc => bind LDE.gauss (fun g => ret (acc ++ [g]))) acc s
    = Ret nv s'
    /\ LDE.fitfun s' = LDE.fitfun s.
Proof.
  revert s acc. induction l as [| x t IH]; intros s acc; cbn [fold_each].
  - exists acc, s. split; reflexivity.
  - unfold bind at 1. unfold bind at 1.
    destruct (gauss_returns s) as (g & s1 & Eg).
    pose proof (gauss_fitfun s) as Ef. rewrite Eg in *. cbn in Ef.
    unfold ret at 1.
    destruct (IH s1 (acc ++ [g])) as (nv & s' & E & Ef').
    exists nv, s'. split; [exact E | congruence].
Qed.

Lemma normal_vec_returns (n : nat) (s : state) :
  exists nv s', LDE.normal_vec n s = Ret nv s'
                /\ LDE.fitfun s' = LDE.fitfun s.
Proof. apply normal_draws_return. Qed.

End LDE_sampling.

(** C8, as the code has it.  normXi draws one uniform number [u], takes
    sigma0 when [u < 0.5] and sigma otherwise, and resamples the coordinate
    from N(xmean[i], sd) until it is feasible: what it returns is feasible, and
    it returns the first feasible draw whenever that draw comes within the
    step budget.  normX chooses between sigma0 and sigma in the same way but
    draws the vector once and clamps it into the box.  On IEEE doubles (any
    values that satisfy their laws, as binary64 does) and for bounds
    lower <= upper, a coordinate of the clamped vector is feasible when the
    coordinate drawn is not NaN; a NaN passes the clamp as it is, and so
    does a coordinate that is feasible already. *)
Theorem LDE_normXi_rejects_normX_clamps
    (D : Type) (HD : Double D) (HL : IEEELaws D) (R : Type) (HR : Rng D R)
    (fuel : nat) (s : @LDE.LDeOptimizer D R) :
  (forall i, (vget (LDE.lower (LDE.fitfun s)) i
              <=? vget (LDE.upper (LDE.fitfun s)) i)%dbl = true) ->
  let f := LDE.fitfun s in
  let u := fst (distr_01 (LDE.rs s)) in
  let r1 := snd (distr_01 (LDE.rs s)) in
  (forall i : nat,
      let sd := if (u <? d_0_5)%dbl then vget (LDE.sigma0 f) i
                else vget (LDE.sigma f) i in
      let draw k := (nth_normal k r1 * sd + vget (LDE.xmean f) i)%dbl in
      (forall v s', LDE.normXi fuel i s = Ret v s' ->
                    LDE.feasible_at f i v = true)
      /\ (forall k, (k < fuel)%nat ->
            (forall j, (j < k)%nat -> LDE.feasible_at f i (draw j) = false) ->
            LDE.feasible_at f i (draw k) = true ->
            LDE.normXi fuel i s
            = Ret (draw k) (LDE.set_rs (after_normals (S k) r1) s)))
  /\ (let sd := if (u <? d_0_5)%dbl then LDE.sigma0 f else LDE.sigma f in
      exists nv s',
        LDE.normal_vec (Z.to_nat (LDE.fit_dim f)) (LDE.set_rs r1 s) = Ret nv s'
        /\ let drawn := cwise d_add (cwise d_mul nv sd) (LDE.xmean f) in
           LDE.normX s = Ret (LDE.closest_feasible f drawn) s'
           /\ forall i,
               (i < length (LDE.closest_feasible f drawn))%nat ->
               (d_isnan (vget drawn i) = false ->
                LDE.feasible_at f i (vget (LDE.closest_feasible f drawn) i)
                = true)
               /\ (d_isnan (vget drawn i) = true ->
                   vget (LDE.closest_feasible f drawn) i = vget drawn i)
               /\ (LDE.feasible_at f i (vget drawn i) = true ->
                   vget (LDE.closest_feasible f drawn) i = vget drawn i)).
Proof.
  intros Hb f u r1. split.
  - intros i sd draw.
    assert (E : LDE.normXi fuel i s =
                do_while fuel
                  (LDE.normreal (vget (LDE.xmean f) i) sd)
                  (fun nx => negb (LDE.feasible_at f i nx))
                  (LDE.set_rs r1 s)).
    { unfold LDE.normXi, bind at 1. rewrite rnd01_unfold.
      unfold bind at 1, get. cbn [LDE.fitfun LDE.set_rs]. fold f u r1.
      subst sd. now destruct (u <? d_0_5)%dbl. }
    rewrite E. split.
    + intros v s' Hr. apply do_while_sound in Hr.
      now apply negb_false_iff in Hr.
    + intros k Hk Hrej Hacc.
      apply (rejection_first _ _ _ k fuel (LDE.set_rs r1 s)); cbn [LDE.rs LDE.set_rs].
      * exact Hk.
      * intros j Hj. fold (draw j). now rewrite Hrej.
      * fold (draw k). now rewrite Hacc.
  - intro sd.
    destruct (normal_vec_returns (Z.to_nat (LDE.fit_dim f)) (LDE.set_rs r1 s))
      as (nv & s' & Env & Ef).
    exists nv, s'. split; [exact Env |]. cbv zeta. split.
    + unfold LDE.normX, bind at 1. rewrite rnd01_unfold.
      unfold bind at 1, get. cbn [LDE.fitfun LDE.set_rs]. fold f u r1.
      subst sd.
      destruct (u <? d_0_5)%dbl; unfold LDE.normalVec, bind; rewrite Env;
        unfold ret, LDE.getClosestFeasible, gets; now rewrite Ef.
    + apply closest_feasible_ieee. exact Hb.
Qed.

(** The theorem at the box [0, 1] on IEEE doubles, with the mean 0.5 and
    sigma0 = 0.5: the uniform draw 0.25 selects sigma0, the normal draw 10
    gives the coordinate 5.5, and normX returns it clamped to 1. *)
Lemma LDE_normXi_rejects_normX_clamps_witness :
  (forall i, (vget (LDE.lower (LDE.fitfun Inputs.box_state)) i
              <=? vget (LDE.upper (LDE.fitfun Inputs.box_state)) i)%dbl = true)
  /\ (fst (distr_01 (LDE.rs Inputs.box_state)) <? d_0_5)%dbl = true
  /\ value_of (LDE.normX Inputs.box_state) = Some [1%float]
  /\ exists nv s',
      LDE.normX Inputs.box_state
      = Ret (LDE.closest_feasible (LDE.fitfun Inputs.box_state)
               (cwise d_add
                  (cwise d_mul nv (LDE.sigma0 (LDE.fitfun Inputs.box_state)))
                  (LDE.xmean (LDE.fitfun Inputs.box_state)))) s'.
Proof.
  assert (Hb : forall i,
             (vget (LDE.lower (LDE.fitfun Inputs.box_state)) i
              <=? vget (LDE.upper (LDE.fitfun Inputs.box_state)) i)%dbl = true).
  { intros [| [| i]]; vm_compute; reflexivity. }
  split; [exact Hb |].
  split; [vm_compute; reflexivity |].
  split; [vm_compute; reflexivity |].
  destruct (LDE_normXi_rejects_normX_clamps float _ _ (tape float) _ 1%nat
              Inputs.box_state Hb) as [_ (nv & s' & _ & E & _)].
  exists nv, s'. exact E.
Defined.

(** C8 as stated fails for normX: on the box [0, 1] the first draw is 5.5,
    which is not feasible; normX does not draw again (the second normal draw
    stays in the engine) and returns the bound 1, where resampling until
    feasible returns the second draw, 0.5. *)
Lemma LDE_normX_is_not_rejection_sampling :
  value_of (LDE.normX Inputs.box_state) = Some [1%float]
  /\ normals (LDE.rs (final (LDE.normX Inputs.box_state))) = [0%float]
  /\ LDE.feasible_at (LDE.fitfun Inputs.box_state) 0 5.5%float = false
  /\ value_of (normX_by_rejection 2 Inputs.box_state) = Some [0.5%float]
  /\ LDE.normX Inputs.box_state <> normX_by_rejection 2 Inputs.box_state.
Proof.
  assert (E1 : value_of (LDE.normX Inputs.box_state) = Some [1%float])
    by (vm_compute; reflexivity).
  assert (E2 : value_of (normX_by_rejection 2 Inputs.box_state)
               = Some [0.5%float]) by (vm_compute; reflexivity).
  repeat split; try (vm_compute; reflexivity).
  intro E. rewrite E, E2 in E1. discriminate.
Qed.

(** ** Integer coordinates *)

Lemma length_upd {A} (l : list A) (i : nat) (v : A) :
  length (upd l i v) = length l.
Proof.
  revert i. induction l as [| h t IH]; intros [| i]; cbn; auto.
Qed.

Lemma nth_upd {A} (l : list A) (i j : nat) (v d : A) :
  nth j (upd l i v) d =
  if (j =? i)%nat && (i <? length l)%nat then v else nth j l d.
Proof.
  revert i j. induction l as [| h t IH]; intros i j.
  - cbn [length]. replace (i <? 0)%nat with false by now destruct i.
    rewrite andb_false_r. now destruct i.
  - destruct i as [| i], j as [| j]; cbn; try reflexivity.
    now rewrite IH.
Qed.

Lemma nth_upd_other {A} (l : list A) (i j : nat) (v d : A) :
  j <> i -> nth j (upd l i v) d = nth j l d.
Proof.
  intro Hn. rewrite nth_upd.
  destruct (Nat.eqb_spec j i); [contradiction | reflexivity].
Qed.

Lemma fold_each_inv {St X A} (I : A -> Prop) (l : list X)
    (body : X -> A -> M St A) :
  (forall x a s a' s', I a -> body x a s = Ret a' s' -> I a') ->
  forall a s a' s', I a -> fold_each l body a s = Ret a' s' -> I a'.
Proof.
  intro Hb. induction l as [| x t IH]; intros a s a' s' Ha E;
    cbn [fold_each] in E.
  - unfold ret in E. now inversion E; subst.
  - unfold bind in E. destruct (body x a s) as [a1 s1 | | |] eqn:E1;
      try discriminate.
    eapply IH; [| exact E]. eapply Hb; eauto.
Qed.

Ltac break_outcome H :=
  repeat match type of H with
    | context [match ?o with
               | Ret _ _ => _ | Exit _ => _ | Timeout _ => _ | Fault _ => _
               end] =>
        destruct o eqn:?; try discriminate
    | context [if ?b then _ else _] => destruct b eqn:?; try discriminate
    end.

Section Integer_coordinates.
Context {D : Type} `{Double D}.

Lemma mutated_refl (flagged : nat -> bool) (x : vec D) : mutated flagged x x.
Proof. split; [reflexivity | intro i; split; auto]. Qed.

Lemma mutated_upd (flagged : nat -> bool) (x x' : vec D) (i : nat) (v : D) :
  flagged i = true -> mutated flagged x x' ->
  mutated flagged x (upd x' i (d_of_int (d_to_int v))).
Proof.
  intros Hi [Hl Hx]. split; [now rewrite length_upd |].
  intro j. unfold vget. rewrite nth_upd.
  destruct (Nat.eqb_spec j i) as [-> | Hn]; cbn [andb].
  - destruct (i <? length x')%nat.
    + split; [congruence | right; eauto].
    + apply Hx.
  - apply Hx.
Qed.

End Integer_coordinates.

Section LDE_modify.
Context {D : Type} `{Double D} {R : Type} `{Rng D R}.

Local Abbreviation state := (@LDE.LDeOptimizer D R).

Lemma LDE_modify_mutated (fuel : nat) (x x' : vec D) (s s' : state) :
  LDE.modify fuel x s = Ret x' s' -> mutated (LDE.is_int s) x x'.
Proof.
  unfold LDE.modify, bind at 1, get. unfold LDE.is_int.
  destruct (LDE.isInt (LDE.par s)) as [ints |].
  - unfold bind at 1. destruct (LDE.rnd01 s) as [u s1 | | |]; try discriminate.
    apply fold_each_inv; [| apply mutated_refl].
    intros i a s2 a' s3 Ha E.
    destruct (nth i ints false) eqn:Ei.
    + unfold bind, ret in E. break_outcome E; inversion E; subst; auto.
      now apply mutated_upd.
    + unfold ret in E. now inversion E; subst.
  - unfold ret. intro E. inversion E; subst. apply mutated_refl.
Qed.

Lemma steady_bind (P : LDE.Fitness -> Prop) {A B} (m : M state A)
    (f : A -> M state B) :
  steady_if P m -> (forall a, steady_if P (f a)) -> steady_if P (bind m f).
Proof.
  intros Hm Hf s Hs. destruct (Hm s Hs) as (a & s1 & E & Ef & Ep).
  unfold bind. rewrite E.
  destruct (Hf a s1) as (b & s2 & E2 & Ef2 & Ep2); [now rewrite Ef |].
  exists b, s2. repeat split; congruence.
Qed.

Lemma steady_ret (P : LDE.Fitness -> Prop) {A} (a : A) :
  steady_if P (ret a : M state A).
Proof. intros s _. exists a, s. repeat split. Qed.

Lemma steady_get (P : LDE.Fitness -> Prop) :
  steady_if P (get : M state state).
Proof. intros s _. exists s, s. repeat split. Qed.

Lemma steady_rnd01 (P : LDE.Fitness -> Prop) : steady_if P LDE.rnd01.
Proof. intros s _. rewrite rnd01_unfold. eexists. eexists. repeat split. Qed.

Lemma steady_normreal (P : LDE.Fitness -> Prop) (mean sdev : D) :
  steady_if P (LDE.normreal mean sdev).
Proof. intros s _. rewrite normreal_unfold. eexists. eexists. repeat split. Qed.

Lemma steady_fold_each (P : LDE.Fitness -> Prop) {X A} (l : list X)
    (body : X -> A -> M state A) (a : A) :
  (forall x a, steady_if P (body x a)) -> steady_if P (fold_each l body a).
Proof.
  intro Hb. revert a. induction l as [| x t IH]; intro a; cbn [fold_each].
  - apply steady_ret.
  - apply steady_bind; [apply Hb | intro; apply IH].
Qed.

Lemma steady_normXi (fuel : nat) (i : nat) :
  steady_if unbounded (LDE.normXi (S fuel) i).
Proof.
  unfold LDE.normXi. apply steady_bind; [apply steady_rnd01 | intro u].
  intros s Hs. unfold bind at 1, get.
  assert (Hf : forall nx, negb (LDE.feasible_at (LDE.fitfun s) i nx) = false).
  { intro nx. unfold LDE.feasible_at. red in Hs. now rewrite Hs. }
  destruct (u <? d_0_5)%dbl; cbn [do_while]; unfold bind;
    rewrite normreal_unfold, Hf; unfold ret; eexists; eexists; repeat split.
Qed.

Lemma steady_modify (fuel : nat) (x : vec D) :
  steady_if unbounded (LDE.modify (S fuel) x).
Proof.
  unfold LDE.modify. apply steady_bind; [apply steady_get | intro s0].
  destruct (LDE.isInt (LDE.par s0)) as [ints |].
  - apply steady_bind; [apply steady_rnd01 | intro u].
    apply steady_fold_each. intros i a.
    destruct (nth i ints false); [| apply steady_ret].
    apply steady_bind; [apply steady_rnd01 | intro u'].
    destruct (_ <? _)%dbl; [| apply steady_ret].
    apply steady_bind; [apply steady_normXi | intro; apply steady_ret].
  - apply steady_ret.
Qed.

End LDE_modify.

Section MODE_modify.
Context {D : Type} `{Double D} {R : Type} `{Rng D R}.

Local Abbreviation state := (@MODE.MoDeOptimizer D R).

Lemma MODE_rand01_unfold (s : state) :
  MODE.rand01 s =
  Ret (fst (distr_01 (MODE.rs s))) (MODE.set_rs (snd (distr_01 (MODE.rs s))) s).
Proof.
  unfold MODE.rand01, bind, get, modify_state, ret.
  now destruct (distr_01 (MODE.rs s)).
Qed.

Lemma returns_get : returns (get : M state state).
Proof. intro s. now exists s, s. Qed.

Lemma MODE_rand01_returns : returns (@MODE.rand01 D R _).
Proof. intro s. rewrite MODE_rand01_unfold. eauto. Qed.

Lemma MODE_sample_i_returns (i : nat) : returns (@MODE.sample_i D _ R _ i).
Proof.
  unfold MODE.sample_i.
  apply returns_bind; [apply returns_get | intro].
  apply returns_bind; [apply MODE_rand01_returns | intro; apply returns_ret].
Qed.

Lemma MODE_modify_returns (x : vec D) : returns (@MODE.modify D _ R _ x).
Proof.
  unfold MODE.modify. apply returns_bind; [apply returns_get | intro s0].
  destruct (MODE.isInt (MODE.par s0)) as [ints |]; [| apply returns_ret].
  apply returns_bind; [apply MODE_rand01_returns | intro u].
  apply returns_fold_each. intros i a.
  destruct (nth i ints false); [| apply returns_ret].
  apply returns_bind; [apply MODE_rand01_returns | intro u'].
  destruct (_ <? _)%dbl; [| apply returns_ret].
  apply returns_bind; [apply MODE_sample_i_returns | intro; apply returns_ret].
Qed.

Lemma MODE_modify_mutated (x x' : vec D) (s s' : state) :
  MODE.modify x s = Ret x' s' -> mutated (MODE.is_int s) x x'.
Proof.
  unfold MODE.modify, bind at 1, get. unfold MODE.is_int.
  destruct (MODE.isInt (MODE.par s)) as [ints |].
  - unfold bind at 1. destruct (MODE.rand01 s) as [u s1 | | |]; try discriminate.
    apply fold_each_inv; [| apply mutated_refl].
    intros i a s2 a' s3 Ha E.
    destruct (nth i ints false) eqn:Ei.
    + unfold bind, ret in E. break_outcome E; inversion E; subst; auto.
      now apply mutated_upd.
    + unfold ret in E. now inversion E; subst.
  - unfold ret. intro E. inversion E; subst. apply mutated_refl.
Qed.

End MODE_modify.

(** What modify does in both engines: it keeps every coordinate that is not
    flagged as integer, and a flagged coordinate either keeps the value it
    had or, when it is resampled, holds the resampled value truncated by the
    cast to int; nothing is rounded.  The modify of MODE always completes;
    the modify of LDE completes when the search is unbounded (its rejection
    loop then accepts the first draw). *)
Theorem modify_keeps_or_truncates :
  (forall (D : Type) (HD : Double D) (R : Type) (HR : Rng D R) (fuel : nat)
          (x : vec D) (s : @LDE.LDeOptimizer D R),
      (forall x' s', LDE.modify fuel x s = Ret x' s' ->
                     mutated (LDE.is_int s) x x')
      /\ (unbounded (LDE.fitfun s) -> (0 < fuel)%nat ->
          exists x' s', LDE.modify fuel x s = Ret x' s'))
  /\ (forall (D : Type) (HD : Double D) (R : Type) (HR : Rng D R)
             (x : vec D) (s : @MODE.MoDeOptimizer D R),
         exists x' s', MODE.modify x s = Ret x' s'
                       /\ mutated (MODE.is_int s) x x').
Proof.
  split.
  - intros. split.
    + intros x' s'. apply LDE_modify_mutated.
    + intros Hu Hf. destruct fuel as [| fuel]; [lia |].
      destruct (steady_modify fuel x s Hu) as (x' & s' & E & _).
      eauto.
  - intros. destruct (MODE_modify_returns x s) as (x' & s' & E).
    exists x', s'. split; [exact E |]. now apply MODE_modify_mutated in E.
Qed.

(** C2 fails on the code: the objective receives integer coordinates that
    are not integers.  In the LDE run the only coordinate is flagged as
    integer and the objective is called eight times with the value 0.5 in
    it, which round() maps to 1; in the MODE run, with whatever power
    function and normal sampler, the only coordinate is flagged as integer
    and the objective is called with 0.25 (three times) and with 0.5, which
    round() maps to 0 and to 1. *)
Theorem integer_coordinates_evaluated_unrounded :
  (LDE.is_int Inputs.int_state 0 = true
   /\ value_of (LDE.doOptimize 2 Inputs.int_state) = Some tt
   /\ LDE.calls (LDE.fitfun (final (LDE.doOptimize 2 Inputs.int_state)))
      = repeat [0.5%float] 8)
  /\ (forall (pow : float -> float -> float)
             (norm_i : MODE.Fitness -> nat -> float -> float),
         MODE.is_int Inputs.mode_int_state 0 = true
         /\ value_of (MODE.doOptimize 3 pow norm_i Inputs.mode_int_state)
            = Some tt
         /\ MODE.calls
              (MODE.fitfun
                 (final (MODE.doOptimize 3 pow norm_i Inputs.mode_int_state)))
            = [[0.5]; [0.25]; [0.25]; [0.25]]%float)
  /\ d_round 0.5%float = 1%float
  /\ d_round 0.25%float = 0%float.
Proof.
  split; [| split; [| split]].
  - repeat split; vm_compute; reflexivity.
  - intros pow norm_i. repeat split; vm_compute; reflexivity.
  - vm_compute; reflexivity.
  - vm_compute; reflexivity.
Qed.

(** ** Evaluation budget: LDE *)

Section LDE_budget.
Context {D : Type} `{Double D} {R : Type} `{Rng D R}.

Local Abbreviation state := (@LDE.LDeOptimizer D R).
Local Abbreviation cost := (@LDE_cost D R).

Lemma LDE_cost_refl (s : state) : cost 0 s s.
Proof. split; [reflexivity | lia]. Qed.

Lemma LDE_cost_trans (a b : Z) (s1 s2 s3 : state) :
  cost a s1 s2 -> cost b s2 s3 -> cost (a + b) s1 s3.
Proof. intros [P1 C1] [P2 C2]. split; [congruence | lia]. Qed.

Lemma LDE_cost_weaken (a b : Z) (s1 s2 : state) :
  a <= b -> cost a s1 s2 -> cost b s1 s2.
Proof. intros Hab [P1 C1]. split; [assumption | lia]. Qed.

Hint Resolve LDE_cost_refl LDE_cost_trans LDE_cost_weaken : frame.

Lemma LDE_free_modify (f : state -> state) :
  (forall s, LDE.par (f s) = LDE.par s
             /\ LDE.getEvaluationCount (f s) = LDE.getEvaluationCount s) ->
  graded cost 0 (modify_state f).
Proof.
  intros Hf s. destruct (Hf s) as [Hp Hc]. split; [exact Hp |].
  cbn [final modify_state]. lia.
Qed.

Ltac free_modify :=
  apply LDE_free_modify; intro; split; reflexivity.

Lemma LDE_free_rnd01 : graded cost 0 LDE.rnd01.
Proof. unfold LDE.rnd01. frame. free_modify. Qed.

Lemma LDE_free_gauss : graded cost 0 LDE.gauss.
Proof. unfold LDE.gauss. frame. free_modify. Qed.

Hint Resolve LDE_free_rnd01 LDE_free_gauss : frame.

Lemma LDE_free_rndInt (max : Z) : graded cost 0 (LDE.rndInt max).
Proof. unfold LDE.rndInt. frame. Qed.

Lemma LDE_free_normreal (mean sdev : D) :
  graded cost 0 (LDE.normreal mean sdev).
Proof. unfold LDE.normreal. frame. Qed.

Hint Resolve LDE_free_rndInt LDE_free_normreal : frame.

Lemma LDE_free_normalVec (mean sdev : vec D) (n : nat) :
  graded cost 0 (LDE.normalVec mean sdev n).
Proof. unfold LDE.normalVec, LDE.normal_vec. frame. Qed.

Lemma LDE_free_getClosestFeasible (X : vec D) :
  graded cost 0 (LDE.getClosestFeasible X).
Proof. unfold LDE.getClosestFeasible. frame. Qed.

Lemma LDE_free_feasible (i : nat) (x : D) : graded cost 0 (LDE.feasible i x).
Proof. unfold LDE.feasible. frame. Qed.

Hint Resolve LDE_free_normalVec LDE_free_getClosestFeasible
  LDE_free_feasible : frame.

Lemma LDE_free_normX : graded cost 0 LDE.normX.
Proof. unfold LDE.normX. frame. Qed.

Lemma LDE_free_normXi (fuel : nat) (i : nat) :
  graded cost 0 (LDE.normXi fuel i).
Proof. unfold LDE.normXi. frame. Qed.

Lemma LDE_free_updateSigma (X : vec D) : graded cost 0 (LDE.updateSigma X).
Proof. unfold LDE.updateSigma. free_modify. Qed.

Hint Resolve LDE_free_normX LDE_free_normXi LDE_free_updateSigma : frame.

Lemma LDE_free_modify_vec (fuel : nat) (x : vec D) :
  graded cost 0 (LDE.modify fuel x).
Proof. unfold LDE.modify. frame. Qed.

Hint Resolve LDE_free_modify_vec : frame.

Lemma LDE_free_next_improve (fuel : nat) (xb x xi : vec D) :
  graded cost 0 (LDE.next_improve fuel xb x xi).
Proof. unfold LDE.next_improve. frame. Qed.

Lemma LDE_free_crossover (fuel : nat) (CR F : D) (r : Z)
    (xp xb x1 x2 : vec D) :
  graded cost 0 (LDE.crossover fuel CR F r xp xb x1 x2).
Proof. unfold LDE.crossover. frame. Qed.

Hint Resolve LDE_free_next_improve LDE_free_crossover : frame.

(** Fitness::eval is the one place where the counter moves. *)
Lemma LDE_eval_costs_one (X : vec D) : graded cost 1 (LDE.eval X).
Proof.
  intro s. rewrite LDE_eval_unfold. split; [reflexivity |].
  unfold LDE.getEvaluationCount. cbn. lia.
Qed.

Ltac free_then k :=
  apply (graded_bind cost LDE_cost_trans LDE_cost_weaken 0 k);
  [ frame | intro | lia ].

Lemma LDE_slot_costs_two (fuel : nat) (CR F : D) (p : nat) :
  graded cost 2 (LDE.slot fuel CR F p).
Proof.
  unfold LDE.slot.
  do 6 free_then 2.
  apply (graded_bind cost LDE_cost_trans LDE_cost_weaken 1 1);
    [apply LDE_eval_costs_one | intro y | lia].
  free_then 1.
  match goal with |- graded _ _ (if ?c then _ else _) => destruct c end.
  - free_then 1.
    apply (graded_bind cost LDE_cost_trans LDE_cost_weaken 1 0);
      [apply LDE_eval_costs_one | intro y2 | lia].
    frame; free_modify.
  - apply (graded_weaken cost LDE_cost_weaken 0 1); [lia |].
    frame; free_modify.
Qed.

Lemma LDE_generation_cost (fuel : nat) (s : state) :
  cost (2 * Z.of_nat (LDE.nat_popsize s)) s (final (LDE.generation fuel s)).
Proof.
  unfold LDE.generation, bind at 1, get.
  pose proof (graded_for_each cost LDE_cost_refl LDE_cost_trans LDE_cost_weaken
                2 (seq 0 (LDE.nat_popsize s))) as Hfe.
  rewrite length_seq in Hfe. apply Hfe; [lia |].
  intro p. apply LDE_slot_costs_two.
Qed.

Lemma to_int32_small (z : Z) : 0 <= z <= INT_MAX -> to_int32 z = z.
Proof.
  unfold to_int32, INT_MAX. intro Hz.
  rewrite Z.mod_small; lia.
Qed.

Lemma LDE_generations_step (fuel k : nat) (s : state) :
  LDE.generations fuel (S k) s =
  if to_int32 (LDE.getEvaluationCount s) <? LDE.maxEvaluations (LDE.par s)
  then match LDE.generation fuel s with
       | Ret _ s1 =>
           LDE.generations fuel k
             (LDE.set_iterations (LDE.iterations s1 + 1) s1)
       | Exit s1 => Exit s1
       | Timeout s1 => Timeout s1
       | Fault s1 => Fault s1
       end
  else Ret tt s.
Proof.
  cbn [LDE.generations].
  unfold bind, LDE.getEvaluations, gets, get, modify_state, ret.
  fold (LDE.getEvaluationCount s).
  destruct (_ <? _); [| reflexivity].
  now destruct (LDE.generation fuel s) as [[] s1 | s1 | s1 | s1].
Qed.

(** The bound on the evaluations of an LDE run. *)
Lemma LDE_generations_bound (fuel n : nat) (s : state) :
  let B := LDE.maxEvaluations (LDE.par s) + 2 * Z.max 0 (LDE.popsize (LDE.par s)) - 1 in
  B <= INT_MAX ->
  0 <= LDE.getEvaluationCount s <= B ->
  let s' := final (LDE.generations fuel n s) in
  LDE.par s' = LDE.par s /\ 0 <= LDE.getEvaluationCount s' <= B.
Proof.
  cbv zeta. revert s.
  induction n as [| k IH]; intros s HB Hs.
  - cbn. split; [reflexivity | exact Hs].
  - rewrite LDE_generations_step.
    rewrite to_int32_small by lia.
    destruct (Z.ltb_spec (LDE.getEvaluationCount s)
                (LDE.maxEvaluations (LDE.par s))) as [Hlt | Hge].
    + destruct (LDE_generation_cost fuel s) as [Hp Hc].
      assert (HN : Z.of_nat (LDE.nat_popsize s)
                   = Z.max 0 (LDE.popsize (LDE.par s)))
        by (unfold LDE.nat_popsize; lia).
      destruct (LDE.generation fuel s) as [[] s1 | s1 | s1 | s1];
        cbn [final] in *; try (split; [exact Hp | lia]).
      set (s2 := LDE.set_iterations (LDE.iterations s1 + 1) s1).
      assert (Hp2 : LDE.par s2 = LDE.par s) by exact Hp.
      assert (Hc2 : LDE.getEvaluationCount s2 = LDE.getEvaluationCount s1)
        by reflexivity.
      specialize (IH s2). rewrite Hp2 in IH.
      apply IH; [exact HB |]. rewrite Hc2. lia.
    + cbn. split; [reflexivity | exact Hs].
Qed.

Lemma LDE_doOptimize_bound (fuel : nat) (s : state) :
  let B := LDE.maxEvaluations (LDE.par s) + 2 * Z.max 0 (LDE.popsize (LDE.par s)) - 1 in
  B <= INT_MAX ->
  0 < LDE.maxEvaluations (LDE.par s) ->
  LDE.getEvaluationCount s = 0 ->
  LDE.getEvaluationCount (final (LDE.doOptimize fuel s)) <= B.
Proof.
  cbv zeta. intros HB Hmax Hzero. unfold LDE.doOptimize.
  assert (E : forall m : M state unit, final (call m s) = final (m s)).
  { intro m. unfold call. now destruct (m s). }
  rewrite E. unfold bind, modify_state.
  apply (LDE_generations_bound fuel fuel (LDE.set_iterations 1 s)).
  - exact HB.
  - change (LDE.getEvaluationCount (LDE.set_iterations 1 s))
      with (LDE.getEvaluationCount s).
    cbn [LDE.par LDE.set_iterations]. rewrite Hzero. lia.
Qed.

(** The constructor makes the budget positive. *)
Lemma LDE_new_budget_positive (runid_ : Z) (f : LDE.Fitness) (dim_ : Z) (r : R)
    (popsize_ maxEvaluations_ : Z) (keep_ stopfitness_ F_ CR_ mn mx : D)
    (ints : option (list bool)) :
  0 < LDE.maxEvaluations
        (LDE.par (LDE.LDeOptimizer_new runid_ f dim_ r popsize_ maxEvaluations_
                    keep_ stopfitness_ F_ CR_ mn mx ints)).
Proof.
  cbn. destruct (Z.ltb_spec 0 maxEvaluations_); lia.
Qed.

End LDE_budget.

(** ** Evaluation budget: MODE *)

Section MODE_budget.
Context {D : Type} `{Double D} {R : Type} `{Rng D R}.
Variable fuel : nat.
Variable pow : D -> D -> D.
Variable norm_i : @MODE.Fitness D -> nat -> D -> D.

Local Abbreviation state := (@MODE.MoDeOptimizer D R).
Local Abbreviation cost := (@MODE_cost D R).
Local Abbreviation counter :=
  (fun s : state => MODE.evaluationCounter (MODE.fitfun s)).

Lemma MODE_cost_refl (s : state) : cost 0 s s.
Proof. split; [reflexivity | lia]. Qed.

Lemma MODE_cost_trans (a b : Z) (s1 s2 s3 : state) :
  cost a s1 s2 -> cost b s2 s3 -> cost (a + b) s1 s3.
Proof. intros [P1 C1] [P2 C2]. split; [congruence | lia]. Qed.

Lemma MODE_cost_weaken (a b : Z) (s1 s2 : state) :
  a <= b -> cost a s1 s2 -> cost b s1 s2.
Proof. intros Hab [P1 C1]. split; [assumption | lia]. Qed.

Hint Resolve MODE_cost_refl MODE_cost_trans MODE_cost_weaken : frame.

Lemma MODE_free_modify (f : state -> state) :
  (forall s, MODE.par (f s) = MODE.par s /\ counter (f s) = counter s) ->
  graded cost 0 (modify_state f).
Proof.
  intros Hf s. destruct (Hf s) as [Hp Hc]. split; [exact Hp |].
  cbn [final modify_state]. cbv beta in Hc. lia.
Qed.

Ltac free_modify :=
  apply MODE_free_modify; intro; split; reflexivity.

Lemma MODE_free_rand01 : graded cost 0 MODE.rand01.
Proof. unfold MODE.rand01. frame. free_modify. Qed.

Hint Resolve MODE_free_rand01 : frame.

Lemma MODE_free_randInt (max : Z) : graded cost 0 (MODE.randInt max).
Proof. unfold MODE.randInt. frame. Qed.

Lemma MODE_free_uniformVec (n : nat) : graded cost 0 (MODE.uniformVec n).
Proof. unfold MODE.uniformVec. frame. Qed.

Lemma MODE_free_getClosestFeasible (X : vec D) :
  graded cost 0 (MODE.getClosestFeasible X).
Proof. unfold MODE.getClosestFeasible. frame. Qed.

Lemma MODE_free_setClosestFeasible (X : mat D) :
  graded cost 0 (MODE.setClosestFeasible X).
Proof. unfold MODE.setClosestFeasible. frame. Qed.

Lemma MODE_free_setTerminate : graded cost 0 (@MODE.setTerminate D R).
Proof. unfold MODE.setTerminate. free_modify. Qed.

Hint Resolve MODE_free_randInt MODE_free_uniformVec
  MODE_free_getClosestFeasible MODE_free_setClosestFeasible
  MODE_free_setTerminate : frame.

Lemma MODE_free_sample_i (i : nat) : graded cost 0 (MODE.sample_i i).
Proof. unfold MODE.sample_i. frame. Qed.

Lemma MODE_free_sbx_beta (dis_c_ : D) (to1 : vec D) (i : nat) :
  graded cost 0 (MODE.sbx_beta pow dis_c_ to1 i).
Proof. unfold MODE.sbx_beta. frame. Qed.

Lemma MODE_free_poly_mutate (dis_m_ limit : D) (i : nat) (v : D) :
  graded cost 0 (MODE.poly_mutate pow norm_i dis_m_ limit i v).
Proof. unfold MODE.poly_mutate. frame. Qed.

Hint Resolve MODE_free_sample_i MODE_free_sbx_beta MODE_free_poly_mutate
  : frame.

Lemma MODE_free_variation (x : mat D) :
  graded cost 0 (MODE.variation pow norm_i x).
Proof. unfold MODE.variation. frame. Qed.

Lemma MODE_free_modify_vec (x : vec D) : graded cost 0 (MODE.modify x).
Proof. unfold MODE.modify. frame. Qed.

Lemma MODE_free_draw_r123 : graded cost 0 (MODE.draw_r123 pow).
Proof. unfold MODE.draw_r123. frame. Qed.

Hint Resolve MODE_free_variation MODE_free_modify_vec MODE_free_draw_r123
  : frame.

Lemma MODE_free_nextX (p : Z) : graded cost 0 (MODE.nextX fuel pow p).
Proof. unfold MODE.nextX. frame; free_modify. Qed.

Lemma MODE_free_pop_update : graded cost 0 (MODE.pop_update pow norm_i).
Proof. unfold MODE.pop_update. frame; free_modify. Qed.

Hint Resolve MODE_free_nextX MODE_free_pop_update : frame.

Lemma MODE_free_ask : graded cost 0 (MODE.ask fuel pow).
Proof. unfold MODE.ask. frame; free_modify. Qed.

Lemma MODE_flush_keeps (dps : list nat) (p : nat) (s : state) :
  MODE.par (MODE.flush dps p s) = MODE.par s
  /\ counter (MODE.flush dps p s) = counter s.
Proof.
  revert p s. induction dps as [| dp t IH]; intros p s; cbn [MODE.flush].
  - split; reflexivity.
  - destruct (nth dp (MODE.vdone s) false); [| apply IH].
    match goal with |- context [if ?c then _ else _] => destruct c end.
    + split; reflexivity.
    + match goal with |- context [MODE.flush t (S p) ?s1] =>
        destruct (IH (S p) s1) as [Hp Hc]; rewrite Hp, Hc
      end.
      split; reflexivity.
Qed.

Lemma MODE_free_tell (y x : vec D) (p : Z) :
  graded cost 0 (MODE.tell pow norm_i y x p).
Proof.
  unfold MODE.tell. frame; try free_modify.
  apply MODE_free_modify. intro. apply MODE_flush_keeps.
Qed.

Lemma MODE_eval_unfold (X : vec D) (s : state) :
  MODE.eval X s =
  Ret (map MODE.coerce (MODE.func (MODE.fitfun s) X))
      (MODE.set_fitfun (MODE.count_call X (MODE.fitfun s)) s).
Proof. reflexivity. Qed.

Lemma MODE_eval_costs_one (X : vec D) : graded cost 1 (MODE.eval X).
Proof.
  intro s. rewrite MODE_eval_unfold. split; [reflexivity |]. cbn. lia.
Qed.

Lemma MODE_generation_cost (s : state) :
  cost (Z.of_nat (MODE.nat_popsize s)) s
    (final (MODE.generation fuel pow norm_i s)).
Proof.
  unfold MODE.generation, bind at 1, get.
  replace (Z.of_nat (MODE.nat_popsize s))
    with (1 * Z.of_nat (length (seq 0 (MODE.nat_popsize s))) + 0)
    by (rewrite length_seq; lia).
  apply (graded_bind cost MODE_cost_trans MODE_cost_weaken); [| frame | lia].
  apply (graded_for_each cost MODE_cost_refl MODE_cost_trans MODE_cost_weaken);
    [lia |].
  intro p.
  apply (graded_bind cost MODE_cost_trans MODE_cost_weaken 0 1);
    [frame | intro x | lia].
  apply (graded_bind cost MODE_cost_trans MODE_cost_weaken 0 1);
    [free_modify | intros _ | lia].
  apply (graded_bind cost MODE_cost_trans MODE_cost_weaken 1 0);
    [apply MODE_eval_costs_one | intro y | lia].
  free_modify.
Qed.

Lemma MODE_generations_step (k : nat) (s : state) :
  MODE.generations fuel pow norm_i (S k) s =
  if (counter s <? MODE.maxEvaluations (MODE.par s))
     && negb (MODE.terminate_flag (MODE.fitfun s))
  then match MODE.generation fuel pow norm_i s with
       | Ret _ s1 => MODE.generations fuel pow norm_i k s1
       | Exit s1 => Exit s1
       | Timeout s1 => Timeout s1
       | Fault s1 => Fault s1
       end
  else Ret tt s.
Proof.
  cbn [MODE.generations].
  unfold bind, MODE.evaluations, MODE.terminate, gets, get, ret.
  destruct (_ && _); [| reflexivity].
  now destruct (MODE.generation fuel pow norm_i s) as [[] s1 | s1 | s1 | s1].
Qed.

Lemma MODE_generations_bound (n : nat) (s : state) :
  let B := MODE.maxEvaluations (MODE.par s)
           + Z.max 0 (MODE.popsize (MODE.par s)) - 1 in
  0 <= counter s <= B ->
  let s' := final (MODE.generations fuel pow norm_i n s) in
  MODE.par s' = MODE.par s /\ 0 <= counter s' <= B.
Proof.
  cbv zeta. revert s.
  induction n as [| k IH]; intros s Hs.
  - cbn. split; [reflexivity | exact Hs].
  - rewrite MODE_generations_step.
    destruct (Z.ltb_spec (MODE.evaluationCounter (MODE.fitfun s))
                (MODE.maxEvaluations (MODE.par s))) as [Hlt | Hge];
      cbn [andb]; [| cbn; split; [reflexivity | exact Hs]].
    destruct (negb _); [| cbn; split; [reflexivity | exact Hs]].
    destruct (MODE_generation_cost s) as [Hp Hc].
    assert (HN : Z.of_nat (MODE.nat_popsize s)
                 = Z.max 0 (MODE.popsize (MODE.par s)))
      by (unfold MODE.nat_popsize; lia).
    destruct (MODE.generation fuel pow norm_i s) as [[] s1 | s1 | s1 | s1];
      cbn [final] in *; try (split; [exact Hp | lia]).
    specialize (IH s1). rewrite Hp in IH. apply IH. lia.
Qed.

Lemma MODE_doOptimize_bound (s : state) :
  0 < MODE.maxEvaluations (MODE.par s) ->
  counter (final (MODE.doOptimize fuel pow norm_i s))
  <= MODE.maxEvaluations (MODE.par s)
     + Z.max 0 (MODE.popsize (MODE.par s)) - 1.
Proof.
  intro Hmax. unfold MODE.doOptimize, MODE.resetEvaluations.
  cbv [bind modify_state]. cbv beta iota.
  match goal with |- context [MODE.generations _ _ _ _ ?s0] =>
    apply (MODE_generations_bound fuel s0)
  end.
  cbn. lia.
Qed.

(** *** Delayed update *)

Lemma MODE_ask_keeps (s s' : state) (x : vec D) (p : Z) :
  MODE.ask fuel pow s = Ret (x, p) s' ->
  MODE.par s' = MODE.par s /\ counter s' = counter s.
Proof.
  intro E. destruct (MODE_free_ask s) as [Hp Hc]. rewrite E in *.
  cbn [final] in *. split; [exact Hp | lia].
Qed.

Lemma MODE_tell_keeps (s s' : state) (y x : vec D) (p r : Z) :
  MODE.tell pow norm_i y x p s = Ret r s' ->
  MODE.par s' = MODE.par s /\ counter s' = counter s.
Proof.
  intro E. destruct (MODE_free_tell y x p s) as [Hp Hc]. rewrite E in *.
  cbn [final] in *. split; [exact Hp | lia].
Qed.

Lemma delayed_inv_start (workers_ : Z) (s : state) :
  delayed_inv (MODE.start workers_ s) (MODE.start workers_ s).
Proof.
  unfold delayed_inv, MODE.start, MODE.pending, MODE.performed. cbn.
  repeat split; lia.
Qed.

Lemma delayed_inv_step (d0 d d' : MODE.driver) :
  0 < MODE.maxEvaluations (MODE.par (MODE.opt d0)) ->
  delayed_inv d0 d -> MODE.step fuel pow norm_i d d' -> delayed_inv d0 d'.
Proof.
  intros Hmax (Hp & Hw & Hc & Hat) Hstep.
  unfold delayed_inv, MODE.pending, MODE.performed in *.
  destruct Hstep as
    [ d t rest Hreq Hrun
    | d before x id after y s' Hrun Heval
    | d d' i Hi Hlt (x & p & s' & Hask & ->)
    | d i Hi Hge
    | d Hi
    | d y p rest r s' Hi Hev Htell
    | d Hi Hbudget
    | d d' Hi Hbudget (x & p & s' & Hask & ->) ];
    cbn [MODE.opt MODE.pool MODE.at_point MODE.workers MODE.requests
         MODE.running MODE.evaled] in *.
  - rewrite Hreq in Hat. rewrite length_app. cbn [length] in *.
    repeat split; try assumption.
    destruct (MODE.at_point d); lia.
  - rewrite MODE_eval_unfold in Heval. inversion Heval; subst y s'.
    rewrite Hrun in Hat. rewrite !length_app in *. cbn [length] in *.
    cbn [MODE.par MODE.set_fitfun MODE.fitfun MODE.count_call
         MODE.evaluationCounter].
    repeat split; try assumption; try lia.
    destruct (MODE.at_point d); lia.
  - destruct (MODE_ask_keeps _ _ _ _ Hask) as [Hp' Hc'].
    rewrite Hi in Hat. rewrite Hp', Hc'. rewrite length_app. cbn [length].
    repeat split; try congruence; lia.
  - rewrite Hi in Hat. rewrite Hp in *.
    repeat split; try assumption; lia.
  - rewrite Hi in Hat.
    repeat split; try assumption.
    destruct (_ && _); lia.
  - destruct (MODE_tell_keeps _ _ _ _ _ _ Htell) as [Hp' Hc'].
    rewrite Hi, Hev in Hat. cbn [length] in Hat. rewrite Hp', Hc'.
    repeat split; try congruence; lia.
  - rewrite Hi in Hat. repeat split; try assumption; lia.
  - destruct (MODE_ask_keeps _ _ _ _ Hask) as [Hp' Hc'].
    rewrite Hi in Hat. rewrite Hp', Hc'. rewrite length_app. cbn [length].
    repeat split; try congruence; lia.
Qed.

Lemma MODE_delayed_bound (workers_ : Z) (s : state) (d : MODE.driver) :
  0 < MODE.maxEvaluations (MODE.par s) ->
  MODE.reachable fuel pow norm_i (MODE.start workers_ s) d ->
  0 <= MODE.performed d
  /\ MODE.performed d + MODE.pending d
     <= MODE.maxEvaluations (MODE.par s)
        + Z.max 0 (Z.min workers_ (MODE.popsize (MODE.par s))) - 1.
Proof.
  intros Hmax Hreach.
  assert (Hinv : delayed_inv (MODE.start workers_ s) d).
  { induction Hreach as [| d d' _ IH Hstep].
    - apply delayed_inv_start.
    - eapply delayed_inv_step; eauto. }
  destruct Hinv as (Hp & Hw & Hc & Hat).
  change (MODE.par (MODE.opt (MODE.start workers_ s))) with (MODE.par s) in Hp.
  change (MODE.workers (MODE.start workers_ s))
    with (Z.to_nat (Z.min workers_ (MODE.popsize (MODE.par s)))) in Hw.
  rewrite Hp, Hw in Hat.
  split; [exact Hc |].
  assert (Hpend : 0 <= MODE.pending d) by (unfold MODE.pending; lia).
  destruct (MODE.at_point d); lia.
Qed.

End MODE_budget.

(** The budget as the loops keep it.  Both serial engines test the budget
    once per generation, so a run may overshoot it by what one generation
    evaluates:
    an LDE run performs at most maxEvaluations + 2 popsize - 1 evaluations
    (a slot evaluates its trial and, when it improves, a second vector),
    provided this number fits the int that getEvaluations returns; a serial
    MODE run performs at most maxEvaluations + popsize - 1; and in every state
    that the delayed-update driver with W = min(workers, popsize) workers can
    reach, the evaluations performed and those still queued or running are
    together at most maxEvaluations + W - 1.  The bounds hold wherever the
    run stands, also when it does not end. *)
Theorem evaluation_budget
    (D : Type) (HD : Double D) (R : Type) (HR : Rng D R) (fuel : nat) :
  (forall s : @LDE.LDeOptimizer D R,
      LDE.maxEvaluations (LDE.par s) + 2 * Z.max 0 (LDE.popsize (LDE.par s)) - 1
      <= INT_MAX ->
      0 < LDE.maxEvaluations (LDE.par s) ->
      LDE.getEvaluationCount s = 0 ->
      LDE.getEvaluationCount (final (LDE.doOptimize fuel s))
      <= LDE.maxEvaluations (LDE.par s)
         + 2 * Z.max 0 (LDE.popsize (LDE.par s)) - 1)
  /\ (forall (pow : D -> D -> D) (norm_i : MODE.Fitness -> nat -> D -> D)
             (s : @MODE.MoDeOptimizer D R),
         0 < MODE.maxEvaluations (MODE.par s) ->
         MODE.evaluationCounter
           (MODE.fitfun (final (MODE.doOptimize fuel pow norm_i s)))
         <= MODE.maxEvaluations (MODE.par s)
            + Z.max 0 (MODE.popsize (MODE.par s)) - 1)
  /\ (forall (pow : D -> D -> D) (norm_i : MODE.Fitness -> nat -> D -> D)
             (workers_ : Z) (s : @MODE.MoDeOptimizer D R) (d : MODE.driver),
         0 < MODE.maxEvaluations (MODE.par s) ->
         MODE.reachable fuel pow norm_i (MODE.start workers_ s) d ->
         0 <= MODE.performed d
         /\ MODE.performed d + MODE.pending d
            <= MODE.maxEvaluations (MODE.par s)
               + Z.max 0 (Z.min workers_ (MODE.popsize (MODE.par s))) - 1).
Proof.
  split; [| split].
  - intros s HB Hmax Hzero. now apply LDE_doOptimize_bound.
  - intros pow norm_i s Hmax. now apply MODE_doOptimize_bound.
  - intros pow norm_i workers_ s d Hmax Hreach.
    now apply (MODE_delayed_bound fuel pow norm_i workers_ s d).
Qed.

(** The theorem at the LDE run with a budget of one evaluation and a
    population of four. *)
Lemma evaluation_budget_witness :
  LDE.maxEvaluations (LDE.par Inputs.budget_state)
  + 2 * Z.max 0 (LDE.popsize (LDE.par Inputs.budget_state)) - 1 <= INT_MAX
  /\ 0 < LDE.maxEvaluations (LDE.par Inputs.budget_state)
  /\ LDE.getEvaluationCount Inputs.budget_state = 0
  /\ LDE.getEvaluationCount (final (LDE.doOptimize 2 Inputs.budget_state)) <= 8.
Proof.
  assert (H1 : LDE.maxEvaluations (LDE.par Inputs.budget_state)
               + 2 * Z.max 0 (LDE.popsize (LDE.par Inputs.budget_state)) - 1
               <= INT_MAX) by (vm_compute; discriminate).
  assert (H2 : 0 < LDE.maxEvaluations (LDE.par Inputs.budget_state))
    by reflexivity.
  assert (H3 : LDE.getEvaluationCount Inputs.budget_state = 0) by reflexivity.
  repeat split; try assumption.
  exact (proj1 (evaluation_budget float _ (tape float) _ 2%nat)
           Inputs.budget_state H1 H2 H3).
Defined.

(** C1 fails on the code.  maxEvaluations is, by the comment at its
    assignment in both constructors, the maximal number of evaluations
    allowed, and the parallel driver of MODE tests it again before each
    dispatch; the serial loops test it once per generation only.  This LDE
    run is given a budget of one evaluation and completes after eight, two
    for each of its four slots. *)
Lemma LDE_overshoots_maxEvaluations :
  value_of (LDE.doOptimize 2 Inputs.budget_state) = Some tt
  /\ LDE.maxEvaluations (LDE.par Inputs.budget_state) = 1
  /\ LDE.getEvaluationCount (final (LDE.doOptimize 2 Inputs.budget_state)) = 8
  /\ ~ (LDE.getEvaluationCount (final (LDE.doOptimize 2 Inputs.budget_state))
        <= LDE.maxEvaluations (LDE.par Inputs.budget_state)).
Proof.
  assert (E : LDE.getEvaluationCount
                (final (LDE.doOptimize 2 Inputs.budget_state)) = 8)
    by (vm_compute; reflexivity).
  repeat split; try (vm_compute; reflexivity).
  rewrite E. cbn. lia.
Qed.

(** The serial loop of MODE likewise: this run is given a budget of one
    evaluation and completes after four, one for each of its slots. *)
Example MODE_overshoots_maxEvaluations :
  value_of (MODE.doOptimize 3 (fun x _ => x) (fun _ _ x => x)
              Inputs.mode_int_state) = Some tt
  /\ MODE.maxEvaluations (MODE.par Inputs.mode_int_state) = 1
  /\ MODE.evaluationCounter
       (MODE.fitfun (final (MODE.doOptimize 3 (fun x _ => x) (fun _ _ x => x)
                              Inputs.mode_int_state))) = 4.
Proof. repeat split; vm_compute; reflexivity. Qed.

(** ** sort_index, gather and scatter *)

Section Sorting.
Context {D : Type} `{Double D}.

Lemma insert_index_perm (x : vec D) (i : nat) (l : list nat) :
  Permutation (insert_index x i l) (i :: l).
Proof.
  induction l as [| h t IH]; cbn [insert_index]; [reflexivity |].
  destruct (_ <? _)%dbl; [| reflexivity].
  rewrite IH. apply perm_swap.
Qed.

Lemma sort_index_perm (x : vec D) :
  Permutation (sort_index x) (seq 0 (length x)).
Proof.
  unfold sort_index. induction (seq 0 (length x)) as [| i t IH];
    cbn [fold_right]; [reflexivity |].
  rewrite insert_index_perm. now constructor.
Qed.

Lemma length_sort_index (x : vec D) : length (sort_index x) = length x.
Proof.
  rewrite (Permutation_length (sort_index_perm x)). apply length_seq.
Qed.

Lemma sort_index_NoDup (x : vec D) : NoDup (sort_index x).
Proof.
  apply (Permutation_NoDup (Permutation_sym (sort_index_perm x))).
  apply seq_NoDup.
Qed.

Lemma sort_index_In (x : vec D) (i : nat) :
  In i (sort_index x) <-> (i < length x)%nat.
Proof.
  split; intro Hi.
  - apply (Permutation_in _ (sort_index_perm x)) in Hi.
    apply in_seq in Hi. lia.
  - apply (Permutation_in _ (Permutation_sym (sort_index_perm x))).
    apply in_seq. lia.
Qed.

Lemma sort_index_nth_lt (x : vec D) (k : nat) :
  (k < length x)%nat -> (nth k (sort_index x) O < length x)%nat.
Proof.
  intro Hk. apply sort_index_In. apply nth_In. now rewrite length_sort_index.
Qed.

Lemma le_at_refl `{!DoubleLaws D} (x : vec D) (i : nat) : le_at x i i.
Proof. apply d_leb_refl. Qed.

Lemma le_at_trans `{!DoubleLaws D} (x : vec D) (i j k : nat) :
  le_at x i j -> le_at x j k -> le_at x i k.
Proof. apply d_leb_trans. Qed.

Lemma insert_index_sorted `{!DoubleLaws D} (x : vec D) (i : nat)
    (l : list nat) :
  StronglySorted (le_at x) l -> StronglySorted (le_at x) (insert_index x i l).
Proof.
  induction 1 as [| h t Hs IH Hh]; cbn [insert_index].
  - repeat constructor.
  - destruct (vget x h <? vget x i)%dbl eqn:E.
    + constructor; [exact IH |].
      apply (Permutation_Forall (Permutation_sym (insert_index_perm x i t))).
      constructor; [now apply d_ltb_true | exact Hh].
    + assert (Hih : le_at x i h) by now apply d_ltb_false.
      constructor; [now constructor |].
      constructor; [exact Hih |].
      eapply Forall_impl; [| exact Hh].
      intros a Ha. now apply (le_at_trans x i h a).
Qed.

Lemma sort_index_sorted `{!DoubleLaws D} (x : vec D) :
  StronglySorted (le_at x) (sort_index x).
Proof.
  unfold sort_index. induction (seq 0 (length x)) as [| i t IH];
    cbn [fold_right]; [constructor |].
  now apply insert_index_sorted.
Qed.

Lemma StronglySorted_nth {A} (Rel : A -> A -> Prop) (l : list A) (d : A) :
  StronglySorted Rel l ->
  forall a b, (a < b)%nat -> (b < length l)%nat -> Rel (nth a l d) (nth b l d).
Proof.
  induction 1 as [| h t Hs IH Hh]; intros a b Hab Hb; cbn [length] in *;
    [lia |].
  destruct b as [| b]; [lia |]. destruct a as [| a]; cbn [nth].
  - rewrite Forall_forall in Hh. apply Hh. apply nth_In. lia.
  - apply IH; lia.
Qed.

(** The same on IEEE doubles, for a vector without NaN. *)
Lemma insert_index_sorted_ieee `{!IEEELaws D} (x : vec D) (i : nat)
    (l : list nat) :
  d_isnan (vget x i) = false ->
  Forall (fun j => d_isnan (vget x j) = false) l ->
  StronglySorted (le_at x) l -> StronglySorted (le_at x) (insert_index x i l).
Proof.
  intros Hi Hl. induction 1 as [| h t Hs IH Hh]; cbn [insert_index].
  - repeat constructor.
  - inversion Hl as [| ? ? Hhn Htn]; subst.
    destruct (vget x h <? vget x i)%dbl eqn:E.
    + constructor; [now apply IH |].
      apply (Permutation_Forall (Permutation_sym (insert_index_perm x i t))).
      constructor; [now apply ieee_ltb_true | exact Hh].
    + assert (Hih : le_at x i h) by now apply ieee_ltb_false.
      constructor; [now constructor |].
      constructor; [exact Hih |].
      eapply Forall_impl; [| exact Hh].
      intros a Ha. exact (ieee_leb_trans _ _ _ Hih Ha).
Qed.

Lemma sort_index_sorted_ieee `{!IEEELaws D} (x : vec D) :
  (forall i, (i < length x)%nat -> d_isnan (vget x i) = false) ->
  StronglySorted (le_at x) (sort_index x).
Proof.
  intro Hx. unfold sort_index.
  assert (Hl : Forall (fun j => d_isnan (vget x j) = false)
                 (seq 0 (length x))).
  { apply Forall_forall. intros j Hj. apply in_seq in Hj. apply Hx. lia. }
  induction (seq 0 (length x)) as [| i t IH]; cbn [fold_right];
    [constructor |].
  inversion Hl as [| ? ? Hi Ht]; subst.
  apply insert_index_sorted_ieee; [exact Hi | | now apply IH].
  clear IH. induction t as [| j t IHt]; cbn [fold_right]; [constructor |].
  inversion Ht as [| ? ? Hj Ht']; subst.
  apply (Permutation_Forall (Permutation_sym (insert_index_perm x j _))).
  constructor; [exact Hj |]. apply IHt; [| exact Ht'].
  now constructor.
Qed.

(** Without NaN, the first index of the sort holds a minimal value and the
    last one a maximal value. *)
Lemma sort_index_extremes_ieee `{!IEEELaws D} (x : vec D) (i : nat) :
  (forall i, (i < length x)%nat -> d_isnan (vget x i) = false) ->
  (i < length x)%nat ->
  le_at x (nth 0 (sort_index x) O) i
  /\ le_at x i (nth (length x - 1) (sort_index x) O).
Proof.
  intros Hx Hi.
  assert (Hin : In i (sort_index x)) by now apply sort_index_In.
  destruct (In_nth _ _ O Hin) as (k & Hk & Ek).
  rewrite length_sort_index in Hk.
  pose proof (StronglySorted_nth _ _ O (sort_index_sorted_ieee x Hx)) as Hs.
  rewrite length_sort_index in Hs. rewrite <- Ek.
  assert (Hr : le_at x (nth k (sort_index x) O) (nth k (sort_index x) O)).
  { apply ieee_leb_refl. rewrite Ek. now apply Hx. }
  split.
  - destruct k as [| k]; [exact Hr | apply Hs; lia].
  - destruct (Nat.eq_dec k (length x - 1)) as [-> | Hn];
      [exact Hr | apply Hs; lia].
Qed.

Lemma nth_gather {A} (dflt : A) (v : list A) (idx : list nat) (k : nat) :
  (k < length idx)%nat ->
  nth k (gather dflt v idx) dflt = nth (nth k idx O) v dflt.
Proof.
  intro Hk. unfold gather.
  rewrite (nth_indep _ dflt (nth O v dflt)) by now rewrite length_map.
  now rewrite (map_nth (fun i => nth i v dflt)).
Qed.

Lemma length_gather {A} (dflt : A) (v : list A) (idx : list nat) :
  length (gather dflt v idx) = length idx.
Proof. apply length_map. Qed.

Lemma length_scatter {A} (v : list A) (idx : list nat) (vals : list A) :
  length (scatter v idx vals) = length v.
Proof.
  revert v vals. induction idx as [| i idx IH]; intros v [| a vals];
    cbn [scatter]; try reflexivity.
  now rewrite IH, length_upd.
Qed.

Lemma scatter_other {A} (v : list A) (idx : list nat) (vals : list A)
    (j : nat) (d : A) :
  ~ In j idx -> nth j (scatter v idx vals) d = nth j v d.
Proof.
  revert v vals. induction idx as [| i idx IH]; intros v [| a vals] Hj;
    cbn [scatter]; try reflexivity.
  rewrite IH by (intro; apply Hj; now right).
  apply nth_upd_other. intro; apply Hj; now left.
Qed.

(** After [v(idx) = vals] with distinct indices, the entry at the [k]-th
    index is the [k]-th value. *)
Lemma scatter_nth {A} (v : list A) (idx : list nat) (vals : list A)
    (k : nat) (d : A) :
  NoDup idx -> length vals = length idx ->
  (forall i, In i idx -> (i < length v)%nat) ->
  (k < length idx)%nat ->
  nth (nth k idx O) (scatter v idx vals) d = nth k vals d.
Proof.
  revert v vals k. induction idx as [| i idx IH]; intros v vals k Hnd Hl Hin Hk;
    cbn [length] in *; [lia |].
  destruct vals as [| a vals]; [discriminate |]. cbn [scatter].
  inversion Hnd as [| ? ? Hni Hnd']; subst.
  destruct k as [| k]; cbn [nth].
  - rewrite scatter_other by exact Hni.
    rewrite nth_upd, Nat.eqb_refl.
    assert (Hi : (i < length v)%nat) by (apply Hin; now left).
    apply Nat.ltb_lt in Hi. now rewrite Hi.
  - apply IH; try assumption.
    + cbn [length] in Hl. lia.
    + intros j Hj. rewrite length_upd. apply Hin. now right.
    + lia.
Qed.

End Sorting.

(** ** Crowding distance *)

Section Crowding.
Context {D : Type} `{Double D}.

Lemma fold_max_In (t : vec D) (h : D) :
  fold_left d_max t h = h \/ In (fold_left d_max t h) t.
Proof.
  revert h. induction t as [| a t IH]; intro h; cbn [fold_left]; [now left |].
  destruct (IH (d_max h a)) as [E | Hin]; [| right; now right].
  rewrite E. unfold d_max. destruct (h <? a)%dbl; [right; now left | now left].
Qed.

Lemma maxCoeff_In (v : vec D) : v <> [] -> In (maxCoeff v) v.
Proof.
  destruct v as [| h t]; [congruence | intros _]. cbn [maxCoeff].
  destruct (fold_max_In t h) as [E | Hin]; [rewrite E; now left | now right].
Qed.

Lemma d_max_ge `{!DoubleLaws D} (a b : D) :
  (a <=? d_max a b)%dbl = true /\ (b <=? d_max a b)%dbl = true.
Proof.
  unfold d_max. destruct (a <? b)%dbl eqn:E.
  - split; [now apply d_ltb_true | apply d_leb_refl].
  - split; [apply d_leb_refl | now apply d_ltb_false].
Qed.

Lemma fold_max_ge `{!DoubleLaws D} (t : vec D) (h : D) :
  (h <=? fold_left d_max t h)%dbl = true
  /\ forall a, In a t -> (a <=? fold_left d_max t h)%dbl = true.
Proof.
  revert h. induction t as [| b t IH]; intro h; cbn [fold_left].
  - split; [apply d_leb_refl | intros a []].
  - destruct (IH (d_max h b)) as [H1 H2].
    destruct (d_max_ge h b) as [Hh Hb]. split.
    + eapply d_leb_trans; eauto.
    + intros a [<- | Ha]; [eapply d_leb_trans; eauto | now apply H2].
Qed.

Lemma maxCoeff_ge `{!DoubleLaws D} (v : vec D) (a : D) :
  In a v -> (a <=? maxCoeff v)%dbl = true.
Proof.
  destruct v as [| h t]; [intros [] |]. cbn [maxCoeff].
  destruct (fold_max_ge t h) as [H1 H2].
  intros [<- | Ha]; [exact H1 | now apply H2].
Qed.

Lemma d_max_ge_ieee `{!IEEELaws D} (a b : D) :
  d_isnan a = false -> d_isnan b = false ->
  (a <=? d_max a b)%dbl = true /\ (b <=? d_max a b)%dbl = true
  /\ d_isnan (d_max a b) = false.
Proof.
  intros Ha Hb. unfold d_max. destruct (a <? b)%dbl eqn:E.
  - split; [now apply ieee_ltb_true |].
    split; [now apply ieee_leb_refl | exact Hb].
  - split; [now apply ieee_leb_refl |].
    split; [now apply ieee_ltb_false | exact Ha].
Qed.

Lemma fold_max_ge_ieee `{!IEEELaws D} (t : vec D) (h : D) :
  d_isnan h = false -> Forall (fun a => d_isnan a = false) t ->
  (h <=? fold_left d_max t h)%dbl = true
  /\ forall a, In a t -> (a <=? fold_left d_max t h)%dbl = true.
Proof.
  revert h. induction t as [| b t IH]; intros h Hh Ht; cbn [fold_left].
  - split; [now apply ieee_leb_refl | intros a []].
  - inversion Ht as [| ? ? Hb Ht']; subst.
    destruct (d_max_ge_ieee h b Hh Hb) as (H1 & H2 & H3).
    destruct (IH (d_max h b) H3 Ht') as [H4 H5]. split.
    + exact (ieee_leb_trans _ _ _ H1 H4).
    + intros a [<- | Ha]; [exact (ieee_leb_trans _ _ _ H2 H4) | now apply H5].
Qed.

Lemma maxCoeff_ge_ieee `{!IEEELaws D} (v : vec D) (a : D) :
  Forall (fun a => d_isnan a = false) v ->
  In a v -> (a <=? maxCoeff v)%dbl = true.
Proof.
  destruct v as [| h t]; [intros _ [] |]. cbn [maxCoeff]. intro Hv.
  inversion Hv as [| ? ? Hh Ht]; subst.
  destruct (fold_max_ge_ieee t h Hh Ht) as [H1 H2].
  intros [<- | Ha]; [exact H1 | now apply H2].
Qed.

Lemma nth_map_seq {A} (f : nat -> A) (m k : nat) (d : A) :
  (k < m)%nat -> nth k (map f (seq 0 m)) d = f k.
Proof.
  intro Hk. rewrite (nth_indep _ d (f O)) by now rewrite length_map, length_seq.
  rewrite (map_nth f). now rewrite seq_nth.
Qed.

Lemma exists_or_all (P : nat -> bool) (m : nat) :
  (exists k, (k < m)%nat /\ P k = true)
  \/ (forall k, (k < m)%nat -> P k = false).
Proof.
  induction m as [| m [(k & Hk & E) | Hall]].
  - right. intros k Hk. lia.
  - left. exists k. split; [lia | exact E].
  - destruct (P m) eqn:E.
    + left. exists m. split; [lia | exact E].
    + right. intros k Hk. destruct (Nat.eq_dec k m) as [-> | Hn];
        [exact E | apply Hall; lia].
Qed.

Lemma length_row (y : mat D) (j : nat) : length (row y j) = length y.
Proof. apply length_map. Qed.

End Crowding.

(** C7, as the code has it.  For a matrix of at least two columns whose
    first objectives are finite doubles (any values that satisfy the laws of
    IEEE doubles, as binary64 does): the sort of the first objective is a
    permutation of the columns whose first column holds a minimal and whose
    last column holds a maximal value; when all first objectives are equal
    crowd_dist returns zeros; when one is smaller than another, the first and
    the last column of the sort receive DBL_MAX and every column between them
    the sum of the gaps to its left and right neighbour in the sort.  A
    column that holds the minimal or the maximal value as well, without
    being first or last in the sort, is one of the columns between them. *)
Theorem crowd_dist_spec
    (D : Type) (HD : Double D) (HL : IEEELaws D) (y : mat D) :
  (2 <= length y)%nat ->
  (forall i, (i < length y)%nat -> d_isfinite (vget (row y 0) i) = true) ->
  let n := length y in
  let y0 := row y 0 in
  let si := sort_index y0 in
  let gap k := (vget y0 (nth (k + 1) si O) - vget y0 (nth k si O))%dbl in
  let cd := Ranking.crowd_dist y in
  Permutation si (seq 0 n)
  /\ (forall i, (i < n)%nat ->
        le_at y0 (nth 0 si O) i /\ le_at y0 i (nth (n - 1) si O))
  /\ ((forall i j, (i < n)%nat -> (j < n)%nat ->
         (vget y0 i =? vget y0 j)%dbl = true) ->
      cd = zeros n)
  /\ ((exists i j, (i < n)%nat /\ (j < n)%nat
                   /\ (vget y0 i <? vget y0 j)%dbl = true) ->
      length cd = n
      /\ vget cd (nth 0 si O) = DBL_MAX
      /\ vget cd (nth (n - 1) si O) = DBL_MAX
      /\ forall k, (0 < k < n - 1)%nat ->
           vget cd (nth k si O) = (d_0 + gap (k - 1)%nat + gap k)%dbl).
Proof.
  intros Hn Hfin n y0 si gap cd.
  assert (Hly0 : length y0 = n) by apply length_row.
  assert (Hlsi : length si = n)
    by (unfold si; now rewrite length_sort_index).
  assert (Hsi_lt : forall k, (k < n)%nat -> (nth k si O < n)%nat).
  { intros k Hk. rewrite <- Hly0. apply sort_index_nth_lt. now rewrite Hly0. }
  assert (Hnn : forall i, (i < length y0)%nat -> d_isnan (vget y0 i) = false).
  { intros i Hi. apply ieee_finite_nan, Hfin. rewrite Hly0 in Hi. exact Hi. }
  set (y0s := gather d_0 y0 si).
  assert (Hy0s : forall k, (k < n)%nat -> vget y0s k = vget y0 (nth k si O)).
  { intros k Hk. unfold vget, y0s. apply nth_gather. now rewrite Hlsi. }
  assert (Hfs : forall k, (k < n)%nat -> d_isfinite (vget y0s k) = true).
  { intros k Hk. rewrite Hy0s by exact Hk. apply Hfin. now apply Hsi_lt. }
  set (d := map (fun i => (vget y0s (i + 1) - vget y0s i)%dbl) (seq 0 (n - 1))).
  assert (Hd : forall k, (k < n - 1)%nat -> vget d k = gap k).
  { intros k Hk. unfold vget, d. rewrite nth_map_seq by exact Hk.
    unfold gap. now rewrite !Hy0s by lia. }
  assert (Hdn : Forall (fun a => d_isnan a = false) d).
  { unfold d. apply Forall_forall. intros a Ha. apply in_map_iff in Ha.
    destruct Ha as (k & <- & Hk). apply in_seq in Hk.
    apply ieee_sub_nan; apply Hfs; lia. }
  assert (Hdne : d <> []).
  { intro E. apply (f_equal (@length D)) in E. unfold d in E.
    rewrite length_map, length_seq in E. cbn in E. lia. }
  assert (Ecd : cd =
                if (maxCoeff d =? d_0)%dbl then zeros n
                else scatter (zeros n) si
                       (upd (upd
                          (map (fun i =>
                                  let a := if (0 <? i)%nat
                                           then (d_0 + vget d (i - 1))%dbl
                                           else d_0 in
                                  if (i <? n - 1)%nat then (a + vget d i)%dbl
                                  else a)
                               (seq 0 n))
                          0 DBL_MAX) (n - 1) DBL_MAX))
    by reflexivity.
  assert (Hext : forall i, (i < n)%nat ->
            le_at y0 (nth 0 si O) i /\ le_at y0 i (nth (n - 1) si O)).
  { intros i Hi. unfold si. rewrite <- Hly0.
    apply sort_index_extremes_ieee; [exact Hnn | now rewrite Hly0]. }
  split; [| split; [| split]].
  - unfold si. rewrite <- Hly0. apply sort_index_perm.
  - exact Hext.
  - intro Hconst. rewrite Ecd.
    assert (Hmax : In (maxCoeff d) d) by now apply maxCoeff_In.
    unfold d in Hmax at 2. apply in_map_iff in Hmax.
    destruct Hmax as (k & Ek & Hk). apply in_seq in Hk.
    rewrite <- Ek.
    rewrite ieee_sub_eqb; [reflexivity | apply Hfs; lia | apply Hfs; lia |].
    rewrite !Hy0s by lia. apply Hconst; apply Hsi_lt; lia.
  - intros (i & j & Hi & Hj & Hlt).
    assert (Hnz : (maxCoeff d =? d_0)%dbl = false).
    { destruct (exists_or_all
                  (fun k => (vget y0s k <? vget y0s (k + 1))%dbl) (n - 1))
        as [(k & Hk & Ek) | Hall].
      - apply ieee_sub_pos in Ek; [| apply Hfs; lia | apply Hfs; lia].
        assert (Hin : In (vget y0s (k + 1) - vget y0s k)%dbl d).
        { unfold d. apply in_map_iff. exists k. split; [reflexivity |].
          apply in_seq. lia. }
        apply (maxCoeff_ge_ieee d _ Hdn) in Hin.
        rewrite ieee_eqb_leb.
        destruct (maxCoeff d <=? d_0)%dbl eqn:Em; [| reflexivity].
        rewrite (ieee_leb_ltb _ _ (ieee_leb_trans _ _ _ Hin Em)) in Ek.
        discriminate.
      - exfalso.
        assert (Hsn : forall m, (m < n)%nat -> d_isnan (vget y0s m) = false)
          by (intros m Hm; apply ieee_finite_nan, Hfs, Hm).
        assert (Hdesc : forall m, (m < n)%nat ->
                   (vget y0s m <=? vget y0s 0)%dbl = true).
        { induction m as [| m IH]; intro Hm;
            [apply ieee_leb_refl, Hsn; lia |].
          eapply ieee_leb_trans; [| apply IH; lia].
          apply ieee_ltb_false; [apply Hsn; lia | apply Hsn; lia |].
          replace (S m) with (m + 1)%nat by lia.
          apply Hall. lia. }
        pose proof (Hdesc (n - 1)%nat ltac:(lia)) as Hlast.
        rewrite !Hy0s in Hlast by lia.
        destruct (Hext i Hi) as [Hmin _]. destruct (Hext j Hj) as [_ Hmaxj].
        unfold le_at in *.
        rewrite (ieee_leb_ltb _ _
                   (ieee_leb_trans _ _ _ Hmaxj
                      (ieee_leb_trans _ _ _ Hlast Hmin))) in Hlt.
        discriminate. }
    rewrite Ecd, Hnz.
    assert (Hsc : forall k v, (k < n)%nat ->
               nth k
                 (upd (upd
                    (map (fun i =>
                            let a := if (0 <? i)%nat
                                     then (d_0 + vget d (i - 1))%dbl
                                     else d_0 in
                            if (i <? n - 1)%nat then (a + vget d i)%dbl
                            else a)
                         (seq 0 n))
                    0 DBL_MAX) (n - 1) DBL_MAX) d_0 = v ->
               vget
                 (scatter (zeros n) si
                    (upd (upd
                       (map (fun i =>
                               let a := if (0 <? i)%nat
                                        then (d_0 + vget d (i - 1))%dbl
                                        else d_0 in
                               if (i <? n - 1)%nat then (a + vget d i)%dbl
                               else a)
                            (seq 0 n))
                       0 DBL_MAX) (n - 1) DBL_MAX))
                 (nth k si O) = v).
    { intros k v Hk <-. unfold vget. apply scatter_nth.
      - apply sort_index_NoDup.
      - now rewrite !length_upd, length_map, length_seq.
      - intros a Ha. unfold zeros. rewrite repeat_length.
        apply sort_index_In in Ha. now rewrite Hly0 in Ha.
      - lia. }
    split; [| split; [| split]].
    + rewrite length_scatter. unfold zeros. apply repeat_length.
    + apply Hsc; [lia |].
      rewrite nth_upd_other by lia.
      rewrite nth_upd, length_map, length_seq. cbn [Nat.eqb andb].
      now replace (0 <? n)%nat with true by (symmetry; apply Nat.ltb_lt; lia).
    + apply Hsc; [lia |].
      rewrite nth_upd, Nat.eqb_refl, length_upd, length_map, length_seq.
      now replace (n - 1 <? n)%nat with true by (symmetry; apply Nat.ltb_lt; lia).
    + intros k Hk. apply Hsc; [lia |].
      rewrite !nth_upd_other by lia.
      rewrite nth_map_seq by lia. cbv zeta.
      replace (0 <? k)%nat with true by (symmetry; apply Nat.ltb_lt; lia).
      replace (k <? n - 1)%nat with true by (symmetry; apply Nat.ltb_lt; lia).
      rewrite !Hd by lia. reflexivity.
Qed.

(** The theorem on five columns of IEEE doubles whose first objectives are
    3, 1, 2, 1 and 7: the sort is 1, 3, 2, 0, 4, and column 3, which holds
    the minimal value as column 1 does, receives the sum of its gaps. *)
Lemma crowd_dist_spec_witness :
  Permutation (sort_index (row Inputs.front 0)) (seq 0 5)
  /\ sort_index (row Inputs.front 0) = [1; 3; 2; 0; 4]%nat
  /\ Ranking.crowd_dist Inputs.front
     = [5%float; DBL_MAX; 2%float; 1%float; DBL_MAX].
Proof.
  split; [| split; vm_compute; reflexivity].
  refine (proj1 (crowd_dist_spec float _ _ Inputs.front _ _)).
  - cbn. lia.
  - intros i Hi.
    do 5 (destruct i as [| i]; [vm_compute; reflexivity |]).
    cbn in Hi. lia.
Defined.

(** C7 as stated fails where columns tie for an extreme: of the three
    columns with first objectives 1, 1 and 2, column 1 holds the minimal
    value, and its distance is 1, not DBL_MAX. *)
Lemma crowd_dist_tie_at_the_minimum :
  Ranking.crowd_dist Inputs.tied = [DBL_MAX; 1%float; DBL_MAX]
  /\ (forall i, (i < 3)%nat ->
        (vget (row Inputs.tied 0) 1 <=? vget (row Inputs.tied 0) i)%float
        = true)
  /\ (vget (Ranking.crowd_dist Inputs.tied) 1 =? DBL_MAX)%float = false.
Proof.
  split; [vm_compute; reflexivity |]. split; [| vm_compute; reflexivity].
  intros i Hi. do 3 (destruct i as [| i]; [vm_compute; reflexivity |]). lia.
Qed.

(** crowd_dist on IEEE doubles: five columns with first objectives 3, 1, 2, 1
    and 7. *)
Example crowd_dist_f64 :
  Ranking.crowd_dist [[3; 0]; [1; 0]; [2; 0]; [1; 0]; [7; 0]]%float
  = [5%float; DBL_MAX; 2%float; 1%float; DBL_MAX].
Proof. vm_compute. reflexivity. Qed.

(** ** Enhanced constraint ranking *)

Section Constraint_ranking.
Context {D : Type} `{Double D}.

Lemma length_scatter_add (v : list Z) (idx : list nat) (vals : list Z) :
  length (scatter_add v idx vals) = length v.
Proof.
  revert v vals. induction idx as [| i idx IH]; intros v [| a vals];
    cbn [scatter_add]; try reflexivity.
  now rewrite IH, length_upd.
Qed.

Lemma scatter_add_other (v : list Z) (idx : list nat) (vals : list Z)
    (j : nat) :
  ~ In j idx -> nth j (scatter_add v idx vals) 0 = nth j v 0.
Proof.
  revert v vals. induction idx as [| i idx IH]; intros v [| a vals] Hj;
    cbn [scatter_add]; try reflexivity.
  rewrite IH by (intro; apply Hj; now right).
  apply nth_upd_other. intro; apply Hj; now left.
Qed.

Lemma scatter_add_nth (v : list Z) (idx : list nat) (vals : list Z) (k : nat) :
  NoDup idx -> length vals = length idx ->
  (forall i, In i idx -> (i < length v)%nat) ->
  (k < length idx)%nat ->
  nth (nth k idx O) (scatter_add v idx vals) 0
  = nth (nth k idx O) v 0 + nth k vals 0.
Proof.
  revert v vals k. induction idx as [| i idx IH]; intros v vals k Hnd Hl Hin Hk;
    cbn [length] in *; [lia |].
  destruct vals as [| a vals]; [discriminate |]. cbn [scatter_add].
  inversion Hnd as [| ? ? Hni Hnd']; subst.
  destruct k as [| k]; cbn [nth].
  - rewrite scatter_add_other by exact Hni.
    rewrite nth_upd, Nat.eqb_refl.
    assert (Hi : (i < length v)%nat) by (apply Hin; now left).
    apply Nat.ltb_lt in Hi. now rewrite Hi.
  - rewrite IH; try assumption.
    + rewrite nth_upd_other; [reflexivity |].
      intro E. apply Hni. rewrite <- E. apply nth_In. lia.
    + cbn [length] in Hl. lia.
    + intros j Hj. rewrite length_upd. apply Hin. now right.
    + lia.
Qed.

Lemma levels_loop_nonneg (rounds : nat) (y : mat D) (index : nat)
    (mask : list bool) (dom : list Z) (k : nat) :
  (forall j, 0 <= nth j dom 0) ->
  0 <= nth k (Ranking.levels_loop rounds y index mask dom) 0.
Proof.
  revert index mask dom. induction rounds as [| r IH];
    intros index mask dom Hdom; cbn [Ranking.levels_loop]; [apply Hdom |].
  destruct (index <? length y)%nat; [| apply Hdom].
  apply IH. intro j.
  destruct (Nat.lt_ge_cases j (length y)) as [Hj | Hj].
  - rewrite nth_map_seq by exact Hj.
    specialize (Hdom j). destruct (nth j _ false); lia.
  - rewrite nth_overflow; [lia |]. now rewrite length_map, length_seq.
Qed.

Lemma pareto_levels_nonneg (y : mat D) (k : nat) :
  0 <= nth k (Ranking.pareto_levels y) 0.
Proof.
  unfold Ranking.pareto_levels. apply levels_loop_nonneg.
  intro j. destruct (Nat.lt_ge_cases j (length y)) as [Hj | Hj].
  - rewrite nth_repeat_lt by exact Hj. lia.
  - rewrite nth_overflow; [lia |]. now rewrite repeat_length.
Qed.

Lemma levels_loop_length (rounds : nat) (y : mat D) (index : nat)
    (mask : list bool) (dom : list Z) :
  length dom = length y ->
  length (Ranking.levels_loop rounds y index mask dom) = length y.
Proof.
  revert index mask dom. induction rounds as [| r IH];
    intros index mask dom Hl; cbn [Ranking.levels_loop]; [exact Hl |].
  destruct (index <? length y)%nat; [| exact Hl].
  apply IH. now rewrite length_map, length_seq.
Qed.

Lemma length_pareto_levels (y : mat D) :
  length (Ranking.pareto_levels y) = length y.
Proof.
  unfold Ranking.pareto_levels. apply levels_loop_length, repeat_length.
Qed.

Lemma length_colwise_sum (rows : list (vec D)) (cols : nat) :
  length (Ranking.colwise_sum rows cols) = cols.
Proof. unfold Ranking.colwise_sum. now rewrite length_map, length_seq. Qed.

Lemma length_ranks (rows : nat) (cons : mat D) :
  length (Ranking.ranks rows cons) = length cons.
Proof. unfold Ranking.ranks. apply length_colwise_sum. Qed.

Lemma length_objranks (rows : nat) (objs : mat D) :
  length (Ranking.objranks rows objs) = length objs.
Proof. unfold Ranking.objranks. apply length_colwise_sum. Qed.

Lemma maxCoeff_leb_forallb `{!DoubleLaws D} (v : vec D) (b : D) :
  v <> [] ->
  (maxCoeff v <=? b)%dbl = forallb (fun c => (c <=? b)%dbl) v.
Proof.
  intro Hne. apply eq_true_iff_eq. rewrite forallb_forall. split.
  - intros Hm c Hc. eapply d_leb_trans; [| exact Hm]. now apply maxCoeff_ge.
  - intro Hall. apply Hall. now apply maxCoeff_In.
Qed.

End Constraint_ranking.

Section Feasibility_priority.
Context {D : Type} `{Double D}.

Lemma pareto_feasible_above (nobj ncon : nat) (ys : mat D) (f g : nat) :
  (0 < ncon)%nat -> (f < length ys)%nat -> (g < length ys)%nat ->
  Ranking.feasible_col ncon ys f = true ->
  Ranking.feasible_col ncon ys g = false ->
  nth g (Ranking.pareto nobj ncon ys) 0 < nth f (Ranking.pareto nobj ncon ys) 0.
Proof.
  intros Hncon Hf Hg Ff Fg. unfold Ranking.pareto.
  replace (ncon =? 0)%nat with false by (symmetry; apply Nat.eqb_neq; lia).
  cbv zeta.
  set (feas := Ranking.feasible_col ncon ys).
  set (popn := length ys).
  assert (Hhas : existsb feas (seq 0 popn) = true).
  { apply existsb_exists. exists f. split; [apply in_seq; lia | exact Ff]. }
  rewrite Hhas.
  set (cy := filter feas (seq 0 popn)).
  match goal with |- context [sort_index ?c] => set (csum := c) end.
  set (civ := filter (fun i => negb (feas i)) (sort_index csum)).
  match goal with |- context [Ranking.pareto_levels ?m] =>
    set (ypar := Ranking.pareto_levels m) end.
  (* the index vectors *)
  assert (Hlc : length csum = popn).
  { unfold csum. rewrite length_cwise, length_ranks, length_objranks,
      !length_map. apply Nat.min_id. }
  assert (Hcy : forall i, In i cy <-> (i < popn)%nat /\ feas i = true).
  { intro i. unfold cy. rewrite filter_In, in_seq. intuition lia. }
  assert (Hciv : forall i, In i civ <-> (i < popn)%nat /\ feas i = false).
  { intro i. unfold civ. rewrite filter_In, sort_index_In, Hlc,
      negb_true_iff. reflexivity. }
  assert (Hndy : NoDup cy) by (apply NoDup_filter, seq_NoDup).
  assert (Hndv : NoDup civ) by (apply NoDup_filter, sort_index_NoDup).
  assert (Hfy : In f cy) by now apply Hcy.
  assert (Hgv : In g civ) by now apply Hciv.
  assert (Hfv : ~ In f civ).
  { intro Hin. apply Hciv in Hin. destruct Hin as [_ Hin].
    unfold feas in Hin. congruence. }
  assert (Hgy : ~ In g cy).
  { intro Hin. apply Hcy in Hin. destruct Hin as [_ Hin].
    unfold feas in Hin. congruence. }
  destruct (In_nth _ _ O Hfy) as (j & Hj & Ej).
  destruct (In_nth _ _ O Hgv) as (k & Hk & Ek).
  replace (0 <? length civ)%nat with true by (symmetry; apply Nat.ltb_lt; lia).
  replace (0 <? length cy)%nat with true by (symmetry; apply Nat.ltb_lt; lia).
  assert (Hly : length ypar = length cy).
  { unfold ypar. now rewrite length_pareto_levels, length_gather. }
  set (dom1 := scatter_add (repeat 0 popn) cy ypar).
  set (dom2 := scatter_add dom1 civ
                 (map (fun i => Z.of_nat (length civ) - Z.of_nat i)
                    (seq 0 (length civ)))).
  assert (Hl1 : length dom1 = popn)
    by (unfold dom1; now rewrite length_scatter_add, repeat_length).
  assert (Hl2 : length dom2 = popn)
    by (unfold dom2; now rewrite length_scatter_add).
  (* the score of the infeasible column *)
  assert (Sg : nth g (scatter_add dom2 cy
                        (repeat (Z.of_nat (length civ) + 1) (length cy))) 0
               = Z.of_nat (length civ) - Z.of_nat k).
  { rewrite scatter_add_other by exact Hgy.
    unfold dom2. rewrite <- Ek.
    rewrite scatter_add_nth; try assumption.
    - rewrite Ek. unfold dom1. rewrite scatter_add_other by exact Hgy.
      rewrite nth_repeat_lt by (apply Hciv in Hgv; lia).
      rewrite nth_map_seq by exact Hk. lia.
    - now rewrite length_map, length_seq.
    - intros i Hi. rewrite Hl1. now apply Hciv in Hi. }
  (* the score of the feasible column *)
  assert (Sf : nth f (scatter_add dom2 cy
                        (repeat (Z.of_nat (length civ) + 1) (length cy))) 0
               = nth j ypar 0 + (Z.of_nat (length civ) + 1)).
  { rewrite <- Ej. rewrite scatter_add_nth; try assumption.
    - rewrite nth_repeat_lt by exact Hj. rewrite Ej. f_equal.
      unfold dom2. rewrite scatter_add_other by exact Hfv.
      unfold dom1. rewrite <- Ej. rewrite scatter_add_nth; try assumption.
      + rewrite Ej. rewrite nth_repeat_lt by (apply Hcy in Hfy; lia). lia.
      + intros i Hi. rewrite repeat_length. now apply Hcy in Hi.
    - apply repeat_length.
    - intros i Hi. rewrite Hl2. now apply Hcy in Hi. }
  rewrite Sg, Sf.
  pose proof (pareto_levels_nonneg
                (gather [] (map (firstn nobj) ys) cy) j) as Hnn.
  fold ypar in Hnn. lia.
Qed.

Lemma feasible_col_all_met `{!DoubleLaws D} (ncon : nat) (ys : mat D) (i : nat) :
  (0 < ncon)%nat -> col ys i <> [] ->
  Ranking.feasible_col ncon ys i = all_constraints_met ncon ys i.
Proof.
  intros Hncon Hne. unfold Ranking.feasible_col, all_constraints_met.
  apply maxCoeff_leb_forallb.
  intro E. apply (f_equal (@length D)) in E. rewrite length_skipn in E.
  destruct (col ys i); [congruence |]. cbn [length] in E. lia.
Qed.

End Feasibility_priority.

(** C3.  When ncon > 0 and the column [f] is feasible, every column [g] that
    is not feasible has a score strictly below the score of [f]: for
    feasibility as pareto tests it (the largest constraint value of the column
    is at most 0), and, on values ordered as NaN-free doubles are, for
    feasibility as "all constraint values are at most 0". *)
Theorem pareto_feasible_first
    (D : Type) (HD : Double D) (nobj ncon : nat) (ys : mat D) (f g : nat) :
  (0 < ncon)%nat -> (f < length ys)%nat -> (g < length ys)%nat ->
  (Ranking.feasible_col ncon ys f = true ->
   Ranking.feasible_col ncon ys g = false ->
   nth g (Ranking.pareto nobj ncon ys) 0 < nth f (Ranking.pareto nobj ncon ys) 0)
  /\ (DoubleLaws D -> col ys f <> [] -> col ys g <> [] ->
      all_constraints_met ncon ys f = true ->
      all_constraints_met ncon ys g = false ->
      nth g (Ranking.pareto nobj ncon ys) 0
      < nth f (Ranking.pareto nobj ncon ys) 0).
Proof.
  intros Hncon Hf Hg. split.
  - now apply pareto_feasible_above.
  - intros HL Hnf Hng Mf Mg.
    apply pareto_feasible_above; try assumption.
    + now rewrite feasible_col_all_met.
    + now rewrite feasible_col_all_met.
Qed.

(** The theorem on five columns of IEEE doubles (feasible column 1, infeasible
    column 0) and of integers. *)
Lemma pareto_feasible_first_witness :
  Ranking.pareto 1 1 Inputs.constrained = [3; 5; 2; 4; 1]
  /\ nth 0 (Ranking.pareto 1 1 Inputs.constrained) 0
     < nth 1 (Ranking.pareto 1 1 Inputs.constrained) 0
  /\ nth 0 (Ranking.pareto 1 1 Inputs.Zconstrained) 0
     < nth 1 (Ranking.pareto 1 1 Inputs.Zconstrained) 0.
Proof.
  split; [vm_compute; reflexivity |]. split.
  - apply (proj1 (pareto_feasible_first float _ 1 1 Inputs.constrained 1 0
                    (le_n 1) (le_S _ _ (le_S _ _ (le_S _ _ (le_n 2))))
                    (le_S _ _ (le_S _ _ (le_S _ _ (le_S _ _ (le_n 1))))))).
    + vm_compute. reflexivity.
    + vm_compute. reflexivity.
  - apply (proj2 (pareto_feasible_first Z _ 1 1 Inputs.Zconstrained 1 0
                    (le_n 1) (le_S _ _ (le_S _ _ (le_S _ _ (le_n 2))))
                    (le_S _ _ (le_S _ _ (le_S _ _ (le_S _ _ (le_n 1))))))).
    + exact DoubleLaws_Z.
    + discriminate.
    + discriminate.
    + reflexivity.
    + reflexivity.
Defined.

(** ** Survival *)

Section Survival.
Context {D : Type} `{Double D}.

Lemma admit_crowded_firstn (N : nat) (level si x : list nat) :
  (length x <= N)%nat ->
  MODE.admit_crowded N level si x
  = x ++ firstn (N - length x) (map (fun i => nth i level O) si).
Proof.
  revert x. induction si as [| i t IH]; intros x Hx; cbn [MODE.admit_crowded map].
  - now rewrite firstn_nil, app_nil_r.
  - destruct (Nat.leb_spec N (length x)) as [Hfull | Hroom].
    + replace (N - length x)%nat with O by lia. cbn. now rewrite app_nil_r.
    + rewrite IH by (rewrite length_app; cbn; lia).
      rewrite length_app. cbn [length].
      replace (N - length x)%nat with (S (N - (length x + 1))) by lia.
      cbn [firstn]. now rewrite <- app_assoc.
Qed.

Lemma rev_seq_S (d : nat) : rev (seq 0 (S d)) = d :: rev (seq 0 d).
Proof. rewrite seq_S, rev_app_distr. reflexivity. Qed.

(** The loop of pop_update is the walk of the specification. *)
Lemma admit_levels_walk (N : nat) (dom : list Z) (y0 : mat D) (d : nat)
    (x : list nat) :
  (length x <= N)%nat ->
  MODE.admit_levels N dom y0 d x = walk_levels N y0 (levels_desc dom d) x.
Proof.
  unfold levels_desc. revert x. induction d as [| d IH]; intros x Hx;
    rewrite rev_seq_S; cbn [map walk_levels MODE.admit_levels].
  - destruct (Nat.leb_spec (length x + length (MODE.domlevel dom 0)) N)
      as [Hfit | Hnofit]; [reflexivity |].
    destruct (Nat.ltb_spec 1 (length (MODE.domlevel dom 0))) as [Hl | Hl].
    + now apply admit_crowded_firstn.
    + replace (N - length x)%nat with O by lia. cbn. now rewrite app_nil_r.
  - destruct (Nat.leb_spec (length x + length (MODE.domlevel dom (S d))) N)
      as [Hfit | Hnofit].
    + apply IH. rewrite length_app. lia.
    + destruct (Nat.ltb_spec 1 (length (MODE.domlevel dom (S d)))) as [Hl | Hl].
      * now apply admit_crowded_firstn.
      * replace (N - length x)%nat with O by lia. cbn. now rewrite app_nil_r.
Qed.

Lemma domlevel_In (dom : list Z) (d i : nat) :
  In i (MODE.domlevel dom d)
  <-> (i < length dom)%nat /\ nth i dom 0 = Z.of_nat d.
Proof.
  unfold MODE.domlevel. rewrite filter_In, in_seq, Z.eqb_eq. intuition lia.
Qed.

Lemma domlevel_NoDup (dom : list Z) (d : nat) : NoDup (MODE.domlevel dom d).
Proof. apply NoDup_filter, seq_NoDup. Qed.

Lemma map_nth_seq {A} (l : list A) (d : A) :
  map (fun i => nth i l d) (seq 0 (length l)) = l.
Proof.
  induction l as [| a l IH]; [reflexivity |].
  cbn [length seq map nth]. f_equal.
  rewrite <- seq_shift, map_map. exact IH.
Qed.

Lemma length_crowd_dist (y : mat D) :
  length (Ranking.crowd_dist y) = length y.
Proof.
  unfold Ranking.crowd_dist. destruct (_ =? _)%dbl.
  - apply repeat_length.
  - rewrite length_scatter. apply repeat_length.
Qed.

(** The crowding order of a level lists the members of the level. *)
Lemma by_crowding_perm (y0 : mat D) (level : list nat) :
  Permutation (by_crowding y0 level) level.
Proof.
  unfold by_crowding.
  set (cd := Ranking.crowd_dist (gather [] y0 level)).
  assert (Hl : length cd = length level)
    by (unfold cd; now rewrite length_crowd_dist, length_gather).
  transitivity (map (fun i => nth i level O) (seq 0 (length level)));
    [| now rewrite map_nth_seq].
  apply Permutation_map. rewrite <- Permutation_rev.
  rewrite <- Hl. apply sort_index_perm.
Qed.

Lemma max_score_ge (dom : list Z) (i : nat) :
  (i < length dom)%nat -> nth i dom 0 <= MODE.max_score dom.
Proof.
  destruct dom as [| h t]; cbn [length]; [lia |]. cbn [MODE.max_score].
  assert (Hgen : forall t h, h <= fold_left Z.max t h
                             /\ forall a, In a t -> a <= fold_left Z.max t h).
  { clear. induction t as [| b t IH]; intro h; cbn [fold_left].
    - split; [lia | intros a []].
    - destruct (IH (Z.max h b)) as [H1 H2]. split; [lia |].
      intros a [<- | Ha]; [lia | now apply H2]. }
  destruct (Hgen t h) as [H1 H2]. intro Hi.
  destruct i as [| i]; cbn [nth]; [exact H1 |].
  apply H2. apply nth_In. lia.
Qed.

Lemma firstn_NoDup {A} (k : nat) (l : list A) : NoDup l -> NoDup (firstn k l).
Proof.
  intro Hnd. rewrite <- (firstn_skipn k l) in Hnd.
  now apply NoDup_app_remove_r in Hnd.
Qed.

Lemma firstn_In {A} (k : nat) (l : list A) (a : A) :
  In a (firstn k l) -> In a l.
Proof.
  intro Ha. rewrite <- (firstn_skipn k l). apply in_or_app. now left.
Qed.

(** The first level that does not fit fills the selection. *)
Lemma partial_level_elitist (N : nat) (dom : list Z) (y0 : mat D) (d : nat)
    (x : list nat) :
  NoDup x ->
  (forall i, In i x <-> (i < length dom)%nat /\ Z.of_nat d < nth i dom 0) ->
  (length x <= N)%nat ->
  (N < length x + length (MODE.domlevel dom d))%nat ->
  elitist dom N
    (x ++ firstn (N - length x) (by_crowding y0 (MODE.domlevel dom d))).
Proof.
  intros Hnd Hx Hlen Hnofit.
  set (L := MODE.domlevel dom d) in *.
  assert (HL : forall i, In i L <->
                 (i < length dom)%nat /\ nth i dom 0 = Z.of_nat d)
    by (intro; apply domlevel_In).
  assert (Hperm := by_crowding_perm y0 L).
  set (part := firstn (N - length x) (by_crowding y0 L)).
  assert (Hpart : forall i, In i part -> In i L).
  { intros i Hi. apply firstn_In in Hi.
    now apply (Permutation_in _ Hperm). }
  assert (Hpnd : NoDup part).
  { apply firstn_NoDup.
    apply (Permutation_NoDup (Permutation_sym Hperm)), domlevel_NoDup. }
  assert (Hlp : length part = (N - length x)%nat).
  { unfold part. rewrite length_firstn, (Permutation_length Hperm). lia. }
  assert (Hdis : forall a, In a x -> ~ In a part).
  { intros a Ha Hb. apply Hx in Ha. apply Hpart, HL in Hb. lia. }
  assert (Hnd' : NoDup (x ++ part)) by now apply NoDup_app.
  assert (Hin : forall i, In i (x ++ part) -> (i < length dom)%nat).
  { intros i Hi. apply in_app_or in Hi.
    destruct Hi as [Hi | Hi]; [apply Hx in Hi | apply Hpart, HL in Hi]; lia. }
  assert (Hbound : (length (x ++ part) <= length dom)%nat).
  { rewrite <- (length_seq (length dom) 0).
    apply NoDup_incl_length; [exact Hnd' |].
    intros a Ha. apply in_seq. apply Hin in Ha. lia. }
  rewrite length_app, Hlp in Hbound.
  repeat split.
  - exact Hnd'.
  - exact Hin.
  - rewrite length_app, Hlp. lia.
  - intros i j Hi Hj Hnj.
    assert (Hjd : nth j dom 0 <= Z.of_nat d).
    { destruct (Z_lt_le_dec (Z.of_nat d) (nth j dom 0)) as [Hgt | Hle];
        [| exact Hle].
      exfalso. apply Hnj. apply in_or_app. left. apply Hx. now split. }
    apply in_app_or in Hi.
    destruct Hi as [Hi | Hi]; [apply Hx in Hi | apply Hpart, HL in Hi]; lia.
Qed.

Lemma walk_levels_elitist (N : nat) (dom : list Z) (y0 : mat D) (d : nat)
    (x : list nat) :
  (forall j, 0 <= nth j dom 0) ->
  NoDup x ->
  (forall i, In i x <-> (i < length dom)%nat /\ Z.of_nat d < nth i dom 0) ->
  (length x <= N)%nat ->
  elitist dom N (walk_levels N y0 (levels_desc dom d) x).
Proof.
  intro Hnn. unfold levels_desc. revert x.
  induction d as [| d IH]; intros x Hnd Hx Hlen; rewrite rev_seq_S;
    cbn [map walk_levels].
  all: match goal with |- context [MODE.domlevel ?dm ?d] =>
         set (L := MODE.domlevel dm d);
         assert (HL : forall i, In i L <->
                        (i < length dm)%nat /\ nth i dm 0 = Z.of_nat d)
           by (intro; apply domlevel_In);
         assert (HLnd : NoDup L) by apply domlevel_NoDup
       end.
  all: assert (Hdis : forall a, In a x -> ~ In a L)
         by (intros a Ha Hb; apply Hx in Ha; apply HL in Hb; lia).
  all: assert (Hxl : NoDup (x ++ L)) by now apply NoDup_app.
  all: assert (Hbound : (length (x ++ L) <= length dom)%nat).
  all: try (rewrite <- (length_seq (length dom) 0);
            apply NoDup_incl_length; [exact Hxl |];
            intros a Ha; apply in_seq; apply in_app_or in Ha;
            destruct Ha as [Ha | Ha]; [apply Hx in Ha | apply HL in Ha]; lia).
  all: rewrite length_app in Hbound.
  all: destruct (Nat.leb_spec (length x + length L) N) as [Hfit | Hnofit].
  (* level 0 fits: every column is admitted *)
  - change (rev (seq 0 0)) with (@nil nat). cbn [map walk_levels].
    assert (Hall : forall i, In i (x ++ L) <-> In i (seq 0 (length dom))).
    { intro i. rewrite in_app_iff, Hx, HL, in_seq. specialize (Hnn i). lia. }
    assert (Hperm : Permutation (x ++ L) (seq 0 (length dom)))
      by (apply NoDup_Permutation; [exact Hxl | apply seq_NoDup | exact Hall]).
    apply Permutation_length in Hperm. rewrite length_seq in Hperm.
    repeat split.
    + exact Hxl.
    + intros i Hi. apply Hall in Hi. apply in_seq in Hi. lia.
    + rewrite length_app in *. lia.
    + intros i j _ Hj Hnj. exfalso. apply Hnj. apply Hall. apply in_seq. lia.
  - now apply (partial_level_elitist N dom y0 0 x).
  (* a higher level fits: go on *)
  - apply IH.
    + exact Hxl.
    + intro i. rewrite in_app_iff, Hx, HL. lia.
    + rewrite length_app. lia.
  - now apply (partial_level_elitist N dom y0 (S d) x).
Qed.

Lemma scatter_add_nonneg (v : list Z) (idx : list nat) (vals : list Z) :
  (forall j, 0 <= nth j v 0) -> (forall k, 0 <= nth k vals 0) ->
  forall j, 0 <= nth j (scatter_add v idx vals) 0.
Proof.
  revert v vals. induction idx as [| i idx IH]; intros v [| a vals] Hv Hvals j;
    cbn [scatter_add]; try apply Hv.
  apply IH.
  - intro j'. rewrite nth_upd.
    pose proof (Hvals O) as Ha. cbn [nth] in Ha.
    pose proof (Hv i). pose proof (Hv j').
    destruct (_ && _); lia.
  - intro k. apply (Hvals (S k)).
Qed.

Lemma nth_repeat_nonneg (a : Z) (n j : nat) : 0 <= a -> 0 <= nth j (repeat a n) 0.
Proof.
  intro Ha. destruct (Nat.lt_ge_cases j n) as [Hj | Hj].
  - now rewrite nth_repeat_lt.
  - rewrite nth_overflow; [lia | now rewrite repeat_length].
Qed.

Lemma pareto_nonneg (nobj ncon : nat) (ys : mat D) (j : nat) :
  0 <= nth j (Ranking.pareto nobj ncon ys) 0.
Proof.
  unfold Ranking.pareto. destruct (ncon =? 0)%nat;
    [apply pareto_levels_nonneg |].
  cbv zeta.
  assert (H0 : forall popn j, 0 <= nth j (repeat 0 popn) 0)
    by (intros; now apply nth_repeat_nonneg).
  assert (H1 : forall popn cy m j,
             0 <= nth j (scatter_add (repeat 0 popn) cy
                           (Ranking.pareto_levels m)) 0).
  { intros. apply scatter_add_nonneg; [apply H0 |].
    intro. apply pareto_levels_nonneg. }
  assert (H2 : forall v (civ : list nat),
             (forall j, 0 <= nth j v 0) ->
             forall j,
               0 <= nth j (scatter_add v civ
                             (map (fun i => Z.of_nat (length civ) - Z.of_nat i)
                                (seq 0 (length civ)))) 0).
  { intros v civ Hv j'. apply scatter_add_nonneg; [exact Hv |].
    intro k. destruct (Nat.lt_ge_cases k (length civ)) as [Hk | Hk].
    - rewrite nth_map_seq by exact Hk. lia.
    - rewrite nth_overflow; [lia | now rewrite length_map, length_seq]. }
  repeat match goal with |- context [if ?c then _ else _] => destruct c end;
    try apply H0; try apply H1; try (apply H2; intro; (apply H0 || apply H1)).
  all: apply scatter_add_nonneg;
    [ apply H2; intro; (apply H0 || apply H1)
    | intro; apply nth_repeat_nonneg; lia ].
Qed.

Lemma length_pareto (nobj ncon : nat) (ys : mat D) :
  length (Ranking.pareto nobj ncon ys) = length ys.
Proof.
  unfold Ranking.pareto. destruct (ncon =? 0)%nat;
    [apply length_pareto_levels |].
  cbv zeta.
  repeat match goal with |- context [if ?c then _ else _] => destruct c end;
    rewrite ?length_scatter_add; apply repeat_length.
Qed.

Lemma survivors_walk (N nobj ncon : nat) (y0 : mat D) :
  MODE.survivors N nobj ncon y0
  = walk_levels N y0
      (levels_desc (Ranking.pareto nobj ncon y0)
         (Z.to_nat (MODE.max_score (Ranking.pareto nobj ncon y0)))) [].
Proof.
  unfold MODE.survivors.
  set (dom := Ranking.pareto nobj ncon y0).
  assert (Hmax : 0 <= MODE.max_score dom).
  { destruct dom as [| h t] eqn:E; [cbn; lia |].
    etransitivity; [| apply (max_score_ge (h :: t) 0); cbn; lia].
    rewrite <- E. apply pareto_nonneg. }
  destruct (Z.ltb_spec (MODE.max_score dom) 0); [lia |].
  apply admit_levels_walk. cbn. lia.
Qed.

Lemma survivors_elitist (N nobj ncon : nat) (y0 : mat D) :
  elitist (Ranking.pareto nobj ncon y0) N (MODE.survivors N nobj ncon y0).
Proof.
  rewrite survivors_walk.
  set (dom := Ranking.pareto nobj ncon y0).
  assert (Hmax : 0 <= MODE.max_score dom).
  { destruct dom as [| h t] eqn:E; [cbn; lia |].
    etransitivity; [| apply (max_score_ge (h :: t) 0); cbn; lia].
    rewrite <- E. apply pareto_nonneg. }
  apply walk_levels_elitist.
  - intro j. apply pareto_nonneg.
  - constructor.
  - intro i. split; [intros [] |]. intros [Hi Hgt].
    pose proof (max_score_ge dom i Hi). lia.
  - cbn. lia.
Qed.

(** The order in which a partial level is admitted is one of descending
    crowding distance. *)
Lemma crowding_order_descending `{!DoubleLaws D} (cd : vec D) (a b : nat) :
  (a < b)%nat -> (b < length cd)%nat ->
  le_at cd (nth b (rev (sort_index cd)) O) (nth a (rev (sort_index cd)) O).
Proof.
  intros Hab Hb.
  rewrite !rev_nth by (rewrite length_sort_index; lia).
  rewrite length_sort_index.
  apply (StronglySorted_nth _ _ O (sort_index_sorted cd));
    rewrite ?length_sort_index; lia.
Qed.

End Survival.

(** C9, as the code has it.  The columns that pop_update keeps are those of
    the walk over the domination levels from the highest score down to 0: a
    level that fits is admitted whole, the first level that does not fit is
    admitted in the order of descending crowding distance of its columns
    until popsize columns are admitted, and nothing is admitted after it (a
    partial level of one member is therefore never admitted: the selection is
    already full).  The selection has no column twice, has popsize columns
    when the population has as many, and leaves out no column whose score is
    higher than that of a column it keeps; pop_update writes the selected
    columns over the first columns of popX and popY and, in NSGA mode, then
    computes the next variation. *)
Theorem pop_update_survival
    (D : Type) (HD : Double D) (N nobj ncon : nat) (y0 : mat D) :
  let dom := Ranking.pareto nobj ncon y0 in
  MODE.survivors N nobj ncon y0
  = walk_levels N y0 (levels_desc dom (Z.to_nat (MODE.max_score dom))) []
  /\ elitist dom N (MODE.survivors N nobj ncon y0)
  /\ length dom = length y0
  /\ (DoubleLaws D ->
      forall (level : list nat) (a b : nat),
        let cd := Ranking.crowd_dist (gather [] y0 level) in
        (a < b)%nat -> (b < length level)%nat ->
        le_at cd (nth b (rev (sort_index cd)) O) (nth a (rev (sort_index cd)) O))
  /\ (forall (R : Type) (HR : Rng D R) (pow : D -> D -> D)
             (norm_i : MODE.Fitness -> nat -> D -> D)
             (s : @MODE.MoDeOptimizer D R),
         let yi := rev (sort_index (row (MODE.popY s) 0)) in
         let x1 := if MODE.nobj (MODE.par s) =? 1
                   then gather [] (MODE.popX s) yi else MODE.popX s in
         let y1 := if MODE.nobj (MODE.par s) =? 1
                   then gather [] (MODE.popY s) yi else MODE.popY s in
         let adm := MODE.survivors (MODE.nat_popsize s) (MODE.nat_nobj s)
                      (MODE.nat_ncon s) y1 in
         let s1 := MODE.set_popY (MODE.overwrite (gather [] y1 adm) (MODE.popY s))
                     (MODE.set_popX (MODE.overwrite (gather [] x1 adm) (MODE.popX s))
                        s) in
         MODE.pop_update pow norm_i s
         = (if MODE.nsga_update s
            then bind (MODE.variation pow norm_i
                         (firstn (MODE.nat_popsize s1) (MODE.popX s1)))
                   (fun v => modify_state (MODE.set_vX v))
            else ret tt) s1).
Proof.
  intro dom. split; [apply survivors_walk |].
  split; [apply survivors_elitist |].
  split; [apply length_pareto |].
  split.
  - intros HL level a b cd Hab Hb.
    apply crowding_order_descending; [exact Hab |].
    unfold cd. now rewrite length_crowd_dist, length_gather.
  - intros. reflexivity.
Qed.

(** C9 as stated fails in its last clause: with popsize 1 and two columns of
    which the first dominates the second, the level of score 1 is admitted
    whole, the level of score 0 is the first that does not fit and has
    exactly one member, column 1, and that member is not admitted. *)
Lemma single_member_partial_level_not_admitted :
  Ranking.pareto 2 0 Inputs.two_columns = [1; 0]
  /\ MODE.domlevel (Ranking.pareto 2 0 Inputs.two_columns) 1 = [0%nat]
  /\ MODE.domlevel (Ranking.pareto 2 0 Inputs.two_columns) 0 = [1%nat]
  /\ MODE.survivors 1 2 0 Inputs.two_columns = [0%nat]
  /\ ~ In 1%nat (MODE.survivors 1 2 0 Inputs.two_columns).
Proof.
  assert (E : MODE.survivors 1 2 0 Inputs.two_columns = [0%nat])
    by (vm_compute; reflexivity).
  repeat split; try (vm_compute; reflexivity).
  rewrite E. intros [Hin | []]. discriminate.
Qed.

(** ** The C entry points *)

Lemma fold_left_keep {A B} (l : list B) (a : A) :
  fold_left (fun acc _ => acc) l a = a.
Proof. induction l as [| b l IH]; [reflexivity | exact IH]. Qed.

(** C10.  populationMODE_C leaves the array [xs] and the optimizer as they
    were and returns the stop flag, as the int to which the double returned
    by getStop converts; on IEEE doubles that conversion gives back the flag
    (0 or 1). *)
Theorem populationMODE_C_leaves_xs :
  (forall (D : Type) (HD : Double D) (R : Type) (xs : list D)
          (s : @MODE.MoDeOptimizer D R),
      MODE.populationMODE_C xs s = Ret (xs, d_to_int (MODE.getStop s)) s)
  /\ (forall (R : Type) (xs : list float) (s : @MODE.MoDeOptimizer float R),
         MODE.stop s = 0 \/ MODE.stop s = 1 ->
         MODE.populationMODE_C xs s = Ret (xs, MODE.stop s) s).
Proof.
  assert (Hgen : forall (D : Type) (HD : Double D) (R : Type) (xs : list D)
                        (s : @MODE.MoDeOptimizer D R),
             MODE.populationMODE_C xs s
             = Ret (xs, d_to_int (MODE.getStop s)) s).
  { intros. unfold MODE.populationMODE_C, bind, get, ret. cbv zeta.
    now rewrite fold_left_keep. }
  split; [exact Hgen |].
  intros R xs s Hstop. rewrite Hgen. unfold MODE.getStop.
  destruct Hstop as [-> | ->]; reflexivity.
Qed.

(** The theorem at an optimizer built by the constructor. *)
Lemma populationMODE_C_leaves_xs_witness :
  (MODE.stop Inputs.mode_state = 0 \/ MODE.stop Inputs.mode_state = 1)
  /\ MODE.populationMODE_C [1.5; 2.5]%float Inputs.mode_state
     = Ret ([1.5; 2.5]%float, 0) Inputs.mode_state.
Proof.
  split; [left; reflexivity |].
  exact (proj2 populationMODE_C_leaves_xs (tape float) [1.5; 2.5]%float
           Inputs.mode_state (or_introl eq_refl)).
Defined.

(** C6 fails on the code: tellMODE_C reads [nobj] values per column, with
    stride [nobj], whatever [ncon] is.  For one objective and one constraint
    the array (1, 10, 2, 20) is told as the columns (1) and (10), not as the
    columns (1, 10) and (2, 20); the two readings agree when there is no
    constraint. *)
Theorem tellMODE_C_reads_nobj_values :
  (forall (D : Type) (HD : Double D) (R : Type) (HR : Rng D R)
          (pow : D -> D -> D) (norm_i : MODE.Fitness -> nat -> D -> D)
          (ys : list D) (s : @MODE.MoDeOptimizer D R),
      MODE.tellMODE_C pow norm_i ys s
      = MODE.tellAll pow norm_i
          (columns (MODE.nat_nobj s) (MODE.nat_popsize s) ys) s)
  /\ (MODE.nat_nobj Inputs.mode_state = 1%nat
      /\ MODE.nat_ncon Inputs.mode_state = 1%nat
      /\ MODE.nat_popsize Inputs.mode_state = 2%nat
      /\ columns 1 2 Inputs.told = [[1]; [10]]%float
      /\ columns (1 + 1) 2 Inputs.told = [[1; 10]; [2; 20]]%float).
Proof.
  split; [intros; reflexivity |].
  repeat split; vm_compute; reflexivity.
Qed.

(** ** Ask and tell *)

Section Tell.
Context {D : Type} `{Double D} {R : Type} `{Rng D R}.
Variable pow : D -> D -> D.
Variable norm_i : @MODE.Fitness D -> nat -> D -> D.

Local Abbreviation state := (@MODE.MoDeOptimizer D R).

Lemma upd_app_r {A} (l1 l2 : list A) (i : nat) (v : A) :
  upd (l1 ++ l2) (length l1 + i) v = l1 ++ upd l2 i v.
Proof.
  induction l1 as [| a l1 IH]; cbn [app length Nat.add upd]; [reflexivity |].
  now rewrite IH.
Qed.

Lemma repeat_snoc {A} (a : A) (n : nat) : repeat a n ++ [a] = repeat a (S n).
Proof.
  induction n as [| n IH]; [reflexivity |].
  cbn [repeat app]. now rewrite IH.
Qed.

Lemma first_free_prefix (k m : nat) :
  MODE.first_free (repeat true k ++ repeat false (S m)) = k.
Proof.
  induction k as [| k IH]; [reflexivity |].
  change (repeat true (S k) ++ repeat false (S m))
    with (true :: (repeat true k ++ repeat false (S m))).
  cbn [MODE.first_free]. now rewrite IH.
Qed.

Lemma count_done_prefix (k m : nat) :
  MODE.count_done (repeat true k ++ repeat false m) = k.
Proof.
  unfold MODE.count_done. rewrite filter_app, length_app.
  assert (E1 : forall n, length (filter (fun b : bool => b) (repeat true n)) = n)
    by (induction n as [| n IH]; cbn; [reflexivity | now rewrite IH]).
  assert (E2 : forall n, length (filter (fun b : bool => b) (repeat false n)) = O)
    by (induction n as [| n IH]; cbn; [reflexivity | exact IH]).
  rewrite E1, E2. lia.
Qed.

Lemma repeat_middle {A} (a : A) (n : nat) (l : list A) :
  repeat a n ++ a :: l = a :: repeat a n ++ l.
Proof.
  induction n as [| n IH]; [reflexivity |].
  cbn [repeat app]. now rewrite IH.
Qed.

(** Marking the first free slot ready. *)
Lemma mark_prefix (k m : nat) :
  upd (repeat true k ++ repeat false (S m)) k true
  = repeat true (S k) ++ repeat false m.
Proof.
  replace (upd (repeat true k ++ repeat false (S m)) k true)
    with (upd (repeat true k ++ repeat false (S m))
            (length (repeat true k) + 0) true)
    by now rewrite repeat_length, Nat.add_0_r.
  rewrite upd_app_r. cbn [repeat upd app]. apply repeat_middle.
Qed.

(** Clearing the first ready slot of those that remain. *)
Lemma clear_prefix (a b c : nat) :
  upd (repeat false a ++ repeat true (S b) ++ repeat false c) a false
  = repeat false (S a) ++ repeat true b ++ repeat false c.
Proof.
  replace (upd (repeat false a ++ repeat true (S b) ++ repeat false c) a false)
    with (upd (repeat false a ++ repeat true (S b) ++ repeat false c)
            (length (repeat false a) + 0) false)
    by now rewrite repeat_length, Nat.add_0_r.
  rewrite upd_app_r. cbn [repeat app upd]. apply repeat_middle.
Qed.

Lemma is_dominated_iff (popY_ : mat D) (y : vec D) (p : nat) :
  MODE.is_dominated popY_ y p = true
  <-> forall j, (j < length y)%nat ->
        (vget y j <? vget (col popY_ p) j)%dbl = false.
Proof.
  unfold MODE.is_dominated. rewrite forallb_forall. split.
  - intros Hall j Hj. apply negb_true_iff. apply Hall. apply in_seq. lia.
  - intros Hall j Hj. apply negb_true_iff. apply Hall. apply in_seq in Hj. lia.
Qed.

(** flush over slots none of which is ready changes nothing. *)
Lemma flush_idle (dps : list nat) (p : nat) (s : state) :
  (forall dp, In dp dps -> nth dp (MODE.vdone s) false = false) ->
  MODE.flush dps p s = s.
Proof.
  revert p. induction dps as [| dp t IH]; intros p Hall; cbn [MODE.flush];
    [reflexivity |].
  rewrite (Hall dp) by now left.
  apply IH. intros dp' Hin. apply Hall. now right.
Qed.

Lemma nth_prefix_false (a b c dp : nat) :
  (a + b <= dp)%nat ->
  nth dp (repeat false a ++ repeat true b ++ repeat false c) false = false.
Proof.
  intro Hdp. rewrite app_assoc.
  destruct (Nat.lt_ge_cases dp (a + b + c)) as [Hlt | Hge].
  - rewrite app_nth2 by (rewrite length_app, !repeat_length; lia).
    rewrite length_app, !repeat_length. apply nth_repeat_lt. lia.
  - apply nth_overflow. rewrite !length_app, !repeat_length. lia.
Qed.

(** flush moves the ready slots [a, a + b) to the columns [p, p + b). *)
Lemma flush_ready (b : nat) :
  forall (a c p : nat) (s : state),
    MODE.vdone s = repeat false a ++ repeat true b ++ repeat false c ->
    length (MODE.popX s) = length (MODE.popY s) ->
    (p + b <= length (MODE.popY s))%nat ->
    let s' := MODE.flush (seq a (b + c)) p s in
    MODE.vdone s' = repeat false (a + b + c)
    /\ MODE.nX s' = MODE.nX s /\ MODE.nY s' = MODE.nY s
    /\ MODE.par s' = MODE.par s
    /\ MODE.nsga_update s' = MODE.nsga_update s
    /\ length (MODE.popX s') = length (MODE.popX s)
    /\ length (MODE.popY s') = length (MODE.popY s)
    /\ forall i,
        (col (MODE.popX s') i
         = if (p <=? i)%nat && (i <? p + b)%nat
           then col (MODE.nX s) (a + (i - p)) else col (MODE.popX s) i)
        /\ (col (MODE.popY s') i
            = if (p <=? i)%nat && (i <? p + b)%nat
              then col (MODE.nY s) (a + (i - p)) else col (MODE.popY s) i).
Proof.
  induction b as [| b IH]; intros a c p s Hv Hlen Hp s'; subst s'.
  - rewrite flush_idle.
    + rewrite Hv. cbn [repeat app]. rewrite <- repeat_app, Nat.add_0_r.
      do 7 (split; [reflexivity |]).
      intro i.
      replace ((p <=? i)%nat && (i <? p + 0)%nat) with false;
        [split; reflexivity |].
      symmetry. apply andb_false_iff.
      destruct (Nat.leb_spec p i); [right; apply Nat.ltb_ge; lia | now left].
    + intros dp Hdp. apply in_seq in Hdp. rewrite Hv.
      apply nth_prefix_false. lia.
  - cbn [Nat.add seq MODE.flush].
    assert (Ha : nth a (MODE.vdone s) false = true).
    { rewrite Hv, app_nth2 by (rewrite repeat_length; lia).
      rewrite repeat_length, Nat.sub_diag. reflexivity. }
    rewrite Ha.
    set (s1 := MODE.set_next (MODE.nX s) (MODE.nY s)
                 (upd (MODE.vdone s) a false)
                 (MODE.set_popY (upd (MODE.popY s) p (col (MODE.nY s) a))
                    (MODE.set_popX (upd (MODE.popX s) p (col (MODE.nX s) a))
                       s))).
    assert (Hl1 : length (MODE.popY s1) = length (MODE.popY s))
      by apply length_upd.
    assert (Hl2 : length (MODE.popX s1) = length (MODE.popX s))
      by apply length_upd.
    rewrite Hl1.
    destruct (Nat.leb_spec (length (MODE.popY s)) p) as [Hbad | _]; [lia |].
    assert (Hv1 : MODE.vdone s1
                  = repeat false (S a) ++ repeat true b ++ repeat false c).
    { cbn [s1 MODE.vdone MODE.set_next]. rewrite Hv. apply clear_prefix. }
    specialize (IH (S a) c (S p) s1 Hv1).
    cbv zeta in IH.
    destruct IH as (V & NX & NY & PAR & NS & LX & LY & COL).
    + now rewrite Hl1, Hl2.
    + rewrite Hl1. lia.
    + rewrite V, NX, NY, PAR, NS, LX, LY.
      split; [f_equal; lia |].
      do 4 (split; [reflexivity |]).
      split; [exact Hl2 |]. split; [exact Hl1 |].
      intro i. destruct (COL i) as [CX CY]. rewrite CX, CY.
      cbn [s1 MODE.popX MODE.popY MODE.nX MODE.nY MODE.set_next MODE.set_popX
           MODE.set_popY].
      unfold col. rewrite !nth_upd. rewrite <- Hlen.
      destruct (Nat.leb_spec (S p) i), (Nat.leb_spec p i),
        (Nat.ltb_spec i (S p + b)), (Nat.ltb_spec i (p + S b)),
        (Nat.eqb_spec i p), (Nat.ltb_spec p (length (MODE.popX s)));
        cbn [andb]; try lia; split; try reflexivity;
        try (f_equal; lia); try (subst i; f_equal; lia).
Qed.

(** *** The pending slots between calls *)

Local Abbreviation kept := (@shape_kept D R).

Lemma shape_refl (s : state) : kept 0 s s.
Proof. repeat split. Qed.

Lemma shape_trans (a b : Z) (s1 s2 s3 : state) :
  kept a s1 s2 -> kept b s2 s3 -> kept (a + b) s1 s3.
Proof.
  intros (P1 & X1 & Y1 & V1) (P2 & X2 & Y2 & V2). repeat split; congruence.
Qed.

Lemma shape_weaken (a b : Z) (s1 s2 : state) :
  a <= b -> kept a s1 s2 -> kept b s1 s2.
Proof. intros _ K. exact K. Qed.

Hint Resolve shape_refl shape_trans shape_weaken : frame.

Lemma shape_modify (f : state -> state) :
  (forall s, kept 0 s (f s)) -> graded kept 0 (modify_state f).
Proof. intros Hf s. apply Hf. Qed.

Ltac shape_modify := apply shape_modify; intro; repeat split.

Lemma shape_rand01 : graded kept 0 MODE.rand01.
Proof. unfold MODE.rand01. frame. shape_modify. Qed.

Hint Resolve shape_rand01 : frame.

Lemma shape_uniformVec (n : nat) : graded kept 0 (MODE.uniformVec n).
Proof. unfold MODE.uniformVec. frame. Qed.

Lemma shape_getClosestFeasible (X : vec D) :
  graded kept 0 (MODE.getClosestFeasible X).
Proof. unfold MODE.getClosestFeasible. frame. Qed.

Lemma shape_setClosestFeasible (X : mat D) :
  graded kept 0 (MODE.setClosestFeasible X).
Proof. unfold MODE.setClosestFeasible. frame. Qed.

Hint Resolve shape_uniformVec shape_getClosestFeasible
  shape_setClosestFeasible : frame.

Lemma shape_sbx_beta (dis_c_ : D) (to1 : vec D) (i : nat) :
  graded kept 0 (MODE.sbx_beta pow dis_c_ to1 i).
Proof. unfold MODE.sbx_beta. frame. Qed.

Lemma shape_poly_mutate (dis_m_ limit : D) (i : nat) (v : D) :
  graded kept 0 (MODE.poly_mutate pow norm_i dis_m_ limit i v).
Proof. unfold MODE.poly_mutate. frame. Qed.

Hint Resolve shape_sbx_beta shape_poly_mutate : frame.

Lemma shape_variation (x : mat D) :
  graded kept 0 (MODE.variation pow norm_i x).
Proof. unfold MODE.variation. frame. Qed.

Lemma shape_sample : graded kept 0 MODE.sample.
Proof. unfold MODE.sample. frame. Qed.

Hint Resolve shape_variation shape_sample : frame.

Lemma ready_prefix_kept (s s' : state) (k : nat) :
  kept 0 s s' -> ready_prefix s k -> ready_prefix s' k.
Proof.
  intros (P & X & Y & V) (Hv & Hk & HX & HY). unfold ready_prefix.
  replace (MODE.nat_popsize s') with (MODE.nat_popsize s)
    by (unfold MODE.nat_popsize; now rewrite P).
  rewrite V, X, Y. repeat split; assumption.
Qed.

Lemma length_overwrite {A} (new l : list A) :
  (length new <= length l)%nat ->
  length (MODE.overwrite new l) = length l.
Proof.
  intro Hle. unfold MODE.overwrite. rewrite length_app, length_skipn. lia.
Qed.

(** pop_update keeps the sizes of a population of at least popsize
    columns. *)
Lemma pop_update_shape (s : state) :
  (MODE.nat_popsize s <= length (MODE.popX s))%nat ->
  (MODE.nat_popsize s <= length (MODE.popY s))%nat ->
  kept 0 s (final (MODE.pop_update pow norm_i s)).
Proof.
  intros HX HY. unfold MODE.pop_update, bind at 1, get.
  unfold bind at 1, modify_state at 1.
  match goal with |- kept 0 s (final (?m ?s2)) =>
    assert (Hm : graded kept 0 m) by (frame; shape_modify);
    apply (shape_trans 0 0 s s2); [| apply Hm]
  end.
  match goal with |- context [MODE.survivors ?n ?a ?b ?y] =>
    destruct (survivors_elitist n a b y) as (_ & _ & Hlen & _)
  end.
  repeat split;
    cbn [MODE.popX MODE.popY MODE.set_popX MODE.set_popY];
    apply length_overwrite; rewrite length_gather, Hlen; lia.
Qed.

(** After the pending results were moved, pop_update and the count leave no
    slot ready. *)
Lemma update_leaves_no_slot_ready (s1 : state) :
  ready_prefix s1 0 ->
  ready_prefix
    (final (bind (MODE.pop_update pow norm_i)
              (fun _ =>
                 bind (modify_state
                         (fun s => MODE.set_n_evals (MODE.n_evals s + 1) s))
                   (fun _ => gets MODE.stop))
              s1)) 0.
Proof.
  intro Hr. apply (ready_prefix_kept s1); [| exact Hr].
  destruct Hr as (_ & Hk & HX & HY).
  pose proof (pop_update_shape s1) as K.
  unfold bind at 1.
  destruct (MODE.pop_update pow norm_i s1) as [[] s2 | s2 | s2 | s2];
    cbn [final] in K |- *; apply K; lia.
Qed.

Lemma shape_for_each {X} (l : list X) (body : X -> M state unit) :
  (forall x, graded kept 0 (body x)) -> graded kept 0 (for_each l body).
Proof.
  intro Hb.
  exact (graded_for_each kept shape_refl shape_trans shape_weaken 0 l body
           (Z.le_refl 0) Hb).
Qed.

Lemma returns_for_each {X} (l : list X) (body : X -> M state unit) :
  (forall x, returns (body x)) -> returns (for_each l body).
Proof.
  intro Hb. induction l as [| x t IH]; cbn [for_each].
  - apply returns_ret.
  - apply returns_bind; [apply Hb | intro; apply IH].
Qed.

Lemma MODE_sample_returns : returns (@MODE.sample D _ R _).
Proof.
  unfold MODE.sample. apply returns_bind; [apply returns_get | intro s].
  apply returns_bind; [| intro; apply returns_ret].
  unfold MODE.uniformVec. apply returns_fold_each. intros _ acc.
  apply returns_bind; [apply MODE_rand01_returns | intro; apply returns_ret].
Qed.

(** init leaves no slot ready and a population of 2 popsize columns. *)
Lemma init_ready (s : state) :
  (0 < MODE.nat_popsize s)%nat -> ready_prefix (final (MODE.init s)) 0.
Proof.
  intro Hpos. unfold MODE.init, bind at 1, get.
  unfold bind at 1, modify_state at 1.
  match goal with |- context [bind (for_each ?l ?body) ?k ?s1] =>
    assert (Hm : graded kept 0 (for_each l body))
      by (apply shape_for_each; intro;
          apply graded_bind0; eauto with frame; intro;
          apply shape_modify; intro; repeat split;
          cbn [MODE.popX MODE.popY MODE.set_popX MODE.set_popY];
          apply length_upd);
    assert (Hr : returns (for_each l body))
      by (apply returns_for_each; intro;
          apply returns_bind; [apply MODE_sample_returns | intro];
          intro; unfold modify_state; eauto);
    destruct (Hr s1) as ([] & s2 & E); specialize (Hm s1);
    unfold bind at 1; rewrite E in Hm |- *; cbn [final] in Hm
  end.
  destruct Hm as (P & X & Y & V).
  cbn [MODE.popX MODE.popY MODE.set_popX MODE.set_popY MODE.par] in P, X, Y.
  rewrite !repeat_length in X, Y.
  unfold modify_state. cbn [final]. unfold ready_prefix.
  cbn [MODE.vdone MODE.popX MODE.popY MODE.set_vp MODE.set_vX MODE.set_next].
  assert (EN : MODE.nat_popsize s2 = MODE.nat_popsize s)
    by (unfold MODE.nat_popsize; now rewrite P).
  match goal with |- context [MODE.nat_popsize ?t] =>
    change (MODE.nat_popsize t) with (MODE.nat_popsize s2)
  end.
  rewrite EN, X, Y, Nat.sub_0_r. repeat split. exact Hpos.
Qed.

End Tell.

(** The optimizer that the constructor builds has no pending result. *)
Lemma MoDeOptimizer_new_ready
    (D : Type) (HD : Double D) (R : Type) (HR : Rng D R)
    (runid_ : Z) (fitfun_ : MODE.Fitness) (log_ : mat D -> mat D -> bool)
    (dim_ nobj_ ncon_ : Z) (rs_ : R) (popsize_ maxEvaluations_ : Z)
    (F_ CR_ pro_c_ dis_c_ pro_m_ dis_m_ : D) (nsga_update_ : bool)
    (pareto_update_ min_mutate_ max_mutate_ : D) (log_period_ : Z)
    (isInt_ : option (list bool)) :
  ready_prefix
    (MODE.MoDeOptimizer_new runid_ fitfun_ log_ dim_ nobj_ ncon_ rs_ popsize_
       maxEvaluations_ F_ CR_ pro_c_ dis_c_ pro_m_ dis_m_ nsga_update_
       pareto_update_ min_mutate_ max_mutate_ log_period_ isInt_) 0.
Proof.
  unfold MODE.MoDeOptimizer_new. cbv zeta. apply init_ready.
  unfold MODE.nat_popsize. cbn [MODE.par MODE.popsize].
  destruct (Z.ltb_spec 0 popsize_); lia.
Qed.

(** C5.  tell drops a result of which no component is strictly smaller than
    the corresponding component of the fitness of its parent slot: the call
    returns the stop flag and changes nothing.  Any other result is stored in
    the first free pending slot, which is marked ready.  While fewer than
    popsize slots are ready, that is all (and the count of evaluations told
    grows by one).  When the slot that becomes ready is the last of popsize,
    the pending results are moved, in the order of their slots, to the columns
    [popsize, 2 popsize) of popX and popY, no slot remains ready, and
    pop_update runs on that state.  The ready slots form a prefix of fewer
    than popsize slots in the optimizer that the constructor builds, and
    tell keeps it so: with one more slot in the first case, with none after
    pop_update. *)
Theorem tell_spec
    (D : Type) (HD : Double D) (R : Type) (HR : Rng D R)
    (pow : D -> D -> D) (norm_i : MODE.Fitness -> nat -> D -> D)
    (y x : vec D) (p : Z) (s : @MODE.MoDeOptimizer D R) :
  let N := MODE.nat_popsize s in
  let dominated := MODE.is_dominated (MODE.popY s) y (Z.to_nat p) in
  (dominated = true
   <-> forall j, (j < length y)%nat ->
         (vget y j <? vget (col (MODE.popY s) (Z.to_nat p)) j)%dbl = false)
  /\ (dominated = true -> MODE.tell pow norm_i y x p s = Ret (MODE.stop s) s)
  /\ (dominated = false ->
      forall k, ready_prefix s k ->
        let s0 := MODE.set_next (upd (MODE.nX s) k x) (upd (MODE.nY s) k y)
                    (upd (MODE.vdone s) k true) s in
        MODE.first_free (MODE.vdone s) = k
        /\ MODE.vdone s0 = repeat true (S k) ++ repeat false (2 * N - S k)
        /\ ((S k < N)%nat ->
            MODE.tell pow norm_i y x p s
            = Ret (MODE.stop s) (MODE.set_n_evals (MODE.n_evals s + 1) s0)
            /\ ready_prefix (MODE.set_n_evals (MODE.n_evals s + 1) s0) (S k))
        /\ (S k = N ->
            (exists s1,
              MODE.tell pow norm_i y x p s
              = bind (MODE.pop_update pow norm_i)
                  (fun _ =>
                     bind (modify_state
                             (fun s => MODE.set_n_evals (MODE.n_evals s + 1) s))
                       (fun _ => gets MODE.stop))
                  s1
              /\ MODE.vdone s1 = repeat false (2 * N)
              /\ MODE.par s1 = MODE.par s
              /\ length (MODE.popX s1) = (2 * N)%nat
              /\ length (MODE.popY s1) = (2 * N)%nat
              /\ forall i, (i < N)%nat ->
                   col (MODE.popX s1) (N + i) = col (MODE.nX s0) i
                   /\ col (MODE.popY s1) (N + i) = col (MODE.nY s0) i
                   /\ col (MODE.popX s1) i = col (MODE.popX s) i
                   /\ col (MODE.popY s1) i = col (MODE.popY s) i)
            /\ ready_prefix (final (MODE.tell pow norm_i y x p s)) 0)).
Proof.
  intros N dominated. split; [apply is_dominated_iff |]. split.
  - intro E. unfold MODE.tell, bind at 1, get. fold dominated. now rewrite E.
  - intros E k (Hv & Hk & HlX & HlY) s0. fold N in Hv, HlX, HlY.
    assert (Em : exists m, (2 * N - k = S m)%nat /\ (2 * N - S k = m)%nat).
    { exists (2 * N - S k)%nat. lia. }
    destruct Em as (m & Em & Em').
    rewrite Em in Hv.
    assert (Hff : MODE.first_free (MODE.vdone s) = k)
      by (rewrite Hv; apply first_free_prefix).
    assert (Hv0 : MODE.vdone s0 = repeat true (S k) ++ repeat false m)
      by (cbn [s0 MODE.vdone MODE.set_next]; rewrite Hv; apply mark_prefix).
    assert (Hc0 : MODE.count_done (MODE.vdone s0) = S k)
      by (rewrite Hv0; apply count_done_prefix).
    assert (Etell : MODE.tell pow norm_i y x p s
                    = bind (if (N <=? S k)%nat
                            then bind (modify_state
                                         (MODE.flush
                                            (seq 0 (length (MODE.vdone s0))) N))
                                   (fun _ => MODE.pop_update pow norm_i)
                            else ret tt)
                        (fun _ =>
                           bind (modify_state
                                   (fun s => MODE.set_n_evals
                                               (MODE.n_evals s + 1) s))
                             (fun _ => gets MODE.stop))
                        s0).
    { unfold MODE.tell, bind at 1, get. fold dominated. rewrite E, Hff.
      unfold bind at 1, modify_state at 1. fold s0.
      unfold bind at 1, get.
      change (MODE.nat_popsize s0) with N. now rewrite Hc0. }
    split; [exact Hff |]. rewrite Em'. split; [exact Hv0 |]. split.
    + intro Hlt. split.
      * rewrite Etell.
        destruct (Nat.leb_spec N (S k)); [lia | reflexivity].
      * unfold ready_prefix.
        change (MODE.nat_popsize (MODE.set_n_evals (MODE.n_evals s + 1) s0))
          with N.
        cbn [MODE.vdone MODE.popX MODE.popY MODE.set_n_evals].
        change (MODE.vdone s0 = repeat true (S k) ++ repeat false (2 * N - S k)
                /\ (S k < N)%nat
                /\ length (MODE.popX s) = (2 * N)%nat
                /\ length (MODE.popY s) = (2 * N)%nat).
        rewrite Em'. repeat split; assumption.
    + intro HN.
      assert (HvN : MODE.vdone s0
                    = repeat false 0 ++ repeat true N ++ repeat false N).
      { rewrite Hv0, HN. change (repeat false 0 ++ ?l) with l.
        f_equal. f_equal. lia. }
      assert (Hlv : length (MODE.vdone s0) = (N + N)%nat).
      { rewrite HvN. change (repeat false 0 ++ ?l) with l.
        rewrite length_app, !repeat_length. lia. }
      destruct (flush_ready N 0 N N s0 HvN) as
        (V & NX & NY & PAR & NS & LX & LY & COL).
      * cbn [s0 MODE.popX MODE.popY MODE.set_next]. lia.
      * cbn [s0 MODE.popY MODE.set_next]. lia.
      * assert (Et : MODE.tell pow norm_i y x p s
                     = bind (MODE.pop_update pow norm_i)
                         (fun _ =>
                            bind (modify_state
                                    (fun s => MODE.set_n_evals
                                                (MODE.n_evals s + 1) s))
                              (fun _ => gets MODE.stop))
                         (MODE.flush (seq 0 (N + N)) N s0)).
        { rewrite Etell, Hlv.
          destruct (Nat.leb_spec N (S k)); [reflexivity | lia]. }
        split.
        { exists (MODE.flush (seq 0 (N + N)) N s0).
        split; [| split; [| split; [| split; [| split]]]].
        -- exact Et.
        -- rewrite V. f_equal. lia.
        -- rewrite PAR. reflexivity.
        -- rewrite LX. exact HlX.
        -- rewrite LY. exact HlY.
        -- intros i Hi.
           destruct (COL (N + i)%nat) as [CX CY]. destruct (COL i) as [CX' CY'].
           rewrite CX, CY, CX', CY'.
           replace ((N <=? N + i)%nat && (N + i <? N + N)%nat) with true
             by (symmetry; apply andb_true_iff; split;
                 [apply Nat.leb_le | apply Nat.ltb_lt]; lia).
           replace ((N <=? i)%nat && (i <? N + N)%nat) with false
             by (symmetry; apply andb_false_iff; left; apply Nat.leb_gt; lia).
           replace (0 + (N + i - N))%nat with i by lia.
           repeat split. }
        rewrite Et. apply update_leaves_no_slot_ready. unfold ready_prefix.
        replace (MODE.nat_popsize (MODE.flush (seq 0 (N + N)) N s0)) with N
          by (unfold MODE.nat_popsize; rewrite PAR; reflexivity).
        rewrite V, LX, LY. change (repeat true 0 ++ ?l) with l.
        split; [f_equal; lia |]. split; [lia |]. split; assumption.
Qed.

(** * The engines at large *)

(** ** Rules for triples *)

Section Triples.
Context {St : Type}.

Lemma triple_conseq {A} (P P' : St -> Prop) (m : M St A)
    (Q Q' : A -> St -> Prop) (X X' T T' : St -> Prop) :
  triple P' m Q' X' T' ->
  (forall s, P s -> P' s) -> (forall a s, Q' a s -> Q a s) ->
  (forall s, X' s -> X s) -> (forall s, T' s -> T s) ->
  triple P m Q X T.
Proof.
  intros Hm HP HQ HX HT s Hs. specialize (Hm s (HP s Hs)).
  destruct (m s) as [a s' | s' | s' | s']; auto.
Qed.

Lemma triple_pre {A} (P P' : St -> Prop) (m : M St A) Q X T :
  triple P' m Q X T -> (forall s, P s -> P' s) -> triple P m Q X T.
Proof. intros Hm HP. eapply triple_conseq; eauto. Qed.

Lemma triple_post {A} (P : St -> Prop) (m : M St A) (Q Q' : A -> St -> Prop)
    X T :
  triple P m Q' X T -> (forall a s, Q' a s -> Q a s) -> triple P m Q X T.
Proof. intros Hm HQ. eapply triple_conseq; eauto. Qed.

Lemma triple_ret {A} (P : St -> Prop) (a : A) X T :
  triple P (ret a) (fun a' s => a' = a /\ P s) X T.
Proof. intros s Hs. now split. Qed.

Lemma triple_ret' {A} (P : St -> Prop) (Q : A -> St -> Prop) (a : A) X T :
  (forall s, P s -> Q a s) -> triple P (ret a) Q X T.
Proof. intros HQ s Hs. now apply HQ. Qed.

Lemma triple_get (P : St -> Prop) X T :
  triple P get (fun a s => a = s /\ P s) X T.
Proof. intros s Hs. now split. Qed.

Lemma triple_gets {A} (P : St -> Prop) (f : St -> A) X T :
  triple P (gets f) (fun a s => a = f s /\ P s) X T.
Proof. intros s Hs. now split. Qed.

Lemma triple_get_keep (P : St -> Prop) X T :
  triple P get (fun a s => P a /\ P s) X T.
Proof. intros s Hs. now split. Qed.

(** A fact that does not depend on the state is a hypothesis. *)
Lemma triple_assume {A} (F : Prop) (P : St -> Prop) (m : M St A) Q X T :
  (F -> triple P m Q X T) -> triple (fun s => F /\ P s) m Q X T.
Proof. intros Hm s [HF Hs]. now apply Hm. Qed.

Lemma triple_modify (P : St -> Prop) (f : St -> St) (Q : unit -> St -> Prop)
    X T :
  (forall s, P s -> Q tt (f s)) -> triple P (modify_state f) Q X T.
Proof. intros Hf s Hs. now apply Hf. Qed.

Lemma triple_exit {A} (P : St -> Prop) (Q : A -> St -> Prop) X T :
  (forall s, P s -> X s) -> triple P exit Q X T.
Proof. intros HX s Hs. now apply HX. Qed.

Lemma triple_bind {A B} (P : St -> Prop) (m : M St A) (Q : A -> St -> Prop)
    (f : A -> M St B) (Q' : B -> St -> Prop) X T :
  triple P m Q X T -> (forall a, triple (Q a) (f a) Q' X T) ->
  triple P (bind m f) Q' X T.
Proof.
  intros Hm Hf s Hs. specialize (Hm s Hs). unfold bind.
  destruct (m s) as [a s' | s' | s' | s']; auto. now apply Hf.
Qed.

Lemma triple_for_each {Y} (I : St -> Prop) (l : list Y)
    (body : Y -> M St unit) X T :
  (forall y, In y l -> triple I (body y) (fun _ => I) X T) ->
  triple I (for_each l body) (fun _ => I) X T.
Proof.
  induction l as [| y t IH]; intro Hb; cbn [for_each].
  - now apply triple_ret'.
  - eapply triple_bind; [apply Hb; now left |].
    intros []. apply IH. intros y' Hy'. apply Hb. now right.
Qed.

Lemma triple_fold_each {Y A} (I : A -> St -> Prop) (l : list Y)
    (body : Y -> A -> M St A) (a : A) X T :
  (forall y a, In y l -> triple (I a) (body y a) I X T) ->
  triple (I a) (fold_each l body a) I X T.
Proof.
  revert a. induction l as [| y t IH]; intros a Hb; cbn [fold_each].
  - now apply triple_ret'.
  - eapply triple_bind; [apply Hb; now left |].
    intro a'. apply IH. intros y' a'' Hy'. apply Hb. now right.
Qed.

Lemma triple_do_while {A} (P : St -> Prop) (fuel : nat) (body : M St A)
    (again : A -> bool) (Q : A -> St -> Prop) X T :
  triple P body Q X T -> (forall a s, Q a s -> P s) ->
  (forall s, P s -> T s) ->
  triple P (do_while fuel body again)
    (fun a s => Q a s /\ again a = false) X T.
Proof.
  intros Hb HQ HT. induction fuel as [| k IH]; cbn [do_while].
  - intros s Hs. now apply HT.
  - eapply triple_bind; [exact Hb |].
    intro a. destruct (again a) eqn:E.
    + eapply triple_pre; [exact IH | intros s; apply HQ].
    + apply triple_ret'. intros s Hs. now split.
Qed.

Lemma triple_call (P : St -> Prop) (m : M St unit) (Q : St -> Prop) X T :
  triple P m (fun _ => Q) X T ->
  triple P (call m) (fun _ s => Q s \/ X s) (fun _ => False) T.
Proof.
  intros Hm s Hs. specialize (Hm s Hs). unfold call.
  destruct (m s) as [a s' | s' | s' | s']; auto.
Qed.

(** A computation whose effect on the state is bounded by a relation keeps
    what the relation keeps. *)
Lemma triple_graded {A} (G : Z -> St -> St -> Prop) (k : Z) (m : M St A)
    (P P' : St -> Prop) :
  graded G k m -> (forall s s', P s -> G k s s' -> P' s') ->
  triple P m (fun _ => P') P' P'.
Proof.
  intros Hm HP s Hs. specialize (Hm s).
  destruct (m s) as [a s' | s' | s' | s']; cbn [final] in Hm; eauto.
Qed.

Lemma triple_final {A} (P Q : St -> Prop) (m : M St A) (s : St) :
  triple P m (fun _ => Q) Q Q -> P s -> Q (final (m s)).
Proof.
  intros Hm Hs. specialize (Hm s Hs). now destruct (m s) as [a s' | s' | s' | s'].
Qed.

Lemma noexit_ret {A} (a : A) : noexit (ret a : M St A).
Proof. intros s s'. discriminate. Qed.

Lemma noexit_get : noexit (get : M St St).
Proof. intros s s'. discriminate. Qed.

Lemma noexit_gets {A} (f : St -> A) : noexit (gets f).
Proof. intros s s'. discriminate. Qed.

Lemma noexit_modify (f : St -> St) : noexit (modify_state f).
Proof. intros s s'. discriminate. Qed.

Lemma noexit_timeout {A} : noexit (timeout : M St A).
Proof. intros s s'. discriminate. Qed.

Lemma noexit_bind {A B} (m : M St A) (f : A -> M St B) :
  noexit m -> (forall a, noexit (f a)) -> noexit (bind m f).
Proof.
  intros Hm Hf s s'. unfold bind. specialize (Hm s).
  destruct (m s) as [a s1 | s1 | s1 | s1].
  - apply Hf.
  - now destruct (Hm s1).
  - discriminate.
  - discriminate.
Qed.

Lemma noexit_for_each {Y} (l : list Y) (body : Y -> M St unit) :
  (forall y, noexit (body y)) -> noexit (for_each l body).
Proof.
  intro Hb. induction l as [| y t IH]; cbn [for_each].
  - apply noexit_ret.
  - apply noexit_bind; [apply Hb | intro; exact IH].
Qed.

Lemma noexit_fold_each {Y A} (l : list Y) (body : Y -> A -> M St A) (a : A) :
  (forall y a, noexit (body y a)) -> noexit (fold_each l body a).
Proof.
  intro Hb. revert a. induction l as [| y t IH]; intro a; cbn [fold_each].
  - apply noexit_ret.
  - apply noexit_bind; [apply Hb | intro; apply IH].
Qed.

Lemma noexit_do_while {A} (fuel : nat) (body : M St A) (again : A -> bool) :
  noexit body -> noexit (do_while fuel body again).
Proof.
  intro Hb. induction fuel as [| k IH]; cbn [do_while].
  - apply noexit_timeout.
  - apply noexit_bind; [exact Hb |].
    intro a. destruct (again a); [exact IH | apply noexit_ret].
Qed.

(** A computation that never returns early and whose effect on the state is
    bounded by a relation. *)
Lemma triple_noexit {A} (G : Z -> St -> St -> Prop) (k : Z) (m : M St A)
    (P P' : St -> Prop) (X : St -> Prop) :
  graded G k m -> noexit m -> (forall s s', P s -> G k s s' -> P' s') ->
  triple P m (fun _ => P') X P'.
Proof.
  intros Hm Hn HP s Hs. specialize (Hm s). specialize (Hn s).
  destruct (m s) as [a s' | s' | s' | s']; cbn [final] in Hm; eauto.
  now destruct (Hn s').
Qed.

End Triples.

Create HintDb noexit.

#[export] Hint Resolve noexit_ret noexit_get noexit_gets noexit_modify
  noexit_timeout : noexit.

(** Proves that a computation built from draws, loops and updates has no
    early return. *)
Ltac noexit :=
  repeat first
    [ solve [eauto with noexit]
    | match goal with
      | |- forall _, _ => intro
      | |- noexit (bind _ _) => apply noexit_bind
      | |- noexit (for_each _ _) => apply noexit_for_each
      | |- noexit (fold_each _ _ _) => apply noexit_fold_each
      | |- noexit (do_while _ _ _) => apply noexit_do_while
      | |- noexit (if ?b then _ else _) => destruct b
      | |- noexit (match ?x with _ => _ end) => destruct x
      end ].

(** ** LDE: computations that only draw random numbers *)

Section LDE_draws.
Context {D : Type} `{Double D} {R : Type} `{Rng D R}.

Local Abbreviation state := (@LDE.LDeOptimizer D R).
Local Abbreviation drawn := (@LDE_drawn D R).

Lemma LDE_drawn_refl (s : state) : drawn 0 s s.
Proof. exists (LDE.rs s). now destruct s. Qed.

Lemma LDE_drawn_trans (a b : Z) (s1 s2 s3 : state) :
  drawn a s1 s2 -> drawn b s2 s3 -> drawn (a + b) s1 s3.
Proof. intros [r1 ->] [r2 ->]. now exists r2. Qed.

Lemma LDE_drawn_weaken (a b : Z) (s1 s2 : state) :
  a <= b -> drawn a s1 s2 -> drawn b s1 s2.
Proof. intros _ Hd. exact Hd. Qed.

Hint Resolve LDE_drawn_refl LDE_drawn_trans LDE_drawn_weaken : frame.

Ltac drawn_modify :=
  apply graded_modify; intro; eexists; reflexivity.

Lemma LDE_drawn_rnd01 : graded drawn 0 LDE.rnd01.
Proof. unfold LDE.rnd01. frame. drawn_modify. Qed.

Lemma LDE_drawn_gauss : graded drawn 0 LDE.gauss.
Proof. unfold LDE.gauss. frame. drawn_modify. Qed.

Hint Resolve LDE_drawn_rnd01 LDE_drawn_gauss : frame.

Lemma LDE_drawn_rndInt (max : Z) : graded drawn 0 (LDE.rndInt max).
Proof. unfold LDE.rndInt. frame. Qed.

Lemma LDE_drawn_normreal (mean sdev : D) :
  graded drawn 0 (LDE.normreal mean sdev).
Proof. unfold LDE.normreal. frame. Qed.

Hint Resolve LDE_drawn_rndInt LDE_drawn_normreal : frame.

Lemma LDE_drawn_normalVec (mean sdev : vec D) (n : nat) :
  graded drawn 0 (LDE.normalVec mean sdev n).
Proof. unfold LDE.normalVec, LDE.normal_vec. frame. Qed.

Lemma LDE_drawn_uniformVec (n : nat) : graded drawn 0 (LDE.uniformVec n).
Proof. unfold LDE.uniformVec. frame. Qed.

Lemma LDE_drawn_getClosestFeasible (X : vec D) :
  graded drawn 0 (LDE.getClosestFeasible X).
Proof. unfold LDE.getClosestFeasible. frame. Qed.

Lemma LDE_drawn_feasible (i : nat) (x : D) : graded drawn 0 (LDE.feasible i x).
Proof. unfold LDE.feasible. frame. Qed.

Hint Resolve LDE_drawn_normalVec LDE_drawn_uniformVec
  LDE_drawn_getClosestFeasible LDE_drawn_feasible : frame.

Lemma LDE_drawn_normX : graded drawn 0 LDE.normX.
Proof. unfold LDE.normX. frame. Qed.

Lemma LDE_drawn_normXi (fuel : nat) (i : nat) :
  graded drawn 0 (LDE.normXi fuel i).
Proof. unfold LDE.normXi. frame. Qed.

Hint Resolve LDE_drawn_normX LDE_drawn_normXi : frame.

Lemma LDE_drawn_sample : graded drawn 0 LDE.sample.
Proof. unfold LDE.sample. frame. Qed.

Lemma LDE_drawn_sample_i (fuel : nat) (i : nat) :
  graded drawn 0 (LDE.sample_i fuel i).
Proof. unfold LDE.sample_i. frame. Qed.

Lemma LDE_drawn_modify (fuel : nat) (x : vec D) :
  graded drawn 0 (LDE.modify fuel x).
Proof. unfold LDE.modify. frame. Qed.

Hint Resolve LDE_drawn_modify : frame.

Lemma LDE_drawn_next_improve (fuel : nat) (xb x xi : vec D) :
  graded drawn 0 (LDE.next_improve fuel xb x xi).
Proof. unfold LDE.next_improve. frame. Qed.

Lemma LDE_drawn_crossover (fuel : nat) (CR F : D) (r : Z)
    (xp xb x1 x2 : vec D) :
  graded drawn 0 (LDE.crossover fuel CR F r xp xb x1 x2).
Proof. unfold LDE.crossover. frame. Qed.

(** The two rejection loops of doOptimize that choose [r1] and [r2]. *)
Lemma LDE_drawn_donor (fuel : nat) (max : Z) (again : Z -> bool) :
  graded drawn 0 (do_while fuel (LDE.rndInt max) again).
Proof. frame. Qed.

Lemma LDE_noexit_rnd01 : noexit (@LDE.rnd01 D R _).
Proof. unfold LDE.rnd01. noexit. Qed.

Lemma LDE_noexit_gauss : noexit (@LDE.gauss D R _).
Proof. unfold LDE.gauss. noexit. Qed.

Hint Resolve LDE_noexit_rnd01 LDE_noexit_gauss : noexit.

Lemma LDE_noexit_normreal (mean sdev : D) :
  noexit (LDE.normreal mean sdev).
Proof. unfold LDE.normreal. noexit. Qed.

Lemma LDE_noexit_normXi (fuel : nat) (i : nat) : noexit (LDE.normXi fuel i).
Proof. unfold LDE.normXi, LDE.normreal. noexit. Qed.

Lemma LDE_noexit_normX : noexit (@LDE.normX D _ R _).
Proof.
  unfold LDE.normX, LDE.normalVec, LDE.normal_vec, LDE.getClosestFeasible.
  noexit.
Qed.

Hint Resolve LDE_noexit_normXi LDE_noexit_normX : noexit.

Lemma LDE_noexit_normalVec (mean sdev : vec D) (n : nat) :
  noexit (LDE.normalVec mean sdev n).
Proof. unfold LDE.normalVec, LDE.normal_vec. noexit. Qed.

Lemma LDE_noexit_modify (fuel : nat) (x : vec D) :
  noexit (LDE.modify fuel x).
Proof. unfold LDE.modify. noexit. Qed.

Hint Resolve LDE_noexit_modify : noexit.

Lemma LDE_noexit_next_improve (fuel : nat) (xb x xi : vec D) :
  noexit (LDE.next_improve fuel xb x xi).
Proof. unfold LDE.next_improve, LDE.getClosestFeasible. noexit. Qed.

Lemma LDE_noexit_crossover (fuel : nat) (CR F : D) (r : Z)
    (xp xb x1 x2 : vec D) :
  noexit (LDE.crossover fuel CR F r xp xb x1 x2).
Proof. unfold LDE.crossover, LDE.feasible. noexit. Qed.

Lemma LDE_noexit_rndInt (max : Z) : noexit (LDE.rndInt max).
Proof. unfold LDE.rndInt. noexit. Qed.

Lemma LDE_noexit_donor (fuel : nat) (max : Z) (again : Z -> bool) :
  noexit (do_while fuel (LDE.rndInt max) again).
Proof. unfold LDE.rndInt. noexit. Qed.

(** What holds whatever the engine's state is, holds after drawing. *)
Lemma triple_drawn {A} (m : M state A) (P X : state -> Prop) :
  graded drawn 0 m -> noexit m -> (forall s r, P s -> P (LDE.set_rs r s)) ->
  triple P m (fun _ => P) X P.
Proof.
  intros Hm Hn HP. apply (triple_noexit drawn 0); [exact Hm | exact Hn |].
  intros s s' Hs [r ->]. now apply HP.
Qed.

End LDE_draws.

(** One draw-only step of a computation, for a property that does not
    depend on the engine. *)
Ltac draw_step Hg Hn Hst :=
  eapply triple_bind;
  [ apply triple_drawn; [apply Hg | apply Hn | apply Hst] | intro ].

(** ** LDE: what a run keeps *)

Section LDE_run.
Context {D : Type} `{Double D} {R : Type} `{Rng D R}.

Local Abbreviation state := (@LDE.LDeOptimizer D R).

Lemma improves_trans (a b c : D) : improves a b -> improves b c -> improves a c.
Proof.
  intros Hab Hbc. induction Hbc as [| b' c' _ IH Hlt]; [exact Hab |].
  now apply improves_step with b'.
Qed.

Lemma LDE_progress_refl (s : state) : LDE_progress s s.
Proof.
  do 7 (split; [reflexivity |]). split; [now left |].
  split; [apply improves_refl |].
  exists []. cbn [app length]. split; [reflexivity |].
  split; [lia | now left].
Qed.

Lemma LDE_running_rs (s0 s : state) (r : R) :
  LDE_running s0 s -> LDE_running s0 (LDE.set_rs r s).
Proof. intro Hs. exact Hs. Qed.

Local Abbreviation evald := (@LDE_evaluated D R).

Lemma LDE_running_eval (s0 s : state) (x : vec D) :
  LDE_running s0 s ->
  LDE_running s0 (LDE.set_fitfun (LDE.count_call x (LDE.fitfun s)) s)
  /\ evald s0 (LDE.set_fitfun (LDE.count_call x (LDE.fitfun s)) s) x.
Proof.
  intros [(Hpar & Hf & Hlo & Hup & HX & HY & HI & HbI & Himp & new & Hc & Hn & Hb)
          Hstop].
  split; [split; [| exact Hstop] |].
  - do 8 (split; [assumption |]). split; [exact Himp |].
    exists (x :: new). cbn [LDE.calls LDE.fitfun LDE.set_fitfun LDE.count_call
                            LDE.evaluationCounter LDE.bestX LDE.bestY].
    rewrite Hc, Hn. split; [reflexivity |]. split; [cbn [length]; lia |].
    destruct Hb as [Hb | [Hin Hv]]; [now left | right].
    split; [now right | exact Hv].
  - exists (x :: new). cbn [LDE.calls LDE.fitfun LDE.set_fitfun LDE.count_call].
    rewrite Hc. split; [reflexivity | now left].
Qed.

Lemma evald_eval (s0 s : state) (x x' : vec D) :
  evald s0 s x ->
  evald s0 (LDE.set_fitfun (LDE.count_call x' (LDE.fitfun s)) s) x.
Proof.
  intros (new & Hc & Hin). exists (x' :: new).
  cbn [LDE.calls LDE.fitfun LDE.set_fitfun LDE.count_call].
  rewrite Hc. split; [reflexivity | now right].
Qed.

Lemma LDE_running_pop (s0 s : state) (p : nat) (x : vec D) (y it : D) :
  LDE_running s0 s ->
  LDE_running s0
    (LDE.set_pop (upd (LDE.popX s) p x) (upd (LDE.popY s) p y)
       (upd (LDE.popIter s) p it) s).
Proof.
  intros [(Hpar & Hf & Hlo & Hup & HX & HY & HI & Hrest) Hstop].
  split; [| exact Hstop].
  do 4 (split; [assumption |]).
  cbn [LDE.popX LDE.popY LDE.popIter LDE.set_pop]. rewrite !length_upd.
  do 3 (split; [assumption |]). exact Hrest.
Qed.

Lemma LDE_running_reinit (s0 s : state) (p : nat) (x : vec D) (y : D) :
  LDE_running s0 s ->
  LDE_running s0
    (LDE.set_pop (upd (LDE.popX s) p x) (upd (LDE.popY s) p y)
       (LDE.popIter s) s).
Proof.
  intros [(Hpar & Hf & Hlo & Hup & HX & HY & HI & Hrest) Hstop].
  split; [| exact Hstop].
  do 4 (split; [assumption |]).
  cbn [LDE.popX LDE.popY LDE.popIter LDE.set_pop]. rewrite !length_upd.
  do 3 (split; [assumption |]). exact Hrest.
Qed.

Lemma LDE_running_bestI (s0 s : state) (p : nat) :
  Z.of_nat p < LDE.popsize (LDE.par s0) ->
  LDE_running s0 s -> LDE_running s0 (LDE.set_bestI (Z.of_nat p) s).
Proof.
  intros Hp [(Hpar & Hf & Hlo & Hup & HX & HY & HI & HbI & Hrest) Hstop].
  split; [| exact Hstop].
  do 7 (split; [assumption |]). split; [right; cbn; lia | exact Hrest].
Qed.

(** updateSigma and the record of a new best. *)
Lemma LDE_running_best (s0 s : state) (x : vec D) (y : D) (f : LDE.Fitness) :
  LDE_running s0 s -> evald s0 s x ->
  y = LDE_value (LDE.fitfun s0) x -> (y <? LDE.bestY s)%dbl = true ->
  LDE.func f = LDE.func (LDE.fitfun s) ->
  LDE.lower f = LDE.lower (LDE.fitfun s) ->
  LDE.upper f = LDE.upper (LDE.fitfun s) ->
  LDE.calls f = LDE.calls (LDE.fitfun s) ->
  LDE.evaluationCounter f = LDE.evaluationCounter (LDE.fitfun s) ->
  LDE_running s0 (LDE.set_best y x (LDE.set_fitfun f s)).
Proof.
  intros [(Hpar & Hf & Hlo & Hup & HX & HY & HI & HbI & Himp & new & Hc & Hn & Hb)
          Hstop] (new' & Hc' & Hin) Hy Hlt Ef El Eu Ec En.
  assert (new' = new) as -> by (rewrite Hc in Hc'; now apply app_inv_tail in Hc').
  split; [| exact Hstop]. unfold LDE_progress.
  cbn [LDE.par LDE.fitfun LDE.popX LDE.popY LDE.popIter LDE.bestI LDE.bestX
       LDE.bestY LDE.set_best LDE.set_fitfun].
  split; [exact Hpar |]. split; [congruence |]. split; [congruence |].
  split; [congruence |]. do 4 (split; [assumption |]).
  split; [now apply improves_step with (LDE.bestY s) |].
  exists new. rewrite Ec, En. split; [exact Hc |]. split; [exact Hn |].
  right. split; assumption.
Qed.

Lemma LDE_running_stop (s0 s : state) :
  LDE_running s0 s ->
  d_isfinite (LDE.stopfitness (LDE.par s)) = true ->
  (LDE.bestY s <? LDE.stopfitness (LDE.par s))%dbl = true ->
  LDE_stopped s0 (LDE.set_stop 1 s).
Proof.
  intros [Hprog _] Hfin Hlt. split; [exact Hprog |].
  split; [reflexivity |]. split; assumption.
Qed.

Lemma LDE_slot_progress (fuel : nat) (CR F : D) (p : nat) (s0 : state) :
  Z.of_nat p < LDE.popsize (LDE.par s0) ->
  triple (LDE_running s0) (LDE.slot fuel CR F p) (fun _ => LDE_running s0)
    (LDE_stopped s0) (LDE_running s0).
Proof.
  intro Hp. unfold LDE.slot.
  eapply triple_bind; [apply triple_get |]. intro s1.
  eapply triple_pre; [| intros s Hs; exact (proj2 Hs)].
  draw_step LDE_drawn_donor LDE_noexit_donor LDE_running_rs.
  draw_step LDE_drawn_donor LDE_noexit_donor LDE_running_rs.
  draw_step LDE_drawn_rndInt LDE_noexit_rndInt LDE_running_rs.
  draw_step LDE_drawn_crossover LDE_noexit_crossover LDE_running_rs.
  draw_step LDE_drawn_modify LDE_noexit_modify LDE_running_rs.
  intros s Hs.
  unfold bind at 1. rewrite LDE_eval_unfold. cbv zeta.
  destruct (LDE_running_eval s0 s a3 Hs) as [HsA HeA].
  assert (Hy : (let r := LDE.func (LDE.fitfun s) a3 in
                if d_isnan r || negb (d_isfinite r) then d_1E99 else r)
               = LDE_value (LDE.fitfun s0) a3).
  { unfold LDE_value. destruct Hs as [(_ & -> & _) _]. reflexivity. }
  cbv zeta in Hy. rewrite Hy. clear Hy.
  generalize dependent (LDE.set_fitfun (LDE.count_call a3 (LDE.fitfun s)) s).
  clear s Hs. intros s Hs He.
  set (y := LDE_value (LDE.fitfun s0) a3) in *.
  unfold bind at 1, get.
  destruct (d_isfinite y && (y <? vget (LDE.popY s) p)%dbl).
  - unfold bind at 1.
    pose proof (LDE_drawn_next_improve fuel
                  (col (LDE.popX s1) (Z.to_nat (LDE.bestI s1))) a3
                  (col (LDE.popX s1) p) s) as Hd.
    pose proof (LDE_noexit_next_improve fuel
                  (col (LDE.popX s1) (Z.to_nat (LDE.bestI s1))) a3
                  (col (LDE.popX s1) p) s) as Hn.
    destruct (LDE.next_improve fuel _ a3 _ s) as [x2 sB | sB | sB | sB];
      cbn [final] in Hd; destruct Hd as [r ->];
      [| now destruct (Hn (LDE.set_rs r s)) | exact Hs | exact Hs].
    clear Hn.
    assert (Hs' : LDE_running s0 (LDE.set_rs r s)) by exact Hs.
    assert (He' : evald s0 (LDE.set_rs r s) a3) by exact He.
    generalize dependent (LDE.set_rs r s). clear s Hs He. intros s Hs He.
    unfold bind at 1. rewrite LDE_eval_unfold. cbv zeta.
    destruct (LDE_running_eval s0 s x2 Hs) as [HsB HeB].
    apply (evald_eval s0 s a3 x2) in He.
    assert (Hy2 : (let r := LDE.func (LDE.fitfun s) x2 in
                   if d_isnan r || negb (d_isfinite r) then d_1E99 else r)
                  = LDE_value (LDE.fitfun s0) x2).
    { unfold LDE_value. destruct Hs as [(_ & -> & _) _]. reflexivity. }
    cbv zeta in Hy2. rewrite Hy2. clear Hy2.
    generalize dependent (LDE.set_fitfun (LDE.count_call x2 (LDE.fitfun s)) s).
    clear s Hs. intros s He Hs He2.
    set (y2 := LDE_value (LDE.fitfun s0) x2) in *.
    assert (Hch : evald s0 s (if d_isfinite y2 && (y2 <? y)%dbl then x2 else a3)
                  /\ (if d_isfinite y2 && (y2 <? y)%dbl then y2 else y)
                     = LDE_value (LDE.fitfun s0)
                         (if d_isfinite y2 && (y2 <? y)%dbl then x2 else a3))
      by (destruct (d_isfinite y2 && (y2 <? y)%dbl); split; auto).
    destruct Hch as [Hex Hey].
    generalize dependent (if d_isfinite y2 && (y2 <? y)%dbl then y2 else y).
    generalize dependent (if d_isfinite y2 && (y2 <? y)%dbl then x2 else a3).
    intros x' Hex y' Hey.
    unfold bind at 1, modify_state at 1.
    match goal with |- context [LDE.set_pop ?a ?b ?c s] =>
      assert (Hs' : LDE_running s0 (LDE.set_pop a b c s))
        by apply (LDE_running_pop s0 s p _ _ _ Hs);
      assert (Hex' : evald s0 (LDE.set_pop a b c s) x') by exact Hex;
      generalize dependent (LDE.set_pop a b c s)
    end.
    clear s Hs He2 He Hex. intros s Hs Hex.
    unfold bind at 1.
    destruct (y' <? vget (LDE.popY s) (Z.to_nat (LDE.bestI s)))%dbl;
      [| exact Hs].
    unfold bind at 1, modify_state at 1.
    apply (LDE_running_bestI s0 s p Hp) in Hs.
    assert (Hex' : evald s0 (LDE.set_bestI (Z.of_nat p) s) x') by exact Hex.
    generalize dependent (LDE.set_bestI (Z.of_nat p) s).
    clear s Hex. intros s Hs Hex.
    unfold bind at 1.
    destruct (y' <? LDE.bestY s)%dbl eqn:Hlt; [| exact Hs].
    unfold bind at 1, LDE.updateSigma, modify_state at 1.
    unfold bind at 1, modify_state at 1.
    match goal with |- context [LDE.set_best y' x' (LDE.set_fitfun ?f s)] =>
      assert (Hs' : LDE_running s0 (LDE.set_best y' x' (LDE.set_fitfun f s)))
        by (apply LDE_running_best; auto)
    end.
    destruct (d_isfinite (LDE.stopfitness (LDE.par s))) eqn:Hfin;
      cbn [andb]; [| exact Hs'].
    destruct (y' <? LDE.stopfitness (LDE.par s))%dbl eqn:Hsf; [| exact Hs'].
    unfold bind, modify_state, exit.
    apply LDE_running_stop; [exact Hs' | exact Hfin | exact Hsf].
  - unfold bind at 1.
    pose proof (LDE_drawn_rnd01 s) as Hd.
    pose proof (LDE_noexit_rnd01 s) as Hn.
    destruct (LDE.rnd01 s) as [u sB | sB | sB | sB];
      cbn [final] in Hd; destruct Hd as [r ->];
      [| now destruct (Hn (LDE.set_rs r s)) | exact Hs | exact Hs].
    clear Hn. unfold bind at 1.
    match goal with |- context [if ?c then _ else _] => destruct c end;
      [| exact Hs].
    unfold bind at 1.
    pose proof (LDE_drawn_normX (LDE.set_rs r s)) as Hd.
    pose proof (LDE_noexit_normX (LDE.set_rs r s)) as Hn.
    destruct (LDE.normX (LDE.set_rs r s)) as [nx sB | sB | sB | sB];
      cbn [final] in Hd; destruct Hd as [r' ->];
      [| now destruct (Hn (LDE.set_rs r' (LDE.set_rs r s))) | exact Hs
       | exact Hs].
    unfold modify_state.
    apply (LDE_running_reinit s0 (LDE.set_rs r' (LDE.set_rs r s))). exact Hs.
Qed.

Lemma LDE_generation_progress (fuel : nat) (s0 : state) :
  triple (LDE_running s0) (LDE.generation fuel) (fun _ => LDE_running s0)
    (LDE_stopped s0) (LDE_running s0).
Proof.
  unfold LDE.generation. intros s Hs. unfold bind at 1, get.
  apply (triple_for_each (LDE_running s0)); [| exact Hs].
  intros p Hin. apply LDE_slot_progress.
  apply in_seq in Hin. unfold LDE.nat_popsize in Hin.
  destruct Hs as [(Hpar & _) _]. rewrite Hpar in Hin. lia.
Qed.

Lemma LDE_generations_progress (fuel n : nat) (s0 : state) :
  triple (LDE_running s0) (LDE.generations fuel n)
    (fun _ s => LDE_running s0 s
                /\ LDE.maxEvaluations (LDE.par s)
                   <= to_int32 (LDE.evaluationCounter (LDE.fitfun s)))
    (LDE_stopped s0) (LDE_running s0).
Proof.
  induction n as [| k IH]; intros s Hs.
  - exact Hs.
  - rewrite LDE_generations_step. unfold LDE.getEvaluationCount.
    destruct (Z.ltb_spec (to_int32 (LDE.evaluationCounter (LDE.fitfun s)))
                (LDE.maxEvaluations (LDE.par s))) as [Hlt | Hge].
    + pose proof (LDE_generation_progress fuel s0 s Hs) as Hg.
      destruct (LDE.generation fuel s) as [[] s1 | s1 | s1 | s1]; try exact Hg.
      apply IH. exact Hg.
    + split; [exact Hs | exact Hge].
Qed.

(** How doOptimize ends. *)
Lemma LDE_doOptimize_outcome (fuel : nat) (s : state) :
  match LDE.doOptimize fuel s with
  | Ret _ s' =>
      (LDE_running s s'
       /\ LDE.maxEvaluations (LDE.par s')
          <= to_int32 (LDE.evaluationCounter (LDE.fitfun s')))
      \/ LDE_stopped s s'
  | Exit _ => False
  | Timeout s' => LDE_running s s'
  | Fault s' => LDE_running s s'
  end.
Proof.
  unfold LDE.doOptimize.
  apply (triple_call (LDE_running s)
           (modify_state (LDE.set_iterations 1) ;; LDE.generations fuel fuel)%monad
           (fun s' => LDE_running s s'
                      /\ LDE.maxEvaluations (LDE.par s')
                         <= to_int32 (LDE.evaluationCounter (LDE.fitfun s')))
           (LDE_stopped s) (LDE_running s)).
  - eapply triple_bind; [| intro; apply LDE_generations_progress].
    apply triple_modify. intros s1 Hs1. exact Hs1.
  - split; [apply LDE_progress_refl | reflexivity].
Qed.

Lemma LDE_doOptimize_progress (fuel : nat) (s : state) :
  LDE_progress s (final (LDE.doOptimize fuel s)).
Proof.
  pose proof (LDE_doOptimize_outcome fuel s) as Ho.
  destruct (LDE.doOptimize fuel s) as [[] s' | s' | s' | s']; cbn [final].
  - destruct Ho as [[[Hp _] _] | [Hp _]]; exact Hp.
  - destruct Ho.
  - exact (proj1 Ho).
  - exact (proj1 Ho).
Qed.

Lemma ieee_ltb_trans `{!IEEELaws D} (a b c : D) :
  (c <? b)%dbl = true -> (b <? a)%dbl = true -> (c <? a)%dbl = true.
Proof.
  intros Hcb Hba.
  destruct (ieee_ltb_nan c b Hcb) as [Hc Hb].
  destruct (ieee_ltb_nan b a Hba) as [_ Ha].
  rewrite (ieee_ltb_leb c a Hc Ha).
  destruct (a <=? c)%dbl eqn:E; [| reflexivity].
  pose proof (ieee_leb_trans a c b E (ieee_ltb_true c b Hcb)) as Hab.
  rewrite (ieee_ltb_leb b a Hb Ha), Hab in Hba. discriminate.
Qed.

Lemma improves_ltb `{!IEEELaws D} (a b : D) :
  improves a b -> b = a \/ (b <? a)%dbl = true.
Proof.
  induction 1 as [| b c _ IH Hlt]; [now left |].
  right. destruct IH as [-> | IH]; [exact Hlt |].
  now apply ieee_ltb_trans with b.
Qed.

Lemma improves_leb `{!IEEELaws D} (a b : D) :
  improves a b -> d_isnan a = false -> (b <=? a)%dbl = true.
Proof.
  intros Hi Ha. destruct (improves_ltb a b Hi) as [-> | Hlt].
  - now apply ieee_leb_refl.
  - now apply ieee_ltb_true.
Qed.

End LDE_run.

(** The evaluation counter of an LDE run counts the calls of the objective:
    whatever way doOptimize ends, the vectors with which the objective has
    been called since the start are as many as the counter has advanced, and
    the objective, the parameters and the bounds are those of the start. *)
Theorem LDE_counter_counts_calls
    (D : Type) (HD : Double D) (R : Type) (HR : Rng D R) (fuel : nat)
    (s : @LDE.LDeOptimizer D R) :
  let s' := final (LDE.doOptimize fuel s) in
  LDE.par s' = LDE.par s
  /\ LDE.func (LDE.fitfun s') = LDE.func (LDE.fitfun s)
  /\ LDE.lower (LDE.fitfun s') = LDE.lower (LDE.fitfun s)
  /\ LDE.upper (LDE.fitfun s') = LDE.upper (LDE.fitfun s)
  /\ exists new,
      LDE.calls (LDE.fitfun s') = new ++ LDE.calls (LDE.fitfun s)
      /\ LDE.evaluationCounter (LDE.fitfun s')
         = LDE.evaluationCounter (LDE.fitfun s) + Z.of_nat (length new).
Proof.
  intro s'.
  destruct (LDE_doOptimize_progress fuel s)
    as (Hpar & Hf & Hlo & Hup & _ & _ & _ & _ & _ & new & Hc & Hn & _).
  do 4 (split; [assumption |]). exists new. now split.
Qed.

(** The best vector and the best value that an LDE run reports belong
    together: either doOptimize has left both as they were, or the best
    vector is one of the vectors with which the run has called the objective
    and the best value is what eval returned for it (the objective's value,
    or 1e99 when that is NaN or not finite). *)
Theorem LDE_best_is_an_evaluated_point
    (D : Type) (HD : Double D) (R : Type) (HR : Rng D R) (fuel : nat)
    (s : @LDE.LDeOptimizer D R) :
  let s' := final (LDE.doOptimize fuel s) in
  (LDE.bestX s' = LDE.bestX s /\ LDE.bestY s' = LDE.bestY s)
  \/ (exists new,
         LDE.calls (LDE.fitfun s') = new ++ LDE.calls (LDE.fitfun s)
         /\ In (LDE.bestX s') new
         /\ LDE.bestY s'
            = (let r := LDE.func (LDE.fitfun s) (LDE.bestX s') in
               if d_isnan r || negb (d_isfinite r) then d_1E99 else r)).
Proof.
  intro s'.
  destruct (LDE_doOptimize_progress fuel s)
    as (_ & _ & _ & _ & _ & _ & _ & _ & _ & new & Hc & _ & [Hb | [Hin Hv]]).
  - now left.
  - right. exists new. repeat split; assumption.
Qed.

(** doOptimize of LDE returns in one of two ways.  Either the loop has ended
    because the evaluations, as the int that getEvaluations returns, have
    reached maxEvaluations, and the stop flag is as it was; or the function
    has returned from inside the loop with the stop flag set to 1, and then
    stopfitness is finite and the best value is below it. *)
Theorem LDE_doOptimize_ends_on_budget_or_stop
    (D : Type) (HD : Double D) (R : Type) (HR : Rng D R) (fuel : nat)
    (s s' : @LDE.LDeOptimizer D R) :
  LDE.doOptimize fuel s = Ret tt s' ->
  (LDE.stop s' = LDE.stop s
   /\ LDE.maxEvaluations (LDE.par s)
      <= to_int32 (LDE.evaluationCounter (LDE.fitfun s')))
  \/ (LDE.stop s' = 1
      /\ d_isfinite (LDE.stopfitness (LDE.par s)) = true
      /\ (LDE.bestY s' <? LDE.stopfitness (LDE.par s))%dbl = true).
Proof.
  intro E. pose proof (LDE_doOptimize_outcome fuel s) as Ho.
  rewrite E in Ho.
  destruct Ho as [[[(Hpar & _) Hstop] Hmax] | [(Hpar & _) (Hstop & Hfin & Hlt)]].
  - left. rewrite <- Hpar. now split.
  - right. rewrite <- Hpar. repeat split; assumption.
Qed.

(** The theorem at a run of four slots with a budget of one evaluation,
    which ends on the budget after eight evaluations. *)
Lemma LDE_doOptimize_ends_on_budget_or_stop_witness :
  LDE.doOptimize 2 Inputs.budget_state
  = Ret tt (final (LDE.doOptimize 2 Inputs.budget_state))
  /\ ((LDE.stop (final (LDE.doOptimize 2 Inputs.budget_state))
       = LDE.stop Inputs.budget_state
       /\ LDE.maxEvaluations (LDE.par Inputs.budget_state)
          <= to_int32 (LDE.evaluationCounter
                         (LDE.fitfun (final (LDE.doOptimize 2 Inputs.budget_state)))))
      \/ (LDE.stop (final (LDE.doOptimize 2 Inputs.budget_state)) = 1
          /\ d_isfinite (LDE.stopfitness (LDE.par Inputs.budget_state)) = true
          /\ (LDE.bestY (final (LDE.doOptimize 2 Inputs.budget_state))
              <? LDE.stopfitness (LDE.par Inputs.budget_state))%dbl = true)).
Proof.
  assert (E : LDE.doOptimize 2 Inputs.budget_state
              = Ret tt (final (LDE.doOptimize 2 Inputs.budget_state)))
    by (vm_compute; reflexivity).
  split; [exact E |].
  exact (LDE_doOptimize_ends_on_budget_or_stop float _ (tape float) _ 2%nat
           Inputs.budget_state _ E).
Defined.

(** An LDE run keeps the shape of the population: whatever way doOptimize
    ends, popX, popY and popIter have as many entries as before, and bestI
    is as it was or the index of a slot, from 0 to popsize - 1. *)
Theorem LDE_run_keeps_population_shape
    (D : Type) (HD : Double D) (R : Type) (HR : Rng D R) (fuel : nat)
    (s : @LDE.LDeOptimizer D R) :
  let s' := final (LDE.doOptimize fuel s) in
  length (LDE.popX s') = length (LDE.popX s)
  /\ length (LDE.popY s') = length (LDE.popY s)
  /\ length (LDE.popIter s') = length (LDE.popIter s)
  /\ (LDE.bestI s' = LDE.bestI s
      \/ 0 <= LDE.bestI s' < LDE.popsize (LDE.par s)).
Proof.
  intro s'.
  destruct (LDE_doOptimize_progress fuel s)
    as (_ & _ & _ & _ & HX & HY & HI & HbI & _).
  repeat split; assumption.
Qed.

(** The best value of an LDE run never gets worse.  On IEEE doubles, bestY
    at the end of doOptimize, however it ends, is bestY of the start or
    strictly below it; so, when bestY is not NaN at the start, it is at most
    that value at the end. *)
Theorem LDE_best_value_never_increases
    (D : Type) (HD : Double D) (HL : IEEELaws D) (R : Type) (HR : Rng D R)
    (fuel : nat) (s : @LDE.LDeOptimizer D R) :
  d_isnan (LDE.bestY s) = false ->
  let s' := final (LDE.doOptimize fuel s) in
  (LDE.bestY s' <=? LDE.bestY s)%dbl = true
  /\ (LDE.bestY s' = LDE.bestY s \/ (LDE.bestY s' <? LDE.bestY s)%dbl = true).
Proof.
  intros Hn s'.
  destruct (LDE_doOptimize_progress fuel s)
    as (_ & _ & _ & _ & _ & _ & _ & _ & Himp & _).
  split; [now apply improves_leb | now apply improves_ltb].
Qed.

(** The theorem on binary64, for the run of [Inputs.run_state]: it starts
    with the best value DBL_MAX and returns with the best value 4.375. *)
Lemma LDE_best_value_never_increases_witness :
  d_isnan (LDE.bestY Inputs.run_state) = false
  /\ LDE.bestY Inputs.run_state = DBL_MAX
  /\ value_of (LDE.doOptimize 50 Inputs.run_state) = Some tt
  /\ LDE.bestY (final (LDE.doOptimize 50 Inputs.run_state)) = 4.375%float
  /\ (LDE.bestY (final (LDE.doOptimize 50 Inputs.run_state))
      <=? LDE.bestY Inputs.run_state)%dbl = true.
Proof.
  assert (Hn : d_isnan (LDE.bestY Inputs.run_state) = false) by reflexivity.
  split; [exact Hn |]. split; [reflexivity |].
  split; [vm_compute; reflexivity |].
  split; [vm_compute; reflexivity |].
  exact (proj1 (LDE_best_value_never_increases float _ _ lcg _ 50%nat
                  Inputs.run_state Hn)).
Defined.

(** ** LDE: the objective is called within the bounds *)

Section LDE_feasible.
Context {D : Type} `{Double D} `{!IEEELaws D} {R : Type} `{Rng D R}.

Local Abbreviation state := (@LDE.LDeOptimizer D R).

Variable s0 : state.
Hypothesis bounds_ordered :
  forall i, (vget (LDE.lower (LDE.fitfun s0)) i
             <=? vget (LDE.upper (LDE.fitfun s0)) i)%dbl = true.

Local Abbreviation FR := (LDE_feasible_run s0).
Local Abbreviation within := (LDE_within s0).

Lemma feasible_at_bounds (f g : LDE.Fitness) (i : nat) (x : D) :
  LDE.lower f = LDE.lower g -> LDE.upper f = LDE.upper g ->
  LDE.feasible_at f i x = LDE.feasible_at g i x.
Proof. intros El Eu. unfold LDE.feasible_at. now rewrite El, Eu. Qed.

Lemma FR_rs (s : state) (r : R) : FR s -> FR (LDE.set_rs r s).
Proof. intro Hs. exact Hs. Qed.

Lemma within_upd (x : vec D) (j : nat) (v : D) :
  within x -> LDE.feasible_at (LDE.fitfun s0) j v = true ->
  within (upd x j v).
Proof.
  intros Hx Hv i Hi Hint. rewrite length_upd in Hi.
  unfold vget. rewrite nth_upd.
  destruct (Nat.eqb_spec i j) as [-> | Hn]; cbn [andb].
  - destruct (j <? length x)%nat; [left; exact Hv | now apply Hx].
  - now apply Hx.
Qed.

Lemma within_upd_int (x : vec D) (j : nat) (v : D) :
  within x -> LDE.is_int s0 j = true -> within (upd x j v).
Proof.
  intros Hx Hj i Hi Hint. rewrite length_upd in Hi.
  unfold vget. rewrite nth_upd.
  destruct (Nat.eqb_spec i j) as [-> | Hn]; cbn [andb].
  - congruence.
  - now apply Hx.
Qed.

Lemma within_col (m : mat D) (p : nat) :
  (forall c, In c m -> within c) -> within (col m p).
Proof.
  intro Hm. unfold col.
  destruct (Nat.lt_ge_cases p (length m)) as [Hlt | Hge].
  - apply Hm. now apply nth_In.
  - rewrite nth_overflow by exact Hge. intros i Hi. cbn in Hi. lia.
Qed.

Lemma within_closest (s : state) (X : vec D) :
  FR s -> within (LDE.closest_feasible (LDE.fitfun s) X).
Proof.
  intros (_ & El & Eu & _) i Hi _.
  rewrite <- (feasible_at_bounds (LDE.fitfun s)) by assumption.
  destruct (closest_feasible_ieee (LDE.fitfun s) X) with (i := i)
    as (Hf & Hn & _);
    [intro k; rewrite El, Eu; apply bounds_ordered | exact Hi |].
  destruct (d_isnan (vget X i)) eqn:E.
  - right. rewrite Hn by reflexivity. exact E.
  - left. now apply Hf.
Qed.

(** normXi returns a feasible value. *)
Lemma FR_normXi (fuel i : nat) (X : state -> Prop) :
  triple FR (LDE.normXi fuel i)
    (fun nx s => LDE.feasible_at (LDE.fitfun s0) i nx = true /\ FR s) X FR.
Proof.
  unfold LDE.normXi.
  eapply triple_bind;
    [apply triple_drawn;
     [apply LDE_drawn_rnd01 | apply LDE_noexit_rnd01 | apply FR_rs] |].
  intro u. intros s Hs. unfold bind at 1, get.
  assert (T : forall sd,
             triple FR
               (do_while fuel (LDE.normreal (vget (LDE.xmean (LDE.fitfun s)) i) sd)
                  (fun nx => negb (LDE.feasible_at (LDE.fitfun s) i nx)))
               (fun nx s' => LDE.feasible_at (LDE.fitfun s0) i nx = true /\ FR s')
               X FR).
  { intro sd. eapply triple_post.
    - apply (triple_do_while FR fuel _ _ (fun _ => FR)); auto.
      apply triple_drawn;
        [apply LDE_drawn_normreal | apply LDE_noexit_normreal | apply FR_rs].
    - intros nx s' [Hs' Hnx]. split; [| exact Hs'].
      apply negb_false_iff in Hnx.
      destruct Hs as (_ & El & Eu & _).
      now rewrite <- (feasible_at_bounds (LDE.fitfun s)). }
  destruct (u <? d_0_5)%dbl; apply T; exact Hs.
Qed.

(** The trial vector of the crossover is within the bounds when its parent
    is. *)
Lemma FR_crossover (fuel : nat) (CR F : D) (r : Z) (xp xb x1 x2 : vec D)
    (X : state -> Prop) :
  within xp ->
  triple FR (LDE.crossover fuel CR F r xp xb x1 x2)
    (fun x s => within x /\ FR s) X FR.
Proof.
  intro Hxp. unfold LDE.crossover.
  eapply triple_bind; [apply triple_get_keep |]. intro s1.
  apply triple_assume. intro Hs1.
  apply (triple_pre _ (fun s => within xp /\ FR s));
    [| intros s Hs; split; [exact Hxp | exact Hs]].
  apply (triple_fold_each (fun x s => within x /\ FR s)).
  intros j x _. apply triple_assume. intro Hx.
  eapply triple_bind
    with (Q := fun (c : bool) s => FR s).
  - destruct (Z.of_nat j =? r).
    + apply triple_ret'. auto.
    + eapply triple_bind;
        [apply triple_drawn;
         [apply LDE_drawn_rnd01 | apply LDE_noexit_rnd01 | apply FR_rs] |].
      intro u. apply triple_ret'. auto.
  - intros [|]; [| apply triple_ret'; intros s Hs; now split].
    unfold LDE.feasible.
    eapply triple_bind; [apply triple_gets |]. intro okf.
    intros s [-> Hs].
    destruct (LDE.feasible_at (LDE.fitfun s) j _) eqn:Ef.
    + split; [| exact Hs]. apply within_upd; [exact Hx |].
      destruct Hs as (_ & El & Eu & _).
      now rewrite <- (feasible_at_bounds (LDE.fitfun s)).
    + clear Ef. revert s Hs.
      change (triple FR
                (bind (LDE.normXi fuel j) (fun nx => ret (upd x j nx)))
                (fun x' s => within x' /\ FR s) X FR).
      eapply triple_bind; [apply FR_normXi |].
      intro nx. apply triple_assume. intro Hnx.
      apply triple_ret'. intros s Hs. split; [| exact Hs].
      now apply within_upd.
Qed.

Lemma FR_modify (fuel : nat) (x : vec D) (X : state -> Prop) :
  within x ->
  triple FR (LDE.modify fuel x) (fun x' s => within x' /\ FR s) X FR.
Proof.
  intros Hx s Hs.
  pose proof (LDE_drawn_modify fuel x s) as Hd.
  pose proof (LDE_noexit_modify fuel x s) as Hn.
  pose proof (fun x' s' => LDE_modify_mutated fuel x x' s s') as Hm.
  destruct (LDE.modify fuel x s) as [x' s' | s' | s' | s'];
    cbn [final] in Hd; destruct Hd as [r ->];
    [| now destruct (Hn (LDE.set_rs r s)) | exact Hs | exact Hs].
  split; [| exact Hs].
  destruct (Hm x' (LDE.set_rs r s) eq_refl) as [Hl Hk].
  intros i Hi Hint. rewrite Hl in Hi.
  destruct (Hk i) as [Hkeep _]. rewrite Hkeep; [now apply Hx |].
  destruct Hs as (Hpar & _). unfold LDE.is_int in *. now rewrite Hpar.
Qed.

Lemma FR_next_improve (fuel : nat) (xb x xi : vec D) (X : state -> Prop) :
  triple FR (LDE.next_improve fuel xb x xi)
    (fun x' s => within x' /\ FR s) X FR.
Proof.
  unfold LDE.next_improve, LDE.getClosestFeasible.
  eapply triple_bind; [apply triple_gets |]. intro nextx.
  intros s [-> Hs]. apply FR_modify; [| exact Hs].
  now apply within_closest.
Qed.

Lemma FR_normX (X : state -> Prop) :
  triple FR LDE.normX (fun nx s => within nx /\ FR s) X FR.
Proof.
  unfold LDE.normX.
  eapply triple_bind;
    [apply triple_drawn;
     [apply LDE_drawn_rnd01 | apply LDE_noexit_rnd01 | apply FR_rs] |].
  intro u. eapply triple_bind; [apply triple_get |]. intro s1.
  apply (triple_pre _ FR); [| intros s Hs; exact (proj2 Hs)].
  assert (T : forall sd,
             triple FR
               (bind (LDE.normalVec (LDE.xmean (LDE.fitfun s1)) sd
                        (Z.to_nat (LDE.fit_dim (LDE.fitfun s1))))
                  LDE.getClosestFeasible)
               (fun nx s => within nx /\ FR s) X FR).
  { intro sd.
    eapply triple_bind;
      [apply triple_drawn;
       [apply LDE_drawn_normalVec | apply LDE_noexit_normalVec | apply FR_rs] |].
    intro nv. unfold LDE.getClosestFeasible. intros s Hs.
    split; [now apply within_closest | exact Hs]. }
  destruct (u <? d_0_5)%dbl; apply T.
Qed.

Lemma in_upd {A} (l : list A) (i : nat) (v c : A) :
  In c (upd l i v) -> c = v \/ In c l.
Proof.
  revert i. induction l as [| h t IH]; intros [| i] Hin; cbn in Hin.
  - destruct Hin.
  - destruct Hin.
  - destruct Hin as [<- | Hin]; [now left | right; now right].
  - destruct Hin as [<- | Hin]; [right; now left |].
    destruct (IH i Hin) as [-> | Ht]; [now left | right; now right].
Qed.

Lemma FR_eval (s : state) (x : vec D) :
  FR s -> within x ->
  FR (LDE.set_fitfun (LDE.count_call x (LDE.fitfun s)) s).
Proof.
  intros (Hpar & El & Eu & Hpop & Hcalls & Hbest) Hx.
  do 4 (split; [assumption |]). split; [| exact Hbest].
  intros c [<- | Hin]; [exact Hx | now apply Hcalls].
Qed.

Lemma FR_pop (s : state) (p : nat) (x : vec D) (y it : vec D) :
  FR s -> within x ->
  FR (LDE.set_pop (upd (LDE.popX s) p x) y it s).
Proof.
  intros (Hpar & El & Eu & Hpop & Hcalls & Hbest) Hx.
  do 3 (split; [assumption |]). split; [| split; assumption].
  intros c Hin. cbn [LDE.popX LDE.set_pop] in Hin.
  destruct (in_upd _ _ _ _ Hin) as [-> | Hc]; [exact Hx | now apply Hpop].
Qed.

Lemma FR_best (s : state) (x : vec D) (y : D) (f : LDE.Fitness) :
  FR s -> within x ->
  LDE.lower f = LDE.lower (LDE.fitfun s) ->
  LDE.upper f = LDE.upper (LDE.fitfun s) ->
  LDE.calls f = LDE.calls (LDE.fitfun s) ->
  FR (LDE.set_best y x (LDE.set_fitfun f s)).
Proof.
  intros (Hpar & El & Eu & Hpop & Hcalls & Hbest) Hx Fl Fu Fc.
  unfold LDE_feasible_run.
  cbn [LDE.par LDE.fitfun LDE.popX LDE.bestX LDE.set_best LDE.set_fitfun].
  rewrite Fl, Fu, Fc. repeat split; assumption.
Qed.

Lemma FR_eval_triple (x : vec D) (X : state -> Prop) :
  within x -> triple FR (LDE.eval x) (fun _ => FR) X FR.
Proof.
  intros Hx s Hs. rewrite LDE_eval_unfold. now apply FR_eval.
Qed.

Lemma FR_updateSigma (x : vec D) (X : state -> Prop) :
  triple FR (LDE.updateSigma x) (fun _ => FR) X FR.
Proof.
  unfold LDE.updateSigma. apply triple_modify.
  intros s (Hpar & El & Eu & Hpop & Hcalls & Hbest). repeat split; assumption.
Qed.

Lemma FR_set_best (s : state) (x : vec D) (y : D) :
  FR s -> within x -> FR (LDE.set_best y x s).
Proof.
  intros (Hpar & El & Eu & Hpop & Hcalls & Hbest) Hx. repeat split; assumption.
Qed.

Ltac FR_get :=
  eapply triple_bind;
  [ eapply triple_post; [apply triple_get | intros ? ? Hget; exact (proj2 Hget)]
  | intro ].

Lemma LDE_slot_feasible (fuel : nat) (CR F : D) (p : nat) :
  triple FR (LDE.slot fuel CR F p) (fun _ => FR) FR FR.
Proof.
  unfold LDE.slot.
  eapply triple_bind; [apply triple_get_keep |]. intro s1.
  apply triple_assume. intro Hs1.
  draw_step LDE_drawn_donor LDE_noexit_donor FR_rs.
  draw_step LDE_drawn_donor LDE_noexit_donor FR_rs.
  draw_step LDE_drawn_rndInt LDE_noexit_rndInt FR_rs.
  eapply triple_bind;
    [apply FR_crossover; apply within_col; exact (proj1 (proj2 (proj2 (proj2 Hs1))))
    |].
  intro x. apply triple_assume. intro Hx.
  eapply triple_bind; [apply FR_modify; exact Hx |].
  clear x Hx. intro x. apply triple_assume. intro Hx.
  intros s Hs.
  unfold bind at 1. rewrite LDE_eval_unfold. cbv zeta.
  apply (FR_eval s x) in Hs; [| exact Hx].
  generalize (if d_isnan (LDE.func (LDE.fitfun s) x)
                 || negb (d_isfinite (LDE.func (LDE.fitfun s) x))
              then d_1E99 else LDE.func (LDE.fitfun s) x).
  generalize dependent (LDE.set_fitfun (LDE.count_call x (LDE.fitfun s)) s).
  clear s. intros s Hs y. revert s Hs.
  match goal with |- forall s, FR s -> match ?m s with _ => _ end =>
    change (triple FR m (fun _ => FR) FR FR)
  end.
  FR_get.
  match goal with |- context [if ?c then _ else _] => destruct c end.
  - eapply triple_bind; [apply FR_next_improve |].
    intro x2. apply triple_assume. intro Hx2.
    eapply triple_bind; [apply FR_eval_triple; exact Hx2 |]. intro y2.
    assert (Hx' : within (if d_isfinite y2 && (y2 <? y)%dbl then x2 else x))
      by (destruct (d_isfinite y2 && (y2 <? y)%dbl); assumption).
    generalize dependent (if d_isfinite y2 && (y2 <? y)%dbl then x2 else x).
    generalize (if d_isfinite y2 && (y2 <? y)%dbl then y2 else y).
    intros y' x' Hx'.
    eapply (triple_bind FR _ (fun _ => FR));
      [apply triple_modify; intros s Hs; apply FR_pop; [exact Hs | exact Hx'] |].
    intros []. FR_get.
    match goal with |- context [if ?c then _ else _] => destruct c end;
      [| apply triple_ret'; auto].
    eapply (triple_bind FR _ (fun _ => FR)); [apply triple_modify; intros s Hs; exact Hs |].
    intros []. FR_get.
    match goal with |- context [if ?c then _ else _] => destruct c end;
      [| apply triple_ret'; auto].
    eapply triple_bind; [apply FR_updateSigma |]. intros [].
    eapply (triple_bind FR _ (fun _ => FR));
      [apply triple_modify; intros s Hs; apply FR_set_best; [exact Hs | exact Hx']
      |].
    intros [].
    match goal with |- context [if ?c then _ else _] => destruct c end;
      [| apply triple_ret'; auto].
    eapply (triple_bind FR _ (fun _ => FR)); [apply triple_modify; intros s Hs; exact Hs |].
    intros []. apply triple_exit. auto.
  - draw_step LDE_drawn_rnd01 LDE_noexit_rnd01 FR_rs.
    FR_get.
    match goal with |- context [if ?c then _ else _] => destruct c end;
      [| apply triple_ret'; auto].
    eapply triple_bind; [apply FR_normX |].
    intro nx. apply triple_assume. intro Hnx.
    apply triple_modify. intros s Hs. now apply FR_pop.
Qed.

Lemma LDE_doOptimize_feasible (fuel : nat) (s : state) :
  FR s -> FR (final (LDE.doOptimize fuel s)).
Proof.
  intro Hs. unfold LDE.doOptimize.
  assert (E : forall m : M state unit, final (call m s) = final (m s)).
  { intro m. unfold call. now destruct (m s). }
  rewrite E. clear E. revert s Hs.
  assert (T : triple FR
                (modify_state (LDE.set_iterations 1) ;; LDE.generations fuel fuel)%monad
                (fun _ => FR) FR FR);
    [| intros s Hs; now apply (triple_final FR FR)].
  eapply (triple_bind FR _ (fun _ => FR)); [apply triple_modify; intros s Hs; exact Hs |].
  intros []. generalize fuel at 2. intro n.
  induction n as [| k IH]; cbn [LDE.generations].
  - intros s Hs. exact Hs.
  - unfold LDE.getEvaluations.
    eapply triple_bind; [apply triple_gets |]. intro evals.
    apply (triple_pre _ FR); [| intros s Hs; exact (proj2 Hs)].
    FR_get.
    match goal with |- context [if ?c then _ else _] => destruct c end;
      [| apply triple_ret'; auto].
    eapply triple_bind.
    + unfold LDE.generation. FR_get.
      apply triple_for_each. intros p _. apply LDE_slot_feasible.
    + intros [].
      eapply (triple_bind FR _ (fun _ => FR)); [apply triple_modify; intros s Hs; exact Hs |].
      intros []. exact IH.
Qed.

End LDE_feasible.

(** LDE calls the objective within the bounds, NaN apart.  For bounds with
    lower <= upper, on IEEE doubles: when every coordinate that is not
    flagged as integer of every vector of the population, of the best vector
    and of the vectors evaluated so far is within the bounds or NaN, then,
    whatever way doOptimize ends, the same holds of every vector with which
    the objective has been called, of the population and of the best vector.
    (The clamp of getClosestFeasible, min and max with the bounds, lets a NaN
    through; a coordinate flagged as integer can leave the bounds when modify
    truncates it.) *)
Theorem LDE_objective_called_within_bounds
    (D : Type) (HD : Double D) (HL : IEEELaws D) (R : Type) (HR : Rng D R)
    (fuel : nat) (s : @LDE.LDeOptimizer D R) :
  (forall i, (vget (LDE.lower (LDE.fitfun s)) i
              <=? vget (LDE.upper (LDE.fitfun s)) i)%dbl = true) ->
  (forall c, In c (LDE.popX s) -> LDE_within s c) ->
  (forall x, In x (LDE.calls (LDE.fitfun s)) -> LDE_within s x) ->
  LDE_within s (LDE.bestX s) ->
  let s' := final (LDE.doOptimize fuel s) in
  (forall x, In x (LDE.calls (LDE.fitfun s')) ->
     forall i, (i < length x)%nat -> LDE.is_int s i = false ->
       LDE.feasible_at (LDE.fitfun s) i (vget x i) = true
       \/ d_isnan (vget x i) = true)
  /\ (forall c, In c (LDE.popX s') -> LDE_within s c)
  /\ LDE_within s (LDE.bestX s').
Proof.
  intros Hb Hpop Hcalls Hbest s'.
  assert (Hs : LDE_feasible_run s s) by (repeat split; assumption).
  destruct (LDE_doOptimize_feasible s Hb fuel s Hs)
    as (_ & _ & _ & Hpop' & Hcalls' & Hbest').
  split; [| split; assumption].
  intros x Hin. now apply Hcalls'.
Qed.

(** The theorem on binary64, for the run of [Inputs.run_state]: it returns
    after 21 evaluations, three of them of distinct vectors and all within
    the box [0, 10] x [0, 1]; the population then holds the clamped draws
    (0, 1) and (0, 0). *)
Lemma LDE_objective_called_within_bounds_witness :
  (forall i, (vget (LDE.lower (LDE.fitfun Inputs.run_state)) i
              <=? vget (LDE.upper (LDE.fitfun Inputs.run_state)) i)%dbl = true)
  /\ value_of (LDE.doOptimize 50 Inputs.run_state) = Some tt
  /\ length (LDE.calls
               (LDE.fitfun (final (LDE.doOptimize 50 Inputs.run_state))))
     = 21%nat
  /\ LDE.popX (final (LDE.doOptimize 50 Inputs.run_state))
     = [[5; 0.5]; [0; 1]; [3.75; 0.625]; [0; 0]]%float
  /\ (forall x,
        In x (LDE.calls
                (LDE.fitfun (final (LDE.doOptimize 50 Inputs.run_state)))) ->
        forall i, (i < length x)%nat -> LDE.is_int Inputs.run_state i = false ->
          LDE.feasible_at (LDE.fitfun Inputs.run_state) i (vget x i) = true
          \/ d_isnan (vget x i) = true).
Proof.
  assert (Hb : forall i,
             (vget (LDE.lower (LDE.fitfun Inputs.run_state)) i
              <=? vget (LDE.upper (LDE.fitfun Inputs.run_state)) i)%dbl = true).
  { intros [| [| [| i]]]; reflexivity. }
  assert (Hg : LDE_within Inputs.run_state [5; 0.5]%float).
  { intros [| [| i]] Hi _; [left; reflexivity | left; reflexivity |].
    cbn in Hi. lia. }
  assert (Hpop : forall c, In c (LDE.popX Inputs.run_state) ->
                           LDE_within Inputs.run_state c).
  { intros c [<- | [<- | [<- | [<- | []]]]]; exact Hg. }
  split; [exact Hb |].
  split; [vm_compute; reflexivity |].
  split; [vm_compute; reflexivity |].
  split; [vm_compute; reflexivity |].
  exact (proj1 (LDE_objective_called_within_bounds float _ _ lcg _ 50%nat
                  Inputs.run_state Hb Hpop
                  (fun x (Hin : In x []) => match Hin with end) Hg)).
Defined.

(** ** LDE: the wrapper and the constructors *)

Section LDE_wrapper.
Context {D : Type} `{Double D} `{!IEEELaws D}.

Lemma closest_feasible_length (f : LDE.Fitness) (X : vec D) :
  length (LDE.lower f) = length X -> length (LDE.upper f) = length X ->
  length (LDE.closest_feasible f X) = length X.
Proof.
  intros Hl Hu. unfold LDE.closest_feasible.
  destruct (0 <? length (LDE.lower f))%nat; [| reflexivity].
  rewrite !length_cwise. lia.
Qed.

(** The clamp leaves a vector as it is whose coordinates are feasible or
    NaN. *)
Lemma closest_feasible_keeps (f : LDE.Fitness) (X : vec D) :
  (forall i, (vget (LDE.lower f) i <=? vget (LDE.upper f) i)%dbl = true) ->
  length (LDE.lower f) = length X -> length (LDE.upper f) = length X ->
  (forall i, (i < length X)%nat ->
     LDE.feasible_at f i (vget X i) = true \/ d_isnan (vget X i) = true) ->
  LDE.closest_feasible f X = X.
Proof.
  intros Hb Hl Hu Hf.
  assert (Hlen := closest_feasible_length f X Hl Hu).
  apply (nth_ext _ _ d_0 d_0); [exact Hlen |].
  intros i Hi.
  destruct (closest_feasible_ieee f X Hb i Hi) as (_ & Hn & Hk).
  rewrite Hlen in Hi. destruct (Hf i Hi) as [Hfi | Hni].
  - now apply Hk.
  - now apply Hn.
Qed.

End LDE_wrapper.

(** getClosestFeasible of LDE.  Without bounds it returns its argument.
    With bounds lower <= upper of the size of the argument, on IEEE doubles,
    it returns a vector of the same size in which every coordinate that is
    not NaN is feasible and a NaN is left as it is; it returns as it is a
    vector that is feasible already; and clamping twice is clamping once. *)
Theorem LDE_getClosestFeasible_spec
    (D : Type) (HD : Double D) (HL : IEEELaws D) (f : @LDE.Fitness D)
    (X : vec D) :
  (LDE.lower f = [] -> LDE.closest_feasible f X = X)
  /\ ((forall i, (vget (LDE.lower f) i <=? vget (LDE.upper f) i)%dbl = true) ->
      length (LDE.lower f) = length X -> length (LDE.upper f) = length X ->
      length (LDE.closest_feasible f X) = length X
      /\ (forall i, (i < length X)%nat ->
            (d_isnan (vget X i) = false ->
             LDE.feasible_at f i (vget (LDE.closest_feasible f X) i) = true)
            /\ (d_isnan (vget X i) = true ->
                vget (LDE.closest_feasible f X) i = vget X i))
      /\ ((forall i, (i < length X)%nat ->
             LDE.feasible_at f i (vget X i) = true) ->
          LDE.closest_feasible f X = X)
      /\ LDE.closest_feasible f (LDE.closest_feasible f X)
         = LDE.closest_feasible f X).
Proof.
  split.
  - intro El. unfold LDE.closest_feasible. now rewrite El.
  - intros Hb Hl Hu.
    assert (Hlen := closest_feasible_length f X Hl Hu).
    assert (Hc : forall i, (i < length X)%nat ->
              (d_isnan (vget X i) = false ->
               LDE.feasible_at f i (vget (LDE.closest_feasible f X) i) = true)
              /\ (d_isnan (vget X i) = true ->
                  vget (LDE.closest_feasible f X) i = vget X i)).
    { intros i Hi.
      destruct (closest_feasible_ieee f X Hb i) as (H1 & H2 & _); [lia |].
      now split. }
    split; [exact Hlen |]. split; [exact Hc |]. split.
    + intro Hf. apply closest_feasible_keeps; try assumption.
      intros i Hi. left. now apply Hf.
    + apply closest_feasible_keeps; try lia; [exact Hb |].
      intros i Hi. rewrite Hlen in Hi. destruct (Hc i Hi) as [H1 H2].
      destruct (d_isnan (vget X i)) eqn:E.
      * right. rewrite H2 by reflexivity. exact E.
      * left. now apply H1.
Qed.

(** The theorem on binary64: in the box [0, 10] x [0, 1] the vector
    (17, -0.5) is clamped to (10, 0), which clamping leaves as it is, and the
    vector (NaN, 0.25) is left as it is. *)
Lemma LDE_getClosestFeasible_spec_witness :
  (forall i, (vget (LDE.lower Inputs.run_fitness) i
              <=? vget (LDE.upper Inputs.run_fitness) i)%dbl = true)
  /\ LDE.closest_feasible Inputs.run_fitness [17; -0.5]%float = [10; 0]%float
  /\ LDE.closest_feasible Inputs.run_fitness [nan; 0.25]%float
     = [nan; 0.25]%float
  /\ LDE.closest_feasible Inputs.run_fitness
       (LDE.closest_feasible Inputs.run_fitness [17; -0.5]%float)
     = LDE.closest_feasible Inputs.run_fitness [17; -0.5]%float.
Proof.
  assert (Hb : forall i, (vget (LDE.lower Inputs.run_fitness) i
                          <=? vget (LDE.upper Inputs.run_fitness) i)%dbl = true).
  { intros [| [| [| i]]]; reflexivity. }
  split; [exact Hb |]. split; [reflexivity |]. split; [reflexivity |].
  exact (proj2 (proj2 (proj2
           (proj2 (LDE_getClosestFeasible_spec float _ _ Inputs.run_fitness
                     [17; -0.5]%float)
              Hb eq_refl eq_refl)))).
Defined.

(** updateSigma makes its argument the new mean and sets sigma, coordinate
    by coordinate, to half the distance between the old mean and the
    argument, capped by maxSigma; nothing else changes.  On IEEE doubles, a
    coordinate of sigma does not exceed that of maxSigma when neither the
    half distance nor maxSigma is NaN there. *)
Theorem LDE_updateSigma_spec
    (D : Type) (HD : Double D) (HL : IEEELaws D) (R : Type) (HR : Rng D R)
    (X : vec D) (s : @LDE.LDeOptimizer D R) :
  let f := LDE.fitfun s in
  let delta :=
    map (fun d => d_abs d * d_0_5)%dbl (cwise d_sub (LDE.xmean f) X) in
  let sg := cwise d_min delta (LDE.maxSigma f) in
  LDE.updateSigma X s
  = Ret tt (LDE.set_fitfun (LDE.set_xmean X (LDE.set_sigma sg f)) s)
  /\ length sg
     = Nat.min (Nat.min (length (LDE.xmean f)) (length X))
         (length (LDE.maxSigma f))
  /\ forall i, (i < length sg)%nat ->
       let half := (d_abs (vget (LDE.xmean f) i - vget X i) * d_0_5)%dbl in
       (vget sg i = half \/ vget sg i = vget (LDE.maxSigma f) i)
       /\ (d_isnan half = false -> d_isnan (vget (LDE.maxSigma f) i) = false ->
           (vget sg i <=? vget (LDE.maxSigma f) i)%dbl = true
           /\ (vget sg i <=? half)%dbl = true).
Proof.
  intros f delta sg. split; [reflexivity |].
  assert (Hld : length delta = Nat.min (length (LDE.xmean f)) (length X))
    by (unfold delta; now rewrite length_map, length_cwise).
  split; [unfold sg; now rewrite length_cwise, Hld |].
  intros i Hi half. unfold sg in *. rewrite vget_cwise by exact Hi.
  rewrite length_cwise in Hi.
  assert (Hd : vget delta i = half).
  { unfold half, delta, vget at 1.
    rewrite (nth_indep _ d_0 ((fun d => d_abs d * d_0_5)%dbl d_0))
      by (rewrite length_map, length_cwise; lia).
    rewrite (map_nth (fun d => (d_abs d * d_0_5)%dbl)).
    change (nth i (cwise d_sub (LDE.xmean f) X) d_0)
      with (vget (cwise d_sub (LDE.xmean f) X) i).
    rewrite vget_cwise by (rewrite length_cwise; lia). reflexivity. }
  rewrite Hd. clearbody half. unfold d_min.
  destruct (_ <? _)%dbl eqn:E.
  - split; [now right |]. intros Hh Hm.
    split; [now apply ieee_leb_refl | now apply ieee_ltb_true].
  - split; [now left |]. intros Hh Hm.
    split; [now apply ieee_ltb_false | now apply ieee_leb_refl].
Qed.

(** The theorem on binary64: from the mean (5, 0.5) and for the argument
    (-3, 0.75) the half distances are 4 and 0.125, of which maxSigma =
    (2.5, 0.25) caps the first. *)
Lemma LDE_updateSigma_spec_witness :
  LDE.sigma (LDE.fitfun (final (LDE.updateSigma [-3; 0.75]%float
                                  Inputs.run_state)))
  = [2.5; 0.125]%float
  /\ LDE.xmean (LDE.fitfun (final (LDE.updateSigma [-3; 0.75]%float
                                     Inputs.run_state)))
     = [-3; 0.75]%float
  /\ LDE.maxSigma (LDE.fitfun Inputs.run_state) = [2.5; 0.25]%float
  /\ (2.5 <=? 2.5)%float = true /\ (2.5 <=? 4)%float = true.
Proof.
  split; [reflexivity |]. split; [reflexivity |]. split; [reflexivity |].
  exact (proj2 (proj2 (proj2 (LDE_updateSigma_spec float _ _ lcg _
                                [-3; 0.75]%float Inputs.run_state))
                  0%nat (Nat.lt_0_succ 1)) eq_refl eq_refl).
Defined.


(** A sigma of one element stands for all coordinates: Fitness::Fitness
    builds the same wrapper from the one-element vector (v) as from the
    vector of [dim] copies of v.  In both cases sigma starts as sigma0, whose
    coordinates are 0.5 * (scale[i] * v). *)
Theorem LDE_Fitness_new_broadcasts_sigma
    (D : Type) (HD : Double D) (func_ : vec D -> D) (dim_ : Z)
    (lower_limit upper_limit guess_ : vec D) (v : D) :
  let f := LDE.Fitness_new func_ dim_ lower_limit upper_limit guess_ [v] in
  f = LDE.Fitness_new func_ dim_ lower_limit upper_limit guess_
        (constant (Z.to_nat dim_) v)
  /\ LDE.sigma f = LDE.sigma0 f
  /\ LDE.xmean f = guess_
  /\ forall i, (i < length (LDE.scale f))%nat -> (i < Z.to_nat dim_)%nat ->
       vget (LDE.sigma0 f) i = (d_0_5 * (vget (LDE.scale f) i * v))%dbl.
Proof.
  intro f. split; [| split; [reflexivity | split; [reflexivity |]]].
  - unfold f, LDE.Fitness_new. cbn [length Nat.eqb]. cbv zeta.
    replace (length (constant (Z.to_nat dim_) v)) with (Z.to_nat dim_)
      by (unfold constant; now rewrite repeat_length).
    destruct (Nat.eqb_spec (Z.to_nat dim_) 1) as [E | _]; [| reflexivity].
    unfold vget, constant. rewrite E. reflexivity.
  - intros i Hs Hn. subst f. unfold LDE.Fitness_new in *.
    cbn [length Nat.eqb LDE.sigma0 LDE.scale] in *.
    generalize dependent (if (0 <? length lower_limit)%nat
                          then cwise d_sub upper_limit lower_limit
                          else constant (Z.to_nat dim_) d_1).
    intros sc Hs. unfold vget at 1.
    match goal with |- nth i (map ?g ?l) _ = _ =>
      rewrite (nth_indep _ d_0 (g d_0))
        by (rewrite length_map, length_cwise;
            unfold constant; rewrite repeat_length; lia);
      rewrite (map_nth g);
      change (nth i l d_0) with (vget l i)
    end.
    rewrite vget_cwise
      by (rewrite length_cwise; unfold constant; rewrite repeat_length; lia).
    f_equal. f_equal. unfold vget, constant. cbn [nth].
    now apply nth_repeat_lt.
Qed.

(** The constructor of LDE replaces every parameter that is not positive
    by its default, on IEEE doubles a NaN included: the optimizer it builds
    has a positive budget and positive keep, F0, CR0, min_mutate and
    max_mutate, and its population size is positive when popsize or dim is.
    The population holds popsize copies of the guess with the fitness
    DBL_MAX; nothing is evaluated and the stop flag is 0. *)
Theorem LDeOptimizer_new_defaults
    (R : Type) (runid_ : Z) (f : @LDE.Fitness float) (dim_ : Z) (r : R)
    (popsize_ maxEvaluations_ : Z)
    (keep_ stopfitness_ F_ CR_ mn mx : float) (ints : option (list bool)) :
  let s := LDE.LDeOptimizer_new runid_ f dim_ r popsize_ maxEvaluations_ keep_
             stopfitness_ F_ CR_ mn mx ints in
  let p := LDE.par s in
  0 < LDE.maxEvaluations p
  /\ (0 < popsize_ \/ 0 < dim_ -> 0 < LDE.popsize p)
  /\ PrimFloat.ltb 0 (LDE.keep p) = true
  /\ PrimFloat.ltb 0 (LDE.F0 p) = true
  /\ PrimFloat.ltb 0 (LDE.CR0 p) = true
  /\ PrimFloat.ltb 0 (LDE.min_mutate p) = true
  /\ PrimFloat.ltb 0 (LDE.max_mutate p) = true
  /\ (PrimFloat.is_nan keep_ = true -> LDE.keep p = 30%float)
  /\ LDE.popX s = repeat (LDE.guess f) (Z.to_nat (LDE.popsize p))
  /\ LDE.popY s = repeat DBL_MAX (Z.to_nat (LDE.popsize p))
  /\ LDE.bestY s = DBL_MAX
  /\ LDE.fitfun s = f
  /\ LDE.stop s = 0.
Proof.
  assert (Hpos : forall x dflt : float,
             PrimFloat.ltb 0 dflt = true ->
             PrimFloat.ltb 0 (if (d_0 <? x)%dbl then x else dflt) = true).
  { intros x dflt Hd.
    change (d_0 <? x)%dbl with (PrimFloat.ltb 0 x).
    destruct (PrimFloat.ltb 0 x) eqn:E; assumption. }
  intros s p. subst p s. unfold LDE.LDeOptimizer_new, LDE.init.
  cbn [LDE.par LDE.maxEvaluations LDE.popsize LDE.keep LDE.F0 LDE.CR0
       LDE.min_mutate LDE.max_mutate LDE.popX LDE.popY LDE.bestY LDE.fitfun
       LDE.stop].
  split; [destruct (Z.ltb_spec 0 maxEvaluations_); lia |].
  split; [intros [Hp | Hd]; destruct (Z.ltb_spec 0 popsize_); lia |].
  do 5 (split; [apply Hpos; vm_compute; reflexivity |]).
  split; [| repeat split].
  intro Hnan. change (d_0 <? keep_)%dbl with (PrimFloat.ltb 0 keep_).
  assert (E : PrimFloat.ltb 0 keep_ = false).
  { rewrite ltb_spec. unfold SFltb.
    unfold PrimFloat.is_nan in Hnan. rewrite eqb_spec in Hnan.
    unfold SFeqb in Hnan.
    destruct (Prim2SF keep_) as [sg | sg | | sg m e];
      cbn in Hnan; try discriminate.
    - destruct sg; discriminate.
    - reflexivity.
    - rewrite Z.compare_refl, Pos.compare_cont_refl in Hnan.
      destruct sg; discriminate. }
  rewrite E. vm_compute. reflexivity.
Qed.

(** ** LDE: the C entry point *)

Lemma fold_upd_length {A} (g : nat -> A) (l : list nat) (res : list A) :
  length (fold_left (fun res i => upd res i (g i)) l res) = length res.
Proof.
  revert res. induction l as [| i t IH]; intro res; cbn [fold_left];
    [reflexivity |].
  now rewrite IH, length_upd.
Qed.

Lemma fold_upd_nth_other {A} (g : nat -> A) (l : list nat) (res : list A)
    (k : nat) (d : A) :
  ~ In k l ->
  nth k (fold_left (fun res i => upd res i (g i)) l res) d = nth k res d.
Proof.
  revert res. induction l as [| i t IH]; intros res Hk; cbn [fold_left];
    [reflexivity |].
  rewrite IH by (intro Hin; apply Hk; now right).
  apply nth_upd_other. intros ->. apply Hk. now left.
Qed.

Lemma fold_upd_nth_in {A} (g : nat -> A) (l : list nat) (res : list A)
    (k : nat) (d : A) :
  In k l -> (k < length res)%nat ->
  nth k (fold_left (fun res i => upd res i (g i)) l res) d = g k.
Proof.
  revert res. induction l as [| i t IH]; intros res Hin Hk; cbn [fold_left];
    [destruct Hin |].
  destruct (in_dec Nat.eq_dec k t) as [Ht | Ht].
  - apply IH; [exact Ht | now rewrite length_upd].
  - destruct Hin as [-> | Hin]; [| contradiction].
    rewrite fold_upd_nth_other by exact Ht.
    rewrite nth_upd, Nat.eqb_refl.
    destruct (Nat.ltb_spec k (length res)); [reflexivity | lia].
Qed.

(** When optimizeLDE_C returns, this is what it leaves in [res], an array of
    at least dim + 4 doubles: the coordinates of the best vector in
    res[0 .. dim), the best value in res[dim], the evaluations, the
    iterations and the stop flag in the three entries that follow, and the
    rest of the array as it was.  The best value is DBL_MAX or the value that
    eval returned for the best vector.  The stop flag is 0 when the
    evaluations have reached the budget (maxEvals, or 50000 when maxEvals is
    not positive), and 1 when the best value is below a finite stopfitness.
    That the call returns is a hypothesis: the loops of doOptimize that draw
    the donors and the feasible samples are not bounded. *)
Theorem optimizeLDE_C_result
    (D : Type) (HD : Double D) (R : Type) (HR : Rng D R) (fuel : nat)
    (runid_ : Z) (func_ : vec D -> D) (dim_ : Z) (init_ sigma_ : list D)
    (rs_ : R) (lower_ upper_ : list D) (maxEvals : Z) (keep_ stopfitness_ : D)
    (popsize_ : Z) (F_ CR_ mn mx : D) (ints : list bool) (res res' : list D) :
  (Z.to_nat dim_ + 4 <= length res)%nat ->
  LDE.optimizeLDE_C fuel runid_ func_ dim_ init_ sigma_ rs_ lower_ upper_
    maxEvals keep_ stopfitness_ popsize_ F_ CR_ mn mx ints res = Some res' ->
  let n := Z.to_nat dim_ in
  length res' = length res
  /\ (forall k, (n + 4 <= k)%nat -> nth k res' d_0 = nth k res d_0)
  /\ exists (bestX : vec D) (evals its stop : Z),
      (forall i, (i < n)%nat -> nth i res' d_0 = vget bestX i)
      /\ (nth n res' d_0 = DBL_MAX
          \/ nth n res' d_0
             = (let r := func_ bestX in
                if d_isnan r || negb (d_isfinite r) then d_1E99 else r))
      /\ nth (n + 1) res' d_0 = d_of_int evals
      /\ nth (n + 2) res' d_0 = d_of_int its
      /\ nth (n + 3) res' d_0 = d_of_int stop
      /\ ((stop = 0
           /\ (if 0 <? maxEvals then maxEvals else 50000) <= evals)
          \/ (stop = 1
              /\ d_isfinite stopfitness_ = true
              /\ (nth n res' d_0 <? stopfitness_)%dbl = true)).
Proof.
  intros Hlen E n. unfold LDE.optimizeLDE_C in E. cbv zeta in E.
  match type of E with
  | match LDE.doOptimize fuel ?o with _ => _ end = _ => set (opt := o) in *
  end.
  pose proof (LDE_doOptimize_outcome fuel opt) as Ho.
  destruct (LDE.doOptimize fuel opt) as [[] s | s | s | s]; try discriminate.
  injection E as E'. fold n in E' |- *.
  assert (Hl : length res' = length res)
    by (rewrite <- E', !length_upd; apply fold_upd_length).
  assert (Hnth : forall k v, (n <= k)%nat ->
            nth k (fold_left (fun res i => upd res i (v i)) (seq 0 n) res) d_0
            = nth k res d_0).
  { intros k v Hk. apply fold_upd_nth_other. rewrite in_seq. lia. }
  assert (Hat : forall j, (j < 4)%nat ->
            nth (n + j) res' d_0
            = nth j [LDE.getBestValue s;
                     d_of_int (to_int32 (LDE.evaluationCounter (LDE.fitfun s)));
                     LDE.getIterations s; LDE.getStop s] d_0).
  { intros j Hj. rewrite <- E'. rewrite !nth_upd, !length_upd, fold_upd_length.
    replace (n + j <? length res)%nat with true
      by (symmetry; apply Nat.ltb_lt; lia).
    replace (n + 3 <? length res)%nat with true
      by (symmetry; apply Nat.ltb_lt; lia).
    replace (n + 2 <? length res)%nat with true
      by (symmetry; apply Nat.ltb_lt; lia).
    replace (n + 1 <? length res)%nat with true
      by (symmetry; apply Nat.ltb_lt; lia).
    replace (n <? length res)%nat with true
      by (symmetry; apply Nat.ltb_lt; lia).
    destruct j as [| [| [| [| j]]]]; try lia;
      repeat match goal with
        | |- context [(?a =? ?b)%nat] =>
            destruct (Nat.eqb_spec a b); try lia
        end; reflexivity. }
  split; [exact Hl |]. split.
  - intros k Hk. rewrite <- E'.
    rewrite !nth_upd_other by lia. apply Hnth. lia.
  - exists (LDE.bestX s),
      (to_int32 (LDE.evaluationCounter (LDE.fitfun s))),
      (LDE.iterations s), (LDE.stop s).
    assert (H0 := Hat 0%nat ltac:(lia)). rewrite Nat.add_0_r in H0.
    assert (H1 := Hat 1%nat ltac:(lia)). assert (H2 := Hat 2%nat ltac:(lia)).
    assert (H3 := Hat 3%nat ltac:(lia)). cbn [nth] in H0, H1, H2, H3.
    rewrite H0, H1, H2, H3. clear Hat.
    split.
    { intros i Hi. rewrite <- E'. rewrite !nth_upd_other by lia.
      apply fold_upd_nth_in; [rewrite in_seq; lia | lia]. }
    assert (Hprog : LDE_progress opt s)
      by (destruct Ho as [[[Hp _] _] | [Hp _]]; exact Hp).
    destruct Hprog as (Hpar & _ & _ & _ & _ & _ & _ & _ & _ & new & _ & _ & Hb).
    split.
    { unfold LDE.getBestValue.
      destruct Hb as [[_ Hy] | [_ Hv]]; [left | right].
      - rewrite Hy. reflexivity.
      - rewrite Hv. reflexivity. }
    do 3 (split; [reflexivity |]).
    destruct Ho as [[[_ Hstop] Hmax] | (_ & Hstop & Hfin & Hlt)].
    + left. split; [rewrite Hstop; reflexivity |].
      rewrite Hpar in Hmax. exact Hmax.
    + right. rewrite Hpar in Hfin, Hlt. repeat split; assumption.
Qed.

(** The theorem on binary64, at the run of [Inputs.run_state] with an array
    of seven doubles: the call returns with the best vector (3.75, 0.625) of
    value 4.375 after 21 evaluations and 5 iterations, the stop flag 0, and
    the last entry as it was. *)
Lemma optimizeLDE_C_result_witness :
  (Z.to_nat 2 + 4 <= length [9; 9; 9; 9; 9; 9; 9]%float)%nat
  /\ LDE.optimizeLDE_C 50 0 (fun x => (vget x 0 + vget x 1)%float) 2
       [5; 0.5]%float [1; 1]%float (mkLcg 7) [0; 0]%float [10; 1]%float 20
       0%float PrimFloat.infinity 4 0%float 0%float 0%float 0%float
       [false; false] [9; 9; 9; 9; 9; 9; 9]%float
     = Some [3.75; 0.625; 4.375; 21; 5; 0; 9]%float
  /\ length [3.75; 0.625; 4.375; 21; 5; 0; 9]%float
     = length [9; 9; 9; 9; 9; 9; 9]%float.
Proof.
  assert (Hl : (Z.to_nat 2 + 4 <= length [9; 9; 9; 9; 9; 9; 9]%float)%nat)
    by (vm_compute; lia).
  assert (E : LDE.optimizeLDE_C 50 0 (fun x => (vget x 0 + vget x 1)%float) 2
                [5; 0.5]%float [1; 1]%float (mkLcg 7) [0; 0]%float
                [10; 1]%float 20 0%float PrimFloat.infinity 4
                0%float 0%float 0%float 0%float
                [false; false] [9; 9; 9; 9; 9; 9; 9]%float
              = Some [3.75; 0.625; 4.375; 21; 5; 0; 9]%float)
    by (vm_compute; reflexivity).
  split; [exact Hl |]. split; [exact E |].
  exact (proj1 (optimizeLDE_C_result float _ lcg _ _ _ _ _ _ _ _ _ _
                  _ _ _ _ _ _ _ _ _ _ _ Hl E)).
Defined.

(** ** LDE: the slot of the best individual *)

Section LDE_best_slot.
Context {D : Type} `{Double D} `{!IEEELaws D} {R : Type} `{Rng D R}.

Local Abbreviation state := (@LDE.LDeOptimizer D R).

Variable s0 : state.
Variable p : nat.

Local Abbreviation Keep :=
  (fun s : state =>
     LDE.bestI s = Z.of_nat p /\ (p < length (LDE.popY s))%nat
     /\ LDE.bestY s = LDE.bestY s0 /\ LDE.bestX s = LDE.bestX s0
     /\ LDE.stop s = LDE.stop s0
     /\ LDE.xmean (LDE.fitfun s) = LDE.xmean (LDE.fitfun s0)
     /\ LDE.sigma (LDE.fitfun s) = LDE.sigma (LDE.fitfun s0)).

Lemma Keep_rs (s : state) (r : R) : Keep s -> Keep (LDE.set_rs r s).
Proof. intro Hs. exact Hs. Qed.

Ltac Keep_get :=
  eapply triple_bind;
  [ eapply triple_post; [apply triple_get | intros ? ? Hget; exact (proj2 Hget)]
  | intro ].

Lemma LDE_best_slot_keeps (fuel : nat) (CR F : D) :
  triple Keep (LDE.slot fuel CR F p) (fun _ => Keep) Keep Keep.
Proof.
  unfold LDE.slot. Keep_get.
  draw_step LDE_drawn_donor LDE_noexit_donor Keep_rs.
  draw_step LDE_drawn_donor LDE_noexit_donor Keep_rs.
  draw_step LDE_drawn_rndInt LDE_noexit_rndInt Keep_rs.
  draw_step LDE_drawn_crossover LDE_noexit_crossover Keep_rs.
  draw_step LDE_drawn_modify LDE_noexit_modify Keep_rs.
  eapply (triple_bind Keep _ (fun _ => Keep));
    [intros s Hs; rewrite LDE_eval_unfold; exact Hs |].
  intro y. Keep_get.
  match goal with |- context [if ?c then _ else _] => destruct c end.
  - draw_step LDE_drawn_next_improve LDE_noexit_next_improve Keep_rs.
    eapply (triple_bind Keep _ (fun _ => Keep));
      [intros s Hs; rewrite LDE_eval_unfold; exact Hs |].
    intro y2.
    generalize (if d_isfinite y2 && (y2 <? y)%dbl then a4 else a3).
    generalize (if d_isfinite y2 && (y2 <? y)%dbl then y2 else y).
    intros y' x'. intros s Hs.
    unfold bind at 1, modify_state at 1. unfold bind at 1, get.
    cbn [LDE.popY LDE.bestI LDE.set_pop].
    destruct Hs as (HbI & Hp & Hrest).
    rewrite HbI, Nat2Z.id. unfold vget. rewrite nth_upd, Nat.eqb_refl.
    replace (p <? length (LDE.popY s))%nat with true
      by (symmetry; now apply Nat.ltb_lt).
    cbn [andb]. rewrite ieee_ltb_irrefl. unfold ret.
    split; [exact HbI |]. split; [| exact Hrest].
    cbn [LDE.popY LDE.set_pop]. now rewrite length_upd.
  - draw_step LDE_drawn_rnd01 LDE_noexit_rnd01 Keep_rs.
    Keep_get.
    match goal with |- context [if ?c then _ else _] => destruct c end;
      [| apply triple_ret'; auto].
    draw_step LDE_drawn_normX LDE_noexit_normX Keep_rs.
    apply triple_modify. intros s (HbI & Hp & Hrest).
    split; [exact HbI |]. split; [| exact Hrest].
    cbn [LDE.popY LDE.set_pop]. now rewrite length_upd.
Qed.

End LDE_best_slot.

(** The slot of the best individual never records a new best.  In the loop
    over the slots of doOptimize the trial's fitness is stored in popY[p]
    before it is compared with popY[bestI]; when p is bestI the comparison is
    of the value with itself.  So, on IEEE doubles, the round of slot
    p = bestI leaves bestY, bestX, bestI, the stop flag and the mean and
    sigma of the wrapper as they were, whatever the objective returns. *)
Theorem LDE_best_slot_records_no_best
    (D : Type) (HD : Double D) (HL : IEEELaws D) (R : Type) (HR : Rng D R)
    (fuel : nat) (CR F : D) (p : nat) (s : @LDE.LDeOptimizer D R) :
  LDE.bestI s = Z.of_nat p -> (p < length (LDE.popY s))%nat ->
  let s' := final (LDE.slot fuel CR F p s) in
  LDE.bestY s' = LDE.bestY s /\ LDE.bestX s' = LDE.bestX s
  /\ LDE.bestI s' = LDE.bestI s /\ LDE.stop s' = LDE.stop s
  /\ LDE.xmean (LDE.fitfun s') = LDE.xmean (LDE.fitfun s)
  /\ LDE.sigma (LDE.fitfun s') = LDE.sigma (LDE.fitfun s).
Proof.
  intros HbI Hp s'.
  pose proof (LDE_best_slot_keeps s p fuel CR F s) as Hk.
  cbv beta in Hk.
  assert (Hs' : LDE.bestI s' = Z.of_nat p /\ (p < length (LDE.popY s'))%nat
                /\ LDE.bestY s' = LDE.bestY s /\ LDE.bestX s' = LDE.bestX s
                /\ LDE.stop s' = LDE.stop s
                /\ LDE.xmean (LDE.fitfun s') = LDE.xmean (LDE.fitfun s)
                /\ LDE.sigma (LDE.fitfun s') = LDE.sigma (LDE.fitfun s)).
  { subst s'. destruct (LDE.slot fuel CR F p s) as [[] s1 | s1 | s1 | s1];
      cbn [final]; apply Hk; repeat split; assumption. }
  destruct Hs' as (H1 & _ & H2 & H3 & H4 & H5 & H6).
  repeat split; try assumption. congruence.
Qed.

(** The theorem on binary64, at slot 0 of [Inputs.run_state], which holds the
    best individual: the trial (5, 0.5) is evaluated to 5.5, which is stored
    in popY[0], and the best value stays DBL_MAX. *)
Lemma LDE_best_slot_records_no_best_witness :
  LDE.bestI Inputs.run_state = Z.of_nat 0
  /\ (0 < length (LDE.popY Inputs.run_state))%nat
  /\ value_of (LDE.slot 50 0.5%float 0.5%float 0 Inputs.run_state) = Some tt
  /\ LDE.popY (final (LDE.slot 50 0.5%float 0.5%float 0 Inputs.run_state))
     = [5.5%float; DBL_MAX; DBL_MAX; DBL_MAX]
  /\ LDE.bestY (final (LDE.slot 50 0.5%float 0.5%float 0 Inputs.run_state))
     = LDE.bestY Inputs.run_state
  /\ LDE.bestY Inputs.run_state = DBL_MAX.
Proof.
  assert (Hp : (0 < length (LDE.popY Inputs.run_state))%nat)
    by (vm_compute; lia).
  split; [reflexivity |]. split; [exact Hp |].
  split; [vm_compute; reflexivity |].
  split; [vm_compute; reflexivity |].
  split; [| reflexivity].
  exact (proj1 (LDE_best_slot_records_no_best float _ _ lcg _ 50%nat
                  0.5%float 0.5%float 0%nat Inputs.run_state eq_refl Hp)).
Defined.

(** ** MODE: the ranking kernel *)

Section Pareto_levels.
Context {D : Type} `{Double D}.

Lemma levels_loop_top (y : mat D) (i : nat) :
  (i < length y)%nat ->
  (forall j, (j < length y)%nat -> j <> i ->
     Ranking.is_dominated y i j = false) ->
  forall (rounds index : nat) (mask : list bool) (dom : list Z),
    nth i mask false = true ->
    (forall k, (k < length y)%nat -> nth k dom 0 <= nth i dom 0) ->
    let r := Ranking.levels_loop rounds y index mask dom in
    (forall k, (k < length y)%nat -> nth k r 0 <= nth i r 0)
    /\ nth i dom 0 <= nth i r 0
    /\ ((0 < rounds)%nat -> (index < length y)%nat ->
        nth i dom 0 + 1 <= nth i r 0).
Proof.
  intros Hi Hfree. induction rounds as [| n IH];
    intros index mask dom Hm Hdom; cbn [Ranking.levels_loop].
  - split; [exact Hdom | split; [lia | intro; lia]].
  - destruct (Nat.ltb_spec index (length y)) as [Hlt | Hge];
      [| split; [exact Hdom | split; [lia | intros _ ?; lia]]].
    match goal with |- context [Ranking.levels_loop n y _ ?mk _] =>
      set (mask' := mk)
    end.
    match goal with |- context [Ranking.levels_loop n y ?ix mask' ?dm] =>
      set (dom' := dm); set (index' := ix)
    end.
    assert (Hm' : nth i mask' false = true).
    { unfold mask'. rewrite nth_map_seq by exact Hi. rewrite Hm.
      destruct (Nat.eqb_spec i index) as [-> | Hn]; cbn [negb andb];
        [reflexivity |].
      now rewrite Hfree by auto. }
    assert (Hdi : nth i dom' 0 = nth i dom 0 + 1).
    { unfold dom'. rewrite nth_map_seq by exact Hi. fold mask'.
      now rewrite Hm'. }
    assert (Hdom' : forall k, (k < length y)%nat ->
                      nth k dom' 0 <= nth i dom' 0).
    { intros k Hk. rewrite Hdi. unfold dom'.
      rewrite nth_map_seq by exact Hk. specialize (Hdom k Hk).
      destruct (nth k _ false); lia. }
    destruct (IH index' mask' dom' Hm' Hdom') as (Htop & Hge & _).
    cbv zeta in *. split; [exact Htop |]. split; [lia | intros _ _; lia].
Qed.

End Pareto_levels.

(** A column that no other column dominates is on top of the levels: when,
    for every other column j, is_dominated(y, i, j) is false (some objective
    of column i is strictly smaller than that of column j), pareto_levels
    gives column i a score of at least 1 that no column's score exceeds. *)
Theorem pareto_levels_undominated_on_top
    (D : Type) (HD : Double D) (y : mat D) (i : nat) :
  (i < length y)%nat ->
  (forall j, (j < length y)%nat -> j <> i ->
     Ranking.is_dominated y i j = false) ->
  1 <= nth i (Ranking.pareto_levels y) 0
  /\ forall k, (k < length y)%nat ->
       nth k (Ranking.pareto_levels y) 0 <= nth i (Ranking.pareto_levels y) 0.
Proof.
  intros Hi Hfree. unfold Ranking.pareto_levels.
  destruct (levels_loop_top y i Hi Hfree (length y) 0
              (repeat true (length y)) (repeat 0 (length y)))
    as (Htop & _ & Hone).
  - now apply nth_repeat_lt.
  - intros k Hk. rewrite !nth_repeat_lt by assumption. lia.
  - cbv zeta in *. split; [| exact Htop].
    rewrite nth_repeat_lt in Hone by exact Hi. apply Hone; lia.
Qed.

(** The theorem at two columns of which the first dominates the second: the
    first column has the score 1, the second the score 0. *)
Lemma pareto_levels_undominated_on_top_witness :
  (0 < length Inputs.two_columns)%nat
  /\ (forall j, (j < length Inputs.two_columns)%nat -> j <> 0%nat ->
        Ranking.is_dominated Inputs.two_columns 0 j = false)
  /\ Ranking.pareto_levels Inputs.two_columns = [1; 0]
  /\ 1 <= nth 0 (Ranking.pareto_levels Inputs.two_columns) 0.
Proof.
  assert (Hl : (0 < length Inputs.two_columns)%nat) by (vm_compute; lia).
  assert (Hf : forall j, (j < length Inputs.two_columns)%nat -> j <> 0%nat ->
                 Ranking.is_dominated Inputs.two_columns 0 j = false).
  { intros [| [| j]] Hj Hn; [contradiction | reflexivity |].
    cbn in Hj. lia. }
  split; [exact Hl |]. split; [exact Hf |].
  split; [vm_compute; reflexivity |].
  exact (proj1 (pareto_levels_undominated_on_top float _ Inputs.two_columns 0%nat
                  Hl Hf)).
Defined.

Section Pareto_infeasible.
Context {D : Type} `{Double D}.

Lemma filter_all {A} (f : A -> bool) (l : list A) :
  (forall a, In a l -> f a = true) -> filter f l = l.
Proof.
  induction l as [| a t IH]; intro Hall; cbn [filter]; [reflexivity |].
  rewrite (Hall a) by now left. f_equal. apply IH.
  intros b Hb. apply Hall. now right.
Qed.

Lemma filter_none {A} (f : A -> bool) (l : list A) :
  (forall a, In a l -> f a = false) -> filter f l = [].
Proof.
  induction l as [| a t IH]; intro Hall; cbn [filter]; [reflexivity |].
  rewrite (Hall a) by now left. apply IH.
  intros b Hb. apply Hall. now right.
Qed.

Lemma existsb_none {A} (f : A -> bool) (l : list A) :
  (forall a, In a l -> f a = false) -> existsb f l = false.
Proof.
  induction l as [| a t IH]; intro Hall; cbn [existsb]; [reflexivity |].
  rewrite (Hall a) by now left. apply IH.
  intros b Hb. apply Hall. now right.
Qed.

(** pareto when no column is feasible. *)
Lemma pareto_infeasible_eq (nobj ncon : nat) (ys : mat D) :
  ncon <> O ->
  (forall i, (i < length ys)%nat -> Ranking.feasible_col ncon ys i = false) ->
  let n := length ys in
  let ci :=
    sort_index
      (Ranking.ranks ncon (map (fun c => skipn (length c - ncon) c) ys)) in
  Ranking.pareto nobj ncon ys
  = scatter_add (repeat 0 n) ci
      (map (fun i => Z.of_nat n - Z.of_nat i) (seq 0 n))
  /\ length ci = n.
Proof.
  intros Hncon Hinf n ci.
  assert (Hlen : length ci = n).
  { unfold ci. now rewrite length_sort_index, length_ranks, length_map. }
  split; [| exact Hlen].
  unfold Ranking.pareto.
  destruct (Nat.eqb_spec ncon 0) as [E | _]; [contradiction |]. cbv zeta.
  assert (Hseq : forall i, In i (seq 0 (length ys)) ->
                   Ranking.feasible_col ncon ys i = false).
  { intros i Hi. apply in_seq in Hi. apply Hinf. lia. }
  rewrite (existsb_none _ _ Hseq), (filter_none _ _ Hseq).
  fold ci.
  assert (Hci : filter (fun i => negb (Ranking.feasible_col ncon ys i)) ci = ci).
  { apply filter_all. intros i Hi. unfold ci in Hi.
    apply sort_index_In in Hi.
    rewrite length_ranks, length_map in Hi. now rewrite Hinf. }
  rewrite Hci, Hlen. fold n. cbn [length Nat.ltb Nat.leb].
  destruct n as [| m] eqn:En.
  - cbn [Nat.ltb Nat.leb]. destruct ci; [reflexivity | discriminate].
  - reflexivity.
Qed.

End Pareto_infeasible.

(** The enhanced constraint ranking of a population without a feasible
    column is a strict ranking: with ncon > 0 and no column feasible, the
    column at position k of the sort of the constraint ranks csum gets the
    score n - k, so the scores are the numbers from 1 to n, each given once,
    and every domination level holds one column. *)
Theorem pareto_ranks_an_infeasible_population
    (D : Type) (HD : Double D) (nobj ncon : nat) (ys : mat D) :
  ncon <> O ->
  (forall i, (i < length ys)%nat -> Ranking.feasible_col ncon ys i = false) ->
  let n := length ys in
  let dom := Ranking.pareto nobj ncon ys in
  let ci :=
    sort_index
      (Ranking.ranks ncon (map (fun c => skipn (length c - ncon) c) ys)) in
  (forall k, (k < n)%nat ->
     nth (nth k ci O) dom 0 = Z.of_nat n - Z.of_nat k)
  /\ (forall i, (i < n)%nat -> 1 <= nth i dom 0 <= Z.of_nat n)
  /\ (forall i j, (i < n)%nat -> (j < n)%nat -> i <> j ->
        nth i dom 0 <> nth j dom 0).
Proof.
  intros Hncon Hinf n dom ci.
  destruct (pareto_infeasible_eq nobj ncon ys Hncon Hinf) as [Edom Hlen].
  cbv zeta in Edom, Hlen. fold n ci in Edom, Hlen. fold dom in Edom.
  assert (Hci : forall i, In i ci <-> (i < n)%nat).
  { intro i. unfold ci. rewrite sort_index_In.
    now rewrite length_ranks, length_map. }
  assert (Hat : forall k, (k < n)%nat ->
            nth (nth k ci O) dom 0 = Z.of_nat n - Z.of_nat k).
  { intros k Hk. rewrite Edom.
    rewrite scatter_add_nth.
    - rewrite nth_map_seq by exact Hk.
      rewrite nth_repeat_lt; [lia |].
      apply Hci. apply nth_In. lia.
    - apply sort_index_NoDup.
    - now rewrite length_map, length_seq.
    - intros i Hi. rewrite repeat_length. now apply Hci.
    - lia. }
  assert (Hpos : forall i, (i < n)%nat ->
            exists k, (k < n)%nat /\ nth k ci O = i).
  { intros i Hi. apply Hci in Hi.
    destruct (In_nth ci i O Hi) as (k & Hk & Ek). exists k.
    split; [lia | exact Ek]. }
  split; [exact Hat |]. split.
  - intros i Hi. destruct (Hpos i Hi) as (k & Hk & <-).
    rewrite Hat by exact Hk. lia.
  - intros i j Hi Hj Hij.
    destruct (Hpos i Hi) as (k & Hk & <-).
    destruct (Hpos j Hj) as (k' & Hk' & <-).
    rewrite !Hat by assumption. intro E. apply Hij.
    replace k' with k by lia. reflexivity.
Qed.

(** The theorem at three columns with the constraint values 2, 3 and 1. *)
Lemma pareto_ranks_an_infeasible_population_witness :
  1%nat <> O
  /\ (forall i, (i < length Inputs.infeasible)%nat ->
        Ranking.feasible_col 1 Inputs.infeasible i = false)
  /\ Ranking.pareto 1 1 Inputs.infeasible = [2; 1; 3]
  /\ (forall i j, (i < 3)%nat -> (j < 3)%nat -> i <> j ->
        nth i (Ranking.pareto 1 1 Inputs.infeasible) 0
        <> nth j (Ranking.pareto 1 1 Inputs.infeasible) 0).
Proof.
  assert (Hn : 1%nat <> O) by discriminate.
  assert (Hinf : forall i, (i < length Inputs.infeasible)%nat ->
                   Ranking.feasible_col 1 Inputs.infeasible i = false).
  { intros [| [| [| i]]] Hi; try reflexivity. cbn in Hi. lia. }
  split; [exact Hn |]. split; [exact Hinf |].
  split; [vm_compute; reflexivity |].
  exact (proj2 (proj2 (pareto_ranks_an_infeasible_population float _ 1 1
                         Inputs.infeasible Hn Hinf))).
Defined.

(** ** MODE: what asking keeps *)

Section MODE_frames.
Context {D : Type} `{Double D} {R : Type} `{Rng D R}.
Variable fuel : nat.
Variable pow : D -> D -> D.
Variable norm_i : @MODE.Fitness D -> nat -> D -> D.

Local Abbreviation state := (@MODE.MoDeOptimizer D R).
Local Abbreviation asked := (@MODE_asked D R).
Local Abbreviation quiet := (@MODE_quiet D R).

Lemma MODE_quiet_refl (s : state) : quiet 0 s s.
Proof. repeat split. Qed.

Lemma MODE_quiet_trans (a b : Z) (s1 s2 s3 : state) :
  quiet a s1 s2 -> quiet b s2 s3 -> quiet (a + b) s1 s3.
Proof.
  intros (A1 & A2 & A3 & A4 & A5 & A6 & A7 & A8 & A9 & A10 & A11)
         (B1 & B2 & B3 & B4 & B5 & B6 & B7 & B8 & B9 & B10 & B11).
  repeat split; congruence.
Qed.

Lemma MODE_quiet_weaken (a b : Z) (s1 s2 : state) :
  a <= b -> quiet a s1 s2 -> quiet b s1 s2.
Proof. intros _ Hq. exact Hq. Qed.

Lemma MODE_asked_refl (s : state) : asked 0 s s.
Proof. repeat split. Qed.

Lemma MODE_asked_trans (a b : Z) (s1 s2 s3 : state) :
  asked a s1 s2 -> asked b s2 s3 -> asked (a + b) s1 s3.
Proof.
  intros (A0 & A1 & A2 & A3 & A4 & A5 & A6) (B0 & B1 & B2 & B3 & B4 & B5 & B6).
  split; [exact (MODE_quiet_trans a b s1 s2 s3 A0 B0) |].
  repeat split; congruence.
Qed.

Lemma MODE_asked_weaken (a b : Z) (s1 s2 : state) :
  a <= b -> asked a s1 s2 -> asked b s1 s2.
Proof. intros _ Hq. exact Hq. Qed.

Hint Resolve MODE_asked_refl MODE_asked_trans MODE_asked_weaken
  MODE_quiet_refl MODE_quiet_trans MODE_quiet_weaken : frame.

Ltac asked_modify :=
  apply graded_modify; intro; repeat split.

Lemma MODE_asked_rand01 : graded asked 0 MODE.rand01.
Proof. unfold MODE.rand01. frame. asked_modify. Qed.

Hint Resolve MODE_asked_rand01 : frame.

Lemma MODE_asked_randInt (max : Z) : graded asked 0 (MODE.randInt max).
Proof. unfold MODE.randInt. frame. Qed.

Lemma MODE_asked_uniformVec (n : nat) : graded asked 0 (MODE.uniformVec n).
Proof. unfold MODE.uniformVec. frame. Qed.

Lemma MODE_asked_getClosestFeasible (X : vec D) :
  graded asked 0 (MODE.getClosestFeasible X).
Proof. unfold MODE.getClosestFeasible. frame. Qed.

Lemma MODE_asked_setClosestFeasible (X : mat D) :
  graded asked 0 (MODE.setClosestFeasible X).
Proof. unfold MODE.setClosestFeasible. frame. Qed.

Lemma MODE_asked_setTerminate : graded asked 0 (@MODE.setTerminate D R).
Proof. unfold MODE.setTerminate. asked_modify. Qed.

Hint Resolve MODE_asked_randInt MODE_asked_uniformVec
  MODE_asked_getClosestFeasible MODE_asked_setClosestFeasible
  MODE_asked_setTerminate : frame.

Lemma MODE_asked_sample_i (i : nat) : graded asked 0 (MODE.sample_i i).
Proof. unfold MODE.sample_i. frame. Qed.

Lemma MODE_asked_sbx_beta (dis_c_ : D) (to1 : vec D) (i : nat) :
  graded asked 0 (MODE.sbx_beta pow dis_c_ to1 i).
Proof. unfold MODE.sbx_beta. frame. Qed.

Lemma MODE_asked_poly_mutate (dis_m_ limit : D) (i : nat) (v : D) :
  graded asked 0 (MODE.poly_mutate pow norm_i dis_m_ limit i v).
Proof. unfold MODE.poly_mutate. frame. Qed.

Hint Resolve MODE_asked_sample_i MODE_asked_sbx_beta MODE_asked_poly_mutate
  : frame.

Lemma MODE_asked_variation (x : mat D) :
  graded asked 0 (MODE.variation pow norm_i x).
Proof. unfold MODE.variation. frame. Qed.

Lemma MODE_asked_modify (x : vec D) : graded asked 0 (MODE.modify x).
Proof. unfold MODE.modify. frame. Qed.

Lemma MODE_asked_draw_r123 : graded asked 0 (MODE.draw_r123 pow).
Proof. unfold MODE.draw_r123. frame. Qed.

Hint Resolve MODE_asked_variation MODE_asked_modify MODE_asked_draw_r123
  : frame.

Lemma MODE_asked_nextX (p : Z) : graded asked 0 (MODE.nextX fuel pow p).
Proof. unfold MODE.nextX. frame; asked_modify. Qed.

Lemma MODE_quiet_of_asked {A} (m : M state A) :
  graded asked 0 m -> graded quiet 0 m.
Proof. intros Hm s. exact (proj1 (Hm s)). Qed.

Lemma MODE_quiet_pop_update : graded quiet 0 (MODE.pop_update pow norm_i).
Proof.
  unfold MODE.pop_update.
  apply (graded_bind0 quiet MODE_quiet_trans MODE_quiet_weaken); [frame |].
  intro s0.
  apply (graded_bind0 quiet MODE_quiet_trans MODE_quiet_weaken);
    [apply graded_modify; intro; repeat split |].
  intros _.
  apply (graded_bind0 quiet MODE_quiet_trans MODE_quiet_weaken); [frame |].
  intro s1. destruct (MODE.nsga_update s1); [| frame].
  apply (graded_bind0 quiet MODE_quiet_trans MODE_quiet_weaken);
    [apply MODE_quiet_of_asked, MODE_asked_variation |].
  intro v. apply graded_modify. intro. repeat split.
Qed.

End MODE_frames.


(** ** MODE: asking *)

Section MODE_ask.
Context {D : Type} `{Double D} {R : Type} `{Rng D R}.
Variable fuel : nat.
Variable pow : D -> D -> D.

Local Abbreviation state := (@MODE.MoDeOptimizer D R).

(** The test that Eigen makes of the column index in [vX.col(vp)]. *)
Local Abbreviation vp_in_range :=
  (fun s : state =>
     (0 <=? MODE.vp s) && (MODE.vp s <? Z.of_nat (length (MODE.vX s)))).

Lemma MODE_nextX_nsga_returns (p : Z) (s : state) :
  MODE.nsga_update s = true -> vp_in_range s = true ->
  exists s',
    MODE.nextX fuel pow p s = Ret (col (MODE.vX s) (Z.to_nat (MODE.vp s))) s'
    /\ MODE.vp s' = Z.rem (MODE.vp s + 1) (MODE.popsize (MODE.par s))
    /\ MODE.rs s' = MODE.rs s
    /\ MODE.iterations s'
       = (if p =? 0 then MODE.iterations s + 1 else MODE.iterations s)
    /\ MODE_asked 0 s s'.
Proof.
  intros Hn Hg. unfold MODE.nextX.
  destruct (p =? 0).
  - unfold bind at 1. unfold bind at 1, modify_state at 1.
    unfold bind at 1, get at 1.
    cbn [MODE.iterations MODE.par MODE.popX MODE.popY MODE.set_iterations].
    destruct (Z.rem (MODE.iterations s + 1) (MODE.log_period (MODE.par s)) =? 0);
      [destruct (MODE.log (MODE.par s) (MODE.popX s) (MODE.popY s)) |];
      unfold MODE.setTerminate, modify_state, ret, bind, get;
      cbn [MODE.nsga_update MODE.vp MODE.vX MODE.set_fitfun
           MODE.set_iterations];
      rewrite Hn, Hg; eexists; split; try reflexivity; repeat split.
  - unfold bind, ret, get, modify_state. rewrite Hn, Hg.
    eexists; split; [reflexivity |]. repeat split.
Qed.

Lemma MODE_nextX_nsga_faults (p : Z) (s : state) :
  MODE.nsga_update s = true -> vp_in_range s = false ->
  exists s', MODE.nextX fuel pow p s = Fault s'.
Proof.
  intros Hn Hg. unfold MODE.nextX.
  destruct (p =? 0).
  - unfold bind at 1. unfold bind at 1, modify_state at 1.
    unfold bind at 1, get at 1.
    cbn [MODE.iterations MODE.par MODE.popX MODE.popY MODE.set_iterations].
    destruct (Z.rem (MODE.iterations s + 1) (MODE.log_period (MODE.par s)) =? 0);
      [destruct (MODE.log (MODE.par s) (MODE.popX s) (MODE.popY s)) |];
      unfold MODE.setTerminate, modify_state, ret, bind, get, fault;
      cbn [MODE.nsga_update MODE.vp MODE.vX MODE.set_fitfun
           MODE.set_iterations];
      rewrite Hn, Hg; eexists; reflexivity.
  - unfold bind, ret, get, modify_state, fault. rewrite Hn, Hg.
    eexists; reflexivity.
Qed.

(** ask is nextX for the current slot, followed by the step of the slot. *)
Lemma MODE_ask_unfold (s : state) :
  MODE.ask fuel pow s
  = match MODE.nextX fuel pow (MODE.pos s) s with
    | Ret x s1 =>
        Ret (x, MODE.pos s)
          (MODE.set_pos
             (Z.rem (MODE.pos s + 1) (MODE.popsize (MODE.par s))) s1)
    | Exit s1 => Exit s1
    | Timeout s1 => Timeout s1
    | Fault s1 => Fault s1
    end.
Proof.
  unfold MODE.ask, bind at 1, get. unfold bind at 1.
  destruct (MODE.nextX fuel pow (MODE.pos s) s); reflexivity.
Qed.

End MODE_ask.

(** ask of MODE returns exactly when nextX returns for the current slot, and
    then it returns the trial vector of nextX together with that slot, and
    moves the slot on by one, cyclically: a slot from 0 to popsize - 1 is
    followed by one in the same range.  Asking evaluates nothing and changes
    neither the population nor the pending results. *)
Theorem MODE_ask_spec
    (D : Type) (HD : Double D) (R : Type) (HR : Rng D R) (fuel : nat)
    (pow : D -> D -> D) (s s' : @MODE.MoDeOptimizer D R) (x : vec D) (p : Z) :
  (MODE.ask fuel pow s = Ret (x, p) s'
   <-> p = MODE.pos s
       /\ exists s1,
            MODE.nextX fuel pow (MODE.pos s) s = Ret x s1
            /\ s' = MODE.set_pos
                      (Z.rem (MODE.pos s + 1) (MODE.popsize (MODE.par s))) s1)
  /\ (MODE.ask fuel pow s = Ret (x, p) s' ->
      MODE.pos s' = Z.rem (MODE.pos s + 1) (MODE.popsize (MODE.par s))
      /\ (0 <= MODE.pos s < MODE.popsize (MODE.par s) ->
          0 <= MODE.pos s' < MODE.popsize (MODE.par s))
      /\ MODE.par s' = MODE.par s
      /\ MODE.evaluationCounter (MODE.fitfun s')
         = MODE.evaluationCounter (MODE.fitfun s)
      /\ MODE.calls (MODE.fitfun s') = MODE.calls (MODE.fitfun s)
      /\ MODE.popX s' = MODE.popX s /\ MODE.popY s' = MODE.popY s
      /\ MODE.nX s' = MODE.nX s /\ MODE.nY s' = MODE.nY s
      /\ MODE.vdone s' = MODE.vdone s).
Proof.
  rewrite MODE_ask_unfold.
  pose proof (MODE_asked_nextX fuel pow (MODE.pos s) s) as Ha.
  destruct (MODE.nextX fuel pow (MODE.pos s) s) as [x1 s1 | s1 | s1 | s1].
  2-4: split; [split; [discriminate | intros (_ & s2 & E & _); discriminate]
              | discriminate].
  cbn [final] in Ha. split.
  - split.
    + intro E. inversion E; subst. split; [reflexivity |].
      exists s1. now split.
    + intros (-> & s2 & E & ->). now inversion E; subst.
  - intro E. inversion E; subst. clear E.
    destruct Ha as ((Hpar & _ & _ & _ & Hc & Hcalls & Hpos & _)
                    & HX & HY & HnX & HnY & _ & Hvd).
    cbn [MODE.pos MODE.par MODE.fitfun MODE.popX MODE.popY MODE.nX MODE.nY
         MODE.vdone MODE.set_pos].
    split; [reflexivity |]. split.
    + intros [H0 HN]. apply Z.rem_bound_pos; lia.
    + repeat split; assumption.
Qed.

(** The theorem at the first ask of an optimizer with four slots in DE mode:
    the trial vector is that of nextX for slot 0. *)
Lemma MODE_ask_spec_witness :
  MODE.ask 3 (fun x _ => x) Inputs.mode_int_state
  = Ret ([0.25%float], 0)
      (final (MODE.ask 3 (fun x _ => x) Inputs.mode_int_state))
  /\ value_of (MODE.nextX 3 (fun x _ => x) 0 Inputs.mode_int_state)
     = Some [0.25%float]
  /\ MODE.pos (final (MODE.ask 3 (fun x _ => x) Inputs.mode_int_state))
     = Z.rem (MODE.pos Inputs.mode_int_state + 1)
         (MODE.popsize (MODE.par Inputs.mode_int_state)).
Proof.
  assert (E : MODE.ask 3 (fun x _ => x) Inputs.mode_int_state
              = Ret ([0.25%float], 0)
                  (final (MODE.ask 3 (fun x _ => x) Inputs.mode_int_state)))
    by (vm_compute; reflexivity).
  split; [exact E |]. split; [vm_compute; reflexivity |].
  exact (proj1 (proj2 (MODE_ask_spec float _ (tape float) _ 3%nat
                         (fun x _ => x) Inputs.mode_int_state _ _ _) E)).
Defined.

(** nextX in NSGA mode hands out the offspring that variation has prepared.
    When the cursor vp is the index of a column of vX, it returns that
    column and moves vp on by one, cyclically in popsize.  It draws no random
    number and needs no step of the rejection loop; it counts an iteration
    for slot 0 and for no other slot, and it leaves the population, the
    offspring, the pending results of tell and the evaluation counter as
    they were. *)
Theorem MODE_nextX_nsga
    (D : Type) (HD : Double D) (R : Type) (HR : Rng D R) (fuel : nat)
    (pow : D -> D -> D) (p : Z) (s : @MODE.MoDeOptimizer D R) :
  MODE.nsga_update s = true ->
  0 <= MODE.vp s < Z.of_nat (length (MODE.vX s)) ->
  exists s',
    MODE.nextX fuel pow p s = Ret (col (MODE.vX s) (Z.to_nat (MODE.vp s))) s'
    /\ In (col (MODE.vX s) (Z.to_nat (MODE.vp s))) (MODE.vX s)
    /\ MODE.vp s' = Z.rem (MODE.vp s + 1) (MODE.popsize (MODE.par s))
    /\ MODE.rs s' = MODE.rs s
    /\ MODE.iterations s'
       = (if p =? 0 then MODE.iterations s + 1 else MODE.iterations s)
    /\ MODE_asked 0 s s'.
Proof.
  intros Hn Hvp.
  destruct (MODE_nextX_nsga_returns fuel pow p s Hn)
    as (s' & E & Hv & Hr & Hi & Ha).
  { apply andb_true_intro. split; [apply Z.leb_le | apply Z.ltb_lt]; lia. }
  exists s'. split; [exact E |]. split; [apply nth_In; lia |].
  split; [exact Hv |]. split; [exact Hr |]. split; [exact Hi | exact Ha].
Qed.

(** The theorem at an optimizer in NSGA mode, fresh from the constructor:
    the first trial vector is the first vector of the initial population. *)
Lemma MODE_nextX_nsga_witness :
  MODE.nsga_update Inputs.mode_nsga_state = true
  /\ 0 <= MODE.vp Inputs.mode_nsga_state
       < Z.of_nat (length (MODE.vX Inputs.mode_nsga_state))
  /\ col (MODE.vX Inputs.mode_nsga_state)
       (Z.to_nat (MODE.vp Inputs.mode_nsga_state)) = [0.25%float]
  /\ exists s',
      MODE.nextX 0 (fun x _ => x) 0 Inputs.mode_nsga_state
      = Ret (col (MODE.vX Inputs.mode_nsga_state)
               (Z.to_nat (MODE.vp Inputs.mode_nsga_state))) s'
      /\ MODE.vp s' = Z.rem (MODE.vp Inputs.mode_nsga_state + 1)
                        (MODE.popsize (MODE.par Inputs.mode_nsga_state)).
Proof.
  assert (Hvp : 0 <= MODE.vp Inputs.mode_nsga_state
                < Z.of_nat (length (MODE.vX Inputs.mode_nsga_state)))
    by (vm_compute; split; [discriminate | reflexivity]).
  split; [reflexivity |]. split; [exact Hvp |]. split; [reflexivity |].
  destruct (MODE_nextX_nsga float _ (tape float) _ 0%nat (fun x _ => x) 0
              Inputs.mode_nsga_state eq_refl Hvp) as (s' & E & _ & Hv & _).
  exists s'. split; [exact E | exact Hv].
Defined.

(** When the cursor vp is not the index of a column of vX, nextX in NSGA
    mode fails the assertion of [vX.col(vp)]. *)
Lemma MODE_nextX_nsga_out_of_range
    (D : Type) (HD : Double D) (R : Type) (HR : Rng D R) (fuel : nat)
    (pow : D -> D -> D) (p : Z) (s : @MODE.MoDeOptimizer D R) :
  MODE.nsga_update s = true ->
  ~ (0 <= MODE.vp s < Z.of_nat (length (MODE.vX s))) ->
  exists s', MODE.nextX fuel pow p s = Fault s'.
Proof.
  intros Hn Hvp. apply MODE_nextX_nsga_faults; [exact Hn |].
  apply andb_false_iff.
  destruct (Z.leb_spec 0 (MODE.vp s)); [| now left].
  right. apply Z.ltb_ge. lia.
Qed.

(** ** MODE: askAll and the C entry points *)

Lemma firstn_upd_ge {A} (l : list A) (n i : nat) (v : A) :
  (n <= i)%nat -> firstn n (upd l i v) = firstn n l.
Proof.
  revert n i. induction l as [| h t IH]; intros [| n] [| i] Hle;
    cbn [upd firstn]; try reflexivity; try lia.
  f_equal. apply IH. lia.
Qed.

Lemma fold_updh_length {A} (h : nat -> nat) (g : nat -> A) (l : list nat)
    (res : list A) :
  length (fold_left (fun res i => upd res (h i) (g i)) l res) = length res.
Proof.
  revert res. induction l as [| i t IH]; intro res; cbn [fold_left];
    [reflexivity |].
  now rewrite IH, length_upd.
Qed.

Lemma fold_updh_other {A} (h : nat -> nat) (g : nat -> A) (l : list nat)
    (res : list A) (k : nat) (d : A) :
  (forall i, In i l -> h i <> k) ->
  nth k (fold_left (fun res i => upd res (h i) (g i)) l res) d = nth k res d.
Proof.
  revert res. induction l as [| i t IH]; intros res Hk; cbn [fold_left];
    [reflexivity |].
  rewrite IH by (intros j Hj; apply Hk; now right).
  apply nth_upd_other. intro E. apply (Hk i); [now left | now symmetry].
Qed.

Lemma fold_updh_in {A} (h : nat -> nat) (g : nat -> A) (l : list nat)
    (res : list A) (i : nat) (d : A) :
  NoDup l -> (forall a b, In a l -> In b l -> h a = h b -> a = b) ->
  In i l -> (h i < length res)%nat ->
  nth (h i) (fold_left (fun res i => upd res (h i) (g i)) l res) d = g i.
Proof.
  revert res. induction l as [| a t IH]; intros res Hnd Hinj Hin Hlt;
    cbn [fold_left]; [destruct Hin |].
  inversion Hnd as [| ? ? Hna Hnd']; subst.
  destruct Hin as [-> | Hin].
  - rewrite fold_updh_other.
    + rewrite nth_upd, Nat.eqb_refl.
      destruct (Nat.ltb_spec (h i) (length res)); [reflexivity | lia].
    + intros j Hj E. apply Hna.
      rewrite <- (Hinj j i); [exact Hj | now right | now left | exact E].
  - apply IH; try assumption.
    + intros x y Hx Hy. apply Hinj; now right.
    + now rewrite length_upd.
Qed.

Section Marshalling.
Context {D : Type} `{Double D}.

(** The loops of askMODE_C that copy the columns of [pop] into [xs]. *)
Local Abbreviation write_cols :=
  (fun (n : nat) (pop : mat D) (ps : list nat) (xs : list D) =>
     fold_left
       (fun xs p =>
          fold_left (fun xs i => upd xs (p * n + i) (vget (col pop p) i))
            (seq 0 n) xs)
       ps xs).

Lemma write_cols_length (n : nat) (pop : mat D) (ps : list nat) (xs : list D) :
  length (write_cols n pop ps xs) = length xs.
Proof.
  revert xs. induction ps as [| p t IH]; intro xs; cbn [fold_left];
    [reflexivity |].
  rewrite IH.
  apply (fold_updh_length (fun i => (p * n + i)%nat)
           (fun i => vget (col pop p) i)).
Qed.

Lemma write_cols_other (n : nat) (pop : mat D) (ps : list nat) (xs : list D)
    (k : nat) :
  (forall p i, In p ps -> (i < n)%nat -> (p * n + i)%nat <> k) ->
  nth k (write_cols n pop ps xs) d_0 = nth k xs d_0.
Proof.
  revert xs. induction ps as [| p t IH]; intros xs Hk; cbn [fold_left];
    [reflexivity |].
  rewrite IH by (intros q i Hq; apply Hk; now right).
  apply (fold_updh_other (fun i => (p * n + i)%nat)
           (fun i => vget (col pop p) i)).
  intros i Hi. apply Hk; [now left |]. apply in_seq in Hi. lia.
Qed.

Lemma write_cols_in (n : nat) (pop : mat D) (ps : list nat) (xs : list D)
    (p i : nat) :
  NoDup ps -> In p ps -> (i < n)%nat -> (p * n + i < length xs)%nat ->
  nth (p * n + i) (write_cols n pop ps xs) d_0 = vget (col pop p) i.
Proof.
  revert xs. induction ps as [| q t IH]; intros xs Hnd Hin Hi Hlt;
    cbn [fold_left]; [destruct Hin |].
  inversion Hnd as [| ? ? Hnq Hnd']; subst.
  destruct Hin as [-> | Hin].
  - rewrite write_cols_other.
    + apply (fold_updh_in (fun i => (p * n + i)%nat)
               (fun i => vget (col pop p) i));
        [apply seq_NoDup | intros a b _ _ E; lia | apply in_seq; lia
        | exact Hlt].
    + intros q j Hq Hj E. apply Hnq.
      assert (q = p) as -> by nia. exact Hq.
  - apply IH; try assumption.
    now rewrite (fold_updh_length (fun i => (q * n + i)%nat)
                   (fun i => vget (col pop q) i)).
Qed.

End Marshalling.

Section MODE_askAll.
Context {D : Type} `{Double D} {R : Type} `{Rng D R}.
Variable fuel : nat.
Variable pow : D -> D -> D.

Local Abbreviation state := (@MODE.MoDeOptimizer D R).
Local Abbreviation trialled := (@MODE_trialled D R).

Lemma MODE_trialled_refl (s : state) : trialled 0 s s.
Proof. repeat split. Qed.

Lemma MODE_trialled_trans (a b : Z) (s1 s2 s3 : state) :
  trialled a s1 s2 -> trialled b s2 s3 -> trialled (a + b) s1 s3.
Proof.
  intros (A0 & A1 & A2 & A3 & A4 & A5 & A6 & A7)
         (B0 & B1 & B2 & B3 & B4 & B5 & B6 & B7).
  split; [exact (MODE_quiet_trans a b s1 s2 s3 A0 B0) |].
  assert (HN : MODE.nat_popsize s2 = MODE.nat_popsize s1)
    by (unfold MODE.nat_popsize; now rewrite (proj1 A0)).
  rewrite HN in B7.
  repeat split; congruence.
Qed.

Lemma MODE_trialled_weaken (a b : Z) (s1 s2 : state) :
  a <= b -> trialled a s1 s2 -> trialled b s1 s2.
Proof. intros _ Hq. exact Hq. Qed.

Lemma MODE_trialled_of_asked {A} (m : M state A) :
  graded (@MODE_asked D R) 0 m -> graded trialled 0 m.
Proof.
  intros Hm s. specialize (Hm s).
  destruct Hm as (Hq & HX & HY & HnX & HnY & HvX & Hvd).
  repeat split; try apply Hq; try assumption; now rewrite HX.
Qed.

Lemma MODE_trialled_store (n : nat) (x : vec D) (s : state) :
  (MODE.nat_popsize s <= n)%nat ->
  trialled 0 s (MODE.set_popX (upd (MODE.popX s) n x) s).
Proof.
  intro Hn. repeat split; cbn [MODE.popX MODE.set_popX].
  - apply length_upd.
  - now apply firstn_upd_ge.
Qed.

Lemma MODE_trialled_askAll : graded trialled 0 (MODE.askAll fuel pow).
Proof.
  unfold MODE.askAll.
  apply (graded_bind0 trialled MODE_trialled_trans MODE_trialled_weaken);
    [apply graded_get; apply MODE_trialled_refl |].
  intro s0.
  apply (graded_bind0 trialled MODE_trialled_trans MODE_trialled_weaken).
  - exact (graded_for_each trialled MODE_trialled_refl MODE_trialled_trans
             MODE_trialled_weaken 0 _ _ (Z.le_refl 0)
             (fun p =>
                graded_bind0 trialled MODE_trialled_trans MODE_trialled_weaken
                  _ _
                  (MODE_trialled_of_asked _ (MODE_asked_nextX fuel pow _))
                  (fun x =>
                     graded_modify trialled _
                       (fun s => MODE_trialled_store _ x s
                                   (Nat.le_add_r _ _))))).
  - intros _.
    apply (graded_bind0 trialled MODE_trialled_trans MODE_trialled_weaken);
      [apply graded_get; apply MODE_trialled_refl |].
    intro. apply graded_ret. apply MODE_trialled_refl.
Qed.

Lemma firstn_S_upd {A} (l : list A) (i : nat) (v : A) :
  (i < length l)%nat -> firstn (S i) (upd l i v) = firstn i l ++ [v].
Proof.
  revert i. induction l as [| h t IH]; intros [| i] Hi; cbn [length] in Hi;
    try lia; [reflexivity |].
  cbn [upd]. rewrite !firstn_cons. cbn [app]. f_equal. apply IH. lia.
Qed.

Lemma skipn_upd_lt {A} (l : list A) (k i : nat) (v : A) :
  (i < k)%nat -> skipn k (upd l i v) = skipn k l.
Proof.
  revert k i. induction l as [| h t IH]; intros [| k] [| i] Hi;
    cbn [upd skipn]; try reflexivity; try lia.
  apply IH. lia.
Qed.

(** The body of the loop of askAll. *)
Local Abbreviation store_trial :=
  (fun p : nat =>
     bind (MODE.nextX fuel pow (Z.of_nat p))
       (fun x =>
          modify_state (fun s : state =>
            MODE.set_popX (upd (MODE.popX s) (MODE.nat_popsize s + p) x) s))).

Lemma MODE_trials_for_each (ps : list nat) (s s2 : state) :
  for_each ps store_trial s = Ret tt s2
  <-> exists xs, MODE_trials fuel pow ps s xs s2.
Proof.
  split.
  - revert s. induction ps as [| p t IH]; intros s E; cbn [for_each] in E.
    + unfold ret in E. inversion E; subst. exists []. constructor.
    + unfold bind at 1 in E. unfold bind at 1 in E.
      destruct (MODE.nextX fuel pow (Z.of_nat p) s) as [x s1 | s1 | s1 | s1]
        eqn:En; try discriminate.
      unfold modify_state in E.
      destruct (IH _ E) as (xs & Hxs).
      exists (x :: xs). now apply MODE_trials_cons with s1.
  - intros (xs & Hxs).
    induction Hxs as [s | p ps s x s1 xs s2 En _ IH]; [reflexivity |].
    cbn [for_each]. unfold bind at 1. unfold bind at 1. rewrite En.
    unfold modify_state. exact IH.
Qed.

(** The vectors of the slots a, ..., a + n - 1 are in the columns
    popsize + a, ... of popX, and the other columns are as they were. *)
Lemma MODE_trials_stored (n a : nat) (s s2 : state) (xs : mat D) :
  MODE_trials fuel pow (seq a n) s xs s2 ->
  (MODE.nat_popsize s + a + n <= length (MODE.popX s))%nat ->
  MODE.popX s2
  = firstn (MODE.nat_popsize s + a) (MODE.popX s) ++ xs
    ++ skipn (MODE.nat_popsize s + a + n) (MODE.popX s)
  /\ length xs = n /\ MODE.par s2 = MODE.par s.
Proof.
  revert a s xs. induction n as [| n IH]; intros a s xs Ht Hlen;
    cbn [seq] in Ht; inversion Ht; subst.
  - rewrite Nat.add_0_r. cbn [app]. now rewrite firstn_skipn.
  - match goal with
    | En : MODE.nextX _ _ _ s = Ret _ _ |- _ =>
        pose proof (MODE_asked_nextX fuel pow (Z.of_nat a) s) as Ha;
        rewrite En in Ha; cbn [final] in Ha;
        destruct Ha as ((Hpar & _) & HX & _)
    end.
    match goal with
    | Hr : MODE_trials _ _ (seq (S a) n) _ _ s2 |- _ =>
        apply IH in Hr; [destruct Hr as (EX & El & Ep) |]
    end.
    + cbn [MODE.popX MODE.set_popX MODE.par] in *.
      unfold MODE.nat_popsize in *. cbn [MODE.par MODE.set_popX] in *.
      rewrite Hpar, HX in *.
      split; [| split; [cbn [length]; now rewrite El | congruence]].
      rewrite EX.
      replace (Z.to_nat (MODE.popsize (MODE.par s)) + S a)%nat
        with (S (Z.to_nat (MODE.popsize (MODE.par s)) + a)) by lia.
      rewrite firstn_S_upd by lia.
      rewrite skipn_upd_lt by lia.
      rewrite <- app_assoc. cbn [app].
      replace (S (Z.to_nat (MODE.popsize (MODE.par s)) + a) + n)%nat
        with (Z.to_nat (MODE.popsize (MODE.par s)) + a + S n)%nat by lia.
      reflexivity.
    + cbn [MODE.popX MODE.set_popX MODE.par].
      unfold MODE.nat_popsize in *. cbn [MODE.par MODE.set_popX].
      rewrite Hpar, HX, length_upd. lia.
Qed.

Lemma MODE_askAll_unfold (s : state) :
  MODE.askAll fuel pow s
  = match for_each (seq 0 (MODE.nat_popsize s)) store_trial s with
    | Ret _ s1 =>
        Ret (skipn (length (MODE.popX s1) - MODE.nat_popsize s1)
               (MODE.popX s1)) s1
    | Exit s1 => Exit s1
    | Timeout s1 => Timeout s1
    | Fault s1 => Fault s1
    end.
Proof.
  unfold MODE.askAll, bind at 1, get. unfold bind at 1.
  match goal with |- context [for_each ?l ?b s] =>
    destruct (for_each l b s)
  end; reflexivity.
Qed.

(** askAll returns exactly when nextX returns for every slot, and it returns
    the vectors of nextX. *)
Lemma MODE_askAll_trials (s s' : state) (pop : mat D) :
  length (MODE.popX s) = (2 * MODE.nat_popsize s)%nat ->
  (MODE.askAll fuel pow s = Ret pop s'
   <-> MODE_trials fuel pow (seq 0 (MODE.nat_popsize s)) s pop s')
  /\ (MODE.askAll fuel pow s = Ret pop s' ->
      length pop = MODE.nat_popsize s
      /\ MODE.popX s' = firstn (MODE.nat_popsize s) (MODE.popX s) ++ pop).
Proof.
  intro Hlen.
  assert (Hst : forall xs s2,
             MODE_trials fuel pow (seq 0 (MODE.nat_popsize s)) s xs s2 ->
             MODE.popX s2 = firstn (MODE.nat_popsize s) (MODE.popX s) ++ xs
             /\ length xs = MODE.nat_popsize s
             /\ skipn (length (MODE.popX s2) - MODE.nat_popsize s2)
                  (MODE.popX s2) = xs).
  { intros xs s2 Ht.
    destruct (MODE_trials_stored _ _ _ _ _ Ht) as (EX & El & Ep); [lia |].
    rewrite Nat.add_0_r in EX.
    rewrite skipn_all2 in EX by lia. rewrite app_nil_r in EX.
    split; [exact EX |]. split; [exact El |].
    unfold MODE.nat_popsize at 1. rewrite Ep. fold (MODE.nat_popsize s).
    rewrite EX, length_app, length_firstn, El, Hlen.
    replace (Nat.min (MODE.nat_popsize s) (2 * MODE.nat_popsize s)
             + MODE.nat_popsize s - MODE.nat_popsize s)%nat
      with (length (firstn (MODE.nat_popsize s) (MODE.popX s)) + 0)%nat
      by (rewrite length_firstn; lia).
    rewrite skipn_app, skipn_all2 by lia.
    replace (_ + 0 - _)%nat with O by lia. reflexivity. }
  rewrite MODE_askAll_unfold.
  pose proof (MODE_trials_for_each (seq 0 (MODE.nat_popsize s)) s) as HA.
  destruct (for_each (seq 0 (MODE.nat_popsize s)) store_trial s)
    as [[] s1 | s1 | s1 | s1].
  2-4: split; [split; [discriminate |] | discriminate];
       intro Ht; apply (ex_intro (fun xs => MODE_trials _ _ _ _ xs _) pop) in Ht;
       apply HA in Ht; discriminate.
  split; [split |].
  - intro E. inversion E; subst.
    destruct (proj1 (HA s') eq_refl) as (xs & Ht).
    destruct (Hst _ _ Ht) as (_ & _ & Es). now rewrite Es.
  - intro Ht. destruct (Hst _ _ Ht) as (_ & _ & Es).
    assert (E1 : Ret tt s1 = Ret tt s')
      by (apply HA; now exists pop).
    injection E1 as ->. now rewrite Es.
  - intro E. inversion E; subst.
    destruct (proj1 (HA s') eq_refl) as (xs & Ht).
    destruct (Hst _ _ Ht) as (EX & El & Es). rewrite Es. now split.
Qed.

End MODE_askAll.
(** askAll of MODE on a population of 2 popsize columns.  It returns exactly
    when nextX, called for the slots 0, ..., popsize - 1 one after the other,
    returns for each of them; it returns the popsize vectors that these calls
    have returned, in the order of the slots, and has stored them in popX
    from column popsize on.  It evaluates nothing, and it leaves the first
    popsize columns of popX, the values popY and the pending results of tell
    as they were. *)
Theorem MODE_askAll_spec
    (D : Type) (HD : Double D) (R : Type) (HR : Rng D R) (fuel : nat)
    (pow : D -> D -> D) (s s' : @MODE.MoDeOptimizer D R) (pop : mat D) :
  length (MODE.popX s) = (2 * MODE.nat_popsize s)%nat ->
  (MODE.askAll fuel pow s = Ret pop s'
   <-> MODE_trials fuel pow (seq 0 (MODE.nat_popsize s)) s pop s')
  /\ (MODE.askAll fuel pow s = Ret pop s' ->
      length pop = MODE.nat_popsize s
      /\ MODE.popX s' = firstn (MODE.nat_popsize s) (MODE.popX s) ++ pop
      /\ pop = skipn (MODE.nat_popsize s) (MODE.popX s')
      /\ firstn (MODE.nat_popsize s) (MODE.popX s')
         = firstn (MODE.nat_popsize s) (MODE.popX s)
      /\ length (MODE.popX s') = length (MODE.popX s)
      /\ MODE.popY s' = MODE.popY s
      /\ MODE.par s' = MODE.par s
      /\ MODE.evaluationCounter (MODE.fitfun s')
         = MODE.evaluationCounter (MODE.fitfun s)
      /\ MODE.calls (MODE.fitfun s') = MODE.calls (MODE.fitfun s)
      /\ MODE.nX s' = MODE.nX s /\ MODE.nY s' = MODE.nY s
      /\ MODE.vdone s' = MODE.vdone s).
Proof.
  intros Hlen.
  destruct (MODE_askAll_trials fuel pow s s' pop Hlen) as [Hiff Hst].
  split; [exact Hiff |]. intro E.
  destruct (Hst E) as [Hl HX].
  pose proof (MODE_trialled_askAll fuel pow s) as Ht. rewrite E in Ht.
  cbn [final] in Ht.
  destruct Ht as ((Hpar & _ & _ & _ & Hc & Hcalls & _)
                  & HY & HnX & HnY & _ & Hvd & HlenX & Hfirst).
  split; [exact Hl |]. split; [exact HX |]. split.
  - rewrite HX.
    replace (MODE.nat_popsize s)
      with (length (firstn (MODE.nat_popsize s) (MODE.popX s)) + 0)%nat at 1
      by (rewrite length_firstn; lia).
    now rewrite skipn_app, skipn_all2, Nat.add_0_r, Nat.sub_diag by lia.
  - repeat split; assumption.
Qed.

(** The theorem at an optimizer of four slots in DE mode, fresh from the
    constructor: the trial vectors that nextX builds for the four slots are
    (0.25), (0.25), (0.25) and (0.5), and they follow the population
    (0.5), (0.5), (0.5), (0.25) in popX. *)
Lemma MODE_askAll_spec_witness :
  length (MODE.popX Inputs.mode_int_state)
  = (2 * MODE.nat_popsize Inputs.mode_int_state)%nat
  /\ MODE.askAll 3 (fun x _ => x) Inputs.mode_int_state
     = Ret [[0.25]; [0.25]; [0.25]; [0.5]]%float
         (final (MODE.askAll 3 (fun x _ => x) Inputs.mode_int_state))
  /\ value_of (MODE.nextX 3 (fun x _ => x) 0 Inputs.mode_int_state)
     = Some [0.25%float]
  /\ MODE.popX (final (MODE.askAll 3 (fun x _ => x) Inputs.mode_int_state))
     = firstn (MODE.nat_popsize Inputs.mode_int_state)
         (MODE.popX Inputs.mode_int_state)
       ++ [[0.25]; [0.25]; [0.25]; [0.5]]%float
  /\ MODE_trials 3 (fun x _ => x)
       (seq 0 (MODE.nat_popsize Inputs.mode_int_state)) Inputs.mode_int_state
       [[0.25]; [0.25]; [0.25]; [0.5]]%float
       (final (MODE.askAll 3 (fun x _ => x) Inputs.mode_int_state)).
Proof.
  assert (Hl : length (MODE.popX Inputs.mode_int_state)
               = (2 * MODE.nat_popsize Inputs.mode_int_state)%nat)
    by reflexivity.
  assert (E : MODE.askAll 3 (fun x _ => x) Inputs.mode_int_state
              = Ret [[0.25]; [0.25]; [0.25]; [0.5]]%float
                  (final (MODE.askAll 3 (fun x _ => x) Inputs.mode_int_state)))
    by (vm_compute; reflexivity).
  split; [exact Hl |]. split; [exact E |].
  split; [vm_compute; reflexivity |].
  split.
  - exact (proj1 (proj2 (proj2 (MODE_askAll_spec float _ (tape float) _ 3%nat
                                  (fun x _ => x) Inputs.mode_int_state _ _ Hl)
                           E))).
  - exact (proj1 (proj1 (MODE_askAll_spec float _ (tape float) _ 3%nat
                           (fun x _ => x) Inputs.mode_int_state _ _ Hl)) E).
Defined.

(** askMODE_C asks for the popsize trial vectors of askAll and writes them to
    xs one after the other: coordinate i of trial vector p goes to
    xs[p * dim + i].  The entries of xs from popsize * dim on are not
    written, and the optimizer is left as askAll leaves it. *)
Theorem askMODE_C_spec
    (D : Type) (HD : Double D) (R : Type) (HR : Rng D R) (fuel : nat)
    (pow : D -> D -> D) (s s' : @MODE.MoDeOptimizer D R) (pop : mat D)
    (xs : list D) :
  MODE.askAll fuel pow s = Ret pop s' ->
  exists xs',
    MODE.askMODE_C fuel pow xs s = Ret xs' s'
    /\ length xs' = length xs
    /\ (forall p i : nat,
          (p < MODE.nat_popsize s)%nat -> (i < MODE.nat_dim s)%nat ->
          (p * MODE.nat_dim s + i < length xs)%nat ->
          nth (p * MODE.nat_dim s + i) xs' d_0 = vget (col pop p) i)
    /\ (forall k : nat,
          (MODE.nat_popsize s * MODE.nat_dim s <= k)%nat ->
          nth k xs' d_0 = nth k xs d_0).
Proof.
  intro E. unfold MODE.askMODE_C, bind at 1, get. unfold bind. rewrite E.
  unfold ret. eexists. split; [reflexivity |].
  split; [apply write_cols_length |]. split.
  - intros p i Hp Hi Hlt.
    apply write_cols_in; [apply seq_NoDup | apply in_seq; lia | exact Hi
                         | exact Hlt].
  - intros k Hk. apply write_cols_other.
    intros p i Hp Hi. apply in_seq in Hp. nia.
Qed.

(** The theorem at an optimizer of two slots and one coordinate: the array
    receives the two trial vectors and keeps its third entry. *)
Lemma askMODE_C_spec_witness :
  exists xs',
    MODE.askMODE_C 0 (fun x _ => x) [7; 7; 7]%float Inputs.mode_nsga_state
    = Ret xs' (final (MODE.askAll 0 (fun x _ => x) Inputs.mode_nsga_state))
    /\ length xs' = 3%nat.
Proof.
  assert (E : MODE.askAll 0 (fun x _ => x) Inputs.mode_nsga_state
              = Ret (firstn 2 (MODE.popX Inputs.mode_nsga_state))
                  (final (MODE.askAll 0 (fun x _ => x) Inputs.mode_nsga_state)))
    by (vm_compute; reflexivity).
  destruct (askMODE_C_spec float _ (tape float) _ 0%nat (fun x _ => x)
              Inputs.mode_nsga_state _ _ [7; 7; 7]%float E)
    as (xs' & Ex & Hlen & _).
  exists xs'. split; [exact Ex | exact Hlen].
Defined.

(** With an odd popsize the second generation of asks fails in NSGA mode.
    The optimizer of [Inputs.mode_nsga3_state] has three slots; after
    askAll and tellAll the offspring vX of variation has two columns and the
    cursor vp is 0, so that the third call of nextX reads column 2 of vX. *)
Example MODE_askAll_odd_popsize :
  let pow := fun (x _ : float) => x in
  let norm_i := fun (_ : @MODE.Fitness float) (_ : nat) (x : float) => x in
  let asked := final (MODE.askAll 0 pow Inputs.mode_nsga3_state) in
  let told :=
    final (MODE.tellAll pow norm_i [[3]; [1]; [2]]%float asked) in
  value_of (MODE.askAll 0 pow Inputs.mode_nsga3_state)
  = Some [[0.25]; [0.75]; [0.5]]%float
  /\ value_of (MODE.tellAll pow norm_i [[3]; [1]; [2]]%float asked) = Some 0
  /\ length (MODE.vX told) = 2%nat /\ MODE.vp told = 0
  /\ exists s', MODE.askAll 0 pow told = Fault s' /\ MODE.vp s' = 2.
Proof.
  cbv zeta. repeat split; try (vm_compute; reflexivity).
  eexists. split; vm_compute; reflexivity.
Qed.

(** ** MODE: the offspring of variation *)

Lemma bind_returned {St A B} (m : M St A) (f : A -> M St B) (s s' : St)
    (b : B) :
  bind m f s = Ret b s' -> exists a s1, m s = Ret a s1 /\ f a s1 = Ret b s'.
Proof.
  unfold bind. destruct (m s) as [a s1 | s1 | s1 | s1]; try discriminate.
  intro E. now exists a, s1.
Qed.

(** A loop that appends one element per round appends as many elements as it
    has rounds. *)
Lemma fold_each_push_length {St X C} (l : list X) (mk : X -> list C -> M St C)
    (acc cols : list C) (s s' : St) :
  fold_each l (fun x cols => bind (mk x cols) (fun c => ret (cols ++ [c])))
    acc s = Ret cols s' ->
  length cols = (length acc + length l)%nat.
Proof.
  revert acc s. induction l as [| x t IH]; intros acc s E; cbn [fold_each] in E.
  - unfold ret in E. inversion E; subst. cbn. lia.
  - apply bind_returned in E. destruct E as (a & s1 & E1 & E2).
    apply bind_returned in E1. destruct E1 as (c & s2 & _ & E1).
    unfold ret in E1. inversion E1; subst.
    apply IH in E2. rewrite E2, length_app. cbn. lia.
Qed.

Section MODE_variation.
Context {D : Type} `{Double D} {R : Type} `{Rng D R}.
Variable pow : D -> D -> D.
Variable norm_i : @MODE.Fitness D -> nat -> D -> D.

Local Abbreviation state := (@MODE.MoDeOptimizer D R).

Lemma returns_gets {A} (f : state -> A) : returns (gets f).
Proof. intro s. now exists (f s), s. Qed.

Lemma returns_modify (f : state -> state) : returns (modify_state f).
Proof. intro s. now exists tt, (f s). Qed.

Lemma MODE_uniformVec_returns (n : nat) : returns (@MODE.uniformVec D R _ n).
Proof.
  unfold MODE.uniformVec. apply returns_fold_each. intros _ acc.
  apply returns_bind; [apply MODE_rand01_returns | intro; apply returns_ret].
Qed.

Lemma MODE_sbx_beta_returns (dis_c_ : D) (to1 : vec D) (i : nat) :
  returns (MODE.sbx_beta pow dis_c_ to1 i).
Proof.
  unfold MODE.sbx_beta. apply returns_bind; [apply returns_get | intro s].
  apply returns_bind; [apply MODE_rand01_returns | intro u].
  destruct (_ || _); [apply returns_ret |].
  apply returns_bind; [apply MODE_rand01_returns | intro r].
  apply returns_bind; [apply MODE_rand01_returns | intro; apply returns_ret].
Qed.

Lemma MODE_poly_mutate_returns (dis_m_ limit : D) (i : nat) (v : D) :
  returns (MODE.poly_mutate pow norm_i dis_m_ limit i v).
Proof.
  unfold MODE.poly_mutate. apply returns_bind; [apply returns_get | intro s].
  apply returns_bind; [apply MODE_rand01_returns | intro u].
  destruct (_ <? _)%dbl; [| apply returns_ret].
  apply returns_bind; [apply MODE_rand01_returns | intro mu].
  cbv zeta. destruct (_ <=? _)%dbl; apply returns_ret.
Qed.

Lemma MODE_variation_returns (x : mat D) :
  returns (MODE.variation pow norm_i x).
Proof.
  unfold MODE.variation. apply returns_bind; [apply returns_get | intro s].
  apply returns_bind; [apply MODE_rand01_returns | intro u1].
  apply returns_bind; [apply MODE_rand01_returns | intro u2].
  cbv zeta.
  apply returns_bind;
    [destruct (_ <? _)%dbl;
       [apply MODE_uniformVec_returns | apply returns_ret] | intro to1].
  apply returns_bind.
  { apply returns_fold_each. intros p cols.
    apply returns_bind; [| intro; apply returns_ret].
    apply returns_fold_each. intros i c.
    apply returns_bind; [apply MODE_sbx_beta_returns | intro; apply returns_ret]. }
  intro beta.
  apply returns_bind; [| intro; apply returns_gets].
  apply returns_fold_each. intros p cols.
  apply returns_bind; [| intro; apply returns_ret].
  apply returns_fold_each. intros i c.
  apply returns_bind; [apply MODE_poly_mutate_returns | intro; apply returns_ret].
Qed.

Lemma MODE_variation_length (x v : mat D) (s s' : state) :
  MODE.variation pow norm_i x s = Ret v s' ->
  length v = (2 * (length x / 2))%nat.
Proof.
  unfold MODE.variation. intro E.
  apply bind_returned in E. destruct E as (s0 & ? & _ & E).
  apply bind_returned in E. destruct E as (u1 & ? & _ & E).
  apply bind_returned in E. destruct E as (u2 & ? & _ & E).
  cbv zeta in E.
  apply bind_returned in E. destruct E as (to1 & ? & _ & E).
  apply bind_returned in E. destruct E as (beta & ? & _ & E).
  apply bind_returned in E. destruct E as (off & ? & Eo & E).
  apply fold_each_push_length in Eo.
  unfold MODE.setClosestFeasible, gets in E. inversion E; subst.
  rewrite length_seq in Eo. rewrite length_map. exact Eo.
Qed.

(** The population update in NSGA mode has variation prepare the offspring
    of the first popsize columns of the new population. *)
Lemma MODE_pop_update_nsga (s : state) :
  MODE.nsga_update s = true ->
  (MODE.nat_popsize s <= length (MODE.popX s))%nat ->
  exists v s2,
    MODE.pop_update pow norm_i s = Ret tt (MODE.set_vX v s2)
    /\ length v = (2 * (MODE.nat_popsize s / 2))%nat.
Proof.
  intros Hn HX. unfold MODE.pop_update, bind, get, modify_state.
  cbn [MODE.nsga_update MODE.set_popX MODE.set_popY]. rewrite Hn.
  match goal with |- context [MODE.variation _ _ ?x ?s1] =>
    destruct (MODE_variation_returns x s1) as (v & s2 & E);
    pose proof (MODE_variation_length _ _ _ _ E) as Hl;
    exists v, s2; rewrite E
  end.
  split; [reflexivity |].
  rewrite Hl, length_firstn. f_equal. f_equal.
  cbn [MODE.popX MODE.set_popX MODE.set_popY].
  unfold MODE.nat_popsize at 1. cbn [MODE.par MODE.set_popX MODE.set_popY].
  fold (MODE.nat_popsize s).
  rewrite length_overwrite; [lia |].
  match goal with |- context [MODE.survivors ?n ?a ?b ?y] =>
    destruct (survivors_elitist n a b y) as (_ & _ & Hlen & _)
  end.
  rewrite length_gather, Hlen. lia.
Qed.

End MODE_variation.

(** variation of MODE always completes, and it returns an even number of
    offspring: two for each pair of columns of its argument, that is
    2 * (cols / 2), one less than the columns when their number is odd.  It
    evaluates nothing and changes neither the population nor the pending
    results of tell. *)
Theorem MODE_variation_offspring
    (D : Type) (HD : Double D) (R : Type) (HR : Rng D R)
    (pow : D -> D -> D) (norm_i : MODE.Fitness -> nat -> D -> D)
    (x : mat D) (s : @MODE.MoDeOptimizer D R) :
  exists v s',
    MODE.variation pow norm_i x s = Ret v s'
    /\ length v = (2 * (length x / 2))%nat
    /\ MODE_asked 0 s s'.
Proof.
  destruct (MODE_variation_returns pow norm_i x s) as (v & s' & E).
  exists v, s'. split; [exact E |].
  split; [exact (MODE_variation_length pow norm_i x v s s' E) |].
  pose proof (MODE_asked_variation pow norm_i x s) as Ha.
  rewrite E in Ha. exact Ha.
Qed.

(** In NSGA mode the population update of MODE prepares the offspring for the
    asks to come: on a population of at least popsize columns it completes
    and leaves in vX the 2 * (popsize / 2) offspring that variation makes of
    the popsize survivors, which is one less than popsize when popsize is
    odd.  The update evaluates nothing and keeps the stop flag and the
    update mode. *)
Theorem MODE_pop_update_prepares_offspring
    (D : Type) (HD : Double D) (R : Type) (HR : Rng D R)
    (pow : D -> D -> D) (norm_i : MODE.Fitness -> nat -> D -> D)
    (s : @MODE.MoDeOptimizer D R) :
  MODE.nsga_update s = true ->
  (MODE.nat_popsize s <= length (MODE.popX s))%nat ->
  exists s',
    MODE.pop_update pow norm_i s = Ret tt s'
    /\ length (MODE.vX s') = (2 * (MODE.nat_popsize s / 2))%nat
    /\ MODE_quiet 0 s s'.
Proof.
  intros Hn HX.
  destruct (MODE_pop_update_nsga pow norm_i s Hn HX) as (v & s2 & E & Hl).
  exists (MODE.set_vX v s2). split; [exact E |]. split; [exact Hl |].
  pose proof (MODE_quiet_pop_update pow norm_i s) as Hq.
  rewrite E in Hq. exact Hq.
Qed.

(** The theorem at an optimizer of three slots in NSGA mode: the update
    leaves two offspring. *)
Lemma MODE_pop_update_prepares_offspring_witness :
  exists s',
    MODE.pop_update (fun x _ => x) (fun _ _ x => x) Inputs.mode_nsga3_state
    = Ret tt s'
    /\ length (MODE.vX s') = 2%nat.
Proof.
  destruct (MODE_pop_update_prepares_offspring float _ (tape float) _
              (fun x _ => x) (fun _ _ x => x) Inputs.mode_nsga3_state
              eq_refl)
    as (s' & E & Hl & _).
  - vm_compute. lia.
  - exists s'. split; [exact E | exact Hl].
Defined.

(** ** MODE: telling with a switch of the update mode *)

Section MODE_tell_switch.
Context {D : Type} `{Double D} {R : Type} `{Rng D R}.
Variable pow : D -> D -> D.
Variable norm_i : @MODE.Fitness D -> nat -> D -> D.

Local Abbreviation state := (@MODE.MoDeOptimizer D R).

Lemma MODE_pop_update_de (s : state) :
  MODE.nsga_update s = false ->
  exists s',
    MODE.pop_update pow norm_i s = Ret tt s' /\ MODE.vX s' = MODE.vX s.
Proof.
  intro Hn. unfold MODE.pop_update, bind, get, modify_state.
  cbn [MODE.nsga_update MODE.set_popX MODE.set_popY]. rewrite Hn.
  eexists. split; reflexivity.
Qed.

(** The population update completes in either mode. *)
Lemma MODE_pop_update_completes (s : state) :
  (MODE.nat_popsize s <= length (MODE.popX s))%nat ->
  exists s',
    MODE.pop_update pow norm_i s = Ret tt s'
    /\ (MODE.nsga_update s = true ->
        length (MODE.vX s') = (2 * (MODE.nat_popsize s / 2))%nat)
    /\ (MODE.nsga_update s = false -> MODE.vX s' = MODE.vX s).
Proof.
  intro HX. destruct (MODE.nsga_update s) eqn:Hn.
  - destruct (MODE_pop_update_nsga pow norm_i s Hn HX) as (v & s2 & E & Hl).
    exists (MODE.set_vX v s2). split; [exact E |].
    split; [intros _; exact Hl | discriminate].
  - destruct (MODE_pop_update_de s Hn) as (s' & E & Hv).
    exists s'. split; [exact E |]. split; [discriminate | intros _; exact Hv].
Qed.

(** The body of the loop of tellAll. *)
Local Abbreviation store_told :=
  (fun (ys : mat D) (p : nat) =>
     bind get (fun s : state =>
       if (p <? length ys)%nat
          && (MODE.nat_popsize s + p <? length (MODE.popY s))%nat
          && (length (col ys p)
              =? length (col (MODE.popY s) (MODE.nat_popsize s + p)))%nat
       then
         modify_state (fun s : state =>
           MODE.set_popY
             (upd (MODE.popY s) (MODE.nat_popsize s + p) (col ys p)) s)
       else fault)).

(** What the loop of tellAll keeps of the state [s0] it started in: all but
    the entries of popY, whose shape it keeps. *)
Local Abbreviation told_from :=
  (fun s0 s : state =>
     MODE.par s = MODE.par s0 /\ MODE.fitfun s = MODE.fitfun s0
     /\ MODE.popX s = MODE.popX s0 /\ MODE.vX s = MODE.vX s0
     /\ MODE.stop s = MODE.stop s0
     /\ MODE.nsga_update s = MODE.nsga_update s0
     /\ MODE.pareto_update s = MODE.pareto_update s0
     /\ length (MODE.popY s) = length (MODE.popY s0)
     /\ forall k, length (col (MODE.popY s) k)
                  = length (col (MODE.popY s0) k)).

Lemma MODE_tellAll_stores (ys : mat D) (s0 : state) (ps : list nat) (s : state) :
  told_from s0 s ->
  (forall p, In p ps ->
     (p < length ys)%nat
     /\ (MODE.nat_popsize s0 + p < length (MODE.popY s0))%nat
     /\ length (col ys p)
        = length (col (MODE.popY s0) (MODE.nat_popsize s0 + p))) ->
  exists s', for_each ps (store_told ys) s = Ret tt s' /\ told_from s0 s'.
Proof.
  revert s. induction ps as [| p t IH]; intros s Hs Hps; cbn [for_each].
  - exists s. now split.
  - destruct (Hps p (or_introl eq_refl)) as (H1 & H2 & H3).
    destruct Hs as (Hpar & Hf & HX & HvX & Hst & Hn & Hpu & Hl & Hc).
    assert (HN : MODE.nat_popsize s = MODE.nat_popsize s0)
      by (unfold MODE.nat_popsize; now rewrite Hpar).
    unfold bind at 1. unfold bind at 1, get at 1.
    rewrite HN, Hl, Hc.
    replace (p <? length ys)%nat with true
      by (symmetry; now apply Nat.ltb_lt).
    replace (MODE.nat_popsize s0 + p <? length (MODE.popY s0))%nat with true
      by (symmetry; now apply Nat.ltb_lt).
    rewrite H3, Nat.eqb_refl. cbn [andb]. unfold modify_state.
    apply IH; [| intros q Hq; apply Hps; now right].
    cbn [MODE.par MODE.fitfun MODE.popX MODE.vX MODE.stop MODE.nsga_update
         MODE.pareto_update MODE.popY MODE.set_popY].
    do 7 (split; [assumption |]).
    split; [now rewrite length_upd |].
    intro k. unfold col. rewrite nth_upd.
    destruct (Nat.eqb_spec k (MODE.nat_popsize s + p)) as [-> | Hk];
      cbn [andb]; [| apply Hc].
    destruct (_ <? _)%nat; [| apply Hc].
    rewrite HN. exact H3.
Qed.

(** The loop of tellAll fails the assertion of the first assignment
    [popY.col(popsize) = ys.col(0)] when the two columns differ in size. *)
Lemma MODE_tellAll_faults (ys : mat D) (s : state) :
  (0 < MODE.nat_popsize s)%nat ->
  length (col ys 0) <> length (col (MODE.popY s) (MODE.nat_popsize s)) ->
  MODE.tellAll pow norm_i ys s = Fault s.
Proof.
  intros HN Hne. unfold MODE.tellAll, bind at 1, get at 1.
  destruct (MODE.nat_popsize s) as [| n] eqn:EN; [lia |].
  cbn [seq for_each]. unfold bind at 1. unfold bind at 1.
  unfold bind at 1, get at 1.
  rewrite EN, Nat.add_0_r.
  replace (length (col ys 0) =? length (col (MODE.popY s) (S n)))%nat
    with false by (symmetry; now apply Nat.eqb_neq).
  rewrite andb_false_r. reflexivity.
Qed.

Lemma col_map_seq {A} (g : nat -> list A) (n p : nat) :
  (p < n)%nat -> nth p (map g (seq 0 n)) [] = g p.
Proof.
  intro Hp.
  rewrite (nth_indep _ [] (g O)) by now rewrite length_map, length_seq.
  rewrite (map_nth g), seq_nth by exact Hp. reflexivity.
Qed.

End MODE_tell_switch.

(** tellMODE_switchC sets the update mode and pareto_update of the optimizer
    and then does what tellMODE_C does.  When popX has at least popsize
    columns and the columns popsize, ..., 2 popsize - 1 of popY exist and
    have nobj rows (as they have when there is no constraint), the call
    completes and returns the stop flag; the mode it has set is in force for
    the population update of this very call: with nsga_update the optimizer
    leaves the call with the 2 * (popsize / 2) offspring of variation in vX,
    without it vX is left as it was.  The call evaluates nothing. *)
Theorem tellMODE_switchC_spec
    (D : Type) (HD : Double D) (R : Type) (HR : Rng D R)
    (pow : D -> D -> D) (norm_i : MODE.Fitness -> nat -> D -> D)
    (ys : list D) (nsga_update_ : bool) (pareto_update_ : D)
    (s : @MODE.MoDeOptimizer D R) :
  (MODE.nat_popsize s <= length (MODE.popX s))%nat ->
  (forall p, (p < MODE.nat_popsize s)%nat ->
     (MODE.nat_popsize s + p < length (MODE.popY s))%nat
     /\ length (col (MODE.popY s) (MODE.nat_popsize s + p)) = MODE.nat_nobj s) ->
  MODE.tellMODE_switchC pow norm_i ys nsga_update_ pareto_update_ s
  = MODE.tellMODE_C pow norm_i ys (MODE.set_update nsga_update_ pareto_update_ s)
  /\ exists s',
       MODE.tellMODE_switchC pow norm_i ys nsga_update_ pareto_update_ s
       = Ret (MODE.stop s) s'
       /\ MODE.nsga_update s' = nsga_update_
       /\ MODE.pareto_update s' = pareto_update_
       /\ (nsga_update_ = true ->
           length (MODE.vX s') = (2 * (MODE.nat_popsize s / 2))%nat)
       /\ (nsga_update_ = false -> MODE.vX s' = MODE.vX s)
       /\ MODE.par s' = MODE.par s
       /\ MODE.evaluationCounter (MODE.fitfun s')
          = MODE.evaluationCounter (MODE.fitfun s)
       /\ MODE.calls (MODE.fitfun s') = MODE.calls (MODE.fitfun s).
Proof.
  intros HX HY. split; [reflexivity |].
  unfold MODE.tellMODE_switchC, MODE.tellAll_switch, MODE.tellAll.
  unfold bind at 1, get at 1. unfold bind at 1, modify_state at 1.
  unfold bind at 1, get at 1. unfold bind at 1.
  set (s1 := MODE.set_update nsga_update_ pareto_update_ s).
  match goal with |- context [for_each ?l ?b s1] =>
    destruct (MODE_tellAll_stores
                (map (fun p =>
                        map (fun i => nth (p * MODE.nat_nobj s + i) ys d_0)
                          (seq 0 (MODE.nat_nobj s)))
                   (seq 0 (MODE.nat_popsize s)))
                s1 l s1) as (s2 & E2 & Hk)
  end.
  { repeat split. }
  { intros p Hp. apply in_seq in Hp.
    change (MODE.nat_popsize s1) with (MODE.nat_popsize s) in *.
    change (MODE.popY s1) with (MODE.popY s).
    destruct (HY p) as [H1 H2]; [lia |].
    split; [rewrite length_map, length_seq; lia |].
    split; [exact H1 |].
    unfold col at 1. rewrite col_map_seq by lia.
    now rewrite length_map, length_seq, H2. }
  change (MODE.nat_popsize s1) with (MODE.nat_popsize s) in *.
  rewrite E2.
  destruct Hk as (Hpar2 & Hf2 & HX2 & HvX2 & Hst2 & Hn2 & Hpu2 & _).
  cbn [MODE.par MODE.fitfun MODE.popX MODE.vX MODE.stop MODE.nsga_update
       MODE.pareto_update MODE.set_update s1] in *.
  assert (HN2 : MODE.nat_popsize s2 = MODE.nat_popsize s)
    by (unfold MODE.nat_popsize; now rewrite Hpar2).
  destruct (MODE_pop_update_completes pow norm_i s2) as (s' & E & Hn & Hd);
    [rewrite HN2, HX2; exact HX |].
  pose proof (MODE_quiet_pop_update pow norm_i s2) as Hq.
  rewrite E in Hq. cbn [final] in Hq.
  destruct Hq as (Hpar & _ & _ & _ & Hc & Hcalls & _ & _ & Hstop & Hns & Hpu).
  exists s'. unfold bind. rewrite E. unfold gets.
  split; [now rewrite Hstop, Hst2 |].
  split; [now rewrite Hns |]. split; [now rewrite Hpu |].
  split; [intros ->; rewrite <- HN2; now apply Hn |].
  split; [intros ->; rewrite <- HvX2; now apply Hd |].
  rewrite Hpar, Hc, Hcalls, Hpar2, Hf2. repeat split.
Qed.

(** The theorem at a switch to NSGA mode of an optimizer of three slots
    without constraints, built for DE mode: the call returns the stop flag 0
    and leaves two offspring. *)
Lemma tellMODE_switchC_spec_witness :
  (MODE.nat_popsize Inputs.mode_de3_state
   <= length (MODE.popX Inputs.mode_de3_state))%nat
  /\ exists s',
    MODE.tellMODE_switchC (fun x _ => x) (fun _ _ x => x) [3; 1; 2]%float true
      0%float Inputs.mode_de3_state
    = Ret 0 s'
    /\ MODE.nsga_update s' = true
    /\ length (MODE.vX s') = 2%nat.
Proof.
  assert (HX : (MODE.nat_popsize Inputs.mode_de3_state
                <= length (MODE.popX Inputs.mode_de3_state))%nat)
    by (vm_compute; lia).
  assert (HY : forall p, (p < MODE.nat_popsize Inputs.mode_de3_state)%nat ->
             (MODE.nat_popsize Inputs.mode_de3_state + p
              < length (MODE.popY Inputs.mode_de3_state))%nat
             /\ length (col (MODE.popY Inputs.mode_de3_state)
                          (MODE.nat_popsize Inputs.mode_de3_state + p))
                = MODE.nat_nobj Inputs.mode_de3_state).
  { intros [| [| [| p]]] Hp; [split; [vm_compute; lia | reflexivity] ..|].
    vm_compute in Hp. lia. }
  split; [exact HX |].
  destruct (tellMODE_switchC_spec float _ (tape float) _
              (fun x _ => x) (fun _ _ x => x) [3; 1; 2]%float true 0%float
              Inputs.mode_de3_state HX HY)
    as (_ & s' & E & Hn & _ & Hl & _).
  exists s'. split; [exact E |]. split; [exact Hn | exact (Hl eq_refl)].
Defined.

(** With constraints the call fails: tellMODE_switchC builds columns of nobj
    rows, and tellAll assigns the first of them to column popsize of popY,
    which has nobj + ncon rows. *)
Lemma tellMODE_switchC_rows_mismatch
    (D : Type) (HD : Double D) (R : Type) (HR : Rng D R)
    (pow : D -> D -> D) (norm_i : MODE.Fitness -> nat -> D -> D)
    (ys : list D) (nsga_update_ : bool) (pareto_update_ : D)
    (s : @MODE.MoDeOptimizer D R) :
  (0 < MODE.nat_popsize s)%nat ->
  length (col (MODE.popY s) (MODE.nat_popsize s)) <> MODE.nat_nobj s ->
  MODE.tellMODE_switchC pow norm_i ys nsga_update_ pareto_update_ s
  = Fault (MODE.set_update nsga_update_ pareto_update_ s).
Proof.
  intros HN Hne.
  unfold MODE.tellMODE_switchC, MODE.tellAll_switch.
  unfold bind at 1, get at 1. unfold bind at 1, modify_state at 1.
  apply MODE_tellAll_faults; [exact HN |].
  change (MODE.nat_popsize (MODE.set_update nsga_update_ pareto_update_ s))
    with (MODE.nat_popsize s).
  change (MODE.popY (MODE.set_update nsga_update_ pareto_update_ s))
    with (MODE.popY s).
  unfold col at 1. rewrite col_map_seq by exact HN.
  rewrite length_map, length_seq. congruence.
Qed.

(** The optimizer of [Inputs.mode_state] has one objective and one
    constraint: telling it the array of [Inputs.told] fails, by either entry
    point. *)
Example tellMODE_C_with_a_constraint :
  MODE.nat_ncon Inputs.mode_state = 1%nat
  /\ MODE.tellMODE_C (fun x _ => x) (fun _ _ x => x) Inputs.told
       Inputs.mode_state
     = Fault Inputs.mode_state
  /\ MODE.tellMODE_switchC (fun x _ => x) (fun _ _ x => x) Inputs.told false
       0%float Inputs.mode_state
     = Fault (MODE.set_update false 0%float Inputs.mode_state).
Proof. repeat split; vm_compute; reflexivity. Qed.

(** ** MODE: a run counts in generations *)

Lemma triple_for_each_seq {St} (I : nat -> St -> Prop) (a n : nat)
    (body : nat -> M St unit) (X T : St -> Prop) :
  (forall p, (a <= p < a + n)%nat ->
     triple (I p) (body p) (fun _ => I (S p)) X T) ->
  triple (I a) (for_each (seq a n) body) (fun _ => I (a + n)%nat) X T.
Proof.
  revert a. induction n as [| n IH]; intros a Hb; cbn [seq for_each].
  - apply triple_ret'. intros s Hs. now rewrite Nat.add_0_r.
  - eapply triple_bind; [apply Hb; lia |].
    intros []. replace (a + S n)%nat with (S a + n)%nat by lia.
    apply IH. intros p Hp. apply Hb. lia.
Qed.

Section MODE_rounds.
Context {D : Type} `{Double D} {R : Type} `{Rng D R}.
Variable fuel : nat.
Variable pow : D -> D -> D.
Variable norm_i : @MODE.Fitness D -> nat -> D -> D.

Local Abbreviation state := (@MODE.MoDeOptimizer D R).
Local Abbreviation kept := (@MODE_iterations_kept D R).
Local Abbreviation round := (@MODE_round D R).
Local Abbreviation running := (@MODE_run D R).
Local Abbreviation counter :=
  (fun s : state => MODE.evaluationCounter (MODE.fitfun s)).
Local Abbreviation any := (fun _ : state => True).

Lemma MODE_kept_refl (s : state) : kept 0 s s.
Proof. reflexivity. Qed.

Lemma MODE_kept_trans (a b : Z) (s1 s2 s3 : state) :
  kept a s1 s2 -> kept b s2 s3 -> kept (a + b) s1 s3.
Proof. unfold MODE_iterations_kept. congruence. Qed.

Lemma MODE_kept_weaken (a b : Z) (s1 s2 : state) :
  a <= b -> kept a s1 s2 -> kept b s1 s2.
Proof. intros _ Hq. exact Hq. Qed.

Hint Resolve MODE_kept_refl MODE_kept_trans MODE_kept_weaken : frame.

Ltac kept_modify := apply graded_modify; intro; reflexivity.

Lemma MODE_kept_rand01 : graded kept 0 MODE.rand01.
Proof. unfold MODE.rand01. frame. kept_modify. Qed.

Hint Resolve MODE_kept_rand01 : frame.

Lemma MODE_kept_randInt (max : Z) : graded kept 0 (MODE.randInt max).
Proof. unfold MODE.randInt. frame. Qed.

Lemma MODE_kept_uniformVec (n : nat) : graded kept 0 (MODE.uniformVec n).
Proof. unfold MODE.uniformVec. frame. Qed.

Lemma MODE_kept_getClosestFeasible (X : vec D) :
  graded kept 0 (MODE.getClosestFeasible X).
Proof. unfold MODE.getClosestFeasible. frame. Qed.

Lemma MODE_kept_setClosestFeasible (X : mat D) :
  graded kept 0 (MODE.setClosestFeasible X).
Proof. unfold MODE.setClosestFeasible. frame. Qed.

Hint Resolve MODE_kept_randInt MODE_kept_uniformVec
  MODE_kept_getClosestFeasible MODE_kept_setClosestFeasible : frame.

Lemma MODE_kept_sample_i (i : nat) : graded kept 0 (MODE.sample_i i).
Proof. unfold MODE.sample_i. frame. Qed.

Lemma MODE_kept_sbx_beta (dis_c_ : D) (to1 : vec D) (i : nat) :
  graded kept 0 (MODE.sbx_beta pow dis_c_ to1 i).
Proof. unfold MODE.sbx_beta. frame. Qed.

Lemma MODE_kept_poly_mutate (dis_m_ limit : D) (i : nat) (v : D) :
  graded kept 0 (MODE.poly_mutate pow norm_i dis_m_ limit i v).
Proof. unfold MODE.poly_mutate. frame. Qed.

Hint Resolve MODE_kept_sample_i MODE_kept_sbx_beta MODE_kept_poly_mutate
  : frame.

Lemma MODE_kept_variation (x : mat D) :
  graded kept 0 (MODE.variation pow norm_i x).
Proof. unfold MODE.variation. frame. Qed.

Lemma MODE_kept_modify (x : vec D) : graded kept 0 (MODE.modify x).
Proof. unfold MODE.modify. frame. Qed.

Lemma MODE_kept_draw_r123 : graded kept 0 (MODE.draw_r123 pow).
Proof. unfold MODE.draw_r123. frame. Qed.

Hint Resolve MODE_kept_variation MODE_kept_modify MODE_kept_draw_r123
  : frame.

Lemma MODE_kept_pop_update : graded kept 0 (MODE.pop_update pow norm_i).
Proof. unfold MODE.pop_update. frame; kept_modify. Qed.

(** nextX counts an iteration for slot 0 and for no other slot. *)
Lemma MODE_nextX_iterations (p : Z) (s : state) :
  MODE.iterations (final (MODE.nextX fuel pow p s))
  = MODE.iterations s + (if p =? 0 then 1 else 0).
Proof.
  unfold MODE.nextX.
  match goal with |- context [final (bind ?first ?k s)] =>
    assert (Hk : graded kept 0 (k tt)) by (frame; kept_modify);
    assert (Hf : exists s1, first s = Ret tt s1
                   /\ MODE.iterations s1
                      = MODE.iterations s + (if p =? 0 then 1 else 0))
  end.
  { destruct (p =? 0).
    - unfold bind at 1, modify_state at 1. unfold bind at 1, get at 1.
      cbn [MODE.iterations MODE.par MODE.popX MODE.popY MODE.set_iterations].
      destruct (Z.rem _ _ =? 0);
        [destruct (MODE.log _ _ _) |];
        eexists; (split; [reflexivity |]); reflexivity.
    - exists s. split; [reflexivity | lia]. }
  destruct Hf as (s1 & Ef & Hit). unfold bind at 1. rewrite Ef.
  rewrite <- Hit. apply Hk.
Qed.

Lemma MODE_nextX_round (s0 : state) (p : nat) (it : Z) :
  triple (round s0 p it) (MODE.nextX fuel pow (Z.of_nat p))
    (fun _ => round s0 p (it + match p with O => 1 | S _ => 0 end)) any any.
Proof.
  intros s (Hpar & Hc & Hit & new & Hcalls & Hlen).
  pose proof (MODE_asked_nextX fuel pow (Z.of_nat p) s) as Ha.
  pose proof (MODE_nextX_iterations (Z.of_nat p) s) as Hi.
  destruct (MODE.nextX fuel pow (Z.of_nat p) s) as [x s' | s' | s' | s'];
    [| exact I | exact I | exact I].
  cbn [final] in Ha, Hi.
  destruct Ha as ((Hpar' & _ & _ & _ & Hc' & Hcalls' & _) & _).
  repeat split.
  - congruence.
  - cbv beta in Hc'. lia.
  - rewrite Hi, Hit. destruct p; cbn; lia.
  - exists new. split; [congruence | exact Hlen].
Qed.

Lemma MODE_slot_round (s0 : state) (n p : nat) (it : Z) :
  triple (round s0 p (it + match p with O => 0 | S _ => 1 end))
    (x <- MODE.nextX fuel pow (Z.of_nat p) ;;
     modify_state
       (fun s => MODE.set_popX (upd (MODE.popX s) (MODE.nat_popsize s + p) x) s) ;;
     y <- MODE.eval x ;;
     modify_state
       (fun s => MODE.set_popY (upd (MODE.popY s) (MODE.nat_popsize s + p) y) s))%monad
    (fun _ => round s0 (S p) (it + 1)) any any.
Proof.
  eapply triple_bind; [apply MODE_nextX_round |]. intro x.
  eapply (triple_bind _ _ (fun _ => round s0 p (it + 1))).
  { apply triple_modify. intros s (Hpar & Hc & Hit & Hnew).
    repeat split; try assumption.
    cbn [MODE.iterations MODE.set_popX]. destruct p; lia. }
  intros _.
  eapply (triple_bind _ _ (fun _ => round s0 (S p) (it + 1))).
  { intros s (Hpar & Hc & Hit & new & Hcalls & Hlen).
    rewrite MODE_eval_unfold. repeat split; try assumption.
    - cbn [MODE.fitfun MODE.set_fitfun MODE.count_call MODE.evaluationCounter].
      cbv beta in Hc. lia.
    - exists (x :: new).
      cbn [MODE.fitfun MODE.set_fitfun MODE.count_call MODE.calls].
      split; [now rewrite Hcalls | cbn; now rewrite Hlen]. }
  intro y. apply triple_modify. intros s Hs. exact Hs.
Qed.

Lemma MODE_generation_round (s s' : state) :
  MODE.generation fuel pow norm_i s = Ret tt s' ->
  round s (MODE.nat_popsize s)
    (MODE.iterations s + match MODE.nat_popsize s with O => 0 | S _ => 1 end)
    s'.
Proof.
  intro E.
  assert (Ht : triple (fun s1 => s1 = s) (MODE.generation fuel pow norm_i)
                 (fun _ =>
                    round s (MODE.nat_popsize s)
                      (MODE.iterations s
                       + match MODE.nat_popsize s with O => 0 | S _ => 1 end))
                 any any).
  { unfold MODE.generation.
    eapply triple_bind; [apply triple_get |]. intro s1.
    apply triple_pre
      with (P' := fun s2 => s1 = s /\ round s 0 (MODE.iterations s + 0) s2).
    2: { intros s2 [-> ->]. split; [reflexivity |].
         repeat split; try lia. now exists []. }
    intros s2 [-> Hs2]. revert s2 Hs2.
    change (triple (round s 0 (MODE.iterations s + 0))
              (bind (for_each (seq 0 (MODE.nat_popsize s))
                       (fun p =>
                          x <- MODE.nextX fuel pow (Z.of_nat p) ;;
                          modify_state
                            (fun s => MODE.set_popX
                               (upd (MODE.popX s) (MODE.nat_popsize s + p) x) s) ;;
                          y <- MODE.eval x ;;
                          modify_state
                            (fun s => MODE.set_popY
                               (upd (MODE.popY s) (MODE.nat_popsize s + p) y) s))%monad)
                 (fun _ => MODE.pop_update pow norm_i))
              (fun _ =>
                 round s (MODE.nat_popsize s)
                   (MODE.iterations s
                    + match MODE.nat_popsize s with O => 0 | S _ => 1 end))
              any any).
    eapply triple_bind.
    - apply (triple_for_each_seq
               (fun p => round s p
                  (MODE.iterations s + match p with O => 0 | S _ => 1 end))
               0 (MODE.nat_popsize s)).
      intros p _.
      eapply triple_post; [apply (MODE_slot_round s 0 p (MODE.iterations s)) |].
      intros [] s2 Hs2. exact Hs2.
    - intros _ s2 (Hpar & Hc & Hit & new & Hcalls & Hlen).
      pose proof (MODE_quiet_pop_update pow norm_i s2) as Hq.
      pose proof (MODE_kept_pop_update s2) as Hk.
      destruct (MODE.pop_update pow norm_i s2) as [[] s3 | s3 | s3 | s3];
        [| exact I | exact I | exact I].
      cbn [final] in Hq, Hk.
      destruct Hq as (Hpar' & _ & _ & _ & Hc' & Hcalls' & _).
      repeat split.
      + congruence.
      + cbv beta in Hc'. cbn [Nat.add] in Hc. lia.
      + rewrite Hk. exact Hit.
      + exists new. split; [congruence | exact Hlen]. }
  specialize (Ht s eq_refl). rewrite E in Ht. exact Ht.
Qed.

Lemma MODE_generations_run (n : nat) (s0 s s' : state) :
  running s0 s -> MODE.generations fuel pow norm_i n s = Ret tt s' ->
  running s0 s'
  /\ (MODE.maxEvaluations (MODE.par s') <= counter s'
      \/ MODE.terminate_flag (MODE.fitfun s') = true).
Proof.
  revert s. induction n as [| k IH]; intros s Hs E; [discriminate |].
  rewrite MODE_generations_step in E.
  destruct (Z.ltb_spec (MODE.evaluationCounter (MODE.fitfun s))
              (MODE.maxEvaluations (MODE.par s))) as [Hlt | Hge];
    cbn [andb] in E.
  - destruct (MODE.terminate_flag (MODE.fitfun s)) eqn:Ht; cbn [negb] in E.
    + inversion E; subst. split; [exact Hs | now right].
    + destruct (MODE.generation fuel pow norm_i s) as [[] s1 | s1 | s1 | s1] eqn:Eg;
        try discriminate.
      apply (IH s1); [| exact E].
      apply MODE_generation_round in Eg.
      destruct Hs as (Hpar & Hc & new & Hcalls & Hlen).
      destruct Eg as (Hpar1 & Hc1 & Hit1 & new1 & Hcalls1 & Hlen1).
      assert (HN : MODE.nat_popsize s = MODE.nat_popsize s0)
        by (unfold MODE.nat_popsize; now rewrite Hpar).
      rewrite HN in *.
      repeat split.
      * congruence.
      * rewrite Hc1, Hit1, Hc.
        destruct (MODE.nat_popsize s0); [cbn; lia | lia].
      * exists (new1 ++ new). rewrite Hcalls1, Hcalls, app_assoc.
        split; [reflexivity |]. rewrite length_app, Hc1. lia.
  - inversion E; subst. split; [exact Hs | now left].
Qed.

End MODE_rounds.

(** A run of MODE's doOptimize that completes has evaluated whole
    generations: the evaluation counter is popsize times the iteration count,
    and it counts exactly the calls of the objective made by the run.  The
    run ends only on a budget that is used up or on the terminate flag, which
    the log callback sets. *)
Theorem MODE_doOptimize_counts_generations
    (D : Type) (HD : Double D) (R : Type) (HR : Rng D R) (fuel : nat)
    (pow : D -> D -> D) (norm_i : MODE.Fitness -> nat -> D -> D)
    (s s' : @MODE.MoDeOptimizer D R) :
  MODE.doOptimize fuel pow norm_i s = Ret tt s' ->
  MODE.par s' = MODE.par s
  /\ MODE.evaluationCounter (MODE.fitfun s')
     = Z.of_nat (MODE.nat_popsize s) * MODE.iterations s'
  /\ (exists new,
        MODE.calls (MODE.fitfun s') = new ++ MODE.calls (MODE.fitfun s)
        /\ Z.of_nat (length new) = MODE.evaluationCounter (MODE.fitfun s'))
  /\ (MODE.maxEvaluations (MODE.par s) <= MODE.evaluationCounter (MODE.fitfun s')
      \/ MODE.terminate_flag (MODE.fitfun s') = true).
Proof.
  unfold MODE.doOptimize, MODE.resetEvaluations.
  unfold bind, modify_state. intro E.
  match type of E with MODE.generations _ _ _ _ ?s1 = _ =>
    destruct (MODE_generations_run fuel pow norm_i fuel s1 s1 s')
      as ((Hpar & Hc & Hnew) & Hend); [| exact E |]
  end.
  - repeat split; cbn; try lia. now exists [].
  - cbn [MODE.par MODE.set_fitfun MODE.set_iterations MODE.fitfun MODE.calls]
      in Hpar, Hc, Hnew.
    rewrite Hpar in Hend.
    repeat split; assumption.
Qed.

(** The theorem at a run of four slots with a budget of one evaluation: the
    run takes one iteration and four evaluations. *)
Lemma MODE_doOptimize_counts_generations_witness :
  MODE.doOptimize 3 (fun x _ => x) (fun _ _ x => x) Inputs.mode_int_state
  = Ret tt (final (MODE.doOptimize 3 (fun x _ => x) (fun _ _ x => x)
                     Inputs.mode_int_state))
  /\ MODE.evaluationCounter
       (MODE.fitfun (final (MODE.doOptimize 3 (fun x _ => x) (fun _ _ x => x)
                              Inputs.mode_int_state)))
     = Z.of_nat (MODE.nat_popsize Inputs.mode_int_state)
       * MODE.iterations
           (final (MODE.doOptimize 3 (fun x _ => x) (fun _ _ x => x)
                     Inputs.mode_int_state)).
Proof.
  assert (E : MODE.doOptimize 3 (fun x _ => x) (fun _ _ x => x)
                Inputs.mode_int_state
              = Ret tt (final (MODE.doOptimize 3 (fun x _ => x)
                                 (fun _ _ x => x) Inputs.mode_int_state)))
    by (vm_compute; reflexivity).
  split; [exact E |].
  exact (proj1 (proj2 (MODE_doOptimize_counts_generations float _ (tape float)
                         _ 3%nat (fun x _ => x) (fun _ _ x => x)
                         Inputs.mode_int_state _ E))).
Defined.

(** ** MODE: the optimizer as the constructor leaves it *)

Section MODE_init.
Context {D : Type} `{Double D} {R : Type} `{Rng D R}.

Local Abbreviation state := (@MODE.MoDeOptimizer D R).
Local Abbreviation drawn := (@MODE_drawn D R).
Local Abbreviation any := (fun _ : state => True).

Lemma MODE_drawn_refl (s : state) : drawn 0 s s.
Proof. exists (MODE.rs s). now destruct s. Qed.

Lemma MODE_drawn_trans (a b : Z) (s1 s2 s3 : state) :
  drawn a s1 s2 -> drawn b s2 s3 -> drawn (a + b) s1 s3.
Proof. intros [r1 ->] [r2 ->]. now exists r2. Qed.

Lemma MODE_drawn_weaken (a b : Z) (s1 s2 : state) :
  a <= b -> drawn a s1 s2 -> drawn b s1 s2.
Proof. intros _ Hq. exact Hq. Qed.

Hint Resolve MODE_drawn_refl MODE_drawn_trans MODE_drawn_weaken : frame.

Lemma MODE_drawn_rand01 : graded drawn 0 MODE.rand01.
Proof.
  unfold MODE.rand01. frame. apply graded_modify. intro s0. now eexists.
Qed.

Hint Resolve MODE_drawn_rand01 : frame.

Lemma MODE_drawn_sample : graded drawn 0 (@MODE.sample D _ R _).
Proof. unfold MODE.sample, MODE.uniformVec. frame. Qed.

(** The state of the loop of init after [p] rounds. *)
Local Abbreviation filled :=
  (fun (s1 : state) (n rows p : nat) (s : state) =>
     MODE.par s = MODE.par s1 /\ MODE.fitfun s = MODE.fitfun s1
     /\ MODE.iterations s = MODE.iterations s1
     /\ MODE.n_evals s = MODE.n_evals s1 /\ MODE.stop s = MODE.stop s1
     /\ MODE.pos s = MODE.pos s1
     /\ MODE.nsga_update s = MODE.nsga_update s1
     /\ length (MODE.popX s) = n /\ length (MODE.popY s) = n
     /\ forall q, (q < p)%nat -> (q < n)%nat ->
          col (MODE.popY s) q = constant rows DBL_MAX).

Lemma MODE_init_round (s1 : state) (n rows p : nat) :
  triple (filled s1 n rows p)
    (x <- MODE.sample ;;
     modify_state (fun s =>
       MODE.set_popY (upd (MODE.popY s) p (constant rows DBL_MAX))
         (MODE.set_popX (upd (MODE.popX s) p x) s)))%monad
    (fun _ => filled s1 n rows (S p)) any any.
Proof.
  eapply (triple_bind _ _ (fun _ => filled s1 n rows p)).
  - intros s Hs. pose proof (MODE_drawn_sample s) as Hd.
    destruct (MODE.sample s) as [x s' | s' | s' | s']; [| exact I | exact I | exact I].
    cbn [final] in Hd. destruct Hd as [r ->]. exact Hs.
  - intro x. apply triple_modify.
    intros s (Hpar & Hf & Hit & Hn & Hst & Hpos & Hns & HX & HY & Hcols).
    cbn [MODE.par MODE.fitfun MODE.iterations MODE.n_evals MODE.stop MODE.pos
         MODE.nsga_update MODE.popX MODE.popY MODE.set_popX MODE.set_popY].
    rewrite !length_upd. repeat split; try assumption.
    intros q Hq Hqn. unfold col. rewrite nth_upd.
    destruct (Nat.eqb_spec q p) as [-> | Hne]; cbn [andb].
    + destruct (Nat.ltb_spec p (length (MODE.popY s))); [reflexivity | lia].
    + apply Hcols; [lia | exact Hqn].
Qed.

Lemma MODE_init_initial (s : state) :
  let N := MODE.nat_popsize s in
  exists s',
  MODE.init s = Ret tt s'
  /\ MODE.par s' = MODE.par s /\ MODE.fitfun s' = MODE.fitfun s
  /\ MODE.iterations s' = MODE.iterations s
  /\ MODE.n_evals s' = MODE.n_evals s /\ MODE.stop s' = MODE.stop s
  /\ MODE.pos s' = MODE.pos s
  /\ MODE.nsga_update s' = MODE.nsga_update s
  /\ length (MODE.popX s') = (2 * N)%nat
  /\ length (MODE.popY s') = (2 * N)%nat
  /\ (forall p, (p < N)%nat ->
        col (MODE.popY s') p
        = constant (MODE.nat_nobj s + MODE.nat_ncon s) DBL_MAX)
  /\ MODE.vX s' = MODE.popX s' /\ MODE.vp s' = 0
  /\ MODE.vdone s' = repeat false (2 * N)
  /\ length (MODE.nX s') = (2 * N)%nat /\ length (MODE.nY s') = (2 * N)%nat.
Proof.
  cbv zeta. unfold MODE.init, bind at 1, get.
  unfold bind at 1, modify_state at 1. unfold bind at 1.
  match goal with |- context [for_each ?l ?body ?st] =>
    pose proof (triple_for_each_seq
                  (filled s (2 * MODE.nat_popsize s)%nat
                     (MODE.nat_nobj s + MODE.nat_ncon s)%nat)
                  0 (MODE.nat_popsize s) body any any
                  (fun p _ => MODE_init_round s _ _ p) st) as Ht;
    assert (Hr : returns (for_each l body))
      by (apply returns_for_each; intro;
          apply returns_bind; [apply MODE_sample_returns | intro];
          intro s2; now eexists tt, _);
    destruct (Hr st) as ([] & s2 & E)
  end.
  rewrite E in Ht |- *. cbn [Nat.add] in Ht. unfold modify_state.
  eexists. split; [reflexivity |].
  destruct Ht as (Hpar & Hf & Hit & Hn & Hst & Hpos & Hns & HX & HY & Hcols).
  { cbn [MODE.par MODE.fitfun MODE.iterations MODE.n_evals MODE.stop MODE.pos
         MODE.nsga_update MODE.popX MODE.popY MODE.set_popX MODE.set_popY].
    rewrite !repeat_length. repeat split; try reflexivity. intros q Hq. lia. }
  cbn [MODE.par MODE.fitfun MODE.iterations MODE.n_evals MODE.stop MODE.pos
       MODE.nsga_update MODE.popX MODE.popY MODE.vX MODE.vp MODE.vdone
       MODE.nX MODE.nY MODE.set_vp MODE.set_vX MODE.set_next].
  rewrite !repeat_length.
  repeat split; try assumption; try reflexivity.
  intros p Hp. apply Hcols; lia.
Qed.

End MODE_init.

(** The constructor of MODE leaves an optimizer that has evaluated nothing:
    popsize, maxEvaluations and log_period are positive (128, 500000 and 1000
    replace values that are not), popX and popY have 2 popsize columns, every
    one of the first popsize columns of popY holds DBL_MAX in each of its
    nobj + ncon rows, vX is a copy of popX, no pending slot is ready, and
    the counters, the cursors and the stop flag are 0.  The fitness object is
    the one passed in: its counter is untouched. *)
Theorem MoDeOptimizer_new_initial
    (D : Type) (HD : Double D) (R : Type) (HR : Rng D R)
    (runid_ : Z) (fitfun_ : MODE.Fitness) (log_ : mat D -> mat D -> bool)
    (dim_ nobj_ ncon_ : Z) (rs_ : R) (popsize_ maxEvaluations_ : Z)
    (F_ CR_ pro_c_ dis_c_ pro_m_ dis_m_ : D) (nsga_update_ : bool)
    (pareto_update_ min_mutate_ max_mutate_ : D) (log_period_ : Z)
    (isInt_ : option (list bool)) :
  let s := MODE.MoDeOptimizer_new runid_ fitfun_ log_ dim_ nobj_ ncon_ rs_
             popsize_ maxEvaluations_ F_ CR_ pro_c_ dis_c_ pro_m_ dis_m_
             nsga_update_ pareto_update_ min_mutate_ max_mutate_ log_period_
             isInt_ in
  let N := MODE.nat_popsize s in
  MODE.popsize (MODE.par s) = (if 0 <? popsize_ then popsize_ else 128)
  /\ 0 < MODE.popsize (MODE.par s)
  /\ 0 < MODE.maxEvaluations (MODE.par s)
  /\ 0 < MODE.log_period (MODE.par s)
  /\ length (MODE.popX s) = (2 * N)%nat
  /\ length (MODE.popY s) = (2 * N)%nat
  /\ (forall p, (p < N)%nat ->
        col (MODE.popY s) p
        = constant (Z.to_nat nobj_ + Z.to_nat ncon_) DBL_MAX)
  /\ MODE.vX s = MODE.popX s
  /\ MODE.vdone s = repeat false (2 * N)
  /\ MODE.fitfun s = fitfun_
  /\ MODE.iterations s = 0 /\ MODE.n_evals s = 0 /\ MODE.stop s = 0
  /\ MODE.pos s = 0 /\ MODE.vp s = 0
  /\ MODE.nsga_update s = nsga_update_.
Proof.
  cbv zeta. unfold MODE.MoDeOptimizer_new. cbv zeta.
  match goal with |- context [MODE.init ?s0] =>
    destruct (MODE_init_initial s0)
      as (s & E & Hpar & Hf & Hit & Hn & Hst & Hpos & Hns & HX & HY & Hcols
          & HvX & Hvp & Hvd & _);
    rewrite E; cbn [final]
  end.
  cbn [MODE.par MODE.fitfun MODE.iterations MODE.n_evals MODE.stop MODE.pos
       MODE.nsga_update] in Hpar, Hf, Hit, Hn, Hst, Hpos, Hns.
  unfold MODE.nat_popsize in *.
  cbn [MODE.par] in HX, HY, Hcols, Hvd.
  rewrite Hpar. cbn [MODE.popsize MODE.maxEvaluations MODE.log_period].
  split; [reflexivity |].
  split; [destruct (Z.ltb_spec 0 popsize_); lia |].
  split; [destruct (Z.ltb_spec 0 maxEvaluations_); lia |].
  split; [destruct (Z.leb_spec log_period_ 0); lia |].
  repeat split; assumption.
Qed.
